(** * dbslice: a shallow embedding of the extraction engine

    The development follows the layout of the Python package:
    [models.py], [utils/anonymizer.py], [adapters/postgresql.py],
    [config.py], [core/cycles.py], [core/engine.py], [core/graph.py]
    and [validation.py].  Python dictionaries and sets of hashable values
    are finite maps and finite sets; where the iteration order of a
    container is observable the container is a list in that order. *)

From Stdlib Require Import ZArith Lia Bool Ascii String List.
From stdpp Require Import base tactics option list gmap strings sets.

#[local] Open Scope string_scope.
#[local] Open Scope list_scope.
#[local] Open Scope nat_scope.

(** ** Python values *)

(** The values that flow through rows and primary-key tuples
    ([typing.Any] in the source).  [PNone] is Python's [None]. *)
Inductive pyval : Type :=
  | PNone
  | PInt (z : Z)
  | PStr (s : string)
  | PBool (b : bool).

#[global] Instance pyval_eq_dec : EqDecision pyval.
Proof. solve_decision. Defined.

Definition pyval_to_sum (v : pyval) : unit + Z + string + bool :=
  match v with
  | PNone => inl (inl (inl tt))
  | PInt z => inl (inl (inr z))
  | PStr s => inl (inr s)
  | PBool b => inr b
  end.

Definition pyval_of_sum (x : unit + Z + string + bool) : pyval :=
  match x with
  | inl (inl (inl _)) => PNone
  | inl (inl (inr z)) => PInt z
  | inl (inr s) => PStr s
  | inr b => PBool b
  end.

#[global] Instance pyval_countable : Countable pyval.
Proof.
  apply (inj_countable' pyval_to_sum pyval_of_sum).
  intros []; reflexivity.
Defined.

(** ** String helpers (ASCII) *)

Module Str.

Fixpoint prefixb (p s : string) : bool :=
  match p, s with
  | EmptyString, _ => true
  | String a p', String b s' => if Ascii.eqb a b then prefixb p' s' else false
  | String _ _, EmptyString => false
  end.

(** Python's [needle in hay] on strings. *)
Fixpoint contains (needle hay : string) : bool :=
  prefixb needle hay ||
  match hay with
  | EmptyString => false
  | String _ hay' => contains needle hay'
  end.

Definition is_upper (c : ascii) : bool :=
  let n := nat_of_ascii c in (65 <=? n) && (n <=? 90).
Definition is_lower (c : ascii) : bool :=
  let n := nat_of_ascii c in (97 <=? n) && (n <=? 122).
Definition is_digit (c : ascii) : bool :=
  let n := nat_of_ascii c in (48 <=? n) && (n <=? 57).

Definition lower_char (c : ascii) : ascii :=
  if is_upper c then ascii_of_nat (nat_of_ascii c + 32) else c.
Definition upper_char (c : ascii) : ascii :=
  if is_lower c then ascii_of_nat (nat_of_ascii c - 32) else c.

Fixpoint map (f : ascii -> ascii) (s : string) : string :=
  match s with
  | EmptyString => EmptyString
  | String c s' => String (f c) (map f s')
  end.

(** [str.lower()] and [str.upper()] on ASCII text. *)
Definition lower : string -> string := map lower_char.
Definition upper : string -> string := map upper_char.

(** [sep.join(parts)]. *)
Fixpoint join (sep : string) (parts : list string) : string :=
  match parts with
  | [] => ""
  | [p] => p
  | p :: rest => p +:+ sep +:+ join sep rest
  end.

(** Decimal rendering of a natural number, as [str(n)] prints it. *)
Definition digit_char (n : nat) : ascii := ascii_of_nat (48 + n mod 10).

Fixpoint of_nat_aux (fuel n : nat) (acc : string) : string :=
  match fuel with
  | 0 => acc
  | S fuel' =>
      let acc' := String (digit_char n) acc in
      if n <? 10 then acc' else of_nat_aux fuel' (n / 10) acc'
  end.

Definition of_nat (n : nat) : string := of_nat_aux (S n) n "".

Definition of_Z (z : Z) : string :=
  if (z <? 0)%Z then "-" +:+ of_nat (Z.abs_nat z) else of_nat (Z.to_nat z).

End Str.

(** [str(value)] as used by f-strings and cache keys. *)
Definition py_str (v : pyval) : string :=
  match v with
  | PNone => "None"
  | PInt z => Str.of_Z z
  | PStr s => s
  | PBool true => "True"
  | PBool false => "False"
  end.

(** ** models.py *)

Record ForeignKey : Type := mkFK {
  fk_name : string;
  source_table : string;
  source_columns : list string;
  target_table : string;
  target_columns : list string;
  is_nullable : bool
}.

#[global] Instance ForeignKey_eq_dec : EqDecision ForeignKey.
Proof. solve_decision. Defined.

(** [ForeignKey.is_self_referential] *)
Definition is_self_referential (fk : ForeignKey) : bool :=
  bool_decide (source_table fk = target_table fk).

(** [ForeignKey.as_edge] *)
Definition as_edge (fk : ForeignKey) : string * string :=
  (source_table fk, target_table fk).

Record VirtualForeignKey : Type := mkVFK {
  vfk_name : string;
  vfk_source_table : string;
  vfk_source_columns : list string;
  vfk_target_table : string;
  vfk_target_columns : list string;
  vfk_description : string;
  vfk_is_nullable : bool
}.

(** [VirtualForeignKey.to_foreign_key] *)
Definition to_foreign_key (v : VirtualForeignKey) : ForeignKey :=
  {| fk_name := vfk_name v;
     source_table := vfk_source_table v;
     source_columns := vfk_source_columns v;
     target_table := vfk_target_table v;
     target_columns := vfk_target_columns v;
     is_nullable := vfk_is_nullable v |}.

Record Column : Type := mkColumn {
  col_name : string;
  data_type : string;
  nullable : bool;
  is_primary_key : bool;
  default : option string
}.

Record Table : Type := mkTable {
  tbl_name : string;
  tbl_schema : string;
  columns : list Column;
  primary_key : list string;
  foreign_keys : list ForeignKey
}.

Record SchemaGraph : Type := mkSchema {
  tables : gmap string Table;
  edges : list ForeignKey;
  virtual_edges : list VirtualForeignKey
}.

Definition get_table (g : SchemaGraph) (name : string) : option Table :=
  tables g !! name.

Definition has_table (g : SchemaGraph) (name : string) : bool :=
  bool_decide (is_Some (tables g !! name)).

(** [SchemaGraph.get_parents]: real edges first, then virtual ones. *)
Definition get_parents (g : SchemaGraph) (table : string)
  : list (string * ForeignKey) :=
  List.map (fun fk => (target_table fk, fk))
    (List.filter (fun fk => bool_decide (source_table fk = table)) (edges g))
  ++
  List.map (fun v => (vfk_target_table v, to_foreign_key v))
    (List.filter (fun v => bool_decide (vfk_source_table v = table))
       (virtual_edges g)).

(** [SchemaGraph.get_children] *)
Definition get_children (g : SchemaGraph) (table : string)
  : list (string * ForeignKey) :=
  List.map (fun fk => (source_table fk, fk))
    (List.filter (fun fk => bool_decide (target_table fk = table)) (edges g))
  ++
  List.map (fun v => (vfk_source_table v, to_foreign_key v))
    (List.filter (fun v => bool_decide (vfk_target_table v = table))
       (virtual_edges g)).

(** [SchemaGraph.add_virtual_fk] *)
Definition add_virtual_fk (g : SchemaGraph) (v : VirtualForeignKey) : SchemaGraph :=
  {| tables := tables g; edges := edges g;
     virtual_edges := virtual_edges g ++ [v] |}.

(** [SchemaGraph.is_virtual_fk] *)
Definition is_virtual_fk (g : SchemaGraph) (fk : ForeignKey) : bool :=
  existsb (fun v =>
    bool_decide (vfk_name v = fk_name fk)
    && bool_decide (vfk_source_table v = source_table fk)
    && bool_decide (vfk_target_table v = target_table fk))
    (virtual_edges g).


(** ** Exceptions and results *)

(** The exceptions the modelled code raises, by class name.  [OutOfFuel] is
    not a Python exception: a bounded loop of the embedding reached its
    bound. *)
Inductive exn : Type :=
  | ValueError (msg : string)
  | IndexError (msg : string)
  | KeyError (key : string)
  | AssertionError
  | CycleError (msg : string)
  | CircularReferenceError (msg : string)
  | InsecureWhereClauseError (seed dangerous_keyword : string)
  | TableNotFoundError (table : string)
  | NoRowsFoundError (seed : string)
  | ExtractionError (reason : string)
  | OutOfFuel.

(** A call either returns a value or raises. *)
Inductive result (A : Type) : Type :=
  | Ok (a : A)
  | Raise (e : exn).
Arguments Ok {A} a.
Arguments Raise {A} e.

#[global] Instance result_ret : MRet result := fun A a => Ok a.
#[global] Instance result_bind : MBind result := fun A B k r =>
  match r with
  | Ok a => k a
  | Raise e => Raise e
  end.

Fixpoint mapM_result {A B : Type} (f : A -> result B) (l : list A)
  : result (list B) :=
  match l with
  | [] => Ok []
  | a :: l' =>
      b ← f a;
      bs ← mapM_result f l';
      Ok (b :: bs)
  end.

(** A row as a driver returns it: column names with their values, in
    column order. *)
Definition row : Type := list (string * pyval).

(** [row[col]] on such a dictionary, [None] for a missing key. *)
Definition row_get (r : row) (col : string) : option pyval :=
  match List.find (fun item => bool_decide (item.1 = col)) r with
  | Some item => Some item.2
  | None => None
  end.

(** A dictionary with string keys, in insertion order. *)
Definition dict_get {A : Type} (d : list (string * A)) (key : string) : option A :=
  match List.find (fun item => bool_decide (item.1 = key)) d with
  | Some item => Some item.2
  | None => None
  end.

(** [d[key] = value]: the value of an existing key is replaced in place,
    a new key goes last. *)
Fixpoint dict_set {A : Type} (d : list (string * A)) (key : string) (value : A)
  : list (string * A) :=
  match d with
  | [] => [(key, value)]
  | item :: d' =>
      if bool_decide (item.1 = key) then (key, value) :: d'
      else item :: dict_set d' key value
  end.

(** A primary-key tuple. *)
Definition pk_tuple : Type := list pyval.

(** The double-quote character, and an identifier between double quotes. *)
Definition dquote : string := String (ascii_of_nat 34) EmptyString.
Definition quoted (ident : string) : string := dquote +:+ ident +:+ dquote.

(** [l[i:]] where [i] is the index of the first element satisfying [p]
    (as in [l[l.index(x):]]). *)
Fixpoint drop_until {A : Type} (p : A -> bool) (l : list A) : list A :=
  match l with
  | [] => []
  | x :: l' => if p x then l else drop_until p l'
  end.
(** ** utils/anonymizer.py *)

Module Anonymizer.

(** The pattern dictionary, in insertion order (the order in which
    [dict] iteration visits it). *)
Definition _DEFAULT_ANONYMIZATION_PATTERNS : list (string * string) :=
  [ ("email", "email"); ("phone", "phone_number"); ("mobile", "phone_number");
    ("fax", "phone_number"); ("landline", "phone_number");
    ("name", "name"); ("first_name", "first_name"); ("last_name", "last_name");
    ("firstname", "first_name"); ("lastname", "last_name");
    ("full_name", "name"); ("fullname", "name");
    ("address", "address"); ("street", "street_address"); ("city", "city");
    ("zip", "zipcode"); ("zipcode", "zipcode"); ("postal", "zipcode");
    ("ssn", "ssn"); ("credit_card", "credit_card_number");
    ("card_number", "credit_card_number"); ("card", "credit_card_number");
    ("passport", "passport_number"); ("driver_license", "driver_license");
    ("driverlicense", "driver_license"); ("license_number", "driver_license");
    ("iban", "iban"); ("bank_account", "bban"); ("account_number", "bban");
    ("routing_number", "routing_number"); ("swift", "swift");
    ("ip_address", "ipv4"); ("ipaddress", "ipv4"); ("ip", "ipv4");
    ("ipv6", "ipv6"); ("mac_address", "mac_address");
    ("username", "user_name"); ("user_name", "user_name");
    ("dob", "date_of_birth"); ("date_of_birth", "date_of_birth");
    ("birthdate", "date_of_birth"); ("birth_date", "date_of_birth");
    ("company", "company"); ("organization", "company"); ("employer", "company");
    ("job_title", "job"); ("salary", "random_int");
    ("compensation", "random_int"); ("wage", "random_int");
    ("url", "url"); ("website", "url"); ("domain", "domain_name") ].

Definition _SECURITY_NULL_PATTERNS : list string :=
  [ "password"; "passwd"; "pwd"; "hash"; "salt";
    "token"; "secret"; "api_key"; "apikey"; "access_token"; "refresh_token";
    "oauth_token"; "csrf_token"; "session_id";
    "private_key"; "privatekey"; "public_key"; "publickey";
    "encryption_key"; "decrypt_key";
    "nonce"; "signature"; "certificate"; "client_secret"; "oauth_secret" ].

(** The mutable part of a [DeterministicAnonymizer]: the result cache and
    the per-table cache of FK columns. *)
Record state : Type := mkState {
  _cache : gmap (string * string) pyval;
  _fk_columns_cache : gmap string (gset string)
}.

Definition init : state := {| _cache := ∅; _fk_columns_cache := ∅ |}.

Section WithConfiguration.

(** What stays fixed during one extraction. *)
Variable global_seed : string.
Variable schema : option SchemaGraph.
Variable redact_fields : gset string.

(** [int.from_bytes(hashlib.sha256(s.encode()).digest()[:8], "big")] *)
Variable sha256_seed : string -> Z.
(** [fake.seed_instance(seed); getattr(fake, method)()]: [None] stands
    for the [AttributeError]/[TypeError] that the source catches. *)
Variable faker_method : Z -> string -> option pyval.
(** [fake.pystr()] in the [except] branch, after the failed call. *)
Variable faker_pystr : Z -> string -> pyval.

(** The FK columns of a table as the source collects them. *)
Definition fk_columns_of (g : SchemaGraph) (table : string) : gset string :=
  match get_table g table with
  | Some table_info =>
      list_to_set (List.concat (List.map source_columns (foreign_keys table_info)))
  | None => ∅
  end.

Definition _is_foreign_key_column (st : state) (table column : string)
  : bool * state :=
  match schema with
  | None => (false, st)
  | Some g =>
      match _fk_columns_cache st !! table with
      | Some cols => (bool_decide (column ∈ cols), st)
      | None =>
          let cols := fk_columns_of g table in
          (bool_decide (column ∈ cols),
           {| _cache := _cache st;
              _fk_columns_cache := <[table := cols]> (_fk_columns_cache st) |})
      end
  end.

Definition matches_pattern (col_lower : string) : bool :=
  existsb (fun p => Str.contains (fst p) col_lower)
    _DEFAULT_ANONYMIZATION_PATTERNS.

Definition should_anonymize (st : state) (table column : string)
  : bool * state :=
  let '(is_fk, st1) := _is_foreign_key_column st table column in
  if is_fk then (false, st1)
  else
    let full_name := table +:+ "." +:+ column in
    if bool_decide (full_name ∈ redact_fields) then (true, st1)
    else (matches_pattern (Str.lower column), st1).

Definition should_null (table column : string) : bool :=
  existsb (fun p => Str.contains p (Str.lower column)) _SECURITY_NULL_PATTERNS.

Definition get_faker_method (column : string) : string :=
  match List.find (fun p => Str.contains (fst p) (Str.lower column))
          _DEFAULT_ANONYMIZATION_PATTERNS with
  | Some (_, method) => method
  | None => "pystr"
  end.

(** The value synthesised for [(column, str(value))] under the global seed. *)
Definition synthesize (column value_str : string) : pyval :=
  let hash_input := global_seed +:+ ":" +:+ column +:+ ":" +:+ value_str in
  let seed_int := sha256_seed hash_input in
  let method := get_faker_method column in
  match faker_method seed_int method with
  | Some anonymized => anonymized
  | None => faker_pystr seed_int method
  end.

Definition anonymize_value (st : state) (value : pyval) (table column : string)
  : pyval * state :=
  match value with
  | PNone => (PNone, st)
  | _ =>
      if should_null table column then (PNone, st)
      else
        let '(anon, st1) := should_anonymize st table column in
        if negb anon then (value, st1)
        else
          let cache_key := (py_str value, column) in
          match _cache st1 !! cache_key with
          | Some cached => (cached, st1)
          | None =>
              let anonymized := synthesize column (py_str value) in
              (anonymized,
               {| _cache := <[cache_key := anonymized]> (_cache st1);
                  _fk_columns_cache := _fk_columns_cache st1 |})
          end
  end.

(** [anonymize_row]: the columns of a row in order, threading the state. *)
Fixpoint anonymize_row (st : state) (table : string)
    (row : list (string * pyval)) : list (string * pyval) * state :=
  match row with
  | [] => ([], st)
  | (column, value) :: rest =>
      let '(v', st1) := anonymize_value st value table column in
      let '(rest', st2) := anonymize_row st1 table rest in
      ((column, v') :: rest', st2)
  end.

(** A call of [anonymize_value], and the state after a sequence of
    calls on a fresh anonymizer. *)
Definition run_calls (calls : list (pyval * string * string)) : state :=
  List.fold_left
    (fun st c => snd (anonymize_value st (fst (fst c)) (snd (fst c)) (snd c)))
    calls init.

(** *** Invariant of the two caches *)

Definition is_fk_column (table column : string) : bool :=
  match schema with
  | None => false
  | Some g => bool_decide (column ∈ fk_columns_of g table)
  end.

(** The classification of a column, without the caches. *)
Definition anonymizes (table column : string) : bool :=
  if is_fk_column table column then false
  else if bool_decide (table +:+ "." +:+ column ∈ redact_fields) then true
  else matches_pattern (Str.lower column).

Definition classified (table column : string) : bool :=
  should_null table column || anonymizes table column.

Definition coherent (st : state) : Prop :=
  (forall k v, _cache st !! k = Some v -> v = synthesize (snd k) (fst k))
  /\ (forall g table cols,
        schema = Some g ->
        _fk_columns_cache st !! table = Some cols ->
        cols = fk_columns_of g table).

(** What a call returns, in terms of the configuration alone. *)
Definition anonymized_of (value : pyval) (table column : string) : pyval :=
  match value with
  | PNone => PNone
  | _ =>
      if should_null table column then PNone
      else if anonymizes table column then synthesize column (py_str value)
      else value
  end.

(** What a classified column receives: a function of the global seed, the
    column name and the original value only. *)
Definition classified_output (value : pyval) (column : string) : pyval :=
  match value with
  | PNone => PNone
  | _ =>
      if should_null "" column then PNone
      else synthesize column (py_str value)
  end.

End WithConfiguration.

(** *** Example data

    A table whose foreign-key column is called [session_id]. *)

Definition fk_user_sessions_session : ForeignKey :=
  {| fk_name := "fk_user_sessions_session";
     source_table := "user_sessions";
     source_columns := ["session_id"];
     target_table := "sessions";
     target_columns := ["id"];
     is_nullable := false |}.

Definition sessions_table : Table :=
  {| tbl_name := "sessions"; tbl_schema := "public";
     columns := [ mkColumn "id" "INTEGER" false true None ];
     primary_key := ["id"];
     foreign_keys := [] |}.

Definition user_sessions_table : Table :=
  {| tbl_name := "user_sessions"; tbl_schema := "public";
     columns := [ mkColumn "id" "INTEGER" false true None;
                  mkColumn "session_id" "INTEGER" false false None;
                  mkColumn "user_email" "VARCHAR" true false None ];
     primary_key := ["id"];
     foreign_keys := [fk_user_sessions_session] |}.

Definition sessions_schema : SchemaGraph :=
  {| tables := <["sessions" := sessions_table]>
                 (<["user_sessions" := user_sessions_table]> ∅);
     edges := [fk_user_sessions_session];
     virtual_edges := [] |}.

(** Stand-ins for the hash and for Faker, used where a closed instance is
    needed. *)
Definition demo_sha256_seed (s : string) : Z := Z.of_nat (String.length s).
Definition demo_faker_method (seed : Z) (method : string) : option pyval :=
  Some (PStr (method +:+ "#" +:+ Str.of_Z seed)).
Definition demo_faker_pystr (seed : Z) (method : string) : pyval :=
  PStr (Str.of_Z seed).

End Anonymizer.

(** ** adapters/postgresql.py *)

Module PostgreSQLAdapter.

Definition DEFAULT_BATCH_SIZE : Z := 1000.

(** What [cur.execute(query, params)] is called with. *)
Record query : Type := mkQuery {
  sql : string;
  params : list pyval
}.

(** [range(0, stop, step)] for [stop >= 0], as a list of indices. *)
Definition py_range0 (stop step : Z) : result (list nat) :=
  if (step =? 0)%Z then Raise (ValueError "range() arg 3 must not be zero")
  else if (step <? 0)%Z then Ok []
  else
    Ok (List.map (fun i => i * Z.to_nat step)
          (seq 0 (Z.to_nat ((stop + step - 1) / step)))).

(** [l[a:b]] for [0 <= a <= b]. *)
Definition slice {A : Type} (l : list A) (a b : nat) : list A :=
  firstn (b - a) (skipn a l).

(** [batch_size // max(len(pk_columns), 1)] *)
Definition effective_batch_size (batch_size : Z) (pk_columns : list string) : Z :=
  (batch_size / Z.max (Z.of_nat (length pk_columns)) 1)%Z.

(** The batches cut by the loop
    [for batch_start in range(0, len(pk_values_list), effective_batch_size)]. *)
Definition batches_of {A : Type} (effective_batch_size : Z) (pk_values_list : list A)
  : result (list (list A)) :=
  starts ← py_range0 (Z.of_nat (length pk_values_list)) effective_batch_size;
  Ok (List.map
        (fun batch_start =>
           let batch_end :=
             Nat.min (batch_start + Z.to_nat effective_batch_size)
                     (length pk_values_list) in
           slice pk_values_list batch_start batch_end)
        starts).

(** [v[0]] on a tuple. *)
Definition first_component (v : pk_tuple) : result pyval :=
  match v with
  | x :: _ => Ok x
  | [] => Raise (IndexError "tuple index out of range")
  end.

(** The query built for one batch. *)
Definition batch_query (table : string) (pk_columns : list string)
    (batch_pks : list pk_tuple) : result query :=
  match pk_columns with
  | [col] =>
      values ← mapM_result first_component batch_pks;
      let placeholders := Str.join ", " (List.repeat "%s" (length values)) in
      Ok {| sql := "SELECT * FROM " +:+ quoted table +:+ " WHERE " +:+ quoted col
                   +:+ " IN (" +:+ placeholders +:+ ")";
            params := values |}
  | _ =>
      let cond_parts := List.map (fun col => quoted col +:+ " = %s") pk_columns in
      let conditions :=
        List.map (fun _ : pk_tuple => "(" +:+ Str.join " AND " cond_parts +:+ ")")
          batch_pks in
      Ok {| sql := "SELECT * FROM " +:+ quoted table +:+ " WHERE "
                   +:+ Str.join " OR " conditions;
            params := List.concat batch_pks |}
  end.

(** The queries [fetch_by_pk] executes, in order.  [pk_values_list] is
    [list(pk_values)]: the set in the order Python enumerates it. *)
Definition fetch_by_pk_queries (batch_size : Z) (table : string)
    (pk_columns : list string) (pk_values_list : list pk_tuple)
  : result (list query) :=
  match pk_values_list with
  | [] => Ok []
  | _ =>
      batches ← batches_of (effective_batch_size batch_size pk_columns)
                    pk_values_list;
      mapM_result (batch_query table pk_columns) batches
  end.

(** [fetch_by_pk]: the rows of every batch, one after the other.  [execute]
    is the cursor; [inr e] stands for a [psycopg2.Error] with text [e],
    which the source turns into [ExtractionError]. *)
Definition fetch_by_pk (execute : query -> list row + string)
    (batch_size : Z) (table : string)
    (pk_columns : list string) (pk_values_list : list pk_tuple)
  : result (list row) :=
  queries ← fetch_by_pk_queries batch_size table pk_columns pk_values_list;
  chunks ← mapM_result
    (fun q => match execute q with
              | inl rows => Ok rows
              | inr e => Raise (ExtractionError
                  ("Failed to fetch rows by primary key from table '" +:+ table
                   +:+ "': " +:+ e))
              end) queries;
  Ok (List.concat chunks).

(** *** The shape of the queries

    Used to state what each batch sends to the server. *)

(** The text of a single-column query with [n] placeholders. *)
Definition in_list_sql (table col : string) (n : nat) : string :=
  "SELECT * FROM " +:+ quoted table +:+ " WHERE " +:+ quoted col
  +:+ " IN (" +:+ Str.join ", " (List.repeat "%s" n) +:+ ")".

(** The text of a composite-key query with [n] groups. *)
Definition or_of_and_sql (table : string) (pk_columns : list string) (n : nat)
  : string :=
  "SELECT * FROM " +:+ quoted table +:+ " WHERE "
  +:+ Str.join " OR "
        (List.repeat
           ("(" +:+ Str.join " AND "
                      (List.map (fun col => quoted col +:+ " = %s") pk_columns)
            +:+ ")") n).

(** What one batch's query looks like. *)
Definition query_of_batch (table : string) (pk_columns : list string)
    (batch : list pk_tuple) (q : query) : Prop :=
  match pk_columns with
  | [col] =>
      sql q = in_list_sql table col (length batch)
      /\ Forall2 (fun pk v => pk = [v]) batch (params q)
  | _ =>
      sql q = or_of_and_sql table pk_columns (length batch)
      /\ params q = List.concat batch
  end.

(** *** fetch_fk_values and fetch_referencing_pks

    Both cut the identities into batches like [fetch_by_pk] and send one
    [SELECT DISTINCT] per batch.  The cursor [execute] returns the tuples of
    [fetchall()]; neither function catches what it raises. *)

(** [", ".join(f'"{c}"' for c in cols)] *)
Definition select_list (cols : list string) : string :=
  Str.join ", " (List.map quoted cols).

(** The query of one batch: the columns [select_cols] of the rows of
    [table] whose columns [key_cols] hold one of [batch_pks]. *)
Definition distinct_query (select_cols : list string) (table : string)
    (key_cols : list string) (batch_pks : list pk_tuple) : result query :=
  match key_cols with
  | [key_col] =>
      key_vals ← mapM_result first_component batch_pks;
      let placeholders := Str.join ", " (List.repeat "%s" (length key_vals)) in
      Ok {| sql := "SELECT DISTINCT " +:+ select_list select_cols +:+ " FROM "
                   +:+ quoted table +:+ " WHERE " +:+ quoted key_col
                   +:+ " IN (" +:+ placeholders +:+ ")";
            params := key_vals |}
  | _ =>
      let cond_parts := List.map (fun col => quoted col +:+ " = %s") key_cols in
      let conditions :=
        List.map (fun _ : pk_tuple => "(" +:+ Str.join " AND " cond_parts +:+ ")")
          batch_pks in
      Ok {| sql := "SELECT DISTINCT " +:+ select_list select_cols +:+ " FROM "
                   +:+ quoted table +:+ " WHERE " +:+ Str.join " OR " conditions;
            params := List.concat batch_pks |}
  end.

(** [None not in row] *)
Definition without_none (row : pk_tuple) : bool :=
  negb (bool_decide (PNone ∈ row)).

(** [fetch_fk_values].  [source_pk_values] is [list(source_pk_values)]. *)
Definition fetch_fk_values (execute : query -> result (list pk_tuple))
    (schema : SchemaGraph) (batch_size : Z) (table : string) (fk : ForeignKey)
    (source_pk_values : list pk_tuple) : result (gset pk_tuple) :=
  match source_pk_values with
  | [] => Ok ∅
  | _ =>
      match get_table schema table with
      | None => Ok ∅
      | Some source_table =>
          let pk_cols := primary_key source_table in
          let fk_cols := source_columns fk in
          batches ← batches_of (effective_batch_size batch_size pk_cols)
                        source_pk_values;
          List.fold_left
            (fun (acc : result (gset pk_tuple)) (batch_pks : list pk_tuple) =>
               result ← acc;
               q ← distinct_query fk_cols table pk_cols batch_pks;
               rows ← execute q;
               Ok (result ∪ list_to_set (List.filter without_none rows)))
            batches (Ok ∅)
      end
  end.

(** [fetch_referencing_pks].  [target_pk_values] is
    [list(target_pk_values)]. *)
Definition fetch_referencing_pks (execute : query -> result (list pk_tuple))
    (schema : SchemaGraph) (batch_size : Z) (fk : ForeignKey)
    (target_pk_values : list pk_tuple) : result (gset pk_tuple) :=
  match target_pk_values with
  | [] => Ok ∅
  | _ =>
      let fk_cols := source_columns fk in
      match get_table schema (source_table fk) with
      | None => Ok ∅
      | Some table_info =>
          match primary_key table_info with
          | [] => Ok ∅
          | pk_cols =>
              batches ← batches_of (effective_batch_size batch_size fk_cols)
                            target_pk_values;
              List.fold_left
                (fun (acc : result (gset pk_tuple)) (batch_pks : list pk_tuple) =>
                   result ← acc;
                   q ← distinct_query pk_cols (source_table fk) fk_cols batch_pks;
                   rows ← execute q;
                   Ok (result ∪ list_to_set rows))
                batches (Ok ∅)
          end
      end
  end.

(** What the database holds, for stating how it answers a batch: the
    tuples it returns for one key. *)
Definition answers_each_key (execute : query -> result (list pk_tuple))
    (select_cols : list string) (table : string) (key_cols : list string)
    (answer : pk_tuple -> list pk_tuple) : Prop :=
  forall (batch : list pk_tuple) (q : query),
    distinct_query select_cols table key_cols batch = Ok q ->
    exists rows, execute q = Ok rows
      /\ forall row, row ∈ rows <-> exists key, key ∈ batch /\ row ∈ answer key.

End PostgreSQLAdapter.

(** ** Regular expressions (the part of Python's [re] that config.py uses)

    A backtracking matcher with Python's priorities: alternatives are tried
    left to right and a star is greedy.  The character before the current
    position is carried along for the word-boundary test. *)

Module Re.

Inductive regex : Type :=
  | Eps
  | Chr (p : ascii -> bool)
  | Seq (r1 r2 : regex)
  | Alt (r1 r2 : regex)
  | Star (r : regex)
  | WordB.

(** [\w] on ASCII. *)
Definition is_word (c : ascii) : bool :=
  Str.is_upper c || Str.is_lower c || Str.is_digit c || Ascii.eqb c "_".

(** [\s] on ASCII: space, tab, newline, vertical tab, form feed, return. *)
Definition is_space (c : ascii) : bool :=
  let n := nat_of_ascii c in (n =? 32) || ((9 <=? n) && (n <=? 13)).

Definition is_word_opt (c : option ascii) : bool :=
  match c with
  | Some c => is_word c
  | None => false
  end.

Definition head_char (s : string) : option ascii :=
  match s with
  | EmptyString => None
  | String c _ => Some c
  end.

(** [\b]: exactly one side is a word character. *)
Definition at_boundary (prev : option ascii) (s : string) : bool :=
  xorb (is_word_opt prev) (is_word_opt (head_char s)).

(** [m r prev s k]: match [r] at the front of [s] and hand the rest to the
    continuation [k]; the first success in priority order wins. *)
Fixpoint m {A : Type} (r : regex) (prev : option ascii) (s : string)
    (k : option ascii -> string -> option A) {struct r} : option A :=
  match r with
  | Eps => k prev s
  | Chr p =>
      match s with
      | String c s' => if p c then k (Some c) s' else None
      | EmptyString => None
      end
  | Seq r1 r2 => m r1 prev s (fun prev' s' => m r2 prev' s' k)
  | Alt r1 r2 =>
      match m r1 prev s k with
      | Some x => Some x
      | None => m r2 prev s k
      end
  | Star r' =>
      (fix star (fuel : nat) (prev : option ascii) (s : string) : option A :=
         match fuel with
         | 0 => k prev s
         | S fuel' =>
             match m r' prev s
                     (fun prev' s' =>
                        if String.length s' <? String.length s
                        then star fuel' prev' s' else None) with
             | Some x => Some x
             | None => k prev s
             end
         end) (String.length s) prev s
  | WordB => if at_boundary prev s then k prev s else None
  end.

(** The match of [r] at the front of [s]: what follows it, and the last
    character consumed. *)
Definition match_here (r : regex) (prev : option ascii) (s : string)
  : option (option ascii * string) :=
  m r prev s (fun prev' s' => Some (prev', s')).

(** [re.search(r, s) is not None], scanning from the position after [prev]. *)
Fixpoint search_from (r : regex) (prev : option ascii) (s : string) : bool :=
  match match_here r prev s with
  | Some _ => true
  | None =>
      match s with
      | EmptyString => false
      | String c s' => search_from r (Some c) s'
      end
  end.

Definition search (r : regex) (s : string) : bool := search_from r None s.

(** [re.sub(r, repl, s)] for a pattern that matches no empty string:
    leftmost matches, one after the other. *)
Fixpoint sub_from (fuel : nat) (r : regex) (repl : string)
    (prev : option ascii) (s : string) : string :=
  match fuel with
  | 0 => s
  | S fuel' =>
      match match_here r prev s with
      | Some (prev', s') =>
          if String.length s' <? String.length s
          then repl +:+ sub_from fuel' r repl prev' s'
          else match s with
               | EmptyString => repl
               | String c s'' => repl +:+ String c (sub_from fuel' r repl (Some c) s'')
               end
      | None =>
          match s with
          | EmptyString => EmptyString
          | String c s' => String c (sub_from fuel' r repl (Some c) s')
          end
      end
  end.

Definition sub (r : regex) (repl s : string) : string :=
  sub_from (S (String.length s)) r repl None s.

(** Pattern builders. *)
Definition chr (c : ascii) : regex := Chr (Ascii.eqb c).
Definition not_chr (c : ascii) : regex := Chr (fun x => negb (Ascii.eqb c x)).

(** A literal string, as [re.escape] makes it. *)
Fixpoint lit (s : string) : regex :=
  match s with
  | EmptyString => Eps
  | String c s' => Seq (chr c) (lit s')
  end.

End Re.

(** ** config.py: the WHERE-clause filter *)

Module Config.

Definition squote : ascii := ascii_of_nat 39.
Definition dquote_char : ascii := ascii_of_nat 34.
Definition dollar : ascii := ascii_of_nat 36.

(** The set [DANGEROUS_SQL_KEYWORDS], listed in source order. *)
Definition DANGEROUS_SQL_KEYWORDS : list string :=
  [ "DROP"; "DELETE"; "TRUNCATE"; "INSERT"; "UPDATE"; "ALTER"; "CREATE";
    "RENAME"; "GRANT"; "REVOKE";
    "COMMIT"; "ROLLBACK"; "SAVEPOINT"; "EXECUTE"; "EXEC"; "CALL";
    "SHUTDOWN"; "COPY"; "LOAD";
    "UNION";
    "/*"; "*/"; "--" ].

(** The set [DANGEROUS_PG_FUNCTIONS], listed in source order. *)
Definition DANGEROUS_PG_FUNCTIONS : list string :=
  [ "pg_sleep"; "pg_cancel_backend"; "pg_terminate_backend"; "pg_read_file";
    "pg_read_binary_file"; "pg_ls_dir"; "lo_import"; "lo_export";
    "dblink"; "dblink_exec" ].

(** ['(?:[^']*'')*[^']*'] *)
Definition single_quoted_re : Re.regex :=
  Re.Seq (Re.chr squote)
    (Re.Seq (Re.Star (Re.Seq (Re.Star (Re.not_chr squote))
                        (Re.Seq (Re.chr squote) (Re.chr squote))))
       (Re.Seq (Re.Star (Re.not_chr squote)) (Re.chr squote))).

(** A double quote, any run of other characters, a double quote. *)
Definition double_quoted_re : Re.regex :=
  Re.Seq (Re.chr dquote_char)
    (Re.Seq (Re.Star (Re.not_chr dquote_char)) (Re.chr dquote_char)).

(** [\$\$|\$[a-zA-Z_][a-zA-Z0-9_]*\$] *)
Definition dollar_quoting_re : Re.regex :=
  Re.Alt (Re.Seq (Re.chr dollar) (Re.chr dollar))
    (Re.Seq (Re.chr dollar)
       (Re.Seq (Re.Chr (fun c => Str.is_lower c || Str.is_upper c || Ascii.eqb c "_"))
          (Re.Seq (Re.Star (Re.Chr Re.is_word)) (Re.chr dollar)))).

(** [\bE'] with [re.IGNORECASE] *)
Definition escape_string_re : Re.regex :=
  Re.Seq Re.WordB
    (Re.Seq (Re.Chr (fun c => Ascii.eqb c "E" || Ascii.eqb c "e")) (Re.chr squote)).

(** [r"\b" + re.escape(keyword) + r"\b"] *)
Definition keyword_re (keyword : string) : Re.regex :=
  Re.Seq Re.WordB (Re.Seq (Re.lit keyword) Re.WordB).

(** [r"\b" + re.escape(func_name) + r"\s*\("] *)
Definition function_re (func_name : string) : Re.regex :=
  Re.Seq Re.WordB
    (Re.Seq (Re.lit func_name)
       (Re.Seq (Re.Star (Re.Chr Re.is_space)) (Re.chr "("))).

(** [\(\s*SELECT\b] *)
Definition subquery_re : Re.regex :=
  Re.Seq (Re.chr "(")
    (Re.Seq (Re.Star (Re.Chr Re.is_space)) (Re.Seq (Re.lit "SELECT") Re.WordB)).

(** The two substitutions that collapse quoted runs to empty placeholders. *)
Definition collapse_quoted (s : string) : string :=
  let normalized := Re.sub single_quoted_re (String squote (String squote "")) s in
  Re.sub double_quoted_re (String dquote_char (String dquote_char "")) normalized.

Section Filter.

(** [unicodedata.normalize("NFKC", s)] *)
Variable nfkc : string -> string.
(** The order in which the two sets are enumerated. *)
Variable keywords : list string.
Variable functions : list string.

(** [validate_where_clause].  Case mapping is ASCII: the embedding is exact
    for clauses whose normal form is ASCII. *)
Definition validate_where_clause_with (where_clause seed_str : string) : result unit :=
  if bool_decide (where_clause = "") then Ok tt
  else
    let seed := if bool_decide (seed_str = "") then where_clause else seed_str in
    let normalized := collapse_quoted (nfkc where_clause) in
    if Re.search dollar_quoting_re normalized then
      Raise (InsecureWhereClauseError seed "dollar quoting ($$)")
    else if Re.search escape_string_re normalized then
      Raise (InsecureWhereClauseError seed "escape string (E'...')")
    else
      let normalized_upper := Str.upper normalized in
      match List.find (fun keyword => Re.search (keyword_re keyword) normalized_upper)
              keywords with
      | Some keyword => Raise (InsecureWhereClauseError seed keyword)
      | None =>
          let normalized_lower := Str.lower normalized in
          match List.find
                  (fun func_name => Re.search (function_re func_name) normalized_lower)
                  functions with
          | Some func_name =>
              Raise (InsecureWhereClauseError seed (func_name +:+ "()"))
          | None =>
              if Re.search subquery_re normalized_upper then
                Raise (InsecureWhereClauseError seed "subquery (SELECT)")
              else if Str.contains "::" normalized then
                Raise (InsecureWhereClauseError seed "type cast (::)")
              else if Str.contains ";" normalized then
                Raise (InsecureWhereClauseError seed ";")
              else if Str.contains "--" normalized || Str.contains "/*" normalized
                      || Str.contains "*/" normalized then
                Raise (InsecureWhereClauseError seed "comment sequence")
              else Ok tt
          end
      end.

(** *** The forbidden constructs, as tests on the collapsed copy *)

Definition has_dangerous_keyword (normalized : string) : bool :=
  existsb (fun keyword => Re.search (keyword_re keyword) (Str.upper normalized))
    DANGEROUS_SQL_KEYWORDS.

Definition has_dangerous_function (normalized : string) : bool :=
  existsb (fun func_name =>
             Re.search (function_re func_name) (Str.lower normalized))
    DANGEROUS_PG_FUNCTIONS.

Definition has_forbidden_construct (normalized : string) : bool :=
  has_dangerous_keyword normalized
  || Str.contains ";" normalized
  || (Str.contains "--" normalized || Str.contains "/*" normalized
      || Str.contains "*/" normalized)
  || Re.search subquery_re (Str.upper normalized)
  || Re.search dollar_quoting_re normalized
  || Re.search escape_string_re normalized
  || Str.contains "::" normalized
  || has_dangerous_function normalized.

End Filter.

(** The filter with the sets enumerated in source order. *)
Definition validate_where_clause (nfkc : string -> string)
    (where_clause seed_str : string) : result unit :=
  validate_where_clause_with nfkc DANGEROUS_SQL_KEYWORDS DANGEROUS_PG_FUNCTIONS
    where_clause seed_str.

(** The seed an error reports: [seed_str or where_clause]. *)
Definition reported_seed (where_clause seed_str : string) : string :=
  if bool_decide (seed_str = "") then where_clause else seed_str.

(** NFKC normalization of ASCII text is the identity. *)
Definition nfkc_ascii (s : string) : string := s.

(** *** String literals read in one pass

    The spec's words: string literals, single-quoted with [''] escapes and
    double-quoted, are collapsed to empty placeholders.  A reader that goes
    through the clause once, left to right. *)

(** After an opening single quote: what follows the closing quote. *)
Fixpoint after_single_quoted (s : string) : option string :=
  match s with
  | EmptyString => None
  | String c s' =>
      if Ascii.eqb c squote then
        match s' with
        | String c' s'' =>
            if Ascii.eqb c' squote then after_single_quoted s'' else Some s'
        | EmptyString => Some s'
        end
      else after_single_quoted s'
  end.

(** After an opening double quote: what follows the closing quote. *)
Fixpoint after_double_quoted (s : string) : option string :=
  match s with
  | EmptyString => None
  | String c s' =>
      if Ascii.eqb c dquote_char then Some s' else after_double_quoted s'
  end.

Fixpoint outside_literals_from (fuel : nat) (s : string) : string :=
  match fuel with
  | 0 => s
  | S fuel' =>
      match s with
      | EmptyString => EmptyString
      | String c s' =>
          if Ascii.eqb c squote then
            match after_single_quoted s' with
            | Some rest =>
                String squote (String squote (outside_literals_from fuel' rest))
            | None => String c (outside_literals_from fuel' s')
            end
          else if Ascii.eqb c dquote_char then
            match after_double_quoted s' with
            | Some rest =>
                String dquote_char
                  (String dquote_char (outside_literals_from fuel' rest))
            | None => String c (outside_literals_from fuel' s')
            end
          else String c (outside_literals_from fuel' s')
      end
  end.

Definition outside_literals (s : string) : string :=
  outside_literals_from (String.length s) s.

(** A clause that opens with a double-quoted identifier holding an
    apostrophe, followed by a second statement and a comment. *)
Definition bypass_clause : string :=
  dquote +:+ "a'b" +:+ dquote +:+ "; DROP TABLE users --'".

End Config.
(** ** Python string methods, on ASCII text *)

Module PyStr.

(** [c.isspace()] *)
Definition is_space (c : ascii) : bool :=
  let n := nat_of_ascii c in
  (n =? 32) || ((9 <=? n) && (n <=? 13)) || ((28 <=? n) && (n <=? 31)).

Fixpoint lstrip (s : string) : string :=
  match s with
  | EmptyString => EmptyString
  | String c s' => if is_space c then lstrip s' else s
  end.

Fixpoint rstrip (s : string) : string :=
  match s with
  | EmptyString => EmptyString
  | String c s' =>
      match rstrip s' with
      | EmptyString => if is_space c then EmptyString else String c EmptyString
      | rest => String c rest
      end
  end.

(** [s.strip()] *)
Definition strip (s : string) : string := rstrip (lstrip s).

(** [s.find(c)] for a single character; [None] is -1. *)
Fixpoint find (c : ascii) (s : string) : option nat :=
  match s with
  | EmptyString => None
  | String x s' => if Ascii.eqb x c then Some 0 else option_map S (find c s')
  end.

(** [s.rfind(c)] *)
Fixpoint rfind (c : ascii) (s : string) : option nat :=
  match s with
  | EmptyString => None
  | String x s' =>
      match rfind c s' with
      | Some i => Some (S i)
      | None => if Ascii.eqb x c then Some 0 else None
      end
  end.

(** [s.index(c)] and [s.rindex(c)] *)
Definition index (c : ascii) (s : string) : result nat :=
  match find c s with
  | Some i => Ok i
  | None => Raise (ValueError "substring not found")
  end.

Definition rindex (c : ascii) (s : string) : result nat :=
  match rfind c s with
  | Some i => Ok i
  | None => Raise (ValueError "substring not found")
  end.

(** [s[:n]] and [s[n:]] for [n >= 0] *)
Fixpoint take (n : nat) (s : string) : string :=
  match n, s with
  | S n', String c s' => String c (take n' s')
  | _, _ => EmptyString
  end.

Fixpoint drop (n : nat) (s : string) : string :=
  match n, s with
  | S n', String _ s' => drop n' s'
  | _, _ => s
  end.

(** [s.split(c)[0]] *)
Definition first_part (c : ascii) (s : string) : string :=
  match find c s with
  | Some i => take i s
  | None => s
  end.

(** [s.split(c, 1)] *)
Definition split_once (c : ascii) (s : string) : list string :=
  match find c s with
  | Some i => [take i s; drop (S i) s]
  | None => [s]
  end.

Fixpoint all_chars (p : ascii -> bool) (s : string) : bool :=
  match s with
  | EmptyString => true
  | String c s' => p c && all_chars p s'
  end.

(** The string holds no [c]. *)
Definition lacks (c : ascii) (s : string) : bool :=
  all_chars (fun x => negb (Ascii.eqb x c)) s.

(** [s.isdigit()] *)
Definition isdigit (s : string) : bool :=
  negb (bool_decide (s = "")) && all_chars Str.is_digit s.

Fixpoint int_acc (acc : Z) (s : string) : Z :=
  match s with
  | EmptyString => acc
  | String c s' => int_acc (10 * acc + Z.of_nat (nat_of_ascii c - 48))%Z s'
  end.

(** [int(s)] for a string of decimal digits.  [int_max_str_digits] is
    [sys.get_int_max_str_digits()], 0 when there is no limit. *)
Definition int (int_max_str_digits : nat) (s : string) : result Z :=
  if (0 <? int_max_str_digits) && (int_max_str_digits <? String.length s) then
    Raise (ValueError
      ("Exceeds the limit (" +:+ Str.of_nat int_max_str_digits
       +:+ " digits) for integer string conversion: value has "
       +:+ Str.of_nat (String.length s)
       +:+ " digits; use sys.set_int_max_str_digits() to increase the limit"))
  else Ok (int_acc 0 s).

Fixpoint last_char (s : string) : option ascii :=
  match s with
  | EmptyString => None
  | String c EmptyString => Some c
  | String _ s' => last_char s'
  end.

(** [s.startswith(c)] and [s.endswith(c)] for a single character *)
Definition startswith (c : ascii) (s : string) : bool :=
  match s with
  | String x _ => Ascii.eqb x c
  | EmptyString => false
  end.

Definition endswith (c : ascii) (s : string) : bool :=
  match last_char s with
  | Some x => Ascii.eqb x c
  | None => false
  end.

(** [s[1:-1]] *)
Definition inner (s : string) : string :=
  take (String.length s - 2) (drop 1 s).

End PyStr.

(** ** input_validators.py: identifiers and seed values *)

Module InputValidators.

(** A validator returns or raises its exception. *)
Inductive outcome (E : Type) : Type :=
  | Returns
  | Raises (e : E).
Arguments Returns {E}.
Arguments Raises {E} e.

Record IdentifierValidationError : Type := mkIdentifierValidationError {
  identifier : string;
  identifier_type : string;
  identifier_reason : string
}.

(** [str(e)] *)
Definition identifier_error_str (e : IdentifierValidationError) : string :=
  "Invalid " +:+ identifier_type e +:+ " '" +:+ identifier e +:+ "': "
  +:+ identifier_reason e.

Record SeedValidationError : Type := mkSeedValidationError {
  seed : string;
  seed_reason : string
}.

Definition seed_error_str (e : SeedValidationError) : string :=
  "Invalid seed '" +:+ seed e +:+ "': " +:+ seed_reason e.

Definition MAX_IDENTIFIER_LENGTH : nat := 63.

Definition is_identifier_start (c : ascii) : bool :=
  Str.is_lower c || Str.is_upper c || Ascii.eqb c "_".

Definition is_identifier_char (c : ascii) : bool :=
  Str.is_lower c || Str.is_upper c || Str.is_digit c || Ascii.eqb c "_"
  || Ascii.eqb c "$".

(** [^[a-zA-Z_][a-zA-Z0-9_$]*$], without the anchors *)
Definition IDENTIFIER_PATTERN : Re.regex :=
  Re.Seq (Re.Chr is_identifier_start) (Re.Star (Re.Chr is_identifier_char)).

Definition newline : string := String (ascii_of_nat 10) EmptyString.

(** Where [$] matches: at the end of the string and before a newline that
    ends the string. *)
Definition at_dollar (rest : string) : bool :=
  bool_decide (rest = "") || bool_decide (rest = newline).

(** [IDENTIFIER_PATTERN.match(identifier)] is not [None]. *)
Definition pattern_match (identifier : string) : bool :=
  match Re.m IDENTIFIER_PATTERN None identifier
          (fun _ rest => if at_dollar rest then Some tt else None) with
  | Some _ => true
  | None => false
  end.

Definition dangerous_keywords : list string :=
  [ "select"; "drop"; "delete"; "insert"; "update"; "alter"; "create";
    "truncate" ].

(** [validate_identifier] *)
Definition validate_identifier (identifier identifier_type : string)
  : outcome IdentifierValidationError :=
  if bool_decide (identifier = "") then
    Raises (mkIdentifierValidationError identifier identifier_type
              "Identifier cannot be empty")
  else if MAX_IDENTIFIER_LENGTH <? String.length identifier then
    Raises (mkIdentifierValidationError identifier identifier_type
              ("Identifier too long (max " +:+ Str.of_nat MAX_IDENTIFIER_LENGTH
               +:+ " characters)"))
  else if negb (pattern_match identifier) then
    Raises (mkIdentifierValidationError identifier identifier_type
              ("Identifier must start with a letter or underscore and contain only "
               +:+ "alphanumeric characters, underscores, or dollar signs"))
  else if bool_decide (Str.lower identifier ∈ dangerous_keywords) then
    Raises (mkIdentifierValidationError identifier identifier_type
              ("Identifier cannot be a SQL keyword: " +:+ Str.lower identifier))
  else Returns.

(** A letter or underscore, then letters, digits, underscores and dollar
    signs: the names the pattern is meant for. *)
Definition well_formed (name : string) : bool :=
  match name with
  | String c rest => is_identifier_start c && PyStr.all_chars is_identifier_char rest
  | EmptyString => false
  end.

Definition validate_table_name (table : string) : outcome IdentifierValidationError :=
  validate_identifier table "table name".

Definition validate_column_name (column : string)
  : outcome IdentifierValidationError :=
  validate_identifier column "column name".

(** [validate_seed_value] *)
Definition validate_seed_value (value : pyval) : outcome SeedValidationError :=
  match value with
  | PNone => Raises (mkSeedValidationError (py_str value) "Seed value cannot be None")
  | PStr s =>
      if 1000 <? String.length s then
        Raises (mkSeedValidationError s "Seed value too long (max 1000 characters)")
      else if bool_decide (PyStr.strip s = "") then
        Raises (mkSeedValidationError s "Seed value cannot be empty or whitespace")
      else Returns
  | _ => Returns
  end.

End InputValidators.

(** ** config.py: seed specifications *)

Module SeedSpec.

Record t : Type := mk {
  table : string;
  column : option string;
  value : pyval;
  where_clause : option string
}.

Section Parse.

(** [unicodedata.normalize("NFKC", s)] *)
Variable nfkc : string -> string.
(** The order in which the sets [DANGEROUS_SQL_KEYWORDS] and
    [DANGEROUS_PG_FUNCTIONS] are enumerated. *)
Variable keywords : list string.
Variable functions : list string.
(** [repr(s)] *)
Variable repr : string -> string.
(** [sys.get_int_max_str_digits()] *)
Variable int_max_str_digits : nat.

Definition squote : ascii := ascii_of_nat 39.
Definition dquote_char : ascii := ascii_of_nat 34.

(** [SeedSpec.parse] *)
Definition parse (seed_str : string) : result t :=
  if bool_decide (seed_str = "") || bool_decide (PyStr.strip seed_str = "") then
    Raise (ValueError "Seed specification cannot be empty")
  else if Str.contains ":" seed_str
          && negb (Str.contains "=" (PyStr.first_part ":" seed_str)) then
    match PyStr.split_once ":" seed_str with
    | [part0; part1] =>
        let table := PyStr.strip part0 in
        let where_clause := PyStr.strip part1 in
        match InputValidators.validate_table_name table with
        | InputValidators.Raises e =>
            Raise (ValueError ("Invalid seed table name: "
                               +:+ InputValidators.identifier_error_str e))
        | InputValidators.Returns =>
            _ ← Config.validate_where_clause_with nfkc keywords functions where_clause seed_str;
            Ok {| table := table; column := None; value := PNone;
                  where_clause := Some where_clause |}
        end
    | _ =>
        Raise (ValueError ("Invalid seed format: " +:+ repr seed_str
                           +:+ ". Use 'table:WHERE_CLAUSE'"))
    end
  else if Str.contains "." seed_str && Str.contains "=" seed_str then
    match (eq_pos ← PyStr.index "=" seed_str;
           let left := PyStr.take eq_pos seed_str in
           let value := PyStr.strip (PyStr.drop (eq_pos + 1) seed_str) in
           dot_pos ← PyStr.rindex "." left;
           let table := PyStr.strip (PyStr.take dot_pos left) in
           let column := PyStr.strip (PyStr.drop (dot_pos + 1) left) in
           Ok (table, column, value)) with
    | Raise (ValueError _) | Raise (IndexError _) =>
        Raise (ValueError ("Invalid seed format: " +:+ repr seed_str
                           +:+ ". Use 'table.column=value'"))
    | Raise e => Raise e
    | Ok (table, column, value) =>
        match InputValidators.validate_table_name table with
        | InputValidators.Raises e =>
            Raise (ValueError ("Invalid seed identifier: "
                               +:+ InputValidators.identifier_error_str e))
        | InputValidators.Returns =>
        match InputValidators.validate_column_name column with
        | InputValidators.Raises e =>
            Raise (ValueError ("Invalid seed identifier: "
                               +:+ InputValidators.identifier_error_str e))
        | InputValidators.Returns =>
            parsed_value ←
              (if PyStr.isdigit value then
                 n ← PyStr.int int_max_str_digits value; Ok (PInt n)
               else if PyStr.startswith squote value && PyStr.endswith squote value
               then Ok (PStr (PyStr.inner value))
               else if PyStr.startswith dquote_char value
                       && PyStr.endswith dquote_char value
               then Ok (PStr (PyStr.inner value))
               else Ok (PStr value));
            match InputValidators.validate_seed_value parsed_value with
            | InputValidators.Raises e =>
                Raise (ValueError ("Invalid seed value: "
                                   +:+ InputValidators.seed_error_str e))
            | InputValidators.Returns =>
                Ok {| table := table; column := Some column; value := parsed_value;
                      where_clause := None |}
            end
        end
        end
    end
  else
    Raise (ValueError ("Invalid seed format: " +:+ repr seed_str
                       +:+ ". Use 'table.column=value' or 'table:WHERE_CLAUSE'")).

(** [f"{x}"] for an optional string *)
Definition format_optional (x : option string) : string :=
  match x with
  | Some s => s
  | None => "None"
  end.

(** [SeedSpec.to_where_clause]: the clause and its parameters. *)
Definition to_where_clause (self : t) : result (string * list pyval) :=
  match where_clause self with
  | Some clause =>
      if bool_decide (clause = "") then
        Ok (format_optional (column self) +:+ " = %s", [value self])
      else
        _ ← Config.validate_where_clause_with nfkc keywords functions clause
              (table self +:+ ":" +:+ clause);
        Ok (clause, [])
  | None => Ok (format_optional (column self) +:+ " = %s", [value self])
  end.

End Parse.

End SeedSpec.

(** ** adapters/postgresql.py: rows that match a condition *)

Module PostgreSQLSeedRows.

(** [fetch_rows], read to the end.  [execute] is the cursor; [inr e] stands
    for a [psycopg2.Error] with text [e].  [nfkc], [keywords] and
    [functions] are as in [SeedSpec.parse]. *)
Definition fetch_rows (nfkc : string -> string) (keywords functions : list string)
    (execute : PostgreSQLAdapter.query -> list row + string)
    (table where_clause : string) (params : list pyval) : result (list row) :=
  _ ← Config.validate_where_clause_with nfkc keywords functions where_clause
        (table +:+ ":" +:+ where_clause);
  let query := "SELECT * FROM " +:+ quoted table +:+ " WHERE " +:+ where_clause in
  match execute {| PostgreSQLAdapter.sql := query;
                   PostgreSQLAdapter.params := params |} with
  | inl rows => Ok rows
  | inr e =>
      Raise (ExtractionError
               ("Failed to fetch rows from table '" +:+ table +:+ "': " +:+ e))
  end.

End PostgreSQLSeedRows.

(** ** graphlib.TopologicalSorter (Python's standard library), as
       [engine.py] uses it *)

Module Graphlib.

Definition _NODE_OUT : Z := (-1)%Z.
Definition _NODE_DONE : Z := (-2)%Z.

Record NodeInfo : Type := mkNodeInfo {
  npredecessors : Z;
  successors : list string
}.

(** The sorter: [_node2info] is an insertion-ordered dictionary, kept as
    the keys in insertion order and a finite map. *)
Record sorter : Type := mkSorter {
  _node_order : list string;
  _node2info : gmap string NodeInfo;
  _ready_nodes : list string;
  _npassedout : nat;
  _nfinished : nat
}.

Definition empty_sorter : sorter :=
  {| _node_order := []; _node2info := ∅; _ready_nodes := [];
     _npassedout := 0; _nfinished := 0 |}.

Definition set_info (ts : sorter) (node : string) (info : NodeInfo) : sorter :=
  {| _node_order := _node_order ts;
     _node2info := <[node := info]> (_node2info ts);
     _ready_nodes := _ready_nodes ts;
     _npassedout := _npassedout ts;
     _nfinished := _nfinished ts |}.

(** [_get_nodeinfo]: the entry of [node], created when missing. *)
Definition _get_nodeinfo (ts : sorter) (node : string) : NodeInfo * sorter :=
  match _node2info ts !! node with
  | Some info => (info, ts)
  | None =>
      let info := {| npredecessors := 0; successors := [] |} in
      (info,
       {| _node_order := _node_order ts ++ [node];
          _node2info := <[node := info]> (_node2info ts);
          _ready_nodes := _ready_nodes ts;
          _npassedout := _npassedout ts;
          _nfinished := _nfinished ts |})
  end.

(** [add]: a node with its predecessors. *)
Definition add (ts : sorter) (node : string) (predecessors : list string) : sorter :=
  let '(nodeinfo, ts1) := _get_nodeinfo ts node in
  let ts2 :=
    set_info ts1 node
      {| npredecessors := (npredecessors nodeinfo + Z.of_nat (length predecessors))%Z;
         successors := successors nodeinfo |} in
  List.fold_left
    (fun ts pred =>
       let '(pred_info, ts') := _get_nodeinfo ts pred in
       set_info ts' pred
         {| npredecessors := npredecessors pred_info;
            successors := successors pred_info ++ [node] |})
    predecessors ts2.

(** [TopologicalSorter(graph)] *)
Definition new (graph : list (string * list string)) : sorter :=
  List.fold_left (fun ts item => add ts (fst item) (snd item)) graph empty_sorter.

Definition successors_of (ts : sorter) (node : string) : list string :=
  match _node2info ts !! node with
  | Some info => successors info
  | None => []
  end.

(** The inner loop of [_find_cycle], started at [node].  The stack holds
    each node with the successors its iterator has not yet produced, top
    first.  [Some cycle] is the cycle returned; [None] means the stack ran
    empty. *)
Fixpoint _find_cycle_from (fuel : nat) (ts : sorter) (node : string)
    (stack : list (string * list string)) (seen : gset string)
  : result (option (list string) * gset string) :=
  match fuel with
  | 0 => Raise OutOfFuel
  | S fuel' =>
      let backtrack :=
        fix backtrack (stack : list (string * list string)) (seen : gset string) :=
          match stack with
          | [] => Ok (None, seen)
          | (n, []) :: rest => backtrack rest seen
          | (n, next :: its) :: rest =>
              _find_cycle_from fuel' ts next ((n, its) :: rest) seen
          end in
      if bool_decide (node ∈ seen) then
        if bool_decide (node ∈ List.map fst stack) then
          let bottom_up := List.rev (List.map fst stack) in
          Ok (Some (drop_until (fun n => bool_decide (n = node)) bottom_up
                    ++ [node]), seen)
        else backtrack stack seen
      else
        backtrack ((node, successors_of ts node) :: stack) ({[node]} ∪ seen)
  end.

(** A bound on the steps of one run of the inner loop. *)
Definition find_cycle_fuel (ts : sorter) : nat :=
  S (length (_node_order ts)
     + list_sum (List.map (fun n => length (successors_of ts n)) (_node_order ts))).

(** [_find_cycle] *)
Definition _find_cycle (ts : sorter) : result (option (list string)) :=
  (fix outer (nodes : list string) (seen : gset string) :=
     match nodes with
     | [] => Ok None
     | node :: nodes' =>
         if bool_decide (node ∈ seen) then outer nodes' seen
         else
           r ← _find_cycle_from (find_cycle_fuel ts) ts node [] seen;
           match r with
           | (Some cycle, _) => Ok (Some cycle)
           | (None, seen') => outer nodes' seen'
           end
     end) (_node_order ts) ∅.

(** [prepare()] on a fresh sorter. *)
Definition prepare (ts : sorter) : result sorter :=
  let ready :=
    List.filter
      (fun n => match _node2info ts !! n with
                | Some info => (npredecessors info =? 0)%Z
                | None => false
                end) (_node_order ts) in
  let ts1 :=
    {| _node_order := _node_order ts; _node2info := _node2info ts;
       _ready_nodes := ready;
       _npassedout := _npassedout ts; _nfinished := _nfinished ts |} in
  cycle ← _find_cycle ts1;
  match cycle with
  | Some _ => Raise (CycleError "nodes are in a cycle")
  | None => Ok ts1
  end.

(** [is_active()] *)
Definition is_active (ts : sorter) : bool :=
  (_nfinished ts <? _npassedout ts)
  || negb (bool_decide (_ready_nodes ts = [])).

(** [get_ready()] *)
Definition get_ready (ts : sorter) : list string * sorter :=
  let result := _ready_nodes ts in
  (result,
   {| _node_order := _node_order ts;
      _node2info :=
        List.fold_left
          (fun n2i node =>
             match n2i !! node with
             | Some info =>
                 <[node := {| npredecessors := _NODE_OUT;
                              successors := successors info |}]> n2i
             | None => n2i
             end) result (_node2info ts);
      _ready_nodes := [];
      _npassedout := _npassedout ts + length result;
      _nfinished := _nfinished ts |}).

(** The body of [done] for one node. *)
Definition done_one (ts : sorter) (node : string) : result sorter :=
  match _node2info ts !! node with
  | None => Raise (ValueError "node was not added using add()")
  | Some nodeinfo =>
      let stat := npredecessors nodeinfo in
      if negb (stat =? _NODE_OUT)%Z then
        if (0 <=? stat)%Z
        then Raise (ValueError "node was not passed out (still not ready)")
        else Raise (ValueError "node was already marked done")
      else
        let ts1 :=
          set_info ts node
            {| npredecessors := _NODE_DONE; successors := successors nodeinfo |} in
        ts2 ← List.fold_left
                (fun acc successor =>
                   ts ← acc;
                   match _node2info ts !! successor with
                   | None => Raise (KeyError successor)
                   | Some successor_info =>
                       let n := (npredecessors successor_info - 1)%Z in
                       let ts' :=
                         set_info ts successor
                           {| npredecessors := n;
                              successors := successors successor_info |} in
                       Ok (if (n =? 0)%Z
                           then {| _node_order := _node_order ts';
                                   _node2info := _node2info ts';
                                   _ready_nodes := _ready_nodes ts' ++ [successor];
                                   _npassedout := _npassedout ts';
                                   _nfinished := _nfinished ts' |}
                           else ts')
                   end)
                (successors nodeinfo) (Ok ts1);
        Ok {| _node_order := _node_order ts2; _node2info := _node2info ts2;
              _ready_nodes := _ready_nodes ts2;
              _npassedout := _npassedout ts2;
              _nfinished := S (_nfinished ts2) |}
  end.

(** [done] applied to the nodes of a group, in order. *)
Definition done (ts : sorter) (nodes : list string) : result sorter :=
  List.fold_left (fun acc node => ts ← acc; done_one ts node) nodes (Ok ts).

(** The loop of [static_order]: [out] is what has been yielded. *)
Fixpoint static_order_loop (fuel : nat) (ts : sorter) (out : list string)
  : result (list string) :=
  if is_active ts then
    match fuel with
    | 0 => Raise OutOfFuel
    | S fuel' =>
        let '(node_group, ts1) := get_ready ts in
        ts2 ← done ts1 node_group;
        static_order_loop fuel' ts2 (out ++ node_group)
    end
  else Ok out.

(** [list(TopologicalSorter(graph).static_order())] *)
Definition static_order (graph : list (string * list string)) : result (list string) :=
  let ts := new graph in
  ts1 ← prepare ts;
  static_order_loop (S (length (_node_order ts1))) ts1 [].

(** *** What an order must satisfy *)

(** The predecessors a graph gives a node (all its entries together). *)
Definition deps_of (graph : list (string * list string)) (node : string)
  : list string :=
  List.concat
    (List.map snd (List.filter (fun item => bool_decide (fst item = node)) graph)).

(** Every occurrence of a node comes after all its predecessors. *)
Definition respects (graph : list (string * list string)) (order : list string)
  : Prop :=
  forall before node after,
    order = before ++ node :: after ->
    forall pred, pred ∈ deps_of graph node -> pred ∈ before.

(** [t] stands before [s] in the order. *)
Definition precedes (t s : string) (order : list string) : Prop :=
  exists l1 l2 l3, order = l1 ++ t :: l2 ++ s :: l3.

End Graphlib.

(** ** core/cycles.py *)

Module Cycles.

Definition nl : string := String (ascii_of_nat 10) EmptyString.
(** The separator of cycle paths, a space, the arrow U+2192 in UTF-8 and a
    space. *)
Definition arrow : string := " → ".

Record CycleInfo : Type := mkCycleInfo {
  ci_tables : list string;
  fks_in_cycle : list ForeignKey
}.

(** [CycleInfo.__str__] *)
Definition cycle_info_str (c : CycleInfo) : string :=
  Str.join arrow (ci_tables c ++ firstn 1 (ci_tables c)).

(** [dependencies.get(node, set())]: the dictionary is a list of items in
    insertion order, each set in its iteration order. *)
Definition deps_get (dependencies : list (string * list string)) (node : string)
  : list string :=
  match List.find (fun item => bool_decide (fst item = node)) dependencies with
  | Some (_, deps) => deps
  | None => []
  end.

Record dfs_state : Type := mkDfs {
  cycles : list (list string);
  visited : gset string
}.

(** The nested function [dfs] of [find_cycles_dfs]; [rec_stack] is restored
    when a call returns, so it is passed down.  [fuel] bounds the depth of
    the recursion. *)
Fixpoint dfs (fuel : nat) (dependencies : list (string * list string))
    (node : string) (rec_stack : list string) (st : dfs_state) : result dfs_state :=
  match fuel with
  | 0 => Raise OutOfFuel
  | S fuel' =>
      if bool_decide (node ∈ rec_stack) then
        let cycle := drop_until (fun n => bool_decide (n = node)) rec_stack in
        Ok {| cycles := cycles st ++ [cycle]; visited := visited st |}
      else if bool_decide (node ∈ visited st) then Ok st
      else
        List.fold_left
          (fun acc neighbor =>
             st' ← acc;
             dfs fuel' dependencies neighbor (rec_stack ++ [node]) st')
          (deps_get dependencies node)
          (Ok {| cycles := cycles st; visited := {[node]} ∪ visited st |})
  end.

(** Every node the search can reach: the depth of the recursion stays
    below their number. *)
Definition all_nodes (dependencies : list (string * list string)) : list string :=
  List.map fst dependencies ++ List.concat (List.map snd dependencies).

Definition find_cycles_dfs (dependencies : list (string * list string))
  : result (list (list string)) :=
  st ← List.fold_left
         (fun acc node =>
            st ← acc;
            if bool_decide (node ∈ visited st) then Ok st
            else dfs (S (S (length (all_nodes dependencies)))) dependencies node [] st)
         (List.map fst dependencies)
         (Ok {| cycles := []; visited := ∅ |});
  Ok (cycles st).

(** The directed edges of the cycle path: [cycle[i] -> cycle[(i + 1) % n]]. *)
Definition cycle_edges (cycle : list string) : list (string * string) :=
  List.combine cycle (List.tl cycle ++ firstn 1 cycle).

Definition identify_cycle_fks (schema : SchemaGraph) (cycle : list string)
  : list ForeignKey :=
  List.filter
    (fun fk => bool_decide ((source_table fk, target_table fk) ∈ cycle_edges cycle))
    (edges schema).

Definition select_nullable_fk_to_break (cycle_fks : list ForeignKey)
    (cycle : option (list string)) : option ForeignKey :=
  let nullable_fks := List.filter is_nullable cycle_fks in
  match nullable_fks with
  | [] => None
  | first_nullable :: _ =>
      let is_single_table_cycle :=
        match cycle with
        | Some c => Nat.eqb (length c) 1
        | None => false
        end in
      let single_col_fallback :=
        match List.filter (fun fk => Nat.eqb (length (source_columns fk)) 1)
                nullable_fks with
        | fk :: _ => Some fk
        | [] => Some first_nullable
        end in
      if is_single_table_cycle then
        match List.filter is_self_referential nullable_fks with
        | fk :: _ => Some fk
        | [] => single_col_fallback
        end
      else
        match List.filter (fun fk => negb (is_self_referential fk)) nullable_fks with
        | (first_inter :: _) as inter_table_fks =>
            match List.filter (fun fk => Nat.eqb (length (source_columns fk)) 1)
                    inter_table_fks with
            | fk :: _ => Some fk
            | [] => Some first_inter
            end
        | [] => single_col_fallback
        end
  end.

(** One line of the error message for a foreign key of the cycle. *)
Definition fk_detail (fk : ForeignKey) : string :=
  let nullable_str := if is_nullable fk then "nullable" else "NOT NULL" in
  "  - " +:+ source_table fk +:+ "." +:+ Str.join ", " (source_columns fk)
  +:+ arrow +:+ target_table fk +:+ "." +:+ Str.join ", " (target_columns fk)
  +:+ " (" +:+ nullable_str +:+ ")".

(** The path shown for a cycle: its tables, then the first one again. *)
Definition cycle_path (cycle : list string) (first : string) : string :=
  Str.join arrow (cycle ++ [first]).

Definition no_nullable_fk_message (cycle_str : string)
    (cycle_fks : list ForeignKey) (fk0 : ForeignKey) : string :=
  "Circular dependency detected with no nullable foreign key to break."
  +:+ nl +:+ nl
  +:+ "Cycle path: " +:+ cycle_str +:+ nl +:+ nl
  +:+ "Foreign keys in cycle:" +:+ nl
  +:+ Str.join nl (List.map fk_detail cycle_fks) +:+ nl +:+ nl
  +:+ "To resolve this issue, you can:" +:+ nl
  +:+ "  1. Make one of the foreign keys nullable in your database schema" +:+ nl
  +:+ "  2. Use PostgreSQL's deferred constraints (if using PostgreSQL)" +:+ nl
  +:+ "  3. Temporarily disable FK checks (use at your own risk)" +:+ nl +:+ nl
  +:+ "Recommended: Make " +:+ source_table fk0 +:+ "."
  +:+ Str.join ", " (source_columns fk0) +:+ " nullable.".

(** The body of the loop over the detected cycles. *)
Definition break_one_cycle (schema : SchemaGraph)
    (acc : list ForeignKey * list CycleInfo) (cycle : list string)
  : result (list ForeignKey * list CycleInfo) :=
  let '(fks_to_break, cycle_infos) := acc in
  let cycle_fks := identify_cycle_fks schema cycle in
  match select_nullable_fk_to_break cycle_fks (Some cycle) with
  | None =>
      match cycle with
      | [] => Raise (IndexError "list index out of range")
      | first :: _ =>
          let cycle_str := cycle_path cycle first in
          match cycle_fks with
          | [] => Raise (IndexError "list index out of range")
          | fk0 :: _ =>
              Raise (ValueError (no_nullable_fk_message cycle_str cycle_fks fk0))
          end
      end
  | Some nullable_fk =>
      let fks_to_break' :=
        if bool_decide (nullable_fk ∈ fks_to_break) then fks_to_break
        else fks_to_break ++ [nullable_fk] in
      Ok (fks_to_break',
          cycle_infos ++ [{| ci_tables := cycle; fks_in_cycle := cycle_fks |}])
  end.

Definition break_cycles_at_nullable_fks (schema : SchemaGraph)
    (tables : list string) (dependencies : list (string * list string))
  : result (list ForeignKey * list CycleInfo) :=
  cycles ← find_cycles_dfs dependencies;
  match cycles with
  | [] => Ok ([], [])
  | _ =>
      List.fold_left
        (fun acc cycle => a ← acc; break_one_cycle schema a cycle)
        cycles (Ok ([], []))
  end.

(** [DeferredUpdate]: an UPDATE that restores a broken foreign key after
    the INSERTs. *)
Record DeferredUpdate : Type := mkDeferredUpdate {
  du_table : string;
  du_pk_columns : list string;
  du_pk_values : pk_tuple;
  du_fk_column : string;
  du_fk_value : pyval
}.

(** [tuple(row_data[col] for col in pk_columns)] *)
Definition pk_values_of (row_data : row) (pk_columns : list string)
  : result pk_tuple :=
  mapM_result
    (fun col => match row_get row_data col with
                | Some v => Ok v
                | None => Raise (KeyError col)
                end)
    pk_columns.

(** The updates of one row for one broken foreign key. *)
Definition row_deferred_updates (source_table : string) (pk_columns : list string)
    (fk_columns : list string) (row_data : row) : result (list DeferredUpdate) :=
  List.fold_left
    (fun acc fk_col =>
       updates ← acc;
       match row_get row_data fk_col with
       | None => Ok updates
       | Some PNone => Ok updates
       | Some fk_value =>
           pk_values ← pk_values_of row_data pk_columns;
           Ok (updates ++ [mkDeferredUpdate source_table pk_columns pk_values
                             fk_col fk_value])
       end)
    fk_columns (Ok []).

(** [build_deferred_updates] *)
Definition build_deferred_updates (fks_to_break : list ForeignKey)
    (tables_data : list (string * list row)) (schema : SchemaGraph)
  : result (list DeferredUpdate) :=
  List.fold_left
    (fun acc fk =>
       deferred_updates ← acc;
       match dict_get tables_data (source_table fk) with
       | None => Ok deferred_updates
       | Some rows =>
           match get_table schema (source_table fk) with
           | None => Ok deferred_updates
           | Some table_info =>
               List.fold_left
                 (fun acc row_data =>
                    updates ← acc;
                    more ← row_deferred_updates (source_table fk)
                              (primary_key table_info) (source_columns fk) row_data;
                    Ok (updates ++ more))
                 rows (Ok deferred_updates)
           end
       end)
    fks_to_break (Ok []).

(** The foreign keys that [select_nullable_fk_to_break] looks at first:
    the self-referential ones for a cycle of one table, the inter-table
    ones for a longer cycle. *)
Definition preferred (cycle : list string) (fk : ForeignKey) : bool :=
  if Nat.eqb (length cycle) 1 then is_self_referential fk
  else negb (is_self_referential fk).

End Cycles.

(** ** core/engine.py: [_topological_sort] *)

Module Engine.

Section TopologicalSort.

(** The order in which Python enumerates the set built by adding the
    elements of a list one after the other. *)
Variable set_iter : list string -> list string.

(** [dependencies]: one entry per table, in the order the set [tables] is
    enumerated; the targets of the catalog foreign keys whose two ends are
    extracted. *)
Definition build_dependencies (schema : SchemaGraph) (tables : list string)
  : list (string * list string) :=
  List.map
    (fun t =>
       (t, set_iter
             (List.map target_table
                (List.filter
                   (fun fk => bool_decide (source_table fk = t)
                              && bool_decide (target_table fk ∈ tables))
                   (edges schema)))))
    tables.

(** [modified_deps]: a copy in which the target of every broken foreign key
    is discarded from the set of its source table. *)
Definition discard_broken (fks_to_break : list ForeignKey)
    (dependencies : list (string * list string)) : list (string * list string) :=
  List.map
    (fun item =>
       (fst item,
        set_iter
          (List.filter
             (fun d => negb (existsb
                               (fun fk => bool_decide (source_table fk = fst item)
                                          && bool_decide (target_table fk = d))
                               fks_to_break))
             (snd item))))
    dependencies.

Definition _topological_sort (schema : SchemaGraph) (tables : list string)
  : result (list string * list ForeignKey * list Cycles.CycleInfo) :=
  let dependencies := build_dependencies schema tables in
  match Graphlib.static_order dependencies with
  | Ok insert_order => Ok (insert_order, [], [])
  | Raise (CycleError _) =>
      match Cycles.break_cycles_at_nullable_fks schema tables dependencies with
      | Raise (ValueError e) => Raise (CircularReferenceError e)
      | Raise e => Raise e
      | Ok (fks_to_break, cycle_infos) =>
          let modified_deps := discard_broken fks_to_break dependencies in
          insert_order ← Graphlib.static_order modified_deps;
          Ok (insert_order, fks_to_break, cycle_infos)
      end
  | Raise e => Raise e
  end.

End TopologicalSort.

(** An enumeration that keeps the order of insertion. *)
Definition insertion_order (l : list string) : list string := remove_dups l.

End Engine.

(** ** Example schemas *)

Module Examples.

Definition id_table (name : string) (fks : list ForeignKey) : Table :=
  {| tbl_name := name; tbl_schema := "public";
     columns := [ mkColumn "id" "INTEGER" false true None ];
     primary_key := ["id"];
     foreign_keys := List.filter (fun fk => bool_decide (source_table fk = name)) fks |}.

(** A schema over the named tables with the given catalog and virtual
    foreign keys. *)
Definition schema_of (names : list string) (fks : list ForeignKey)
    (vfks : list VirtualForeignKey) : SchemaGraph :=
  {| tables := list_to_map (List.map (fun n => (n, id_table n fks)) names);
     edges := fks;
     virtual_edges := vfks |}.

Definition fk (source column target : string) (nullable : bool) : ForeignKey :=
  {| fk_name := "fk_" +:+ source +:+ "_" +:+ column;
     source_table := source; source_columns := [column];
     target_table := target; target_columns := ["id"];
     is_nullable := nullable |}.

(** Employees belong to a department; a department may name its head. *)
Definition employees_department : ForeignKey :=
  fk "employees" "department_id" "departments" false.
Definition departments_head : ForeignKey :=
  fk "departments" "head_id" "employees" true.
Definition company_schema : SchemaGraph :=
  schema_of ["departments"; "employees"]
    [employees_department; departments_head] [].

(** A post names its pinned comment (a catalog foreign key); comments
    point at posts through a generic, virtual foreign key. *)
Definition posts_pinned_comment : ForeignKey :=
  fk "posts" "pinned_comment_id" "comments" true.
Definition comments_object : VirtualForeignKey :=
  {| vfk_name := "comments_object";
     vfk_source_table := "comments"; vfk_source_columns := ["object_id"];
     vfk_target_table := "posts"; vfk_target_columns := ["id"];
     vfk_description := "generic relation";
     vfk_is_nullable := true |}.
Definition blog_schema : SchemaGraph :=
  schema_of ["posts"; "comments"] [posts_pinned_comment] [comments_object].

(** Two foreign keys from accounts to users, one of them nullable, and one
    back. *)
Definition accounts_created_by : ForeignKey :=
  fk "accounts" "created_by" "users" true.
Definition accounts_owner : ForeignKey :=
  fk "accounts" "owner_id" "users" false.
Definition users_account : ForeignKey :=
  fk "users" "account_id" "accounts" false.
Definition accounts_schema : SchemaGraph :=
  schema_of ["accounts"; "users"]
    [accounts_created_by; accounts_owner; users_account] [].

(** Four tables with seven nullable foreign keys, in catalog order. *)
Definition tangled_fks : list ForeignKey :=
  [ fk "B" "d_id" "D" true; fk "C" "d_id" "D" true;
    fk "B" "a_id" "A" true; fk "C" "a_id" "A" true;
    fk "B" "c_id" "C" true; fk "D" "b_id" "B" true;
    fk "A" "b_id" "B" true ].
Definition tangled_schema : SchemaGraph :=
  schema_of ["A"; "B"; "C"; "D"] tangled_fks [].

(** Two tables that reference each other, both columns NOT NULL. *)
Definition a_b : ForeignKey := fk "a" "b_id" "b" false.
Definition b_a : ForeignKey := fk "b" "a_id" "a" false.
Definition locked_schema : SchemaGraph := schema_of ["a"; "b"] [a_b; b_a] [].

End Examples.

(** ** Every enumeration order at once

    [_topological_sort] takes the order in which Python enumerates a set
    as a parameter.  The definitions below run it for all the orders
    together; they are used to settle a property for every order by
    evaluation. *)

Module AllOrders.

(** The orders in which a set built from the list [l] may be enumerated. *)
Definition set_orders (l : list string) : list (list string) :=
  permutations (remove_dups l).

(** One choice for each key. *)
Fixpoint choose_all {A : Type} (choices : list (A * list (list string)))
  : list (list (A * list string)) :=
  match choices with
  | [] => [[]]
  | (a, orders) :: rest =>
      List.flat_map
        (fun order => List.map (cons (a, order)) (choose_all rest)) orders
  end.

Definition all_dependencies (schema : SchemaGraph) (tables : list string)
  : list (list (string * list string)) :=
  choose_all
    (List.map
       (fun t =>
          (t, set_orders
                (List.map target_table
                   (List.filter
                      (fun fk => bool_decide (source_table fk = t)
                                 && bool_decide (target_table fk ∈ tables))
                      (edges schema)))))
       tables).

Definition all_modified (fks_to_break : list ForeignKey)
    (dependencies : list (string * list string))
  : list (list (string * list string)) :=
  choose_all
    (List.map
       (fun item =>
          (fst item,
           set_orders
             (List.filter
                (fun d => negb (existsb
                                  (fun fk => bool_decide (source_table fk = fst item)
                                             && bool_decide (target_table fk = d))
                                  fks_to_break))
                (snd item))))
       dependencies).

(** [ok] holds of the outcome of [_topological_sort] for every order. *)
Definition always
    (ok : result (list string * list ForeignKey * list Cycles.CycleInfo) -> bool)
    (schema : SchemaGraph) (tables : list string) : bool :=
  forallb
    (fun dependencies =>
       match Graphlib.static_order dependencies with
       | Ok insert_order => ok (Ok (insert_order, [], []))
       | Raise (CycleError _) =>
           match Cycles.break_cycles_at_nullable_fks schema tables dependencies with
           | Raise (ValueError e) => ok (Raise (CircularReferenceError e))
           | Raise e => ok (Raise e)
           | Ok (fks_to_break, cycle_infos) =>
               forallb
                 (fun modified_deps =>
                    ok (insert_order ← Graphlib.static_order modified_deps;
                        Ok (insert_order, fks_to_break, cycle_infos)))
                 (all_modified fks_to_break dependencies)
           end
       | Raise e => ok (Raise e)
       end)
    (all_dependencies schema tables).

(** The second sort raised [CycleError]. *)
Definition is_cycle_error
    (r : result (list string * list ForeignKey * list Cycles.CycleInfo)) : bool :=
  match r with
  | Raise (CycleError msg) => bool_decide (msg = "nodes are in a cycle")
  | _ => false
  end.

End AllOrders.

(** ** core/graph.py: the traversal *)

Module Graph.

(** [config.TraversalDirection] *)
Inductive TraversalDirection : Type := UP | DOWN | BOTH.

Definition pk_set : Type := gset pk_tuple.

(** [passthrough_tables] is a set; it is kept in the order in which it is
    enumerated. *)
Record TraversalConfig : Type := mkTraversalConfig {
  max_depth : Z;
  direction : TraversalDirection;
  exclude_tables : gset string;
  passthrough_tables : list string
}.

Record TraversalResult : Type := mkTraversalResult {
  records : gmap string pk_set;
  traversal_path : list string;
  tables_visited : gset string
}.

(** [dict.get(table, set())] *)
Definition get_set (m : gmap string pk_set) (table : string) : pk_set :=
  match m !! table with
  | Some pks => pks
  | None => ∅
  end.

(** [TraversalResult.get_records] *)
Definition get_records (r : TraversalResult) (table : string) : pk_set :=
  get_set (records r) table.

(** [TraversalResult.add_records]: the new identities and the result
    after the update. *)
Definition add_records (r : TraversalResult) (table : string) (pk_values : pk_set)
  : pk_set * TraversalResult :=
  let current := get_set (records r) table in
  let new_pks := pk_values ∖ current in
  (new_pks,
   {| records := <[table := current ∪ new_pks]> (records r);
      traversal_path := traversal_path r;
      tables_visited := tables_visited r |}).

Definition visit_table (r : TraversalResult) (table : string) : TraversalResult :=
  {| records := records r; traversal_path := traversal_path r;
     tables_visited := {[table]} ∪ tables_visited r |}.

Definition log_path (r : TraversalResult) (line : string) : TraversalResult :=
  {| records := records r; traversal_path := traversal_path r ++ [line];
     tables_visited := tables_visited r |}.

(** The part of [adapters.base.DatabaseAdapter] that the traversal calls. *)
Class DatabaseAdapter : Type := {
  fetch_fk_values : string -> ForeignKey -> pk_set -> pk_set;
  fetch_referencing_pks : ForeignKey -> pk_set -> pk_set;
  fetch_all_pks : string -> list string -> pk_set
}.

(** The direction tag of a queue entry: the strings "up" and "down". *)
Inductive tag : Type := up | down.

Definition tag_str (t : tag) : string :=
  match t with up => "up" | down => "down" end.

(** A queue entry [(table, pks, depth, direction)]. *)
Record entry : Type := mkEntry {
  e_table : string;
  e_pks : pk_set;
  e_depth : Z;
  e_tag : tag
}.

(** The objects that [traverse] creates and its helpers update: [result],
    the two visited maps and the queue. *)
Record state : Type := mkState {
  st_result : TraversalResult;
  visited_up : gmap string pk_set;
  visited_down : gmap string pk_set;
  queue : list entry
}.

Section Traverser.

Context (schema : SchemaGraph) {adapter : DatabaseAdapter}.

Definition path_line (table fk_type : string) (fk : ForeignKey) (to : string)
    (new_pks : pk_set) : string :=
  table +:+ " --(" +:+ fk_type +:+ ":" +:+ fk_name fk +:+ ")--> " +:+ to
  +:+ " (" +:+ Str.of_nat (size new_pks) +:+ " rows)".

(** The body of the loop of [_traverse_up], for one parent edge. *)
Definition up_edge (table : string) (pks : pk_set) (depth : Z)
    (config : TraversalConfig) (st : state) (edge : string * ForeignKey) : state :=
  let '(parent_table, fk) := edge in
  if bool_decide (parent_table ∈ exclude_tables config) then st
  else
    let parent_pks := fetch_fk_values table fk pks in
    if bool_decide (parent_pks = ∅) then st
    else
      let already_visited := get_set (visited_up st) parent_table in
      let new_pks := parent_pks ∖ already_visited in
      if bool_decide (new_pks = ∅) then st
      else
        let fk_type := if is_virtual_fk schema fk then "virtual" else "up" in
        {| st_result :=
             log_path
               (visit_table (add_records (st_result st) parent_table new_pks).2
                  parent_table)
               (path_line table fk_type fk parent_table new_pks);
           visited_up :=
             <[parent_table := already_visited ∪ new_pks]> (visited_up st);
           visited_down := visited_down st;
           queue := queue st ++ [mkEntry parent_table new_pks (depth + 1) up] |}.

Definition _traverse_up (table : string) (pks : pk_set) (depth : Z)
    (config : TraversalConfig) (st : state) : state :=
  List.fold_left (up_edge table pks depth config) (get_parents schema table) st.

(** The body of the loop of [_traverse_down], for one child edge. *)
Definition down_edge (table : string) (pks : pk_set) (depth : Z)
    (config : TraversalConfig) (st : state) (edge : string * ForeignKey) : state :=
  let '(child_table, fk) := edge in
  if bool_decide (child_table ∈ exclude_tables config) then st
  else
    let child_pks := fetch_referencing_pks fk pks in
    if bool_decide (child_pks = ∅) then st
    else
      let already_visited := get_set (visited_down st) child_table in
      let new_pks := child_pks ∖ already_visited in
      if bool_decide (new_pks = ∅) then st
      else
        let fk_type := if is_virtual_fk schema fk then "virtual" else "down" in
        let result' :=
          log_path
            (visit_table (add_records (st_result st) child_table new_pks).2
               child_table)
            (path_line table fk_type fk child_table new_pks) in
        let visited_down' :=
          <[child_table := already_visited ∪ new_pks]> (visited_down st) in
        let queue' := queue st ++ [mkEntry child_table new_pks (depth + 1) down] in
        let seen_up := get_set (visited_up st) child_table in
        let new_for_up := new_pks ∖ seen_up in
        if bool_decide (new_for_up = ∅) then
          {| st_result := result';
             visited_up := <[child_table := seen_up]> (visited_up st);
             visited_down := visited_down';
             queue := queue' |}
        else
          {| st_result := result';
             visited_up := <[child_table := seen_up ∪ new_for_up]> (visited_up st);
             visited_down := visited_down';
             queue := queue' ++ [mkEntry child_table new_for_up (depth + 1) up] |}.

Definition _traverse_down (table : string) (pks : pk_set) (depth : Z)
    (config : TraversalConfig) (st : state) : state :=
  List.fold_left (down_edge table pks depth config) (get_children schema table) st.

(** One turn of the [while queue] loop; [None] when the queue is empty. *)
Definition step (config : TraversalConfig) (st : state) : option state :=
  match queue st with
  | [] => None
  | e :: rest =>
      let st1 :=
        {| st_result := st_result st; visited_up := visited_up st;
           visited_down := visited_down st; queue := rest |} in
      Some
        (match e_tag e with
         | down =>
             if (max_depth config <=? e_depth e)%Z then st1
             else _traverse_down (e_table e) (e_pks e) (e_depth e) config st1
         | up => _traverse_up (e_table e) (e_pks e) (e_depth e) config st1
         end)
  end.

(** The loop, for at most [fuel] turns. *)
Fixpoint loop (fuel : nat) (config : TraversalConfig) (st : state) : result state :=
  match step config st with
  | None => Ok st
  | Some st' =>
      match fuel with
      | 0 => Raise OutOfFuel
      | S fuel' => loop fuel' config st'
      end
  end.

(** The state after [n] turns of the loop (fewer when the queue runs
    empty). *)
Fixpoint run (n : nat) (config : TraversalConfig) (st : state) : state :=
  match n with
  | 0 => st
  | S n' =>
      match step config st with
      | None => st
      | Some st' => run n' config st'
      end
  end.

(** The body of the loop of [_process_passthrough_tables]. *)
Definition passthrough_table (exclude_tables : gset string)
    (r : TraversalResult) (table : string) : TraversalResult :=
  if bool_decide (table ∈ exclude_tables) then r
  else if negb (has_table schema table) then r
  else
    match get_table schema table with
    | None => r
    | Some table_info =>
        let pk_columns := primary_key table_info in
        if bool_decide (pk_columns = []) then r
        else
          let all_pks := fetch_all_pks table pk_columns in
          if bool_decide (all_pks = ∅) then r
          else
            let '(new_pks, r1) := add_records r table all_pks in
            log_path (visit_table r1 table)
              ("passthrough: " +:+ table +:+ " (" +:+ Str.of_nat (size all_pks)
               +:+ " rows total, " +:+ Str.of_nat (size new_pks) +:+ " new)")
    end.

Definition _process_passthrough_tables (passthrough_tables : list string)
    (r : TraversalResult) (exclude_tables : gset string) : TraversalResult :=
  List.fold_left (passthrough_table exclude_tables) passthrough_tables r.

(** The state when the loop is entered. *)
Definition initial (seed_table : string) (seed_pks : pk_set)
    (config : TraversalConfig) : state :=
  let r0 :=
    {| records := ∅; traversal_path := []; tables_visited := ∅ |} in
  let r1 :=
    log_path (visit_table (add_records r0 seed_table seed_pks).2 seed_table)
      ("seed: " +:+ seed_table +:+ " (" +:+ Str.of_nat (size seed_pks) +:+ " rows)") in
  {| st_result := r1;
     visited_up := {[seed_table := seed_pks]};
     visited_down := {[seed_table := seed_pks]};
     queue :=
       (match direction config with
        | UP | BOTH => [mkEntry seed_table seed_pks 0 up]
        | DOWN => []
        end)
       ++
       (match direction config with
        | DOWN | BOTH => [mkEntry seed_table seed_pks 0 down]
        | UP => []
        end) |}.

(** [GraphTraverser.traverse] *)
Definition traverse (fuel : nat) (seed_table : string) (seed_pks : pk_set)
    (config : TraversalConfig) : result TraversalResult :=
  st ← loop fuel config (initial seed_table seed_pks config);
  Ok (_process_passthrough_tables (passthrough_tables config) (st_result st)
        (exclude_tables config)).

End Traverser.

(** *** Parent rows *)

Section Parents.

Context (schema : SchemaGraph) {adapter : DatabaseAdapter}.
Variable config : TraversalConfig.

(** The row [parent] is referenced by the row [child] through a foreign
    key (catalog or virtual) whose target table is not excluded. *)
Definition parent_row (child parent : string * pk_tuple) : Prop :=
  exists fk,
    (parent.1, fk) ∈ get_parents schema child.1
    /\ (parent.1 ∉ exclude_tables config)
    /\ parent.2 ∈ fetch_fk_values child.1 fk {[child.2]}.

(** The seed rows and the rows reached from them through parent rows. *)
Definition reachable_parent (seed_table : string) (seed_pks : pk_set)
    (row : string * pk_tuple) : Prop :=
  exists seed, seed ∈ seed_pks /\ rtc parent_row (seed_table, seed) row.

(** The adapter answers for a set of rows with what it answers for each
    of them. *)
Definition fetch_fk_values_pointwise : Prop :=
  forall table fk (pks : pk_set) (parent : pk_tuple),
    parent ∈ fetch_fk_values table fk pks
    <-> exists pk, pk ∈ pks /\ parent ∈ fetch_fk_values table fk {[pk]}.

End Parents.

(** *** Child rows *)

Section Children.

Context (schema : SchemaGraph) {adapter : DatabaseAdapter}.
Variable config : TraversalConfig.

(** The row [child] references the row [parent] through a foreign key
    (catalog or virtual), and its table is not excluded. *)
Definition child_row (parent child : string * pk_tuple) : Prop :=
  exists fk,
    (child.1, fk) ∈ get_children schema parent.1
    /\ (child.1 ∉ exclude_tables config)
    /\ child.2 ∈ fetch_referencing_pks fk {[parent.2]}.

(** The adapter answers for a set of rows with what it answers for each
    of them. *)
Definition fetch_referencing_pks_pointwise : Prop :=
  forall fk (pks : pk_set) (child : pk_tuple),
    child ∈ fetch_referencing_pks fk pks
    <-> exists pk, pk ∈ pks /\ child ∈ fetch_referencing_pks fk {[pk]}.

(** The row is at most [depth] child rows away from a seed row. *)
Definition descendant (seed_table : string) (seed_pks : pk_set) (depth : nat)
    (row : string * pk_tuple) : Prop :=
  exists seed k,
    seed ∈ seed_pks /\ k <= depth /\ nsteps child_row k (seed_table, seed) row.

(** The row is such a descendant, or is reached from one through parent
    rows. *)
Definition in_reach (seed_table : string) (seed_pks : pk_set) (depth : nat)
    (row : string * pk_tuple) : Prop :=
  exists mid,
    descendant seed_table seed_pks depth mid
    /\ rtc (parent_row schema config) mid row.

End Children.

(** *** [simple_traverse_up] and what the adapter may return *)

Section Helpers.

Context (schema : SchemaGraph) {adapter : DatabaseAdapter}.

(** [simple_traverse_up]: an upward traversal with the default
    configuration otherwise. *)
Definition simple_traverse_up (fuel : nat) (seed_table : string)
    (seed_pks : pk_set) (max_depth : Z) : result TraversalResult :=
  let config :=
    {| max_depth := max_depth; direction := UP;
       exclude_tables := ∅; passthrough_tables := [] |} in
  traverse schema fuel seed_table seed_pks config.

(** The rows that the adapter returns for the foreign keys of the schema
    lie in [U]: the database is finite. *)
Definition fetches_within (U : gset (string * pk_tuple)) : Prop :=
  (forall table parent_table fk pks pk,
     (parent_table, fk) ∈ get_parents schema table ->
     pk ∈ fetch_fk_values table fk pks -> (parent_table, pk) ∈ U)
  /\ (forall table child_table fk pks pk,
        (child_table, fk) ∈ get_children schema table ->
        pk ∈ fetch_referencing_pks fk pks -> (child_table, pk) ∈ U).

End Helpers.

End Graph.

(** ** An adapter over rows held in memory *)

Module MemoryAdapter.

(** The row [l_pk] of [l_table] references [l_target] through the foreign
    key named [l_fk]. *)
Record link : Type := mkLink {
  l_table : string;
  l_pk : pk_tuple;
  l_fk : string;
  l_target : pk_tuple
}.

Record database : Type := mkDatabase {
  rows : list (string * pk_tuple);
  links : list link
}.

#[global] Instance adapter (db : database) : Graph.DatabaseAdapter :=
  {| Graph.fetch_fk_values table fk pks :=
       list_to_set
         (List.map l_target
            (List.filter
               (fun l => bool_decide (l_table l = table)
                         && bool_decide (l_fk l = fk_name fk)
                         && bool_decide (l_pk l ∈ pks))
               (links db)));
     Graph.fetch_referencing_pks fk pks :=
       list_to_set
         (List.map l_pk
            (List.filter
               (fun l => bool_decide (l_table l = source_table fk)
                         && bool_decide (l_fk l = fk_name fk)
                         && bool_decide (l_target l ∈ pks))
               (links db)));
     Graph.fetch_all_pks table pk_columns :=
       list_to_set
         (List.map snd
            (List.filter (fun r => bool_decide (r.1 = table)) (rows db))) |}.

(** A finite set that holds the seed rows and every row that a foreign
    key of the schema can lead to. *)
Definition universe (db : database) (schema : SchemaGraph) (seed_table : string)
    (seed_pks : Graph.pk_set) : gset (string * pk_tuple) :=
  list_to_set (List.map (fun seed => (seed_table, seed)) (elements seed_pks))
  ∪ list_to_set
      (List.flat_map
         (fun t => List.map (fun l => (t, l_target l)) (links db))
         (List.map target_table (edges schema)
          ++ List.map vfk_target_table (virtual_edges schema))).

(** Users, their orders, the items of the orders and the products. *)
Definition orders_user : ForeignKey := Examples.fk "orders" "user_id" "users" false.
Definition items_order : ForeignKey :=
  Examples.fk "order_items" "order_id" "orders" false.
Definition items_product : ForeignKey :=
  Examples.fk "order_items" "product_id" "products" false.

Definition shop_schema : SchemaGraph :=
  Examples.schema_of ["users"; "orders"; "order_items"; "products"]
    [orders_user; items_order; items_product] [].

Definition key (n : Z) : pk_tuple := [PInt n].

Definition shop : database :=
  {| rows :=
       [ ("users", key 1); ("users", key 2);
         ("orders", key 1); ("orders", key 2);
         ("order_items", key 10); ("order_items", key 11);
         ("products", key 100); ("products", key 200) ];
     links :=
       [ mkLink "orders" (key 1) "fk_orders_user_id" (key 1);
         mkLink "orders" (key 2) "fk_orders_user_id" (key 1);
         mkLink "order_items" (key 10) "fk_order_items_order_id" (key 1);
         mkLink "order_items" (key 11) "fk_order_items_order_id" (key 2);
         mkLink "order_items" (key 10) "fk_order_items_product_id" (key 100);
         mkLink "order_items" (key 11) "fk_order_items_product_id" (key 100) ] |}.

(** The same adapter, except that it finds no referencing row. *)
Definition without_children (db : database) : Graph.DatabaseAdapter :=
  {| Graph.fetch_fk_values := Graph.fetch_fk_values (DatabaseAdapter := adapter db);
     Graph.fetch_referencing_pks := fun _ _ => ∅;
     Graph.fetch_all_pks := Graph.fetch_all_pks (DatabaseAdapter := adapter db) |}.

(** A finite set that holds every row the adapter can return: the keys
    of the links, in every table that a foreign key of the schema names. *)
Definition all_rows (db : database) (schema : SchemaGraph)
  : gset (string * pk_tuple) :=
  list_to_set
    (List.flat_map
       (fun t =>
          List.map (fun l => (t, l_target l)) (links db)
          ++ List.map (fun l => (t, l_pk l)) (links db))
       (List.map target_table (edges schema)
        ++ List.map vfk_target_table (virtual_edges schema)
        ++ List.map source_table (edges schema)
        ++ List.map vfk_source_table (virtual_edges schema))).

(** A cursor over the database for the single-column queries of the
    PostgreSQL adapter: what the database holds for one key, and the answer
    to a query, which is what it holds for each of the parameters. *)
Definition fk_answer (db : database) (fk : ForeignKey) (key : pk_tuple)
  : list pk_tuple :=
  match key with
  | v :: _ =>
      List.map l_target
        (List.filter
           (fun l => bool_decide (l_table l = source_table fk)
                     && bool_decide (l_fk l = fk_name fk)
                     && bool_decide (l_pk l = [v]))
           (links db))
  | [] => []
  end.

Definition referencing_answer (db : database) (fk : ForeignKey) (key : pk_tuple)
  : list pk_tuple :=
  match key with
  | v :: _ =>
      List.map l_pk
        (List.filter
           (fun l => bool_decide (l_table l = source_table fk)
                     && bool_decide (l_fk l = fk_name fk)
                     && bool_decide (l_target l = [v]))
           (links db))
  | [] => []
  end.

Definition cursor (answer : pk_tuple -> list pk_tuple) (q : PostgreSQLAdapter.query)
  : result (list pk_tuple) :=
  Ok (List.flat_map (fun v => answer [v]) (PostgreSQLAdapter.params q)).

End MemoryAdapter.

(** ** validation.py *)

Module Validation.

Record OrphanedRecord : Type := mkOrphanedRecord {
  o_table : string;
  o_pk_values : pk_tuple;
  o_fk_name : string;
  o_fk_columns : list string;
  o_fk_values : list pyval;
  o_parent_table : string;
  o_parent_pk_columns : list string
}.

Record ValidationResult : Type := mkValidationResult {
  is_valid : bool;
  orphaned_records : list OrphanedRecord;
  vr_broken_fks : list ForeignKey;
  total_records_checked : nat;
  total_fk_checks : nat
}.

(** [ValidationResult.add_orphan] *)
Definition add_orphan (r : ValidationResult) (orphan : OrphanedRecord)
  : ValidationResult :=
  {| is_valid := false;
     orphaned_records := orphaned_records r ++ [orphan];
     vr_broken_fks := vr_broken_fks r;
     total_records_checked := total_records_checked r;
     total_fk_checks := total_fk_checks r |}.

Section Validator.

Variable schema : SchemaGraph.

(** [_extract_pk_values]: [row[col]] raises [KeyError] for a missing
    column. *)
Definition _extract_pk_values (r : row) (pk_columns : list string) : result pk_tuple :=
  mapM_result
    (fun col => match row_get r col with
                | Some v => Ok v
                | None => Raise (KeyError col)
                end)
    pk_columns.

(** [_extract_fk_values]: [row.get(col)] gives [None] for a missing
    column. *)
Definition _extract_fk_values (r : row) (fk_columns : list string) : list pyval :=
  List.map (fun col => match row_get r col with
                       | Some v => v
                       | None => PNone
                       end) fk_columns.

(** [_build_pk_index] *)
Definition _build_pk_index (tables : list (string * list row))
  : result (gmap string (gset pk_tuple)) :=
  List.fold_left
    (fun acc item =>
       index ← acc;
       match get_table schema item.1 with
       | None => Ok index
       | Some table_info =>
           pks ← mapM_result
                   (fun r => _extract_pk_values r (primary_key table_info)) item.2;
           Ok (<[item.1 := list_to_set pks]> index)
       end)
    tables (Ok ∅).

(** [_has_parent_record] *)
Definition _has_parent_record (parent_table : string) (fk_values : list pyval)
    (pk_index : gmap string (gset pk_tuple)) : bool :=
  match pk_index !! parent_table with
  | None => false
  | Some pks => bool_decide (fk_values ∈ pks)
  end.

(** The check of one foreign key of one row. *)
Definition check_fk (table_name : string) (r : row) (pk_values : pk_tuple)
    (broken_fks : list ForeignKey) (pk_index : gmap string (gset pk_tuple))
    (res : ValidationResult) (parent : string * ForeignKey) : ValidationResult :=
  let '(parent_table, fk) := parent in
  if bool_decide (fk ∈ broken_fks) then res
  else
    let res1 :=
      {| is_valid := is_valid res;
         orphaned_records := orphaned_records res;
         vr_broken_fks := vr_broken_fks res;
         total_records_checked := total_records_checked res;
         total_fk_checks := S (total_fk_checks res) |} in
    let fk_values := _extract_fk_values r (source_columns fk) in
    if existsb (fun v => bool_decide (v = PNone)) fk_values then res1
    else if _has_parent_record parent_table fk_values pk_index then res1
    else
      add_orphan res1
        {| o_table := table_name;
           o_pk_values := pk_values;
           o_fk_name := fk_name fk;
           o_fk_columns := source_columns fk;
           o_fk_values := fk_values;
           o_parent_table := parent_table;
           o_parent_pk_columns := target_columns fk |}.

(** [ExtractionValidator.validate] *)
Definition validate (tables : list (string * list row))
    (broken_fks : list ForeignKey) : result ValidationResult :=
  let result0 :=
    {| is_valid := true; orphaned_records := [];
       vr_broken_fks := broken_fks;
       total_records_checked := 0; total_fk_checks := 0 |} in
  pk_index ← _build_pk_index tables;
  List.fold_left
    (fun acc item =>
       res ← acc;
       match get_table schema item.1 with
       | None => Ok res
       | Some table_info =>
           let res1 :=
             {| is_valid := is_valid res;
                orphaned_records := orphaned_records res;
                vr_broken_fks := vr_broken_fks res;
                total_records_checked :=
                  total_records_checked res + length item.2;
                total_fk_checks := total_fk_checks res |} in
           let parents := get_parents schema item.1 in
           List.fold_left
             (fun acc r =>
                res ← acc;
                pk_values ← _extract_pk_values r (primary_key table_info);
                Ok (List.fold_left
                      (check_fk item.1 r pk_values broken_fks pk_index)
                      parents res))
             item.2 (Ok res1)
       end)
    tables (Ok result0).

End Validator.

End Validation.

(** ** core/engine.py and core/streaming.py: from the sorted tables to the
       result *)

Module ExtractionEngine.

(** A call of the progress callback, [progress_callback(stage, message,
    current, total)]. *)
Record event : Type := mkEvent {
  stage : string;
  message : string;
  current : nat;
  total : nat
}.

(** A computation that calls the progress callback and returns or
    raises. *)
Record logged (A : Type) : Type := mkLogged {
  events : list event;
  outcome : result A
}.
Arguments mkLogged {A} events outcome.
Arguments events {A} l.
Arguments outcome {A} l.

#[global] Instance logged_ret : MRet logged := fun A a => mkLogged [] (Ok a).
#[global] Instance logged_bind : MBind logged := fun A B k m =>
  match outcome m with
  | Ok a => mkLogged (events m ++ events (k a)) (outcome (k a))
  | Raise e => mkLogged (events m) (Raise e)
  end.

(** [self._log(stage, message, current, total)] *)
Definition _log (stage message : string) (current total : nat) : logged unit :=
  mkLogged [mkEvent stage message current total] (Ok tt).

Definition lift {A : Type} (r : result A) : logged A := mkLogged [] r.

(** The fields of [config.ExtractConfig] that the code below reads. *)
Record ExtractConfig : Type := mkExtractConfig {
  output_file : option string;
  validate : bool;
  fail_on_validation_error : bool;
  stream : bool;
  streaming_threshold : Z
}.

Record ExtractionResult : Type := mkExtractionResult {
  tables : list (string * list row);
  insert_order : list string;
  stats : list (string * nat);
  traversal_path : list string;
  has_cycles : bool;
  broken_fks : list ForeignKey;
  deferred_updates : list Cycles.DeferredUpdate;
  cycle_infos : list Cycles.CycleInfo;
  validation_result : option Validation.ValidationResult
}.

(** Truth value of [config.output_file]: neither [None] nor empty. *)
Definition has_output_file (config : ExtractConfig) : bool :=
  match output_file config with
  | Some f => negb (bool_decide (f = ""))
  | None => false
  end.

(** [sum(len(pks) for pks in all_records.values())] *)
Definition total_rows_estimate (all_records : list (string * Graph.pk_set)) : nat :=
  list_sum (List.map (fun item => size item.2) all_records).

(** [_should_use_streaming] *)
Definition _should_use_streaming (config : ExtractConfig) (total_rows : nat) : bool :=
  if stream config then true
  else if (streaming_threshold config <=? Z.of_nat total_rows)%Z
          && has_output_file config then true
  else false.

Section Engine.

Variable config : ExtractConfig.
Variable schema : SchemaGraph.
(** [list(self.adapter.fetch_by_pk(table, pk_columns, pk_values))] *)
Variable fetch_by_pk : string -> list string -> Graph.pk_set -> list row.
(** [self.anonymizer.anonymize_row], when an anonymizer is configured. *)
Variable anonymizer : option (string -> row -> row).
(** [StreamingExtractionEngine._stream_table]: the rows written to the
    file for a table, given the columns to write as NULL. *)
Variable _stream_table : string -> Table -> Graph.pk_set -> option (gset string) -> nat.
(** [ValidationResult.format_report] *)
Variable format_report : Validation.ValidationResult -> string.

(** [_anonymize_table_data] *)
Definition _anonymize_table_data (table : string) (rows : list row) : list row :=
  match anonymizer with
  | None => rows
  | Some anonymize_row => List.map (anonymize_row table) rows
  end.

(** *** core/streaming.py *)

(** [_build_broken_fk_map] *)
Definition _build_broken_fk_map (broken : list ForeignKey) : gmap string (gset string) :=
  List.fold_left
    (fun m fk =>
       let cols := match m !! source_table fk with
                   | Some cols => cols
                   | None => ∅
                   end in
       <[source_table fk := cols ∪ list_to_set (source_columns fk)]> m)
    broken ∅.

(** [StreamingExtractionEngine.stream_to_file].  What is written to the
    file is not kept; the row counts are. *)
Definition stream_to_file (records : list (string * Graph.pk_set))
    (order : list string) (broken : list ForeignKey)
    (deferred : list Cycles.DeferredUpdate) (out_file : string)
  : logged ExtractionResult :=
  let total_tables :=
    length (List.filter (fun t => bool_decide (is_Some (dict_get records t))) order) in
  _ ← _log "stream" ("Streaming to " +:+ out_file +:+ "...") 0 0;
  let broken_fk_cols := _build_broken_fk_map broken in
  r ← List.fold_left
         (fun acc table =>
            st ← acc;
            let '(current_table_idx, table_stats) := st in
            match dict_get records table with
            | None => mret st
            | Some pk_values =>
                let idx := S current_table_idx in
                if bool_decide (pk_values = ∅) then mret (idx, table_stats)
                else
                  match get_table schema table with
                  | None => mret (idx, table_stats)
                  | Some table_info =>
                      _ ← _log "stream"
                            ("Streaming " +:+ table +:+ " ("
                             +:+ Str.of_nat (size pk_values) +:+ " rows)")
                            idx total_tables;
                      let row_count :=
                        _stream_table table table_info pk_values
                          (broken_fk_cols !! table) in
                      mret (idx, dict_set table_stats table row_count)
                  end
            end)
         order (mret (0, []));
  let table_stats := r.2 in
  let total_rows := list_sum (List.map snd table_stats) in
  _ ← _log "complete"
        ("Streamed " +:+ Str.of_nat total_rows +:+ " rows from "
         +:+ Str.of_nat (length table_stats) +:+ " tables to " +:+ out_file) 0 0;
  mret {| tables := [];
          insert_order := order;
          stats := table_stats;
          traversal_path := [];
          has_cycles := negb (bool_decide (broken = []));
          broken_fks := broken;
          deferred_updates := deferred;
          cycle_infos := [];
          validation_result := None |}.

(** *** core/engine.py *)

(** [_do_streaming_extract] *)
Definition _do_streaming_extract (all_records : list (string * Graph.pk_set))
    (order : list string) (broken : list ForeignKey)
    (infos : list Cycles.CycleInfo) (all_paths : list string)
  : logged ExtractionResult :=
  deferred ←
    (if bool_decide (broken = []) then mret []
     else
       _ ← _log "cycles"
             ("Breaking " +:+ Str.of_nat (length broken)
              +:+ " circular reference(s)...") 0 0;
       let temp_data :=
         List.fold_left
           (fun temp_data fk =>
              let table := source_table fk in
              match dict_get temp_data table, dict_get all_records table with
              | None, Some pk_values =>
                  match get_table schema table with
                  | Some table_info =>
                      dict_set temp_data table
                        (fetch_by_pk table (primary_key table_info) pk_values)
                  | None => temp_data
                  end
              | _, _ => temp_data
              end)
           broken [] in
       deferred ← lift (Cycles.build_deferred_updates broken temp_data schema);
       _ ← _log "cycles"
             ("Generated " +:+ Str.of_nat (length deferred)
              +:+ " deferred UPDATE(s)") 0 0;
       mret deferred);
  match output_file config with
  | None => lift (Raise AssertionError)
  | Some out_file =>
      r ← stream_to_file all_records order broken deferred out_file;
      mret {| tables := tables r;
              insert_order := insert_order r;
              stats := stats r;
              traversal_path := all_paths;
              has_cycles := has_cycles r;
              broken_fks := broken_fks r;
              deferred_updates := deferred_updates r;
              cycle_infos := infos;
              validation_result := validation_result r |}
  end.

(** The fetch phase of the in-memory path: [tables_data] and [stats]. *)
Definition fetch_tables (all_records : list (string * Graph.pk_set))
  : logged (list (string * list row) * list (string * nat)) :=
  let total_tables := length all_records in
  r ← List.fold_left
         (fun acc item =>
            st ← acc;
            let '(i, tables_data, table_stats) := st in
            let '(table, pk_values) := item in
            if bool_decide (pk_values = ∅) then mret (S i, tables_data, table_stats)
            else
              match get_table schema table with
              | None => mret (S i, tables_data, table_stats)
              | Some table_info =>
                  _ ← _log "fetch"
                        ("Fetching " +:+ Str.of_nat (size pk_values)
                         +:+ " rows from " +:+ table) (S i) total_tables;
                  let rows :=
                    _anonymize_table_data table
                      (fetch_by_pk table (primary_key table_info) pk_values) in
                  mret (S i, dict_set tables_data table rows,
                        dict_set table_stats table (length rows))
              end)
         all_records (mret (0, [], []));
  mret (r.1.2, r.2).

(** The message of the [ExtractionError] raised for orphaned records. *)
Definition validation_error_msg (vr : Validation.ValidationResult) : string :=
  "Extraction validation failed: "
  +:+ Str.of_nat (length (Validation.orphaned_records vr))
  +:+ " orphaned record(s) detected. These records have foreign key references to "
  +:+ "parent records that are not included in the extraction."
  +:+ Cycles.nl +:+ Cycles.nl +:+ format_report vr.

(** The validation block of [_do_extract]. *)
Definition validation_phase (tables_data : list (string * list row))
    (broken : list ForeignKey) : logged (option Validation.ValidationResult) :=
  if validate config then
    _ ← _log "validate" "Validating extraction for referential integrity..." 0 0;
    vr ← lift (Validation.validate schema tables_data broken);
    if Validation.is_valid vr then
      _ ← _log "validate" "Validation passed: all FK references are intact" 0 0;
      mret (Some vr)
    else
      _ ← _log "validate"
            ("Validation failed: "
             +:+ Str.of_nat (length (Validation.orphaned_records vr))
             +:+ " orphaned record(s) found") 0 0;
      if fail_on_validation_error config then
        lift (Raise (ExtractionError (validation_error_msg vr)))
      else mret (Some vr)
  else mret None.

(** [_do_extract], from the end of the dry-run block: the choice between
    the streaming and the in-memory path, and the rest of the function.
    The arguments are the local variables at that point. *)
Definition _do_extract (all_records : list (string * Graph.pk_set))
    (order : list string) (broken : list ForeignKey)
    (infos : list Cycles.CycleInfo) (all_paths : list string)
  : logged ExtractionResult :=
  let estimate := total_rows_estimate all_records in
  let use_streaming := _should_use_streaming config estimate in
  if use_streaming then
    if negb (has_output_file config) then
      lift (Raise (ValueError "Streaming mode requires --out-file to be specified"))
    else
      _ ← _log "stream"
            ("Using streaming mode for " +:+ Str.of_nat estimate
             +:+ " rows (threshold: " +:+ Str.of_Z (streaming_threshold config)
             +:+ ")") 0 0;
      _do_streaming_extract all_records order broken infos all_paths
  else
    _ ← _log "fetch"
          ("Fetching data from " +:+ Str.of_nat (length all_records)
           +:+ " tables...") 0 0;
    fetched ← fetch_tables all_records;
    let '(tables_data, table_stats) := fetched in
    deferred ←
      (if bool_decide (broken = []) then mret []
       else
         _ ← _log "cycles"
               ("Breaking " +:+ Str.of_nat (length broken)
                +:+ " circular reference(s)...") 0 0;
         deferred ← lift (Cycles.build_deferred_updates broken tables_data schema);
         _ ← _log "cycles"
               ("Generated " +:+ Str.of_nat (length deferred)
                +:+ " deferred UPDATE(s)") 0 0;
         mret deferred);
    let total_rows := list_sum (List.map (fun item => length item.2) tables_data) in
    _ ← _log "complete"
          ("Extraction complete: " +:+ Str.of_nat total_rows +:+ " rows from "
           +:+ Str.of_nat (length tables_data) +:+ " tables") 0 0;
    vr ← validation_phase tables_data broken;
    mret {| tables := tables_data;
            insert_order := order;
            stats := table_stats;
            traversal_path := all_paths;
            has_cycles := negb (bool_decide (broken = []));
            broken_fks := broken;
            deferred_updates := deferred;
            cycle_infos := infos;
            validation_result := vr |}.

End Engine.

(** *** Example: an order extracted without its user *)

Definition shop_rows (table : string) : list row :=
  if bool_decide (table = "users") then
    [ [("id", PInt 1); ("email", PStr "a@example.com")];
      [("id", PInt 2); ("email", PStr "b@example.com")] ]
  else if bool_decide (table = "orders") then
    [ [("id", PInt 1); ("user_id", PInt 1)];
      [("id", PInt 2); ("user_id", PInt 1)] ]
  else [].

(** The rows of a table whose primary key is among [pk_values]. *)
Definition shop_fetch_by_pk (table : string) (pk_columns : list string)
    (pk_values : Graph.pk_set) : list row :=
  List.filter
    (fun r =>
       bool_decide
         (List.map (fun col => match row_get r col with
                               | Some v => v
                               | None => PNone
                               end) pk_columns ∈ pk_values))
    (shop_rows table).

Definition count_rows (table : string) (table_info : Table)
    (pk_values : Graph.pk_set) (null_columns : option (gset string)) : nat :=
  length (shop_fetch_by_pk table (primary_key table_info) pk_values).

Definition no_report (vr : Validation.ValidationResult) : string := "(report)".

Definition orders_only : list (string * Graph.pk_set) :=
  [("orders", {[MemoryAdapter.key 1]})].

Definition streaming_config : ExtractConfig :=
  {| output_file := Some "out.sql"; validate := true;
     fail_on_validation_error := true; stream := true;
     streaming_threshold := 50000 |}.

Definition in_memory_config : ExtractConfig :=
  {| output_file := Some "out.sql"; validate := true;
     fail_on_validation_error := true; stream := false;
     streaming_threshold := 50000 |}.

End ExtractionEngine.
(** ** core/engine.py: from a seed to its traversal *)

Module SeedProcessing.

(** The text that names a seed in progress messages and errors:
    [f"{seed.table}.{seed.column}={seed.value}" if seed.column
     else f"{seed.table}:{seed.where_clause}"] *)
Definition seed_desc (seed : SeedSpec.t) : string :=
  let by_clause :=
    SeedSpec.table seed +:+ ":"
    +:+ SeedSpec.format_optional (SeedSpec.where_clause seed) in
  match SeedSpec.column seed with
  | Some column =>
      if bool_decide (column = "") then by_clause
      else SeedSpec.table seed +:+ "." +:+ column +:+ "="
           +:+ py_str (SeedSpec.value seed)
  | None => by_clause
  end.

Section ProcessSeed.

Context (schema : SchemaGraph) {adapter : Graph.DatabaseAdapter}.

(** [unicodedata.normalize("NFKC", s)] and the enumeration orders of the
    two sets of the WHERE-clause filter *)
Variable nfkc : string -> string.
Variable keywords : list string.
Variable functions : list string.
(** [list(self.adapter.fetch_rows(table, where_clause, params))] *)
Variable fetch_rows : string -> string -> list pyval -> result (list row).
(** [self.config.depth], [.direction], [.exclude_tables] and
    [.passthrough_tables] *)
Variable depth : Z.
Variable direction : Graph.TraversalDirection.
Variable exclude_tables : gset string.
Variable passthrough_tables : list string.
(** The bound on the turns of the traversal loop. *)
Variable fuel : nat.

(** [ExtractionEngine._process_seed] *)
Definition _process_seed (seed : SeedSpec.t) : result Graph.TraversalResult :=
  if negb (has_table schema (SeedSpec.table seed)) then
    Raise (TableNotFoundError (SeedSpec.table seed))
  else
    match get_table schema (SeedSpec.table seed) with
    | None => Raise AssertionError
    | Some table_info =>
        let pk_columns := primary_key table_info in
        clause ← SeedSpec.to_where_clause nfkc keywords functions seed;
        seed_rows ← fetch_rows (SeedSpec.table seed) clause.1 clause.2;
        match seed_rows with
        | [] => Raise (NoRowsFoundError (seed_desc seed))
        | _ =>
            seed_pks ← mapM_result (fun row => Cycles.pk_values_of row pk_columns)
                         seed_rows;
            let traversal_config :=
              {| Graph.max_depth := depth;
                 Graph.direction := direction;
                 Graph.exclude_tables := exclude_tables;
                 Graph.passthrough_tables := passthrough_tables |} in
            Graph.traverse schema fuel (SeedSpec.table seed) (list_to_set seed_pks)
              traversal_config
        end
    end.

End ProcessSeed.

End SeedProcessing.

(** ** Invariants used in the proofs *)

Module Invariants.

(** The sorter under construction.  [counted] is the part of the graph
    whose predecessor counts have been added, [linked] the part whose
    successor links are complete; while [add] runs for the node [extra],
    [extra_preds] are the predecessors already linked. *)
Definition built (counted linked : list (string * list string)) (extra : string)
    (extra_preds : list string) (n2i : gmap string Graphlib.NodeInfo) : Prop :=
  (forall s info, n2i !! s = Some info ->
     Graphlib.npredecessors info = Z.of_nat (length (Graphlib.deps_of counted s))
     /\ forall t, count_occ String.string_dec (Graphlib.successors info) t
                  = count_occ String.string_dec (Graphlib.deps_of linked t) s
                    + (if bool_decide (t = extra)
                       then count_occ String.string_dec extra_preds s else 0))
  /\ (forall s, n2i !! s = None ->
        Graphlib.deps_of counted s = []
        /\ (forall t, count_occ String.string_dec (Graphlib.deps_of linked t) s = 0)
        /\ count_occ String.string_dec extra_preds s = 0).

(** How many of the predecessors in [l] are not yet done. *)
Definition undone (D : gset string) (l : list string) : nat :=
  length (List.filter (fun p => negb (bool_decide (p ∈ D))) l).

(** The sorter while [static_order] runs: [D] are the nodes marked done,
    [pending] the successors that the current call of [done] has still to
    visit. *)
Definition kahn (graph : list (string * list string)) (D : gset string)
    (pending : list string) (ts : Graphlib.sorter) : Prop :=
  (forall s info, Graphlib._node2info ts !! s = Some info ->
     (0 <= Graphlib.npredecessors info)%Z ->
     (Z.of_nat (undone D (Graphlib.deps_of graph s)
                + count_occ String.string_dec pending s)
      <= Graphlib.npredecessors info)%Z)
  /\ (forall s info, Graphlib._node2info ts !! s = Some info ->
        (Graphlib.npredecessors info < 0)%Z ->
        forall p, p ∈ Graphlib.deps_of graph s -> p ∈ D)
  /\ (forall s, s ∈ Graphlib._ready_nodes ts ->
        (forall p, p ∈ Graphlib.deps_of graph s -> p ∈ D)
        /\ exists info, Graphlib._node2info ts !! s = Some info
                        /\ Graphlib.npredecessors info = 0%Z)
  /\ (forall d, d ∈ D ->
        exists info, Graphlib._node2info ts !! d = Some info
                     /\ (Graphlib.npredecessors info <= -2)%Z)
  /\ (forall p info s, Graphlib._node2info ts !! p = Some info ->
        count_occ String.string_dec (Graphlib.successors info) s
        = count_occ String.string_dec (Graphlib.deps_of graph s) p).

(** What the loop of [break_cycles_at_nullable_fks] keeps true of the
    foreign keys to break and the recorded cycles. *)
Definition broken_discipline (schema : SchemaGraph)
    (acc : list ForeignKey * list Cycles.CycleInfo) : Prop :=
  NoDup acc.1
  /\ (forall fk, fk ∈ acc.1 ->
        is_nullable fk = true
        /\ exists ci, ci ∈ acc.2 /\ fk ∈ Cycles.fks_in_cycle ci)
  /\ (forall ci, ci ∈ acc.2 ->
        Cycles.fks_in_cycle ci = Cycles.identify_cycle_fks schema (Cycles.ci_tables ci)
        /\ exists fk, fk ∈ acc.1 /\ fk ∈ Cycles.fks_in_cycle ci).

(** The search path: every table of [l] depends on the next one. *)
Definition chain (dependencies : list (string * list string)) (l : list string)
  : Prop :=
  forall l1 x y l2, l = l1 ++ x :: y :: l2 -> y ∈ Cycles.deps_get dependencies x.

(** A recorded cycle: distinct tables, each depending on the next and the
    last on the first. *)
Definition good_cycle (dependencies : list (string * list string))
    (cycle : list string) : Prop :=
  NoDup cycle /\ cycle <> []
  /\ forall x y, (x, y) ∈ Cycles.cycle_edges cycle ->
                 y ∈ Cycles.deps_get dependencies x.

(** The table [x] depends on the table [y]. *)
Definition depends (dependencies : list (string * list string)) (x y : string)
  : Prop :=
  y ∈ Cycles.deps_get dependencies x.

(** The tables whose search is over, in the order in which they were
    left: each stands after all the tables it depends on.  These are the
    visited tables that are not on the search path. *)
Definition finished (dependencies : list (string * list string))
    (rec_stack : list string) (st : Cycles.dfs_state) (fin : list string) : Prop :=
  (forall u, u ∈ fin <-> u ∈ Cycles.visited st /\ u ∉ rec_stack)
  /\ (forall l1 u l2, fin = l1 ++ u :: l2 ->
        forall v, depends dependencies u v -> v ∈ l1).

(** *** The upward traversal *)

Section Upward.

Context (schema : SchemaGraph) {adapter : Graph.DatabaseAdapter}.
Variable config : Graph.TraversalConfig.
Variable seed_table : string.
Variable seed_pks : Graph.pk_set.

(** The row is marked in [visited_up]. *)
Definition seen_up (st : Graph.state) (t : string) (pk : pk_tuple) : Prop :=
  pk ∈ Graph.get_set (Graph.visited_up st) t.

(** The row waits in the queue with the tag "up". *)
Definition queued_up (st : Graph.state) (t : string) (pk : pk_tuple) : Prop :=
  exists e, e ∈ Graph.queue st /\ Graph.e_tag e = Graph.up
            /\ Graph.e_table e = t /\ pk ∈ Graph.e_pks e.

(** The parents of the row along [edges] are marked. *)
Definition parents_seen (st : Graph.state) (edges : list (string * ForeignKey))
    (t : string) (pk : pk_tuple) : Prop :=
  forall t' fk pk',
    (t', fk) ∈ edges -> t' ∉ Graph.exclude_tables config ->
    pk' ∈ Graph.fetch_fk_values t fk {[pk]} -> seen_up st t' pk'.

(** The state of a traversal in which no "down" entry is processed.
    [current] is the entry that [_traverse_up] is working on: its table,
    its rows and the parent edges already followed. *)
Definition upward
    (current : option (string * Graph.pk_set * list (string * ForeignKey)))
    (st : Graph.state) : Prop :=
  (forall t, Graph.get_records (Graph.st_result st) t
             = Graph.get_set (Graph.visited_up st) t)
  /\ (forall t pk, seen_up st t pk ->
        Graph.reachable_parent schema config seed_table seed_pks (t, pk))
  /\ (forall s, s ∈ seed_pks -> seen_up st seed_table s)
  /\ (forall e, e ∈ Graph.queue st ->
        match Graph.e_tag e with
        | Graph.up => forall pk, pk ∈ Graph.e_pks e -> seen_up st (Graph.e_table e) pk
        | Graph.down => (Graph.max_depth config <= Graph.e_depth e)%Z
        end)
  /\ (forall t pk, seen_up st t pk ->
        queued_up st t pk
        \/ parents_seen st (get_parents schema t) t pk
        \/ match current with
           | Some (table, pks, followed) =>
               t = table /\ pk ∈ pks /\ parents_seen st followed t pk
           | None => False
           end)
  /\ match current with
     | Some (table, pks, _) => forall pk, pk ∈ pks -> seen_up st table pk
     | None => True
     end.

(** The rows of [U] not yet marked, and the bound on the turns left. *)
Definition unseen (U : gset (string * pk_tuple)) (st : Graph.state)
  : gset (string * pk_tuple) :=
  filter (fun row => row.2 ∉ Graph.get_set (Graph.visited_up st) row.1) U.

Definition potential (U : gset (string * pk_tuple)) (st : Graph.state) : nat :=
  2 * size (unseen U st) + length (Graph.queue st).

End Upward.

(** *** The progress callback *)

(** The computation [m] reports no validation, raises no
    [ExtractionError], and what it returns satisfies [Q]. *)
Definition quiet {A : Type} (m : ExtractionEngine.logged A) (Q : A -> Prop) : Prop :=
  Forall (fun ev => ExtractionEngine.stage ev <> "validate")
    (ExtractionEngine.events m)
  /\ (forall msg, ExtractionEngine.outcome m <> Raise (ExtractionError msg))
  /\ (forall a, ExtractionEngine.outcome m = Ok a -> Q a).

(** The call raises nothing but [KeyError]. *)
Definition only_key_error {A : Type} (r : result A) : Prop :=
  match r with
  | Ok _ => True
  | Raise e => exists key, e = KeyError key
  end.

(** *** Validation *)

(** What [validate] keeps true of its result: it is valid exactly when no
    orphan is recorded, and every recorded orphan is a reference without
    NULL, through a foreign key that is not broken, to a parent that the
    index of primary keys does not hold. *)
Definition validated (schema : SchemaGraph) (broken_fks : list ForeignKey)
    (pk_index : gmap string (gset pk_tuple))
    (res : Validation.ValidationResult) : Prop :=
  (Validation.is_valid res = true <-> Validation.orphaned_records res = [])
  /\ Validation.vr_broken_fks res = broken_fks
  /\ forall o, o ∈ Validation.orphaned_records res ->
       (PNone ∉ Validation.o_fk_values o)
       /\ Validation._has_parent_record (Validation.o_parent_table o)
            (Validation.o_fk_values o) pk_index = false
       /\ exists fk,
            (Validation.o_parent_table o, fk)
              ∈ get_parents schema (Validation.o_table o)
            /\ (fk ∉ broken_fks)
            /\ Validation.o_fk_name o = fk_name fk
            /\ Validation.o_fk_columns o = source_columns fk.

(** The test that [check_fk] makes of a reference of the row [r]: the
    foreign key is broken, or one of its values is [None], or the index
    holds the parent. *)
Definition resolved (broken_fks : list ForeignKey)
    (pk_index : gmap string (gset pk_tuple)) (r : row)
    (parent : string * ForeignKey) : bool :=
  bool_decide (parent.2 ∈ broken_fks)
  || existsb (fun v => bool_decide (v = PNone))
       (Validation._extract_fk_values r (source_columns parent.2))
  || Validation._has_parent_record parent.1
       (Validation._extract_fk_values r (source_columns parent.2)) pk_index.

(** Every extracted row of a table of the schema holds the primary-key
    columns of its table. *)
Definition keyed (schema : SchemaGraph) (tables : list (string * list row)) : Prop :=
  forall t rows table_info r col,
    (t, rows) ∈ tables -> get_table schema t = Some table_info ->
    r ∈ rows -> col ∈ primary_key table_info -> is_Some (row_get r col).

(** *** The traversal in both directions *)

Section Closure.

Context (schema : SchemaGraph) {adapter : Graph.DatabaseAdapter}.
Variable config : Graph.TraversalConfig.
Variable seed_table : string.
Variable seed_pks : Graph.pk_set.

(** The rows of [U] not yet marked in [visited_down]. *)
Definition unseen_down (U : gset (string * pk_tuple)) (st : Graph.state)
  : gset (string * pk_tuple) :=
  filter (fun row => row.2 ∉ Graph.get_set (Graph.visited_down st) row.1) U.

(** The bound on the turns of the loop that are left. *)
Definition turns_left (U : gset (string * pk_tuple)) (st : Graph.state) : nat :=
  2 * size (unseen U st) + 3 * size (unseen_down U st) + length (Graph.queue st).

(** The state of a traversal in any direction: the records are the rows
    marked in [visited_up], and every such row waits in the queue with
    the tag "up", or has its parents marked, or is a seed row of a
    downward traversal.  [current] is the entry that [_traverse_up] is
    working on, as in [upward]. *)
Definition closed
    (current : option (string * Graph.pk_set * list (string * ForeignKey)))
    (st : Graph.state) : Prop :=
  (forall t, Graph.get_records (Graph.st_result st) t
             = Graph.get_set (Graph.visited_up st) t)
  /\ (forall e, e ∈ Graph.queue st -> Graph.e_tag e = Graph.up ->
        forall pk, pk ∈ Graph.e_pks e -> seen_up st (Graph.e_table e) pk)
  /\ (forall t pk, seen_up st t pk ->
        queued_up st t pk
        \/ parents_seen config st (get_parents schema t) t pk
        \/ (Graph.direction config = Graph.DOWN /\ t = seed_table /\ pk ∈ seed_pks)
        \/ match current with
           | Some (table, pks, followed) =>
               t = table /\ pk ∈ pks /\ parents_seen config st followed t pk
           | None => False
           end)
  /\ match current with
     | Some (table, pks, _) => forall pk, pk ∈ pks -> seen_up st table pk
     | None => True
     end.

(** The rows marked and queued lie within the depth: a row marked in
    [visited_up] is in reach of the seed rows, and the rows of a queue
    entry tagged "down" are descendants of the seed rows at the depth of
    the entry. *)
Definition shallow (st : Graph.state) : Prop :=
  (forall t pk, seen_up st t pk ->
     Graph.in_reach schema config seed_table seed_pks
       (Z.to_nat (Graph.max_depth config)) (t, pk))
  /\ (forall e, e ∈ Graph.queue st -> Graph.e_tag e = Graph.up ->
        forall pk, pk ∈ Graph.e_pks e ->
          Graph.in_reach schema config seed_table seed_pks
            (Z.to_nat (Graph.max_depth config)) (Graph.e_table e, pk))
  /\ (forall e, e ∈ Graph.queue st -> Graph.e_tag e = Graph.down ->
        (0 <= Graph.e_depth e)%Z
        /\ forall pk, pk ∈ Graph.e_pks e ->
             Graph.descendant schema config seed_table seed_pks
               (Z.to_nat (Graph.e_depth e)) (Graph.e_table e, pk)).

End Closure.

(** *** The sorter on an acyclic graph *)

(** The node [s] has the predecessor [p]. *)
Definition needs (graph : list (string * list string)) (s p : string) : Prop :=
  p ∈ Graphlib.deps_of graph s.

(** No node is among its own predecessors, directly or through others. *)
Definition acyclic (graph : list (string * list string)) : Prop :=
  forall x, ~ tc (needs graph) x x.

(** The nodes of the sorter and the links between them: the keys of
    [_node2info] are the nodes in [_node_order], each once, and the
    successors of a node are the nodes that have it as a predecessor. *)
Definition wired (graph : list (string * list string)) (ts : Graphlib.sorter) : Prop :=
  NoDup (Graphlib._node_order ts)
  /\ (forall x, x ∈ Graphlib._node_order ts <-> is_Some (Graphlib._node2info ts !! x))
  /\ (forall p info s, Graphlib._node2info ts !! p = Some info ->
        count_occ String.string_dec (Graphlib.successors info) s
        = count_occ String.string_dec (Graphlib.deps_of graph s) p)
  /\ (forall s p, p ∈ Graphlib.deps_of graph s ->
        is_Some (Graphlib._node2info ts !! p)
        /\ is_Some (Graphlib._node2info ts !! s)).

(** The counters of the sorter while [static_order] runs.  [D] are the
    nodes marked done, [todo] the nodes passed out and not yet marked,
    [pending] the successors that the current call of [done] has still to
    visit ([extra] is 1 during such a call).  A node that is neither done
    nor passed out counts its predecessors that are not done; the ready
    nodes are those whose count is 0. *)
Definition settled (graph : list (string * list string)) (D : gset string)
    (todo pending : list string) (extra : nat) (ts : Graphlib.sorter) : Prop :=
  (forall s info, Graphlib._node2info ts !! s = Some info ->
     (0 <= Graphlib.npredecessors info)%Z ->
     Graphlib.npredecessors info
     = Z.of_nat (undone D (Graphlib.deps_of graph s)
                 + count_occ String.string_dec pending s)
     /\ s ∉ D /\ s ∉ todo)
  /\ (forall s info, Graphlib._node2info ts !! s = Some info ->
        (Graphlib.npredecessors info < 0)%Z ->
        count_occ String.string_dec pending s = 0
        /\ ((s ∈ D /\ Graphlib.npredecessors info = Graphlib._NODE_DONE)
            \/ (s ∈ todo /\ Graphlib.npredecessors info = Graphlib._NODE_OUT))
        /\ forall q, q ∈ Graphlib.deps_of graph s -> q ∈ D)
  /\ (forall s, s ∈ Graphlib._ready_nodes ts
                <-> exists info, Graphlib._node2info ts !! s = Some info
                                 /\ Graphlib.npredecessors info = 0%Z)
  /\ NoDup (Graphlib._ready_nodes ts)
  /\ NoDup todo
  /\ (forall g, g ∈ todo ->
        g ∉ D /\ exists info, Graphlib._node2info ts !! g = Some info
                              /\ Graphlib.npredecessors info = Graphlib._NODE_OUT)
  /\ (forall d, d ∈ D -> is_Some (Graphlib._node2info ts !! d))
  /\ Graphlib._nfinished ts + extra + length todo = Graphlib._npassedout ts.

(** The successors of a node in the sorter. *)
Definition leads (ts : Graphlib.sorter) (n s : string) : Prop :=
  s ∈ Graphlib.successors_of ts n.

(** The stack of the search for a cycle: every entry still has to produce
    successors of its node only, and each node of the stack is a successor
    of the one below it. *)
Fixpoint trail (ts : Graphlib.sorter) (stack : list (string * list string)) : Prop :=
  match stack with
  | [] => True
  | (n, its) :: rest =>
      (forall s, s ∈ its -> leads ts n s)
      /\ match rest with
         | [] => True
         | (m, _) :: _ => leads ts m n
         end
      /\ trail ts rest
  end.

(** The successors that a search may still produce: those of the nodes not
    yet seen and those left in the stack. *)
Definition search_left (ts : Graphlib.sorter) (stack : list (string * list string))
    (seen : gset string) : nat :=
  list_sum
    (List.map (fun n => length (Graphlib.successors_of ts n))
       (List.filter (fun n => negb (bool_decide (n ∈ seen))) (Graphlib._node_order ts)))
  + list_sum (List.map (fun entry => length entry.2) stack).

(** The inner function of [_find_cycle_from], which walks back down the
    stack, with the search it resumes as a parameter. *)
Section Backtrack.

Variable resume :
  string -> list (string * list string) -> gset string
  -> result (option (list string) * gset string).

Fixpoint backtrack (stack : list (string * list string)) (seen : gset string)
  : result (option (list string) * gset string) :=
  match stack with
  | [] => Ok (None, seen)
  | (n, []) :: rest => backtrack rest seen
  | (n, next :: its) :: rest => resume next ((n, its) :: rest) seen
  end.

End Backtrack.

(** The table [s] references the table [p] through a catalog foreign key,
    both being among [tables]. *)
Definition references (schema : SchemaGraph) (tables : list string) (s p : string)
  : Prop :=
  exists fk, fk ∈ edges schema /\ source_table fk = s /\ target_table fk = p
             /\ s ∈ tables /\ p ∈ tables.

(** A table of the fetch phase is a table of the schema for which keys were
    selected, with its fetched rows after anonymization. *)
Definition fetched_from (schema : SchemaGraph)
    (fetch_by_pk : string -> list string -> Graph.pk_set -> list row)
    (anonymizer : option (string -> row -> row))
    (all_records : list (string * Graph.pk_set))
    (item : string * list row) : Prop :=
  exists pk_values table_info,
    (item.1, pk_values) ∈ all_records
    /\ pk_values <> ∅
    /\ get_table schema item.1 = Some table_info
    /\ item.2 = ExtractionEngine._anonymize_table_data anonymizer item.1
                  (fetch_by_pk item.1 (primary_key table_info) pk_values).

End Invariants.

(** * Properties *)

(** ** Strings *)

Lemma append_cons (c : ascii) (s t : string) : String c s +:+ t = String c (s +:+ t).
Proof. reflexivity. Qed.

Lemma append_nil_r (s : string) : s +:+ "" = s.
Proof. induction s as [|c s IH]; [done|]. by rewrite append_cons, IH. Qed.

Lemma append_assoc (s1 s2 s3 : string) : (s1 +:+ s2) +:+ s3 = s1 +:+ s2 +:+ s3.
Proof. induction s1 as [|c s1 IH]; [done|]. by rewrite !append_cons, IH. Qed.

Lemma prefixb_app (s rest : string) : Str.prefixb s (s +:+ rest) = true.
Proof.
  induction s as [|c s IH]; [done|].
  rewrite append_cons. cbn. by rewrite Ascii.eqb_refl.
Qed.

Lemma prefixb_app_l (s : string) : forall hay post,
  Str.prefixb s hay = true -> Str.prefixb s (hay +:+ post) = true.
Proof.
  induction s as [|c s IH]; intros hay post; [done|].
  destruct hay as [|h hay]; [discriminate|].
  rewrite append_cons. cbn.
  destruct (Ascii.eqb c h); [apply IH|discriminate].
Qed.

Lemma contains_here (s rest : string) : Str.contains s (s +:+ rest) = true.
Proof.
  destruct (s +:+ rest) eqn:Heq; cbn [Str.contains];
    rewrite <- Heq, prefixb_app; reflexivity.
Qed.

Lemma contains_skip (pre s hay : string) :
  Str.contains s hay = true -> Str.contains s (pre +:+ hay) = true.
Proof.
  intros H. induction pre as [|c pre IH]; [done|].
  rewrite append_cons. cbn [Str.contains]. rewrite IH. apply orb_true_r.
Qed.

Lemma contains_app_l (s : string) : forall hay post,
  Str.contains s hay = true -> Str.contains s (hay +:+ post) = true.
Proof.
  intros hay. induction hay as [|h hay IH]; intros post H.
  - cbn in H. rewrite orb_false_r in H. destruct s; [|discriminate].
    by destruct post.
  - cbn [Str.contains] in H. apply orb_true_iff in H as [H|H].
    + rewrite append_cons. cbn [Str.contains]. rewrite <- append_cons.
      by rewrite prefixb_app_l.
    + rewrite append_cons. cbn [Str.contains]. rewrite IH by done.
      apply orb_true_r.
Qed.

Lemma contains_refl (s : string) : Str.contains s s = true.
Proof.
  pose proof (contains_here s "") as H. by rewrite append_nil_r in H.
Qed.

Lemma contains_join (sep x : string) (parts : list string) :
  x ∈ parts -> Str.contains x (Str.join sep parts) = true.
Proof.
  induction parts as [|p parts IH]; intros Hx; [by apply elem_of_nil in Hx|].
  destruct parts as [|q parts].
  - apply list_elem_of_singleton in Hx as ->. cbn. apply contains_refl.
  - change (Str.join sep (p :: q :: parts))
      with (p +:+ sep +:+ Str.join sep (q :: parts)).
    apply elem_of_cons in Hx as [->|Hx].
    + apply contains_here.
    + apply contains_skip, contains_skip. by apply IH.
Qed.

(** ** The anonymizer *)

Section AnonymizerTheory.

Variable global_seed : string.
Variable schema : option SchemaGraph.
Variable redact_fields : gset string.
Variable sha256_seed : string -> Z.
Variable faker_method : Z -> string -> option pyval.
Variable faker_pystr : Z -> string -> pyval.

#[local] Abbreviation init := Anonymizer.init.
#[local] Abbreviation _cache := Anonymizer._cache.
#[local] Abbreviation _fk_columns_cache := Anonymizer._fk_columns_cache.
#[local] Abbreviation fk_columns_of := Anonymizer.fk_columns_of.
#[local] Abbreviation should_null := Anonymizer.should_null.
#[local] Abbreviation synthesize :=
  (Anonymizer.synthesize global_seed sha256_seed faker_method faker_pystr).
#[local] Abbreviation _is_foreign_key_column := (Anonymizer._is_foreign_key_column schema).
#[local] Abbreviation should_anonymize := (Anonymizer.should_anonymize schema redact_fields).
#[local] Abbreviation anonymize_value :=
  (Anonymizer.anonymize_value global_seed schema redact_fields
     sha256_seed faker_method faker_pystr).
#[local] Abbreviation run_calls :=
  (Anonymizer.run_calls global_seed schema redact_fields
     sha256_seed faker_method faker_pystr).
#[local] Abbreviation is_fk_column := (Anonymizer.is_fk_column schema).
#[local] Abbreviation anonymizes := (Anonymizer.anonymizes schema redact_fields).
#[local] Abbreviation classified := (Anonymizer.classified schema redact_fields).
#[local] Abbreviation coherent :=
  (Anonymizer.coherent global_seed schema sha256_seed faker_method faker_pystr).
#[local] Abbreviation anonymized_of :=
  (Anonymizer.anonymized_of global_seed schema redact_fields
     sha256_seed faker_method faker_pystr).

Lemma coherent_init : coherent init.
Proof.
  split; cbn; intros *.
  - rewrite lookup_empty. discriminate.
  - intros _. rewrite lookup_empty. discriminate.
Qed.

Lemma is_fk_column_spec st table column :
  coherent st ->
  fst (_is_foreign_key_column st table column) = is_fk_column table column
  /\ coherent (snd (_is_foreign_key_column st table column))
  /\ _cache (snd (_is_foreign_key_column st table column)) = _cache st.
Proof.
  intros Hst. pose proof Hst as [Hc Hfk].
  unfold _is_foreign_key_column, is_fk_column.
  destruct schema as [g|] eqn:Hs; cbn; [|done].
  destruct (_fk_columns_cache st !! table) as [cols|] eqn:Hl; cbn.
  - rewrite (Hfk g table cols eq_refl Hl). done.
  - repeat split; cbn; [exact Hc|].
    intros g' table' cols' Hg'. assert (g' = g) as -> by congruence.
    destruct (decide (table = table')) as [<-|Hne].
    + rewrite lookup_insert_eq. congruence.
    + rewrite lookup_insert_ne by done. by apply Hfk.
Qed.

Lemma should_anonymize_spec st table column :
  coherent st ->
  fst (should_anonymize st table column) = anonymizes table column
  /\ coherent (snd (should_anonymize st table column))
  /\ _cache (snd (should_anonymize st table column)) = _cache st.
Proof.
  intros Hst. unfold should_anonymize, anonymizes.
  destruct (is_fk_column_spec st table column Hst) as (Hv & Hco & Hca).
  destruct (_is_foreign_key_column st table column) as [b st1]; cbn in *.
  rewrite <- Hv. destruct b; cbn; [done|].
  by destruct (bool_decide _).
Qed.

Lemma anonymize_value_spec st value table column :
  coherent st ->
  fst (anonymize_value st value table column) = anonymized_of value table column
  /\ coherent (snd (anonymize_value st value table column)).
Proof.
  intros Hst. unfold anonymize_value, anonymized_of.
  destruct (should_anonymize_spec st table column Hst) as (Hv & Hco & Hca).
  destruct (should_anonymize st table column) as [anon st1].
  simpl fst in *; simpl snd in *. rewrite <- Hv. clear Hv.
  assert (Hins : coherent
    {| _cache := <[(py_str value, column) := synthesize column (py_str value)]>
                   (_cache st1);
       _fk_columns_cache := _fk_columns_cache st1 |}).
  { destruct Hco as [Hc Hfk]. split; cbn; [|exact Hfk].
    intros k v. destruct (decide ((py_str value, column) = k)) as [<-|Hne].
    - rewrite lookup_insert_eq. by intros [= <-].
    - rewrite lookup_insert_ne by done. apply Hc. }
  destruct (should_null table column); destruct value; cbn; try done;
    destruct anon; cbn; try done;
    (match goal with
     | |- context [_cache st1 !! ?k] =>
         destruct (_cache st1 !! k) as [cached|] eqn:Hl; cbn;
         [ split; [exact (proj1 Hco _ _ Hl) | exact Hco]
         | split; [reflexivity | exact Hins] ]
     end).
Qed.

Lemma coherent_run_calls calls : coherent (run_calls calls).
Proof.
  unfold run_calls. generalize coherent_init. generalize init.
  induction calls as [|[[v t] c] calls IH]; intros st Hst; cbn; [done|].
  apply IH. by apply anonymize_value_spec.
Qed.

#[local] Abbreviation classified_output :=
  (Anonymizer.classified_output global_seed sha256_seed faker_method faker_pystr).

Lemma should_null_table_irrelevant table column :
  should_null table column = should_null "" column.
Proof. reflexivity. Qed.

Lemma anonymized_of_classified value table column :
  classified table column = true ->
  anonymized_of value table column = classified_output value column.
Proof.
  unfold Anonymizer.classified, Anonymizer.anonymized_of, Anonymizer.classified_output.
  rewrite (should_null_table_irrelevant table column).
  destruct (should_null "" column); [by destruct value|].
  rewrite orb_false_l. intros ->. reflexivity.
Qed.


(** C1 (at the failing input): the column [user_sessions.session_id] is the
    source column of a foreign key, yet [anonymize_value] returns [None]
    for the value 42 instead of the value itself, because the
    security-NULL test runs before the foreign-key test. *)
Theorem C1_fk_column_session_id_is_nulled :
  Anonymizer.is_fk_column (Some Anonymizer.sessions_schema)
    "user_sessions" "session_id" = true
  /\ (Anonymizer.anonymize_value global_seed (Some Anonymizer.sessions_schema)
        redact_fields sha256_seed faker_method faker_pystr
        Anonymizer.init (PInt 42) "user_sessions" "session_id").1 = PNone
  /\ (Anonymizer.anonymize_value global_seed (Some Anonymizer.sessions_schema)
        redact_fields sha256_seed faker_method faker_pystr
        Anonymizer.init (PInt 42) "user_sessions" "session_id").1 <> PInt 42.
Proof.
  split; [|split].
  - vm_compute. reflexivity.
  - vm_compute. reflexivity.
  - vm_compute. discriminate.
Qed.

(** C7: for a classified column the value returned by [anonymize_value] is
    [classified_output value column], a function of the global seed, the
    column name and the original value; hence two calls with the same
    column and value agree, in whichever tables and after whichever
    earlier calls they are made, and a [None] input always yields [None]. *)
Theorem C7_anonymization_is_deterministic
    (calls1 calls2 : list (pyval * string * string))
    (value : pyval) (table1 table2 column : string) :
  classified table1 column = true ->
  classified table2 column = true ->
  (anonymize_value (run_calls calls1) value table1 column).1
    = classified_output value column
  /\ (anonymize_value (run_calls calls1) value table1 column).1
     = (anonymize_value (run_calls calls2) value table2 column).1
  /\ (forall calls table column',
        (anonymize_value (run_calls calls) PNone table column').1 = PNone).
Proof.
  intros H1 H2.
  destruct (anonymize_value_spec (run_calls calls1) value table1 column
              (coherent_run_calls calls1)) as [E1 _].
  destruct (anonymize_value_spec (run_calls calls2) value table2 column
              (coherent_run_calls calls2)) as [E2 _].
  rewrite E1, E2, !anonymized_of_classified by assumption.
  repeat split. 
Qed.

End AnonymizerTheory.

Lemma C7_anonymization_is_deterministic_witness :
  (Anonymizer.anonymize_value "s" (Some Anonymizer.sessions_schema) ∅
     Anonymizer.demo_sha256_seed Anonymizer.demo_faker_method
     Anonymizer.demo_faker_pystr
     (Anonymizer.run_calls "s" (Some Anonymizer.sessions_schema) ∅
        Anonymizer.demo_sha256_seed Anonymizer.demo_faker_method
        Anonymizer.demo_faker_pystr
        [(PStr "bob@example.com", "users", "email")])
     (PStr "alice@example.com") "users" "email").1
  = (Anonymizer.anonymize_value "s" (Some Anonymizer.sessions_schema) ∅
       Anonymizer.demo_sha256_seed Anonymizer.demo_faker_method
       Anonymizer.demo_faker_pystr
       (Anonymizer.run_calls "s" (Some Anonymizer.sessions_schema) ∅
          Anonymizer.demo_sha256_seed Anonymizer.demo_faker_method
          Anonymizer.demo_faker_pystr
          [(PStr "alice@example.com", "user_sessions", "user_email");
           (PInt 7, "user_sessions", "id")])
       (PStr "alice@example.com") "user_sessions" "email").1.
Proof.
  apply (C7_anonymization_is_deterministic "s" (Some Anonymizer.sessions_schema) ∅
           Anonymizer.demo_sha256_seed Anonymizer.demo_faker_method
           Anonymizer.demo_faker_pystr
           [(PStr "bob@example.com", "users", "email")]
           [(PStr "alice@example.com", "user_sessions", "user_email");
            (PInt 7, "user_sessions", "id")]
           (PStr "alice@example.com") "users" "user_sessions" "email");
    vm_compute; reflexivity.
Defined.


(** ** Batched fetch by primary key *)

Section FetchByPk.

#[local] Abbreviation batches_of := PostgreSQLAdapter.batches_of.
#[local] Abbreviation batch_query := PostgreSQLAdapter.batch_query.
#[local] Abbreviation fetch_by_pk_queries := PostgreSQLAdapter.fetch_by_pk_queries.
#[local] Abbreviation effective_batch_size := PostgreSQLAdapter.effective_batch_size.
#[local] Abbreviation sql := PostgreSQLAdapter.sql.
#[local] Abbreviation params := PostgreSQLAdapter.params.

Lemma mapM_result_Forall2 {A B : Type} (f : A -> result B) l l' :
  mapM_result f l = Ok l' -> Forall2 (fun a b => f a = Ok b) l l'.
Proof.
  revert l'. induction l as [|a l IH]; intros l'; cbn.
  - intros [= <-]. constructor.
  - destruct (f a) as [b|e] eqn:Hfa; cbn; [|discriminate].
    destruct (mapM_result f l) as [bs|e] eqn:Hl; cbn; [|discriminate].
    intros [= <-]. constructor; [done|]. by apply IH.
Qed.

Lemma mapM_result_total {A B : Type} (f : A -> result B) l :
  Forall (fun a => exists b, f a = Ok b) l ->
  exists l', mapM_result f l = Ok l'.
Proof.
  induction 1 as [|a l [b Hb] _ [bs Hbs]]; cbn.
  - by eexists.
  - rewrite Hb; cbn. rewrite Hbs; cbn. by eexists.
Qed.

Lemma slice_chunk {A : Type} (l : list A) (a k : nat) :
  PostgreSQLAdapter.slice l a (Nat.min (a + k) (length l)) = firstn k (skipn a l).
Proof.
  unfold PostgreSQLAdapter.slice.
  destruct (Nat.le_gt_cases (a + k) (length l)) as [Hle|Hgt].
  - rewrite Nat.min_l by done. f_equal. lia.
  - rewrite Nat.min_r by lia.
    rewrite (firstn_all2 (n := k)) by (rewrite length_skipn; lia).
    apply firstn_all2. rewrite length_skipn. lia.
Qed.

Lemma chunks_concat {A : Type} (k m : nat) (l : list A) :
  0 < k -> length l <= m * k ->
  List.concat (List.map (fun i => firstn k (skipn (i * k) l)) (seq 0 m)) = l.
Proof.
  intros Hk. revert l. induction m as [|m IH]; intros l Hlen.
  - destruct l; [done|cbn in Hlen; lia].
  - rewrite <- cons_seq, <- seq_shift. cbn [List.map List.concat].
    rewrite List.map_map, Nat.mul_0_l, skipn_O.
    transitivity (firstn k l ++ skipn k l); [|apply firstn_skipn]. f_equal.
    etransitivity; [|apply (IH (skipn k l)); rewrite length_skipn; lia].
    f_equal. apply List.map_ext. intros i.
    rewrite skipn_skipn. do 2 f_equal. lia.
Qed.

Lemma ceil_div_bounds (n k : Z) :
  (0 < k)%Z -> (0 <= n)%Z ->
  (n <= ((n + k - 1) / k) * k)%Z /\ ((((n + k - 1) / k) - 1) * k < n)%Z.
Proof.
  intros Hk Hn.
  pose proof (Z.div_mod (n + k - 1) k ltac:(lia)) as Hdm.
  pose proof (Z.mod_pos_bound (n + k - 1) k Hk) as Hmod.
  nia.
Qed.

(** The batches for a positive effective batch size. *)
Lemma batches_of_pos {A : Type} (ebs : Z) (l : list A) :
  (0 < ebs)%Z ->
  batches_of ebs l =
    Ok (List.map (fun i => firstn (Z.to_nat ebs) (skipn (i * Z.to_nat ebs) l))
          (seq 0 (Z.to_nat ((Z.of_nat (length l) + ebs - 1) / ebs)))).
Proof.
  intros Hpos. unfold PostgreSQLAdapter.batches_of, PostgreSQLAdapter.py_range0.
  destruct (Z.eqb_spec ebs 0) as [->|_]; [lia|].
  destruct (Z.ltb_spec ebs 0) as [?|_]; [lia|]. cbn.
  f_equal. rewrite List.map_map. apply List.map_ext. intros i.
  apply slice_chunk.
Qed.

Lemma first_components_total (batch : list pk_tuple) :
  Forall (fun pk => length pk = 1) batch ->
  exists values,
    mapM_result PostgreSQLAdapter.first_component batch = Ok values
    /\ Forall2 (fun pk v => pk = [v]) batch values.
Proof.
  induction 1 as [|pk batch Hpk _ (values & Hv & Hall)]; cbn.
  - exists []. split; [done|constructor].
  - destruct pk as [|v [|? ?]]; try discriminate. cbn.
    rewrite Hv; cbn. exists (v :: values). split; [done|]. by constructor.
Qed.

#[local] Abbreviation in_list_sql := PostgreSQLAdapter.in_list_sql.
#[local] Abbreviation or_of_and_sql := PostgreSQLAdapter.or_of_and_sql.
#[local] Abbreviation query_of_batch := PostgreSQLAdapter.query_of_batch.

Lemma batch_query_shape table pk_columns batch :
  Forall (fun pk : pk_tuple => length pk = length pk_columns) batch ->
  exists q, batch_query table pk_columns batch = Ok q
            /\ query_of_batch table pk_columns batch q.
Proof.
  intros Hall. unfold PostgreSQLAdapter.query_of_batch, PostgreSQLAdapter.batch_query.
  assert (Hcomp : forall cols,
    (List.map (fun _ : pk_tuple => "(" +:+ Str.join " AND "
                 (List.map (fun col => quoted col +:+ " = %s") cols) +:+ ")") batch)
    = List.repeat ("(" +:+ Str.join " AND "
                 (List.map (fun col => quoted col +:+ " = %s") cols) +:+ ")")
        (length batch)).
  { intros cols. induction batch as [|? ? IH]; cbn; [done|]. f_equal. apply IH.
    by inversion Hall. }
  destruct pk_columns as [|col [|col' rest]].
  - eexists. split; [reflexivity|]. cbn [sql params]. unfold PostgreSQLAdapter.or_of_and_sql.
    by rewrite Hcomp.
  - destruct (first_components_total batch Hall) as (values & Hv & Hshape).
    rewrite Hv. cbn. eexists. split; [reflexivity|]. cbn [sql params].
    split; [|done]. unfold PostgreSQLAdapter.in_list_sql.
    by rewrite <- (Forall2_length _ _ _ Hshape).
  - eexists. split; [reflexivity|]. cbn [sql params]. unfold PostgreSQLAdapter.or_of_and_sql.
    by rewrite Hcomp.
Qed.

Lemma Forall_firstn_skipn {A : Type} (P : A -> Prop) (l : list A) (a k : nat) :
  Forall P l -> Forall P (firstn k (skipn a l)).
Proof.
  intros H. by apply Forall_take, Forall_drop.
Qed.


End FetchByPk.


(** ** The WHERE-clause filter *)

Section FilterTheory.

Variable keywords : list string.
Variable functions : list string.

(** Any enumeration order of the two sets. *)
Hypothesis keywords_enum : keywords ≡ₚ Config.DANGEROUS_SQL_KEYWORDS.
Hypothesis functions_enum : functions ≡ₚ Config.DANGEROUS_PG_FUNCTIONS.

#[local] Abbreviation validate nfkc :=
  (Config.validate_where_clause_with nfkc keywords functions).
#[local] Abbreviation collapse_quoted := Config.collapse_quoted.
#[local] Abbreviation has_forbidden_construct := Config.has_forbidden_construct.

Lemma find_none_existsb {A : Type} (f : A -> bool) (l : list A) :
  List.find f l = None <-> existsb f l = false.
Proof.
  induction l as [|a l IH]; cbn; [done|].
  destruct (f a); cbn; [split; discriminate | exact IH].
Qed.

Lemma find_some_existsb {A : Type} (f : A -> bool) (l : list A) x :
  List.find f l = Some x -> existsb f l = true.
Proof.
  intros H. destruct (existsb f l) eqn:E; [done|].
  apply find_none_existsb in E. congruence.
Qed.

Lemma existsb_Permutation {A : Type} (f : A -> bool) (l l' : list A) :
  l ≡ₚ l' -> existsb f l = existsb f l'.
Proof.
  induction 1 as [|x l l' _ IH|x y l|l l' l'' _ IH1 _ IH2]; cbn.
  - done.
  - by rewrite IH.
  - by destruct (f x), (f y).
  - by rewrite IH1.
Qed.

Lemma find_keywords (u : string) :
  List.find (fun keyword => Re.search (Config.keyword_re keyword) u) keywords = None
  <-> existsb (fun keyword => Re.search (Config.keyword_re keyword) u)
        Config.DANGEROUS_SQL_KEYWORDS = false.
Proof. rewrite find_none_existsb. by rewrite (existsb_Permutation _ _ _ keywords_enum). Qed.

Lemma find_functions (u : string) :
  List.find (fun func_name => Re.search (Config.function_re func_name) u) functions
    = None
  <-> existsb (fun func_name => Re.search (Config.function_re func_name) u)
        Config.DANGEROUS_PG_FUNCTIONS = false.
Proof. rewrite find_none_existsb. by rewrite (existsb_Permutation _ _ _ functions_enum). Qed.

#[local] Abbreviation reported_seed := Config.reported_seed.

Lemma validate_rejects nfkc where_clause seed_str :
  where_clause <> "" ->
  has_forbidden_construct (collapse_quoted (nfkc where_clause)) = true ->
  exists construct,
    validate nfkc where_clause seed_str
    = Raise (InsecureWhereClauseError (reported_seed where_clause seed_str) construct).
Proof.
  intros Hne Hforb. unfold Config.validate_where_clause_with, Config.reported_seed.
  rewrite bool_decide_eq_false_2 by done.
  set (n := collapse_quoted (nfkc where_clause)) in *.
  destruct (Re.search Config.dollar_quoting_re n) eqn:Hd; [by eexists|].
  destruct (Re.search Config.escape_string_re n) eqn:He; [by eexists|].
  destruct (List.find _ keywords) as [kw|] eqn:Hk; [by eexists|].
  destruct (List.find _ functions) as [fn|] eqn:Hf; [by eexists|].
  destruct (Re.search Config.subquery_re (Str.upper n)) eqn:Hs; [by eexists|].
  destruct (Str.contains "::" n) eqn:Hc; [by eexists|].
  destruct (Str.contains ";" n) eqn:Hsc; [by eexists|].
  destruct (Str.contains "--" n || Str.contains "/*" n || Str.contains "*/" n)
    eqn:Hcm; [by eexists|].
  exfalso. apply find_keywords in Hk. apply find_functions in Hf.
  unfold Config.has_forbidden_construct, Config.has_dangerous_keyword,
    Config.has_dangerous_function in Hforb.
  rewrite Hk, Hf, Hd, He, Hs, Hc, Hsc, Hcm in Hforb. discriminate.
Qed.

Lemma validate_accepts nfkc where_clause seed_str :
  has_forbidden_construct (collapse_quoted (nfkc where_clause)) = false ->
  validate nfkc where_clause seed_str = Ok tt.
Proof.
  intros Hforb. unfold Config.validate_where_clause_with.
  destruct (bool_decide (where_clause = "")); [done|].
  set (n := collapse_quoted (nfkc where_clause)) in *.
  unfold Config.has_forbidden_construct in Hforb.
  rewrite !orb_false_iff in Hforb.
  destruct Hforb as
    [[[[[[[Hkw Hsc] [[Hc1 Hc2] Hc3]] Hsub] Hdol] Hesc] Hcast] Hfn].
  rewrite Hdol, Hesc.
  rewrite (proj2 (find_keywords (Str.upper n)) Hkw).
  rewrite (proj2 (find_functions (Str.lower n)) Hfn).
  by rewrite Hsub, Hcast, Hsc, Hc1, Hc2, Hc3.
Qed.

(** A keyword cited by the filter is one that matches. *)
Lemma find_keywords_unique (u kw : string) :
  List.filter (fun keyword => Re.search (Config.keyword_re keyword) u)
    Config.DANGEROUS_SQL_KEYWORDS = [kw] ->
  List.find (fun keyword => Re.search (Config.keyword_re keyword) u) keywords
  = Some kw.
Proof.
  intros Hfilter.
  set (f := fun keyword => Re.search (Config.keyword_re keyword) u) in *.
  assert (Hin : forall x, In x keywords -> f x = true -> x = kw).
  { intros x Hx Hfx.
    assert (In x (List.filter f Config.DANGEROUS_SQL_KEYWORDS)) as Hx'.
    { apply List.filter_In. split; [|done].
      apply list_elem_of_In. rewrite <- keywords_enum. by apply list_elem_of_In. }
    rewrite Hfilter in Hx'. destruct Hx' as [->|[]]. done. }
  assert (Hkw : In kw keywords /\ f kw = true).
  { assert (In kw (List.filter f Config.DANGEROUS_SQL_KEYWORDS)) as Hx'
      by (rewrite Hfilter; by left).
    apply List.filter_In in Hx' as [Hx' ?]. split; [|done].
    apply list_elem_of_In. rewrite keywords_enum. by apply list_elem_of_In. }
  destruct (List.find f keywords) as [x|] eqn:Hfind.
  - apply List.find_some in Hfind as [? ?]. f_equal. by apply Hin.
  - exfalso. eapply List.find_none in Hfind; [|exact (proj1 Hkw)].
    destruct Hkw. congruence.
Qed.


End FilterTheory.



(** ** The topological sorter *)

Section SorterConstruction.

#[local] Abbreviation deps_of := Graphlib.deps_of.
#[local] Abbreviation _node2info := Graphlib._node2info.
#[local] Abbreviation npredecessors := Graphlib.npredecessors.
#[local] Abbreviation successors := Graphlib.successors.
#[local] Abbreviation built := Invariants.built.
#[local] Abbreviation count := (count_occ String.string_dec).

Lemma deps_of_app graph1 graph2 s :
  deps_of (graph1 ++ graph2) s = deps_of graph1 s ++ deps_of graph2 s.
Proof.
  unfold Graphlib.deps_of. by rewrite List.filter_app, List.map_app, List.concat_app.
Qed.

Lemma deps_of_single node preds s :
  deps_of [(node, preds)] s = if bool_decide (node = s) then preds else [].
Proof.
  unfold Graphlib.deps_of. cbn. destruct (bool_decide (node = s)); cbn; [|done].
  by rewrite app_nil_r.
Qed.

Lemma count_snoc (l : list string) (x y : string) :
  count (l ++ [x]) y = count l y + (if bool_decide (x = y) then 1 else 0).
Proof.
  rewrite count_occ_app. cbn. destruct (String.string_dec x y) as [->|Hne].
  - by rewrite bool_decide_eq_true_2.
  - by rewrite bool_decide_eq_false_2.
Qed.

Lemma built_empty : built [] [] "" [] ∅.
Proof.
  split.
  - intros s info. rewrite lookup_empty. discriminate.
  - intros s _. repeat split.
Qed.

(** Linking one more predecessor of the node being added. *)
Lemma built_link counted linked node done_preds pred ts :
  built counted linked node done_preds (_node2info ts) ->
  is_Some (_node2info ts !! node) ->
  built counted linked node (done_preds ++ [pred])
    (_node2info
       (let '(pred_info, ts') := Graphlib._get_nodeinfo ts pred in
        Graphlib.set_info ts' pred
          {| Graphlib.npredecessors := npredecessors pred_info;
             Graphlib.successors := successors pred_info ++ [node] |}))
  /\ is_Some
       (_node2info
          (let '(pred_info, ts') := Graphlib._get_nodeinfo ts pred in
           Graphlib.set_info ts' pred
             {| Graphlib.npredecessors := npredecessors pred_info;
                Graphlib.successors := successors pred_info ++ [node] |}) !! node).
Proof.
  intros [Hsome Hnone] Hnode. unfold Graphlib._get_nodeinfo.
  destruct (_node2info ts !! pred) as [pinfo|] eqn:Hp; cbn.
  - split.
    + split.
      * intros s info. destruct (decide (pred = s)) as [<-|Hne].
        -- rewrite lookup_insert_eq. intros [= <-]. cbn.
           destruct (Hsome _ _ Hp) as [Hn Hs]. split; [done|].
           intros t. rewrite count_snoc, Hs, count_snoc.
           repeat case_bool_decide; simplify_eq; lia.
        -- rewrite lookup_insert_ne by done. intros Hl.
           destruct (Hsome _ _ Hl) as [Hn Hs]. split; [done|].
           intros t. rewrite Hs, count_snoc.
           repeat case_bool_decide; simplify_eq; lia.
      * intros s. destruct (decide (pred = s)) as [<-|Hne].
        -- rewrite lookup_insert_eq. discriminate.
        -- rewrite lookup_insert_ne by done. intros Hl.
           destruct (Hnone _ Hl) as (H1 & H2 & H3). repeat split; [done..|].
           rewrite count_snoc, H3. by rewrite bool_decide_eq_false_2.
    + destruct (decide (pred = node)) as [->|Hne].
      * rewrite lookup_insert_eq. by eexists.
      * by rewrite lookup_insert_ne.
  - destruct (Hnone _ Hp) as (Hd & Hl & Hc). split.
    + split.
      * intros s info. destruct (decide (pred = s)) as [<-|Hne].
        -- rewrite lookup_insert_eq. intros [= <-]. cbn.
           split; [by rewrite Hd|].
           intros t. rewrite count_snoc, Hl, Hc.
           destruct (String.string_dec node t);
             repeat case_bool_decide; simplify_eq; lia.
        -- rewrite lookup_insert_ne by done. rewrite lookup_insert_ne by done.
           intros Hs. destruct (Hsome _ _ Hs) as [Hn Hsucc]. split; [done|].
           intros t. rewrite Hsucc, count_snoc.
           repeat case_bool_decide; simplify_eq; lia.
      * intros s. destruct (decide (pred = s)) as [<-|Hne].
        -- rewrite lookup_insert_eq. discriminate.
        -- rewrite lookup_insert_ne by done. rewrite lookup_insert_ne by done.
           intros Hs. destruct (Hnone _ Hs) as (H1 & H2 & H3).
           repeat split; [done..|].
           rewrite count_snoc, H3. by rewrite bool_decide_eq_false_2.
    + destruct (decide (pred = node)) as [->|Hne].
      * rewrite lookup_insert_eq. by eexists.
      * rewrite lookup_insert_ne by done. by rewrite lookup_insert_ne.
Qed.

Lemma built_link_all counted linked node preds2 : forall preds1 ts,
  built counted linked node preds1 (_node2info ts) ->
  is_Some (_node2info ts !! node) ->
  built counted linked node (preds1 ++ preds2)
    (_node2info
       (List.fold_left
          (fun ts pred =>
             let '(pred_info, ts') := Graphlib._get_nodeinfo ts pred in
             Graphlib.set_info ts' pred
               {| Graphlib.npredecessors := npredecessors pred_info;
                  Graphlib.successors := successors pred_info ++ [node] |})
          preds2 ts)).
Proof.
  induction preds2 as [|pred preds2 IH]; intros preds1 ts Hb Hnode; cbn.
  - by rewrite app_nil_r.
  - destruct (built_link _ _ _ _ pred _ Hb Hnode) as [Hb' Hnode'].
    specialize (IH _ _ Hb' Hnode'). by rewrite <- app_assoc in IH.
Qed.

Lemma built_add graph node preds ts :
  built graph graph "" [] (_node2info ts) ->
  built (graph ++ [(node, preds)]) (graph ++ [(node, preds)]) "" []
    (_node2info (Graphlib.add ts node preds)).
Proof.
  intros [Hsome Hnone]. unfold Graphlib.add.
  set (graph' := graph ++ [(node, preds)]).
  assert (Hdeps : forall s, deps_of graph' s
                  = deps_of graph s ++ (if bool_decide (node = s) then preds else []))
    by (intros s; subst graph'; by rewrite deps_of_app, deps_of_single).
  assert (Hstart : forall ts1 info0,
    Graphlib._get_nodeinfo ts node = (info0, ts1) ->
    built graph' graph node []
      (_node2info
         (Graphlib.set_info ts1 node
            {| Graphlib.npredecessors :=
                 (npredecessors info0 + Z.of_nat (length preds))%Z;
               Graphlib.successors := successors info0 |}))
    /\ is_Some
         (_node2info
            (Graphlib.set_info ts1 node
               {| Graphlib.npredecessors :=
                    (npredecessors info0 + Z.of_nat (length preds))%Z;
                  Graphlib.successors := successors info0 |}) !! node)).
  { intros ts1 info0. unfold Graphlib._get_nodeinfo.
    destruct (_node2info ts !! node) as [ninfo|] eqn:Hn; intros [= <- <-]; cbn.
    - split; [|rewrite lookup_insert_eq; by eexists]. split.
      + intros s info. destruct (decide (node = s)) as [<-|Hne].
        * rewrite lookup_insert_eq. intros [= <-]. cbn.
          destruct (Hsome _ _ Hn) as [Hcount Hsucc].
          rewrite Hdeps, bool_decide_eq_true_2, length_app by done.
          split; [lia|]. intros t. rewrite Hsucc.
          by destruct (bool_decide (t = "")), (bool_decide (t = node)).
        * rewrite lookup_insert_ne by done. intros Hs.
          destruct (Hsome _ _ Hs) as [Hcount Hsucc].
          rewrite Hdeps, bool_decide_eq_false_2, app_nil_r by done.
          split; [done|]. intros t. rewrite Hsucc.
          by destruct (bool_decide (t = "")), (bool_decide (t = node)).
      + intros s. destruct (decide (node = s)) as [<-|Hne].
        * rewrite lookup_insert_eq. discriminate.
        * rewrite lookup_insert_ne by done. intros Hs.
          destruct (Hnone _ Hs) as (H1 & H2 & _).
          rewrite Hdeps, bool_decide_eq_false_2, app_nil_r by done. done.
    - destruct (Hnone _ Hn) as (Hd & Hl & _).
      split; [|rewrite lookup_insert_eq; by eexists]. split.
      + intros s info. destruct (decide (node = s)) as [<-|Hne].
        * rewrite lookup_insert_eq. intros [= <-]. cbn.
          rewrite Hdeps, bool_decide_eq_true_2, length_app, Hd by done.
          split; [cbn; lia|]. intros t. rewrite Hl.
          by destruct (bool_decide (t = node)).
        * rewrite lookup_insert_ne by done. rewrite lookup_insert_ne by done.
          intros Hs. destruct (Hsome _ _ Hs) as [Hcount Hsucc].
          rewrite Hdeps, bool_decide_eq_false_2, app_nil_r by done.
          split; [done|]. intros t. rewrite Hsucc.
          by destruct (bool_decide (t = "")), (bool_decide (t = node)).
      + intros s. destruct (decide (node = s)) as [<-|Hne].
        * rewrite lookup_insert_eq. discriminate.
        * rewrite lookup_insert_ne by done. rewrite lookup_insert_ne by done.
          intros Hs. destruct (Hnone _ Hs) as (H1 & H2 & _).
          rewrite Hdeps, bool_decide_eq_false_2, app_nil_r by done. done. }
  destruct (Graphlib._get_nodeinfo ts node) as [info0 ts1] eqn:Hget.
  destruct (Hstart _ _ eq_refl) as [Hb Hnode].
  pose proof (built_link_all _ _ _ preds _ _ Hb Hnode) as [Hsome' Hnone'].
  cbn [app] in Hsome', Hnone'. split.
  - intros s info Hs. destruct (Hsome' _ _ Hs) as [Hcount Hsucc].
    split; [done|]. intros t. rewrite Hsucc, Hdeps, count_occ_app.
    repeat case_bool_decide; simplify_eq; cbn; lia.
  - intros s Hs. destruct (Hnone' _ Hs) as (H1 & H2 & H3).
    repeat split; [done|].
    intros t. rewrite Hdeps, count_occ_app, H2.
    case_bool_decide; simplify_eq; cbn; lia.
Qed.

Lemma built_new graph :
  built graph graph "" [] (_node2info (Graphlib.new graph)).
Proof.
  unfold Graphlib.new.
  assert (H : forall rest done ts,
    built done done "" [] (_node2info ts) ->
    built (done ++ rest) (done ++ rest) "" []
      (_node2info
         (List.fold_left (fun ts item => Graphlib.add ts (fst item) (snd item))
            rest ts))).
  { induction rest as [|[node preds] rest IH]; intros done ts Hb; cbn.
    - by rewrite app_nil_r.
    - specialize (IH (done ++ [(node, preds)]) _ (built_add _ node preds _ Hb)).
      by rewrite <- app_assoc in IH. }
  apply (H graph [] Graphlib.empty_sorter). exact built_empty.
Qed.

End SorterConstruction.

Section KahnInvariant.

#[local] Abbreviation deps_of := Graphlib.deps_of.
#[local] Abbreviation _node2info := Graphlib._node2info.
#[local] Abbreviation _ready_nodes := Graphlib._ready_nodes.
#[local] Abbreviation npredecessors := Graphlib.npredecessors.
#[local] Abbreviation successors := Graphlib.successors.
#[local] Abbreviation undone := Invariants.undone.
#[local] Abbreviation kahn := Invariants.kahn.
#[local] Abbreviation count := (count_occ String.string_dec).

Variable graph : list (string * list string).

Lemma undone_mono (D D' : gset string) l : D ⊆ D' -> undone D' l <= undone D l.
Proof.
  intros Hsub. unfold Invariants.undone. induction l as [|x l IH]; cbn; [done|].
  repeat case_bool_decide; cbn; try lia. set_solver.
Qed.

Lemma undone_add (D : gset string) p l :
  p ∉ D -> undone D l = undone ({[p]} ∪ D) l + count l p.
Proof.
  intros Hp. unfold Invariants.undone. induction l as [|x l IH]; cbn; [done|].
  destruct (String.string_dec x p) as [->|Hne].
  - repeat case_bool_decide; cbn; try lia; set_solver.
  - repeat case_bool_decide; cbn; try lia; set_solver.
Qed.

Lemma undone_zero (D : gset string) l :
  undone D l = 0 -> forall p, p ∈ l -> p ∈ D.
Proof.
  unfold Invariants.undone. induction l as [|x l IH]; cbn; intros H p Hp.
  - by apply elem_of_nil in Hp.
  - case_bool_decide; cbn in H; [|lia].
    apply elem_of_cons in Hp as [->|Hp]; [done|]. by apply IH.
Qed.

Lemma count_pos_elem_of (l : list string) s : 0 < count l s <-> s ∈ l.
Proof.
  rewrite list_elem_of_In, (count_occ_In String.string_dec). lia.
Qed.

(** The marking done by [get_ready]. *)
Lemma mark_out_lookup (group : list string) : forall (n2i : gmap string Graphlib.NodeInfo) s,
  List.fold_left
    (fun n2i node =>
       match n2i !! node with
       | Some info =>
           <[node := {| Graphlib.npredecessors := Graphlib._NODE_OUT;
                        Graphlib.successors := successors info |}]> n2i
       | None => n2i
       end) group n2i !! s
  = match n2i !! s with
    | Some info =>
        Some (if bool_decide (s ∈ group)
              then {| Graphlib.npredecessors := Graphlib._NODE_OUT;
                      Graphlib.successors := successors info |}
              else info)
    | None => None
    end.
Proof.
  induction group as [|g group IH]; intros n2i s; cbn.
  - by destruct (n2i !! s).
  - rewrite IH. destruct (n2i !! g) as [ginfo|] eqn:Hg.
    + destruct (decide (g = s)) as [<-|Hne].
      * rewrite lookup_insert_eq, Hg. cbn.
        rewrite (bool_decide_eq_true_2 (g ∈ g :: group)) by set_solver.
        by destruct (bool_decide (g ∈ group)).
      * rewrite lookup_insert_ne by done. destruct (n2i !! s); [|done].
        f_equal. repeat case_bool_decide; set_solver.
    + destruct (n2i !! s) as [sinfo|] eqn:Hs; [|done].
      f_equal. repeat case_bool_decide; try done; set_solver.
Qed.

Lemma kahn_get_ready D ts :
  kahn graph D [] ts ->
  kahn graph D [] (Graphlib.get_ready ts).2
  /\ (Graphlib.get_ready ts).1 = _ready_nodes ts
  /\ forall g, g ∈ _ready_nodes ts -> forall p, p ∈ deps_of graph g -> p ∈ D.
Proof.
  intros (Hcount & Hneg & Hready & Hdone & Hsucc).
  split; [|split; [done|intros g Hg; by apply Hready]].
  unfold Graphlib.get_ready. cbn [snd].
  split; [|split; [|split; [|split]]];
    cbn [Graphlib._node2info Graphlib._ready_nodes].
  - intros s info. rewrite mark_out_lookup.
    destruct (_node2info ts !! s) as [sinfo|] eqn:Hs; [|discriminate].
    intros [= <-]. case_bool_decide; cbn; [unfold Graphlib._NODE_OUT; lia|].
    by apply Hcount.
  - intros s info. rewrite mark_out_lookup.
    destruct (_node2info ts !! s) as [sinfo|] eqn:Hs; [|discriminate].
    intros [= <-]. case_bool_decide; cbn.
    + intros _. by apply Hready.
    + by apply Hneg.
  - intros s Hs. by apply elem_of_nil in Hs.
  - intros d Hd. destruct (Hdone d Hd) as (info & Hl & Hle).
    rewrite mark_out_lookup, Hl. case_bool_decide as Hin.
    + destruct (Hready d Hin) as (_ & info' & Hl' & Hz). simplify_eq. lia.
    + by eexists.
  - intros p info s. rewrite mark_out_lookup.
    destruct (_node2info ts !! p) as [pinfo|] eqn:Hp; [|discriminate].
    intros [= <-]. case_bool_decide; cbn; by eapply Hsucc.
Qed.

Lemma fold_left_raise {A B : Type} (f : A -> B -> result A) (l : list B) e :
  List.fold_left (fun acc x => a ← acc; f a x) l (Raise e) = Raise e.
Proof. induction l as [|x l IH]; cbn; [done|exact IH]. Qed.

(** One step of the loop over the successors in [done]. *)
Lemma kahn_visit_successor D s pending ts sinfo :
  kahn graph D (s :: pending) ts ->
  _node2info ts !! s = Some sinfo ->
  kahn graph D pending
    (let n := (npredecessors sinfo - 1)%Z in
     let ts' :=
       Graphlib.set_info ts s
         {| Graphlib.npredecessors := n;
            Graphlib.successors := successors sinfo |} in
     if (n =? 0)%Z
     then {| Graphlib._node_order := Graphlib._node_order ts';
             Graphlib._node2info := _node2info ts';
             Graphlib._ready_nodes := _ready_nodes ts' ++ [s];
             Graphlib._npassedout := Graphlib._npassedout ts';
             Graphlib._nfinished := Graphlib._nfinished ts' |}
     else ts').
Proof.
  intros (Hcount & Hneg & Hready & Hdone & Hsucc) Hs.
  assert (Hcount_s : (0 <= npredecessors sinfo - 1)%Z ->
            (Z.of_nat (undone D (deps_of graph s) + count pending s)
             <= npredecessors sinfo - 1)%Z).
  { intros Hn. specialize (Hcount s sinfo Hs ltac:(lia)).
    cbn in Hcount. destruct (String.string_dec s s); [lia|done]. }
  assert (Hcount_other : forall t info, t <> s ->
            _node2info ts !! t = Some info -> (0 <= npredecessors info)%Z ->
            (Z.of_nat (undone D (deps_of graph t) + count pending t)
             <= npredecessors info)%Z).
  { intros t info Hne Ht Hn. specialize (Hcount t info Ht Hn).
    cbn in Hcount. destruct (String.string_dec s t); [congruence|lia]. }
  assert (Hnot_ready : s ∉ _ready_nodes ts).
  { intros Hin. destruct (Hready s Hin) as (_ & info & Hl & Hz).
    assert (info = sinfo) as -> by congruence.
    specialize (Hcount s sinfo Hs ltac:(lia)). cbn in Hcount.
    destruct (String.string_dec s s); [lia|done]. }
  set (n := (npredecessors sinfo - 1)%Z).
  assert (Hbase :
    (forall t info,
        <[s := {| Graphlib.npredecessors := n;
                  Graphlib.successors := successors sinfo |}]>
          (_node2info ts) !! t = Some info ->
        (0 <= npredecessors info)%Z ->
        (Z.of_nat (undone D (deps_of graph t) + count pending t)
         <= npredecessors info)%Z)
    /\ (forall t info,
          <[s := {| Graphlib.npredecessors := n;
                    Graphlib.successors := successors sinfo |}]>
            (_node2info ts) !! t = Some info ->
          (npredecessors info < 0)%Z ->
          forall p, p ∈ deps_of graph t -> p ∈ D)
    /\ (forall t, t ∈ _ready_nodes ts ->
          (forall p, p ∈ deps_of graph t -> p ∈ D)
          /\ exists info,
               <[s := {| Graphlib.npredecessors := n;
                         Graphlib.successors := successors sinfo |}]>
                 (_node2info ts) !! t = Some info
               /\ npredecessors info = 0%Z)
    /\ (forall d, d ∈ D ->
          exists info,
            <[s := {| Graphlib.npredecessors := n;
                      Graphlib.successors := successors sinfo |}]>
              (_node2info ts) !! d = Some info
            /\ (npredecessors info <= -2)%Z)
    /\ (forall p info t,
          <[s := {| Graphlib.npredecessors := n;
                    Graphlib.successors := successors sinfo |}]>
            (_node2info ts) !! p = Some info ->
          count (successors info) t = count (deps_of graph t) p)).
  { split; [|split; [|split; [|split]]].
    - intros t info. destruct (decide (s = t)) as [<-|Hne].
      + rewrite lookup_insert_eq. intros [= <-]. cbn. exact Hcount_s.
      + rewrite lookup_insert_ne by done. intros Ht. by apply Hcount_other.
    - intros t info. destruct (decide (s = t)) as [<-|Hne].
      + rewrite lookup_insert_eq. intros [= <-]. cbn. intros Hn.
        destruct (Z.lt_ge_cases (npredecessors sinfo) 0) as [Hlt|Hge].
        * by apply (Hneg s sinfo).
        * specialize (Hcount s sinfo Hs Hge). cbn in Hcount.
          destruct (String.string_dec s s); [subst n; lia|done].
      + rewrite lookup_insert_ne by done. apply Hneg.
    - intros t Ht. destruct (Hready t Ht) as (Hd & info & Hl & Hz).
      split; [done|]. exists info. split; [|done].
      rewrite lookup_insert_ne; [done|]. intros <-. by apply Hnot_ready.
    - intros d Hd. destruct (Hdone d Hd) as (info & Hl & Hle).
      destruct (decide (s = d)) as [<-|Hne].
      + rewrite lookup_insert_eq. eexists. split; [done|]. cbn.
        assert (info = sinfo) as -> by congruence. subst n. lia.
      + rewrite lookup_insert_ne by done. by eexists.
    - intros p info t. destruct (decide (s = p)) as [<-|Hne].
      + rewrite lookup_insert_eq. intros [= <-]. cbn. by eapply Hsucc.
      + rewrite lookup_insert_ne by done. by eapply Hsucc. }
  destruct Hbase as (B1 & B2 & B3 & B4 & B5).
  cbn zeta. fold n. destruct (Z.eqb_spec n 0) as [Hz|Hnz].
  - split; [|split; [|split; [|split]]];
      cbn [Graphlib._node2info Graphlib._ready_nodes Graphlib.set_info];
      [exact B1 | exact B2 | | exact B4 | exact B5].
    intros t Ht. apply elem_of_app in Ht as [Ht|Ht]; [by apply B3|].
    apply list_elem_of_singleton in Ht as ->.
    split.
    + apply (undone_zero D).
      specialize (Hcount_s ltac:(lia)). lia.
    + eexists. rewrite lookup_insert_eq. split; [done|]. cbn. exact Hz.
  - split; [|split; [|split; [|split]]];
      cbn [Graphlib._node2info Graphlib._ready_nodes Graphlib.set_info];
      [exact B1 | exact B2 | exact B3 | exact B4 | exact B5].
Qed.

Lemma kahn_successors_loop D (pending : list string) : forall ts tsf,
  kahn graph D pending ts ->
  List.fold_left
    (fun acc successor =>
       ts ← acc;
       match _node2info ts !! successor with
       | None => Raise (KeyError successor)
       | Some successor_info =>
           let n := (npredecessors successor_info - 1)%Z in
           let ts' :=
             Graphlib.set_info ts successor
               {| Graphlib.npredecessors := n;
                  Graphlib.successors := successors successor_info |} in
           Ok (if (n =? 0)%Z
               then {| Graphlib._node_order := Graphlib._node_order ts';
                       Graphlib._node2info := _node2info ts';
                       Graphlib._ready_nodes := _ready_nodes ts' ++ [successor];
                       Graphlib._npassedout := Graphlib._npassedout ts';
                       Graphlib._nfinished := Graphlib._nfinished ts' |}
               else ts')
       end) pending (Ok ts) = Ok tsf ->
  kahn graph D [] tsf.
Proof.
  induction pending as [|s pending IH]; intros ts tsf Hk; cbn.
  - by intros [= <-].
  - destruct (_node2info ts !! s) as [sinfo|] eqn:Hs.
    + apply IH. by apply kahn_visit_successor.
    + rewrite fold_left_raise. discriminate.
Qed.

Lemma kahn_done_one D ts p ts' :
  kahn graph D [] ts ->
  Graphlib.done_one ts p = Ok ts' ->
  kahn graph ({[p]} ∪ D) [] ts'.
Proof.
  intros (Hcount & Hneg & Hready & Hdone & Hsucc). unfold Graphlib.done_one.
  destruct (_node2info ts !! p) as [pinfo|] eqn:Hp; [|discriminate].
  destruct (Z.eqb_spec (npredecessors pinfo) Graphlib._NODE_OUT) as [Hout|Hne];
    cbn [negb]; [|by destruct (0 <=? npredecessors pinfo)%Z].
  unfold Graphlib._NODE_OUT in Hout.
  assert (HpD : p ∉ D).
  { intros Hin. destruct (Hdone p Hin) as (info & Hl & Hle).
    assert (info = pinfo) as -> by congruence. lia. }
  match goal with
  | |- (ts2 ← ?loop; _) = _ -> _ => destruct loop as [ts2|e] eqn:Hloop
  end; cbn; [|discriminate].
  intros [= <-].
  assert (Hk2 : kahn graph ({[p]} ∪ D) [] ts2).
  { eapply kahn_successors_loop; [|exact Hloop].
    split; [|split; [|split; [|split]]];
      cbn [Graphlib._node2info Graphlib._ready_nodes Graphlib.set_info].
    - intros s info. destruct (decide (p = s)) as [<-|Hne].
      + rewrite lookup_insert_eq. intros [= <-]. cbn. unfold Graphlib._NODE_DONE. lia.
      + rewrite lookup_insert_ne by done. intros Hs Hn.
        specialize (Hcount s info Hs Hn). cbn in Hcount.
        rewrite (Hsucc p pinfo s Hp).
        rewrite (undone_add D p) in Hcount by done. lia.
    - intros s info. destruct (decide (p = s)) as [<-|Hne].
      + rewrite lookup_insert_eq. intros [= <-] _ q Hq.
        apply elem_of_union_r. apply (Hneg p pinfo Hp); [lia|done].
      + rewrite lookup_insert_ne by done. intros Hs Hn q Hq.
        apply elem_of_union_r. by apply (Hneg s info Hs).
    - intros t Ht. destruct (Hready t Ht) as (Hd & info & Hl & Hz).
      split; [intros q Hq; apply elem_of_union_r; by apply Hd|].
      exists info. split; [|done]. rewrite lookup_insert_ne; [done|].
      intros <-. assert (info = pinfo) as -> by congruence. lia.
    - intros d Hd. apply elem_of_union in Hd as [Hd|Hd].
      + apply elem_of_singleton in Hd as ->. rewrite lookup_insert_eq.
        eexists. split; [done|]. cbn. unfold Graphlib._NODE_DONE. lia.
      + destruct (Hdone d Hd) as (info & Hl & Hle).
        exists info. split; [|done]. rewrite lookup_insert_ne; [done|].
        intros <-. done.
    - intros q info t. destruct (decide (p = q)) as [<-|Hne].
      + rewrite lookup_insert_eq. intros [= <-]. cbn. by eapply Hsucc.
      + rewrite lookup_insert_ne by done. by eapply Hsucc. }
  exact Hk2.
Qed.

Lemma kahn_done (group : list string) : forall D ts ts',
  kahn graph D [] ts ->
  Graphlib.done ts group = Ok ts' ->
  kahn graph (list_to_set group ∪ D) [] ts'.
Proof.
  unfold Graphlib.done.
  induction group as [|g group IH]; intros D ts ts' Hk; cbn.
  - intros [= <-]. by rewrite union_empty_l_L.
  - destruct (Graphlib.done_one ts g) as [ts1|e] eqn:Hone.
    + intros Hrest. specialize (IH _ _ _ (kahn_done_one _ _ _ _ Hk Hone) Hrest).
      by replace ({[g]} ∪ list_to_set group ∪ D)
        with (list_to_set group ∪ ({[g]} ∪ D)) by set_solver.
    + rewrite fold_left_raise. discriminate.
Qed.

Lemma undone_le_length (D : gset string) l : undone D l <= length l.
Proof. unfold Invariants.undone. apply List.filter_length_le. Qed.

Lemma kahn_prepare ts :
  Graphlib.prepare (Graphlib.new graph) = Ok ts -> kahn graph ∅ [] ts.
Proof.
  unfold Graphlib.prepare.
  match goal with |- (cycle ← ?c; _) = _ -> _ => destruct c as [[cycle|]|e] end;
    cbn; try discriminate.
  intros [= <-].
  destruct (built_new graph) as [Hin _].
  split; [|split; [|split; [|split]]];
    cbn [Graphlib._node2info Graphlib._ready_nodes].
  - intros s info Hs _. destruct (Hin s info Hs) as [-> _].
    cbn. pose proof (undone_le_length ∅ (deps_of graph s)). lia.
  - intros s info Hs Hn. destruct (Hin s info Hs) as [Hlen _]. lia.
  - intros t Ht. apply list_elem_of_In, List.filter_In in Ht as [_ Ht].
    destruct (Graphlib._node2info (Graphlib.new graph) !! t) as [info|] eqn:Hl;
      [|discriminate].
    apply Z.eqb_eq in Ht. destruct (Hin t info Hl) as [Hlen _].
    split; [|by exists info].
    destruct (deps_of graph t); [intros p Hp; by apply elem_of_nil in Hp|].
    cbn in Hlen. lia.
  - intros d Hd. by apply elem_of_empty in Hd.
  - intros p info s Hp. destruct (Hin p info Hp) as [_ Hc].
    rewrite Hc. case_bool_decide; cbn; lia.
Qed.

Lemma respects_app order group :
  Graphlib.respects graph order ->
  (forall g, g ∈ group -> forall p, p ∈ deps_of graph g -> p ∈ order) ->
  Graphlib.respects graph (order ++ group).
Proof.
  intros Hr Hg before node after Heq pred Hpred.
  apply app_eq_app in Heq as [l [[-> Heq]|[-> Heq]]].
  - destruct l as [|x l]; cbn in Heq.
    + rewrite app_nil_r in Hg. apply (Hg node); [|done].
      rewrite <- Heq. apply elem_of_cons. by left.
    + injection Heq as -> ->. by eapply Hr.
  - apply elem_of_app. left. apply (Hg node); [|done].
    rewrite Heq. apply elem_of_app. right. apply elem_of_cons. by left.
Qed.

Lemma static_order_loop_respects : forall fuel D ts out order,
  kahn graph D [] ts ->
  (forall d, d ∈ D -> d ∈ out) ->
  Graphlib.respects graph out ->
  Graphlib.static_order_loop fuel ts out = Ok order ->
  Graphlib.respects graph order.
Proof.
  induction fuel as [|fuel IH]; intros D ts out order Hk HD Hr;
    cbn [Graphlib.static_order_loop].
  - destruct (Graphlib.is_active ts); [discriminate|]. by intros [= <-].
  - destruct (Graphlib.is_active ts); [|by intros [= <-]].
    destruct (kahn_get_ready D ts Hk) as (Hk1 & Hgroup & Hdeps).
    destruct (Graphlib.get_ready ts) as [node_group ts1] eqn:Hgr.
    cbn [fst snd] in Hk1, Hgroup. subst node_group.
    destruct (Graphlib.done ts1 (_ready_nodes ts)) as [ts2|e] eqn:Hdone;
      [|discriminate].
    change (Graphlib.static_order_loop fuel ts2 (out ++ _ready_nodes ts) = Ok order
            -> Graphlib.respects graph order).
    apply (IH (list_to_set (_ready_nodes ts) ∪ D)).
    + by apply kahn_done with (ts := ts1).
    + intros d Hd. apply elem_of_app. apply elem_of_union in Hd as [Hd|Hd].
      * right. by apply elem_of_list_to_set in Hd.
      * left. by apply HD.
    + apply respects_app; [done|].
      intros g Hg p Hp. apply HD. by eapply Hdeps.
Qed.

End KahnInvariant.

(** [static_order] puts every node after all its predecessors. *)
Lemma static_order_respects graph order :
  Graphlib.static_order graph = Ok order -> Graphlib.respects graph order.
Proof.
  unfold Graphlib.static_order.
  destruct (Graphlib.prepare (Graphlib.new graph)) as [ts|e] eqn:Hprep;
    [|discriminate].
  change (Graphlib.static_order_loop (S (length (Graphlib._node_order ts))) ts []
          = Ok order -> Graphlib.respects graph order).
  apply (static_order_loop_respects graph _ ∅).
  - by apply kahn_prepare.
  - intros d Hd. by apply elem_of_empty in Hd.
  - intros before node after Heq. by destruct before.
Qed.

Lemma respects_precedes graph order s t :
  Graphlib.respects graph order ->
  t ∈ Graphlib.deps_of graph s ->
  s ∈ order ->
  Graphlib.precedes t s order.
Proof.
  intros Hr Ht Hs.
  apply list_elem_of_split in Hs as (before & after & ->).
  specialize (Hr before s after eq_refl t Ht).
  apply list_elem_of_split in Hr as (l1 & l2 & ->).
  exists l1, l2, after. by rewrite <- app_assoc.
Qed.

(** *** The nodes of the order *)

Section SorterNodes.

#[local] Abbreviation _node2info := Graphlib._node2info.
#[local] Abbreviation known ts x := (is_Some (Graphlib._node2info ts !! x)).

(** The nodes of a graph: its keys and their predecessors. *)
Lemma get_nodeinfo_known ts node x :
  known (Graphlib._get_nodeinfo ts node).2 x -> known ts x \/ x = node.
Proof.
  unfold Graphlib._get_nodeinfo.
  destruct (_node2info ts !! node) eqn:Hn; cbn; [by left|].
  destruct (decide (node = x)) as [->|Hne]; [by right|].
  rewrite lookup_insert_ne by done. by left.
Qed.

Lemma set_info_known ts node info x :
  known (Graphlib.set_info ts node info) x -> known ts x \/ x = node.
Proof.
  cbn. destruct (decide (node = x)) as [->|Hne]; [by right|].
  rewrite lookup_insert_ne by done. by left.
Qed.

Lemma add_known ts node predecessors x :
  known (Graphlib.add ts node predecessors) x ->
  known ts x \/ x = node \/ x ∈ predecessors.
Proof.
  unfold Graphlib.add.
  destruct (Graphlib._get_nodeinfo ts node) as [nodeinfo ts1] eqn:Hget.
  assert (Hloop : forall preds ts0,
            known
              (List.fold_left
                 (fun ts pred =>
                    let '(pred_info, ts') := Graphlib._get_nodeinfo ts pred in
                    Graphlib.set_info ts' pred
                      {| Graphlib.npredecessors := Graphlib.npredecessors pred_info;
                         Graphlib.successors :=
                           Graphlib.successors pred_info ++ [node] |})
                 preds ts0) x ->
            known ts0 x \/ x ∈ preds).
  { induction preds as [|p preds IH]; intros ts0; cbn [List.fold_left]; [by left|].
    intros Hx. apply IH in Hx as [Hx|Hx]; [|right; apply elem_of_cons; by right].
    destruct (Graphlib._get_nodeinfo ts0 p) as [pinfo ts'] eqn:Hp.
    apply set_info_known in Hx as [Hx| ->]; [|right; apply elem_of_cons; by left].
    pose proof (get_nodeinfo_known ts0 p x) as Hk. rewrite Hp in Hk.
    destruct (Hk Hx) as [?| ->]; [by left|right; apply elem_of_cons; by left]. }
  intros Hx. apply Hloop in Hx as [Hx|Hx]; [|by right; right].
  apply set_info_known in Hx as [Hx| ->]; [|by right; left].
  pose proof (get_nodeinfo_known ts node x) as Hk. rewrite Hget in Hk.
  destruct (Hk Hx) as [?| ->]; [by left|by right; left].
Qed.

Lemma new_known graph x :
  known (Graphlib.new graph) x ->
  exists item, item ∈ graph /\ (x = item.1 \/ x ∈ item.2).
Proof.
  unfold Graphlib.new.
  assert (Hloop : forall rest ts,
            known (List.fold_left
                     (fun ts item => Graphlib.add ts (fst item) (snd item)) rest ts) x ->
            known ts x \/ exists item, item ∈ rest /\ (x = item.1 \/ x ∈ item.2)).
  { induction rest as [|item rest IH]; intros ts; cbn [List.fold_left]; [by left|].
    intros Hx. apply IH in Hx as [Hx|(item' & Hin & Hx)].
    - apply add_known in Hx as [Hx|Hx]; [by left|].
      right. exists item. split; [apply elem_of_cons; by left|done].
    - right. exists item'. split; [apply elem_of_cons; by right|done]. }
  intros Hx. apply Hloop in Hx as [Hx|Hx]; [|done].
  cbn in Hx. rewrite lookup_empty in Hx. by destruct Hx.
Qed.

Lemma get_ready_known ts x :
  known (Graphlib.get_ready ts).2 x -> known ts x.
Proof.
  unfold Graphlib.get_ready. cbn [snd Graphlib._node2info].
  rewrite mark_out_lookup. destruct (_node2info ts !! x); [done|].
  intros [? ?]. discriminate.
Qed.

Lemma done_one_known ts node ts' x :
  Graphlib.done_one ts node = Ok ts' -> known ts' x -> known ts x.
Proof.
  unfold Graphlib.done_one.
  destruct (_node2info ts !! node) as [nodeinfo|] eqn:Hnode; [|discriminate].
  destruct (negb (Graphlib.npredecessors nodeinfo =? Graphlib._NODE_OUT)%Z);
    [by destruct (0 <=? Graphlib.npredecessors nodeinfo)%Z|].
  assert (Hloop : forall succs ts0 ts1,
            List.fold_left
              (fun acc successor =>
                 ts ← acc;
                 match _node2info ts !! successor with
                 | None => Raise (KeyError successor)
                 | Some successor_info =>
                     let n := (Graphlib.npredecessors successor_info - 1)%Z in
                     let ts' :=
                       Graphlib.set_info ts successor
                         {| Graphlib.npredecessors := n;
                            Graphlib.successors := Graphlib.successors successor_info |} in
                     Ok (if (n =? 0)%Z
                         then {| Graphlib._node_order := Graphlib._node_order ts';
                                 Graphlib._node2info := _node2info ts';
                                 Graphlib._ready_nodes :=
                                   Graphlib._ready_nodes ts' ++ [successor];
                                 Graphlib._npassedout := Graphlib._npassedout ts';
                                 Graphlib._nfinished := Graphlib._nfinished ts' |}
                         else ts')
                 end) succs (Ok ts0) = Ok ts1 ->
            known ts1 x -> known ts0 x).
  { induction succs as [|s succs IH]; intros ts0 ts1;
      cbn [List.fold_left mbind result_bind]; [by intros [= <-]|].
    destruct (_node2info ts0 !! s) as [sinfo|] eqn:Hs;
      [|rewrite fold_left_raise; discriminate].
    intros Hfold Hx. apply (IH _ _ Hfold) in Hx.
    assert (known (Graphlib.set_info ts0 s
                     {| Graphlib.npredecessors := (Graphlib.npredecessors sinfo - 1)%Z;
                        Graphlib.successors := Graphlib.successors sinfo |}) x) as Hx'.
    { cbv zeta in Hx. by destruct (_ =? 0)%Z. }
    apply set_info_known in Hx' as [?| ->]; [done|by rewrite Hs]. }
  match goal with
  | |- (ts2 ← ?loop; _) = _ -> _ => destruct loop as [ts2|e] eqn:Hfold
  end; cbn [mbind result_bind]; [|discriminate].
  intros [= <-] Hx. cbn [Graphlib._node2info] in Hx.
  apply (Hloop _ _ _ Hfold) in Hx.
  apply set_info_known in Hx as [?| ->]; [done|by rewrite Hnode].
Qed.

Lemma done_known (group : list string) : forall ts ts' x,
  Graphlib.done ts group = Ok ts' -> known ts' x -> known ts x.
Proof.
  unfold Graphlib.done.
  induction group as [|g group IH]; intros ts ts' x;
    cbn [List.fold_left mbind result_bind]; [by intros [= <-]|].
  destruct (Graphlib.done_one ts g) as [ts1|e] eqn:Hone;
    [|rewrite fold_left_raise; discriminate].
  intros Hrest Hx. eapply done_one_known; [exact Hone|]. by eapply IH.
Qed.

End SorterNodes.

Lemma static_order_loop_known graph : forall fuel D ts out order,
  Invariants.kahn graph D [] ts ->
  Graphlib.static_order_loop fuel ts out = Ok order ->
  forall x, x ∈ order -> x ∈ out \/ is_Some (Graphlib._node2info ts !! x).
Proof.
  induction fuel as [|fuel IH]; intros D ts out order Hk;
    cbn [Graphlib.static_order_loop].
  - destruct (Graphlib.is_active ts); [discriminate|]. intros [= <-] x Hx. by left.
  - destruct (Graphlib.is_active ts); [|intros [= <-] x Hx; by left].
    destruct (kahn_get_ready graph D ts Hk) as (Hk1 & Hgroup & _).
    pose proof (get_ready_known ts) as Hknown1.
    destruct (Graphlib.get_ready ts) as [node_group ts1] eqn:Hgr.
    cbn [fst snd] in Hk1, Hgroup, Hknown1. subst node_group.
    destruct (Graphlib.done ts1 (Graphlib._ready_nodes ts)) as [ts2|e] eqn:Hdone;
      [|discriminate].
    change (Graphlib.static_order_loop fuel ts2 (out ++ Graphlib._ready_nodes ts)
            = Ok order ->
            forall x, x ∈ order -> x ∈ out \/ is_Some (Graphlib._node2info ts !! x)).
    intros Hloop x Hx.
    destruct (IH _ _ _ _ (kahn_done graph _ _ _ _ Hk1 Hdone) Hloop x Hx) as [Hin|Hin].
    + apply elem_of_app in Hin as [?|Hin]; [by left|]. right.
      destruct Hk as (_ & _ & Hready & _).
      destruct (Hready x Hin) as (_ & info & -> & _). by eexists.
    + right. apply Hknown1. by eapply done_known.
Qed.

(** The order holds nodes of the graph only. *)
Lemma static_order_nodes graph order x :
  Graphlib.static_order graph = Ok order ->
  x ∈ order ->
  exists item, item ∈ graph /\ (x = item.1 \/ x ∈ item.2).
Proof.
  unfold Graphlib.static_order.
  destruct (Graphlib.prepare (Graphlib.new graph)) as [ts|e] eqn:Hprep;
    [|discriminate].
  change (Graphlib.static_order_loop (S (length (Graphlib._node_order ts))) ts []
          = Ok order -> x ∈ order ->
          exists item, item ∈ graph /\ (x = item.1 \/ x ∈ item.2)).
  intros Hloop Hx.
  destruct (static_order_loop_known graph _ ∅ ts [] order
              (kahn_prepare graph ts Hprep) Hloop x Hx) as [Hin|Hin];
    [by apply elem_of_nil in Hin|].
  apply new_known.
  unfold Graphlib.prepare in Hprep.
  match type of Hprep with
  | (cycle ← ?c; _) = _ => destruct c as [[cycle|]|e]
  end; cbn in Hprep; try discriminate.
  injection Hprep as <-. exact Hin.
Qed.

(** ** Theory of core/cycles.py *)

Lemma filter_head_elem {A : Type} (p : A -> bool) (l : list A) x r :
  List.filter p l = x :: r -> x ∈ l /\ p x = true.
Proof.
  intros H. assert (In x (List.filter p l)) as Hin by (rewrite H; by left).
  apply List.filter_In in Hin as [? ?]. split; [by apply list_elem_of_In|done].
Qed.

(** The selected foreign key is a nullable one of the cycle. *)
Lemma select_nullable_fk_to_break_some cycle_fks cycle fk :
  Cycles.select_nullable_fk_to_break cycle_fks cycle = Some fk ->
  fk ∈ cycle_fks /\ is_nullable fk = true.
Proof.
  unfold Cycles.select_nullable_fk_to_break.
  destruct (List.filter is_nullable cycle_fks) as [|first_nullable rest] eqn:Hn;
    [discriminate|].
  assert (Hnull : forall x, x ∈ first_nullable :: rest ->
                            x ∈ cycle_fks /\ is_nullable x = true).
  { intros x Hx. rewrite <- Hn in Hx.
    apply list_elem_of_In, List.filter_In in Hx as [? ?].
    split; [by apply list_elem_of_In|done]. }
  assert (Hfallback :
    match List.filter (fun fk => Nat.eqb (length (source_columns fk)) 1)
            (first_nullable :: rest) with
    | fk :: _ => Some fk
    | [] => Some first_nullable
    end = Some fk -> fk ∈ cycle_fks /\ is_nullable fk = true).
  { destruct (List.filter _ (first_nullable :: rest)) as [|x r] eqn:Hs.
    - intros [= <-]. apply Hnull. apply elem_of_cons. by left.
    - intros [= <-]. apply filter_head_elem in Hs as [? _]. by apply Hnull. }
  destruct (match cycle with Some c => Nat.eqb (length c) 1 | None => false end).
  - destruct (List.filter is_self_referential (first_nullable :: rest))
      as [|x r] eqn:Hs; [exact Hfallback|].
    intros [= <-]. apply filter_head_elem in Hs as [? _]. by apply Hnull.
  - destruct (List.filter (fun fk => negb (is_self_referential fk))
                (first_nullable :: rest)) as [|first_inter r] eqn:Hi;
      [exact Hfallback|].
    destruct (List.filter (fun fk => Nat.eqb (length (source_columns fk)) 1)
                (first_inter :: r)) as [|x r'] eqn:Hs.
    + intros [= <-]. apply filter_head_elem in Hi as [? _]. by apply Hnull.
    + intros [= <-]. apply filter_head_elem in Hs as [Hx _].
      rewrite <- Hi in Hx.
      apply list_elem_of_In, List.filter_In in Hx as [Hx _].
      apply Hnull. by apply list_elem_of_In.
Qed.

(** A foreign key is selected as soon as the cycle has a nullable one. *)
Lemma select_nullable_fk_to_break_none cycle_fks cycle :
  Cycles.select_nullable_fk_to_break cycle_fks cycle = None <->
  List.filter is_nullable cycle_fks = [].
Proof.
  unfold Cycles.select_nullable_fk_to_break.
  destruct (List.filter is_nullable cycle_fks) as [|first_nullable rest];
    [done|].
  split; [|discriminate]. intros H. exfalso.
  destruct (match cycle with Some c => Nat.eqb (length c) 1 | None => false end).
  - destruct (List.filter is_self_referential (first_nullable :: rest));
      [|discriminate].
    destruct (List.filter _ (first_nullable :: rest)); discriminate.
  - destruct (List.filter (fun fk => negb (is_self_referential fk))
                (first_nullable :: rest)) as [|first_inter r].
    + destruct (List.filter _ (first_nullable :: rest)); discriminate.
    + destruct (List.filter _ (first_inter :: r)); discriminate.
Qed.

Lemma break_one_cycle_discipline schema acc cycle acc' :
  Invariants.broken_discipline schema acc ->
  Cycles.break_one_cycle schema acc cycle = Ok acc' ->
  Invariants.broken_discipline schema acc'
  /\ List.map Cycles.ci_tables acc'.2 = List.map Cycles.ci_tables acc.2 ++ [cycle].
Proof.
  destruct acc as [fks infos]. intros (Hnd & Hfks & Hinfos).
  unfold Cycles.break_one_cycle.
  destruct (Cycles.select_nullable_fk_to_break
              (Cycles.identify_cycle_fks schema cycle) (Some cycle))
    as [nullable_fk|] eqn:Hsel.
  2:{ destruct cycle; [discriminate|].
      destruct (Cycles.identify_cycle_fks schema _); discriminate. }
  apply select_nullable_fk_to_break_some in Hsel as [Hin Hnullable].
  intros [= <-]. cbn [fst snd] in *.
  split; [|by rewrite List.map_app].
  set (ci := {| Cycles.ci_tables := cycle;
                Cycles.fks_in_cycle := Cycles.identify_cycle_fks schema cycle |}).
  split; [|split]; cbn [fst snd].
  - case_bool_decide; [done|].
    apply NoDup_app. split; [done|]. split.
    + intros x Hx Hx'. apply list_elem_of_singleton in Hx' as ->. done.
    + apply NoDup_singleton.
  - intros fk Hfk.
    assert (fk ∈ fks \/ fk = nullable_fk) as [Hold| ->].
    { case_bool_decide; [by left|].
      apply elem_of_app in Hfk as [?|Hfk]; [by left|].
      right. by apply list_elem_of_singleton in Hfk. }
    + destruct (Hfks fk Hold) as (Hn & ci' & Hci' & Hfkci).
      split; [done|]. exists ci'. split; [|done].
      apply elem_of_app. by left.
    + split; [done|]. exists ci. split; [|done].
      apply elem_of_app. right. by apply list_elem_of_singleton.
  - intros ci' Hci'. apply elem_of_app in Hci' as [Hold|Hnew].
    + destruct (Hinfos ci' Hold) as (Heq & fk & Hfk & Hfkci).
      split; [done|]. exists fk. split; [|done].
      case_bool_decide; [done|]. apply elem_of_app. by left.
    + apply list_elem_of_singleton in Hnew as ->.
      split; [done|]. exists nullable_fk. split; [|done].
      case_bool_decide; [done|]. apply elem_of_app. right.
      by apply list_elem_of_singleton.
Qed.

Lemma break_cycles_loop_discipline schema (cycles : list (list string)) :
  forall acc acc',
    Invariants.broken_discipline schema acc ->
    List.fold_left
      (fun acc cycle => a ← acc; Cycles.break_one_cycle schema a cycle)
      cycles (Ok acc) = Ok acc' ->
    Invariants.broken_discipline schema acc'
    /\ List.map Cycles.ci_tables acc'.2 = List.map Cycles.ci_tables acc.2 ++ cycles.
Proof.
  induction cycles as [|cycle cycles IH]; intros acc acc' Hacc; cbn.
  - intros [= <-]. by rewrite app_nil_r.
  - destruct (Cycles.break_one_cycle schema acc cycle) as [acc1|e] eqn:Hone.
    + intros Hrest.
      destruct (break_one_cycle_discipline _ _ _ _ Hacc Hone) as [Hacc1 Hmap1].
      destruct (IH _ _ Hacc1 Hrest) as [Hacc' Hmap'].
      split; [done|]. rewrite Hmap', Hmap1, <- app_assoc. done.
    + rewrite fold_left_raise. discriminate.
Qed.

(** Parts (a) and (b) of the broken-FK discipline: when
    [break_cycles_at_nullable_fks] returns, the foreign keys to break are
    distinct and nullable, each one is a foreign key of a recorded cycle,
    every recorded cycle has one of its foreign keys among them, and the
    recorded cycles are the cycles that the search detected. *)
Lemma break_cycles_discipline schema tables dependencies fks_to_break cycle_infos :
  Cycles.break_cycles_at_nullable_fks schema tables dependencies
  = Ok (fks_to_break, cycle_infos) ->
  Invariants.broken_discipline schema (fks_to_break, cycle_infos)
  /\ Cycles.find_cycles_dfs dependencies
     = Ok (List.map Cycles.ci_tables cycle_infos).
Proof.
  unfold Cycles.break_cycles_at_nullable_fks.
  destruct (Cycles.find_cycles_dfs dependencies) as [cycles|e]; [|discriminate].
  cbn.
  assert (Hempty : Invariants.broken_discipline schema ([], [])).
  { split; [apply NoDup_nil_2|]. split; intros x Hx; by apply elem_of_nil in Hx. }
  destruct cycles as [|cycle cycles].
  - intros [= <- <-]. done.
  - intros Hloop.
    destruct (break_cycles_loop_discipline schema (cycle :: cycles) _ _ Hempty Hloop)
      as [Hd Hmap].
    split; [done|]. cbn [fst snd] in Hmap. by rewrite Hmap.
Qed.

(** *** The cycles that the search records *)

Lemma drop_until_split (x : string) (l : list string) :
  x ∈ l ->
  exists pre post,
    l = pre ++ x :: post
    /\ drop_until (fun n => bool_decide (n = x)) l = x :: post.
Proof.
  induction l as [|a l IH]; intros Hx; [by apply elem_of_nil in Hx|].
  cbn. case_bool_decide as Ha.
  - subst a. by exists [], l.
  - apply elem_of_cons in Hx as [->|Hx]; [done|].
    destruct (IH Hx) as (pre & post & -> & Hdrop).
    exists (a :: pre), post. done.
Qed.

Lemma cycle_edges_rotation (z : string) (t : list string) : forall (x0 x y : string),
  (x, y) ∈ List.combine (x0 :: t) (t ++ [z]) ->
  (exists l1 l2, x0 :: t = l1 ++ x :: y :: l2)
  \/ (y = z /\ exists l1, x0 :: t = l1 ++ [x]).
Proof.
  induction t as [|x1 t IH]; intros x0 x y Hin.
  - cbn in Hin. apply list_elem_of_singleton in Hin as [= -> ->].
    right. split; [done|]. by exists [].
  - cbn in Hin. apply elem_of_cons in Hin as [[= -> ->]|Hin].
    + left. by exists [], t.
    + destruct (IH x1 x y Hin) as [(l1 & l2 & Heq)|(-> & l1 & Heq)].
      * left. exists (x0 :: l1), l2. by rewrite Heq.
      * right. split; [done|]. exists (x0 :: l1). by rewrite Heq.
Qed.

Lemma cycle_edges_spec (cycle : list string) (x y : string) :
  (x, y) ∈ Cycles.cycle_edges cycle ->
  (exists l1 l2, cycle = l1 ++ x :: y :: l2)
  \/ (exists l1 l2, cycle = l1 ++ [x] /\ cycle = y :: l2).
Proof.
  destruct cycle as [|x0 t]; [intros H; by apply elem_of_nil in H|].
  unfold Cycles.cycle_edges. cbn [List.tl firstn].
  intros Hin. apply cycle_edges_rotation in Hin as [H|(-> & l1 & H)].
  - by left.
  - right. exists l1, t. done.
Qed.

Lemma cycle_edges_first (x : string) (rest : list string) :
  exists y, (x, y) ∈ Cycles.cycle_edges (x :: rest).
Proof.
  unfold Cycles.cycle_edges. destruct rest as [|y rest]; cbn.
  - exists x. apply elem_of_cons. by left.
  - exists y. apply elem_of_cons. by left.
Qed.

Lemma NoDup_app_cons_cons (l1 l2 : list string) (x y : string) :
  NoDup (l1 ++ x :: y :: l2) -> x <> y.
Proof.
  intros Hnd ->. apply NoDup_app in Hnd as (_ & _ & Hnd).
  apply NoDup_cons in Hnd as [Hnotin _]. apply Hnotin.
  apply elem_of_cons. by left.
Qed.

(** The tables of a cycle edge differ, except in a cycle of one table. *)
Lemma good_cycle_edge_kind dependencies cycle x y :
  Invariants.good_cycle dependencies cycle ->
  (x, y) ∈ Cycles.cycle_edges cycle ->
  if Nat.eqb (length cycle) 1 then x = y else x <> y.
Proof.
  intros (Hnd & _ & _) Hin.
  apply cycle_edges_spec in Hin as [(l1 & l2 & ->)|(l1 & l2 & H1 & H2)].
  - replace (Nat.eqb (length (l1 ++ x :: y :: l2)) 1) with false.
    + by eapply NoDup_app_cons_cons.
    + symmetry. apply Nat.eqb_neq. rewrite length_app. cbn. lia.
  - destruct l2 as [|z l2].
    + subst cycle. cbn.
      destruct l1 as [|? [|? ?]]; cbn in H2; try discriminate. congruence.
    + replace (Nat.eqb (length cycle) 1) with false
        by (symmetry; apply Nat.eqb_neq; rewrite H2; cbn; lia).
      intros ->. rewrite H1 in H2.
      destruct l1 as [|a l1]; [discriminate|]. cbn in H2.
      injection H2 as -> Hrest. rewrite H1 in Hnd. cbn in Hnd.
      apply NoDup_cons in Hnd as [Hnotin _]. apply Hnotin.
      apply elem_of_app. right. apply elem_of_cons. by left.
Qed.

Section DepthFirstSearch.

Variable dependencies : list (string * list string).

#[local] Abbreviation chain := (Invariants.chain dependencies).
#[local] Abbreviation good_cycle := (Invariants.good_cycle dependencies).
#[local] Abbreviation deps_get := (Cycles.deps_get dependencies).

Lemma chain_snoc rec_stack node :
  chain rec_stack ->
  (forall pre x, rec_stack = pre ++ [x] -> node ∈ deps_get x) ->
  chain (rec_stack ++ [node]).
Proof.
  intros Hchain Hlast l1 x y l2 Heq.
  induction l2 as [|z l2' _] using rev_ind.
  - replace (l1 ++ [x; y]) with ((l1 ++ [x]) ++ [y]) in Heq
      by (by rewrite <- app_assoc).
    apply app_inj_tail in Heq as [-> ->]. by eapply Hlast.
  - replace (l1 ++ x :: y :: l2' ++ [z]) with ((l1 ++ x :: y :: l2') ++ [z]) in Heq
      by (by rewrite <- app_assoc).
    apply app_inj_tail in Heq as [-> _]. by eapply Hchain.
Qed.

Lemma back_edge_good_cycle rec_stack node :
  NoDup rec_stack -> chain rec_stack ->
  (forall pre x, rec_stack = pre ++ [x] -> node ∈ deps_get x) ->
  node ∈ rec_stack ->
  good_cycle (drop_until (fun n => bool_decide (n = node)) rec_stack).
Proof.
  intros Hnd Hchain Hlast Hin.
  destruct (drop_until_split node rec_stack Hin) as (pre & post & Heq & ->).
  split; [|split; [done|]].
  - rewrite Heq in Hnd. by apply NoDup_app in Hnd as (_ & _ & ?).
  - intros x y Hxy.
    apply cycle_edges_spec in Hxy as [(l1 & l2 & Hc)|(l1 & l2 & Hc1 & Hc2)].
    + apply (Hchain (pre ++ l1) x y l2). rewrite Heq, Hc, <- app_assoc. done.
    + injection Hc2 as <- _. apply (Hlast (pre ++ l1)).
      rewrite Heq, Hc1, <- app_assoc. done.
Qed.

Lemma dfs_good_cycles : forall fuel node rec_stack st st',
  NoDup rec_stack -> chain rec_stack ->
  (forall pre x, rec_stack = pre ++ [x] -> node ∈ deps_get x) ->
  Forall good_cycle (Cycles.cycles st) ->
  Cycles.dfs fuel dependencies node rec_stack st = Ok st' ->
  Forall good_cycle (Cycles.cycles st').
Proof.
  induction fuel as [|fuel IH]; intros node rec_stack st st' Hnd Hchain Hlast Hgood;
    cbn [Cycles.dfs]; [discriminate|].
  case_bool_decide as Hin.
  { intros [= <-]. cbn. apply Forall_app. split; [done|].
    apply Forall_singleton. by apply back_edge_good_cycle. }
  case_bool_decide as Hvis; [by intros [= <-]|].
  assert (Hloop : forall neighbors st0 st1,
            (forall n, n ∈ neighbors -> n ∈ deps_get node) ->
            Forall good_cycle (Cycles.cycles st0) ->
            List.fold_left
              (fun acc neighbor =>
                 st' ← acc;
                 Cycles.dfs fuel dependencies neighbor (rec_stack ++ [node]) st')
              neighbors (Ok st0) = Ok st1 ->
            Forall good_cycle (Cycles.cycles st1)).
  { induction neighbors as [|n neighbors IHn]; intros st0 st1 Hsub Hg0; cbn.
    - by intros [= <-].
    - destruct (Cycles.dfs fuel dependencies n (rec_stack ++ [node]) st0)
        as [st2|e] eqn:Hdfs.
      + apply IHn.
        * intros m Hm. apply Hsub. apply elem_of_cons. by right.
        * eapply IH; [| | | exact Hg0 | exact Hdfs].
          -- apply NoDup_app. split; [done|]. split; [|apply NoDup_singleton].
             intros x Hx Hx'. apply list_elem_of_singleton in Hx' as ->. done.
          -- by apply chain_snoc.
          -- intros pre x Heq. apply app_inj_tail in Heq as [_ <-].
             apply Hsub. apply elem_of_cons. by left.
      + rewrite fold_left_raise. discriminate. }
  apply Hloop; [done|done].
Qed.

(** Every cycle that [find_cycles_dfs] returns is a cycle of the
    dependencies, over distinct tables. *)
Lemma find_cycles_dfs_good cycles :
  Cycles.find_cycles_dfs dependencies = Ok cycles ->
  Forall good_cycle cycles.
Proof.
  unfold Cycles.find_cycles_dfs.
  assert (Hloop : forall nodes st0 st1,
            Forall good_cycle (Cycles.cycles st0) ->
            List.fold_left
              (fun acc node =>
                 st ← acc;
                 if bool_decide (node ∈ Cycles.visited st) then Ok st
                 else Cycles.dfs (S (S (length (Cycles.all_nodes dependencies))))
                        dependencies node [] st)
              nodes (Ok st0) = Ok st1 ->
            Forall good_cycle (Cycles.cycles st1)).
  { induction nodes as [|n nodes IHn]; intros st0 st1 Hg0;
      cbn [List.fold_left mbind result_bind].
    - by intros [= <-].
    - case_bool_decide; [by apply IHn|].
      destruct (Cycles.dfs (S (S (length (Cycles.all_nodes dependencies))))
                  dependencies n [] st0) as [st2|e] eqn:Hdfs.
      + apply IHn. eapply dfs_good_cycles; [| | | exact Hg0 | exact Hdfs].
        * apply NoDup_nil_2.
        * intros l1 x y l2 Heq. by destruct l1.
        * intros pre x Heq. by destruct pre.
      + rewrite fold_left_raise. discriminate. }
  match goal with
  | |- (st ← ?loop; _) = _ -> _ => destruct loop as [st|e] eqn:Hfold
  end; cbn; [|discriminate].
  intros [= <-]. eapply Hloop; [|exact Hfold]. cbn. apply Forall_nil_2.
Qed.

Lemma deps_get_all_nodes node n :
  n ∈ deps_get node -> n ∈ Cycles.all_nodes dependencies.
Proof.
  unfold Cycles.deps_get, Cycles.all_nodes. intros Hn.
  destruct (List.find _ dependencies) as [[k deps]|] eqn:Hfind;
    [|by apply elem_of_nil in Hn].
  apply List.find_some in Hfind as [Hin _].
  apply elem_of_app. right. apply list_elem_of_In, List.in_concat.
  exists deps. split; [|by apply list_elem_of_In].
  apply List.in_map_iff. by exists (k, deps).
Qed.

(** The bound on the depth of the recursion is never reached. *)
Lemma dfs_total : forall fuel node rec_stack st,
  NoDup rec_stack ->
  (forall x, x ∈ rec_stack -> x ∈ Cycles.all_nodes dependencies) ->
  node ∈ Cycles.all_nodes dependencies ->
  length (Cycles.all_nodes dependencies) + 2 <= fuel + length rec_stack ->
  exists st', Cycles.dfs fuel dependencies node rec_stack st = Ok st'.
Proof.
  induction fuel as [|fuel IH]; intros node rec_stack st Hnd Hsub Hnode Hfuel.
  - exfalso.
    assert (length rec_stack <= length (Cycles.all_nodes dependencies)).
    { apply submseteq_length. by apply NoDup_submseteq. }
    lia.
  - cbn [Cycles.dfs].
    case_bool_decide as Hin; [by eexists|].
    case_bool_decide as Hvis; [by eexists|].
    assert (Hloop : forall neighbors st0,
              (forall n, n ∈ neighbors -> n ∈ Cycles.all_nodes dependencies) ->
              exists st1,
                List.fold_left
                  (fun acc neighbor =>
                     st' ← acc;
                     Cycles.dfs fuel dependencies neighbor (rec_stack ++ [node]) st')
                  neighbors (Ok st0) = Ok st1).
    { induction neighbors as [|n neighbors IHn]; intros st0 Hall;
        cbn [List.fold_left mbind result_bind]; [by eexists|].
      destruct (IH n (rec_stack ++ [node]) st0) as [st2 ->].
      - apply NoDup_app. split; [done|]. split; [|apply NoDup_singleton].
        intros x Hx Hx'. apply list_elem_of_singleton in Hx' as ->. done.
      - intros x Hx. apply elem_of_app in Hx as [Hx|Hx]; [by apply Hsub|].
        by apply list_elem_of_singleton in Hx as ->.
      - apply Hall. apply elem_of_cons. by left.
      - rewrite length_app. cbn. lia.
      - apply IHn. intros m Hm. apply Hall. apply elem_of_cons. by right. }
    apply Hloop. intros n Hn. by eapply deps_get_all_nodes.
Qed.

(** [find_cycles_dfs] returns. *)
Lemma find_cycles_dfs_total :
  exists cycles, Cycles.find_cycles_dfs dependencies = Ok cycles.
Proof.
  unfold Cycles.find_cycles_dfs.
  assert (Hloop : forall nodes st0,
            (forall n, n ∈ nodes -> n ∈ Cycles.all_nodes dependencies) ->
            exists st1,
              List.fold_left
                (fun acc node =>
                   st ← acc;
                   if bool_decide (node ∈ Cycles.visited st) then Ok st
                   else Cycles.dfs (S (S (length (Cycles.all_nodes dependencies))))
                          dependencies node [] st)
                nodes (Ok st0) = Ok st1).
  { induction nodes as [|n nodes IHn]; intros st0 Hall;
      cbn [List.fold_left mbind result_bind]; [by eexists|].
    assert (Hrest : forall m, m ∈ nodes -> m ∈ Cycles.all_nodes dependencies).
    { intros m Hm. apply Hall. apply elem_of_cons. by right. }
    case_bool_decide; [by apply IHn|].
    destruct (dfs_total (S (S (length (Cycles.all_nodes dependencies)))) n [] st0)
      as [st2 ->].
    - apply NoDup_nil_2.
    - intros x Hx. by apply elem_of_nil in Hx.
    - apply Hall. apply elem_of_cons. by left.
    - cbn. lia.
    - by apply IHn. }
  destruct (Hloop (List.map fst dependencies) {| Cycles.cycles := []; Cycles.visited := ∅ |})
    as [st1 ->].
  - intros n Hn. unfold Cycles.all_nodes. apply elem_of_app. by left.
  - cbn. by eexists.
Qed.

End DepthFirstSearch.

Lemma break_cycles_discipline_witness :
  Invariants.broken_discipline Examples.company_schema
    ([Examples.departments_head],
     [ {| Cycles.ci_tables := ["departments"; "employees"];
          Cycles.fks_in_cycle :=
            [Examples.employees_department; Examples.departments_head] |} ])
  /\ Cycles.find_cycles_dfs
       [("departments", ["employees"]); ("employees", ["departments"])]
     = Ok (List.map Cycles.ci_tables
             [ {| Cycles.ci_tables := ["departments"; "employees"];
                  Cycles.fks_in_cycle :=
                    [Examples.employees_department; Examples.departments_head] |} ]).
Proof.
  apply (break_cycles_discipline Examples.company_schema
           ["departments"; "employees"]
           [("departments", ["employees"]); ("employees", ["departments"])]).
  vm_compute. reflexivity.
Defined.

(** [find_cycles_dfs] returns for every dependency map, and every cycle it
    returns is a cycle of the map: distinct tables, each depending on the
    next and the last on the first. *)
Theorem find_cycles_dfs_returns_cycles
    (dependencies : list (string * list string)) :
  exists cycles,
    Cycles.find_cycles_dfs dependencies = Ok cycles
    /\ Forall (Invariants.good_cycle dependencies) cycles.
Proof.
  destruct (find_cycles_dfs_total dependencies) as [cycles Hcycles].
  exists cycles. split; [done|]. by apply find_cycles_dfs_good.
Qed.

(** The choice of [select_nullable_fk_to_break]: nothing exactly when no
    foreign key of the cycle is nullable; otherwise a nullable foreign key
    of the cycle, and one of the applicable kind (self-referential for a
    cycle of one table, inter-table otherwise) when the cycle has a
    nullable one of that kind. *)
Theorem select_nullable_fk_to_break_choice cycle_fks cycle :
  match Cycles.select_nullable_fk_to_break cycle_fks (Some cycle) with
  | None => forall fk, fk ∈ cycle_fks -> is_nullable fk = false
  | Some fk =>
      fk ∈ cycle_fks /\ is_nullable fk = true
      /\ ((exists candidate,
              candidate ∈ cycle_fks /\ is_nullable candidate = true
              /\ Cycles.preferred cycle candidate = true)
          -> Cycles.preferred cycle fk = true)
  end.
Proof.
  destruct (Cycles.select_nullable_fk_to_break cycle_fks (Some cycle))
    as [fk|] eqn:Hsel.
  - destruct (select_nullable_fk_to_break_some _ _ _ Hsel) as [Hin Hnull].
    split; [done|]. split; [done|].
    intros (candidate & Hc & Hcn & Hcp).
    assert (Hcand : In candidate (List.filter is_nullable cycle_fks)).
    { apply filter_In. split; [by apply list_elem_of_In|done]. }
    revert Hsel. unfold Cycles.select_nullable_fk_to_break, Cycles.preferred in *.
    destruct (List.filter is_nullable cycle_fks) as [|first_nullable rest] eqn:Hn;
      [done|].
    destruct (length cycle =? 1).
    + destruct (List.filter is_self_referential (first_nullable :: rest))
        as [|x xs] eqn:Hself.
      * exfalso.
        assert (Hx : In candidate
                       (List.filter is_self_referential (first_nullable :: rest)))
          by (apply filter_In; done).
        rewrite Hself in Hx. destruct Hx.
      * intros [= <-]. by apply filter_head_elem in Hself as [_ ?].
    + destruct (List.filter (fun fk0 => negb (is_self_referential fk0))
                  (first_nullable :: rest)) as [|x xs] eqn:Hinter.
      * exfalso.
        assert (Hx : In candidate
                       (List.filter (fun fk0 => negb (is_self_referential fk0))
                          (first_nullable :: rest)))
          by (apply filter_In; done).
        rewrite Hinter in Hx. destruct Hx.
      * assert (Hall : forall y, In y (x :: xs) ->
                                 negb (is_self_referential y) = true).
        { intros y Hy. rewrite <- Hinter in Hy. by apply filter_In in Hy as [_ ?]. }
        destruct (List.filter _ (x :: xs)) as [|z zs] eqn:Hsingle.
        -- intros [= <-]. apply Hall. by left.
        -- intros [= <-]. apply Hall.
           apply list_elem_of_In. by apply filter_head_elem in Hsingle as [? _].
  - apply select_nullable_fk_to_break_none in Hsel.
    intros fk Hfk. destruct (is_nullable fk) eqn:Hnull; [|done].
    assert (Hx : In fk (List.filter is_nullable cycle_fks))
      by (apply filter_In; split; [by apply list_elem_of_In|done]).
    rewrite Hsel in Hx. destruct Hx.
Qed.

(** ** Theory of [_topological_sort] *)

Lemma deps_of_intro (graph : list (string * list string)) s l x :
  (s, l) ∈ graph -> x ∈ l -> x ∈ Graphlib.deps_of graph s.
Proof.
  intros Hs Hx. unfold Graphlib.deps_of.
  apply list_elem_of_In, List.in_concat. exists l. split.
  - apply List.in_map_iff. exists (s, l). split; [done|].
    apply List.filter_In. split; [by apply list_elem_of_In|].
    by apply bool_decide_eq_true_2.
  - by apply list_elem_of_In.
Qed.

Section TopologicalSortTheory.

(** Python enumerates a set in an order of its own: any enumeration of the
    elements that were added. *)
Variable set_iter : list string -> list string.
Hypothesis set_iter_elem : forall l x, x ∈ set_iter l <-> x ∈ l.

#[local] Abbreviation build_dependencies := (Engine.build_dependencies set_iter).
#[local] Abbreviation discard_broken := (Engine.discard_broken set_iter).
#[local] Abbreviation _topological_sort := (Engine._topological_sort set_iter).

Lemma build_dependencies_edge schema tables fk :
  fk ∈ edges schema ->
  source_table fk ∈ tables ->
  target_table fk ∈ tables ->
  exists l, (source_table fk, l) ∈ build_dependencies schema tables
            /\ target_table fk ∈ l.
Proof.
  intros Hfk Hs Ht. eexists. split.
  - unfold Engine.build_dependencies.
    apply list_elem_of_In, List.in_map_iff. exists (source_table fk).
    split; [reflexivity|]. by apply list_elem_of_In.
  - apply set_iter_elem, list_elem_of_In, List.in_map_iff. exists fk.
    split; [done|]. apply List.filter_In. split; [by apply list_elem_of_In|].
    apply andb_true_iff. split; by apply bool_decide_eq_true_2.
Qed.

Lemma discard_broken_keeps fks_to_break dependencies s l t :
  (s, l) ∈ dependencies -> t ∈ l ->
  (forall b, b ∈ fks_to_break -> ~ (source_table b = s /\ target_table b = t)) ->
  exists l', (s, l') ∈ discard_broken fks_to_break dependencies /\ t ∈ l'.
Proof.
  intros Hs Ht Hnot. eexists. split.
  - unfold Engine.discard_broken.
    apply list_elem_of_In, List.in_map_iff. exists (s, l).
    split; [reflexivity|]. by apply list_elem_of_In.
  - cbn [fst snd]. apply set_iter_elem, list_elem_of_In, List.filter_In.
    split; [by apply list_elem_of_In|].
    apply negb_true_iff. apply not_true_is_false. intros Hex.
    apply List.existsb_exists in Hex as (b & Hb & Hst).
    apply andb_true_iff in Hst as [H1 H2].
    apply bool_decide_eq_true_1 in H1, H2.
    apply (Hnot b); [by apply list_elem_of_In|done].
Qed.

Lemma build_dependencies_nodes schema tables item x :
  item ∈ build_dependencies schema tables ->
  x = item.1 \/ x ∈ item.2 ->
  x ∈ tables.
Proof.
  unfold Engine.build_dependencies. intros Hitem Hx.
  apply list_elem_of_In, List.in_map_iff in Hitem as (t & <- & Ht).
  cbn [fst snd] in Hx. destruct Hx as [->|Hx]; [by apply list_elem_of_In|].
  apply set_iter_elem, list_elem_of_In, List.in_map_iff in Hx as (fk & <- & Hfk).
  apply List.filter_In in Hfk as [_ Hcond].
  apply andb_true_iff in Hcond as [_ Htarget].
  by apply bool_decide_eq_true_1 in Htarget.
Qed.

Lemma discard_broken_nodes fks_to_break dependencies item x :
  item ∈ discard_broken fks_to_break dependencies ->
  x = item.1 \/ x ∈ item.2 ->
  exists item', item' ∈ dependencies /\ (x = item'.1 \/ x ∈ item'.2).
Proof.
  unfold Engine.discard_broken. intros Hitem Hx.
  apply list_elem_of_In, List.in_map_iff in Hitem as (item' & <- & Hitem').
  exists item'. split; [by apply list_elem_of_In|].
  cbn [fst snd] in Hx. destruct Hx as [->|Hx]; [by left|]. right.
  apply set_iter_elem, list_elem_of_In, List.filter_In in Hx as [Hx _].
  by apply list_elem_of_In.
Qed.

(** The insert order holds extracted tables only. *)
Lemma insert_order_tables schema tables insert_order broken_fks cycle_infos x :
  _topological_sort schema tables = Ok (insert_order, broken_fks, cycle_infos) ->
  x ∈ insert_order -> x ∈ tables.
Proof.
  unfold Engine._topological_sort. intros Hsort Hx.
  destruct (Graphlib.static_order (build_dependencies schema tables))
    as [order|e] eqn:Horder.
  - injection Hsort as <- <- <-.
    destruct (static_order_nodes _ _ _ Horder Hx) as (item & Hitem & Hnode).
    by eapply build_dependencies_nodes.
  - destruct e; try discriminate.
    destruct (Cycles.break_cycles_at_nullable_fks schema tables
                (build_dependencies schema tables)) as [[fks infos]|e] eqn:Hbreak;
      [|destruct e; discriminate].
    destruct (Graphlib.static_order
                (discard_broken fks (build_dependencies schema tables)))
      as [order|e] eqn:Horder2; [|discriminate].
    cbn in Hsort. injection Hsort as <- <- <-.
    destruct (static_order_nodes _ _ _ Horder2 Hx) as (item & Hitem & Hnode).
    destruct (discard_broken_nodes _ _ _ _ Hitem Hnode) as (item' & Hitem' & Hnode').
    by eapply build_dependencies_nodes.
Qed.


End TopologicalSortTheory.

Lemma insertion_order_elem (l : list string) (x : string) :
  x ∈ Engine.insertion_order l <-> x ∈ l.
Proof. unfold Engine.insertion_order. apply elem_of_remove_dups. Qed.



(** The target of a broken foreign key is discarded from the dependencies
    of its source table even when another, NOT NULL foreign key joins the
    same two tables: [accounts] is then inserted before [users]. *)
Lemma parallel_foreign_key_order :
  Engine._topological_sort Engine.insertion_order Examples.accounts_schema
    ["accounts"; "users"]
  = Ok (["accounts"; "users"], [Examples.accounts_created_by],
        [ {| Cycles.ci_tables := ["accounts"; "users"];
             Cycles.fks_in_cycle :=
               [Examples.accounts_created_by; Examples.accounts_owner;
                Examples.users_account] |} ])
  /\ Engine._topological_sort Engine.insertion_order Examples.accounts_schema
       ["users"; "accounts"]
     = Ok (["accounts"; "users"], [Examples.accounts_created_by],
           [ {| Cycles.ci_tables := ["users"; "accounts"];
                Cycles.fks_in_cycle :=
                  [Examples.accounts_created_by; Examples.accounts_owner;
                   Examples.users_account] |} ]).
Proof. split; vm_compute; reflexivity. Qed.

(** *** All enumeration orders *)

Section EveryOrder.

Variable set_iter : list string -> list string.
Hypothesis set_iter_perm : forall l, set_iter l ≡ₚ remove_dups l.

Lemma set_iter_set_orders l : set_iter l ∈ AllOrders.set_orders l.
Proof.
  unfold AllOrders.set_orders. apply permutations_Permutation.
  symmetry. apply set_iter_perm.
Qed.

Lemma choose_all_elem {A : Type} (f : A -> list string) (g : A -> string)
    (items : list A) :
  List.map (fun a => (g a, set_iter (f a))) items
  ∈ AllOrders.choose_all
      (List.map (fun a => (g a, AllOrders.set_orders (f a))) items).
Proof.
  induction items as [|a items IH]; cbn.
  - apply elem_of_cons. by left.
  - apply list_elem_of_In, List.in_flat_map. exists (set_iter (f a)).
    split; [apply list_elem_of_In, set_iter_set_orders|].
    apply List.in_map. by apply list_elem_of_In.
Qed.

Lemma always_sound ok schema tables :
  AllOrders.always ok schema tables = true ->
  ok (Engine._topological_sort set_iter schema tables) = true.
Proof.
  unfold AllOrders.always, Engine._topological_sort. intros Hall.
  rewrite List.forallb_forall in Hall.
  specialize (Hall (Engine.build_dependencies set_iter schema tables)).
  assert (Hdeps : In (Engine.build_dependencies set_iter schema tables)
                    (AllOrders.all_dependencies schema tables)).
  { apply list_elem_of_In.
    apply (choose_all_elem
             (fun t => List.map target_table
                         (List.filter
                            (fun fk => bool_decide (source_table fk = t)
                                       && bool_decide (target_table fk ∈ tables))
                            (edges schema)))
             (fun t => t)). }
  specialize (Hall Hdeps).
  destruct (Graphlib.static_order (Engine.build_dependencies set_iter schema tables))
    as [order|e]; [done|].
  destruct e; try done.
  destruct (Cycles.break_cycles_at_nullable_fks schema tables
              (Engine.build_dependencies set_iter schema tables))
    as [[fks infos]|e]; [|by destruct e].
  rewrite List.forallb_forall in Hall. apply Hall.
  apply list_elem_of_In.
  apply (choose_all_elem
           (fun item => List.filter
                          (fun d => negb (existsb
                                            (fun fk => bool_decide (source_table fk = fst item)
                                                       && bool_decide (target_table fk = d))
                                            fks))
                          (snd item))
           fst).
Qed.

End EveryOrder.

(** C4 fails in its last part.  For the four tables of
    [Examples.tangled_schema], whose seven foreign keys are all nullable,
    the first sort raises [CycleError], [break_cycles_at_nullable_fks]
    returns, and the sort of the reduced dependencies raises [CycleError]
    again, which [_topological_sort] does not catch: the depth-first search
    records a cycle only where it meets a table of its current path, the
    cycle B, C, D is not among them, and no foreign key on it is broken.
    This holds in whatever order each set is enumerated. *)
Theorem C4_reduced_graph_still_cyclic
    (set_iter : list string -> list string) (tables : list string) :
  (forall l, set_iter l ≡ₚ remove_dups l) ->
  tables ≡ₚ ["A"; "B"; "C"; "D"] ->
  Engine._topological_sort set_iter Examples.tangled_schema tables
  = Raise (CycleError "nodes are in a cycle").
Proof.
  intros Hiter Htables.
  assert (Hall :
    forallb (AllOrders.always AllOrders.is_cycle_error Examples.tangled_schema)
      (permutations ["A"; "B"; "C"; "D"]) = true) by (vm_compute; reflexivity).
  rewrite List.forallb_forall in Hall.
  specialize (Hall tables).
  assert (Hin : In tables (permutations ["A"; "B"; "C"; "D"])).
  { apply list_elem_of_In, permutations_Permutation. by symmetry. }
  apply (always_sound set_iter Hiter) in Hall; [|exact Hin].
  destruct (Engine._topological_sort set_iter Examples.tangled_schema tables)
    as [r|e]; [discriminate|].
  destruct e; try discriminate.
  cbn in Hall. apply bool_decide_eq_true_1 in Hall. by subst.
Qed.

Lemma C4_reduced_graph_still_cyclic_witness :
  let tables := ["A"; "B"; "C"; "D"] in
  let dependencies :=
    Engine.build_dependencies Engine.insertion_order Examples.tangled_schema tables in
  let broken_fks :=
    [ Examples.fk "B" "d_id" "D" true; Examples.fk "B" "a_id" "A" true;
      Examples.fk "C" "a_id" "A" true ] in
  dependencies = [("A", ["B"]); ("B", ["D"; "A"; "C"]); ("C", ["D"; "A"]); ("D", ["B"])]
  /\ Cycles.find_cycles_dfs dependencies = Ok [["B"; "D"]; ["A"; "B"]; ["A"; "B"; "C"]]
  /\ (exists cycle_infos,
        Cycles.break_cycles_at_nullable_fks Examples.tangled_schema tables dependencies
        = Ok (broken_fks, cycle_infos))
  /\ Engine.discard_broken Engine.insertion_order broken_fks dependencies
     = [("A", ["B"]); ("B", ["C"]); ("C", ["D"]); ("D", ["B"])]
  /\ Engine._topological_sort Engine.insertion_order Examples.tangled_schema tables
     = Raise (CycleError "nodes are in a cycle").
Proof.
  cbv zeta.
  split; [vm_compute; reflexivity|].
  split; [vm_compute; reflexivity|].
  split; [eexists; vm_compute; reflexivity|].
  split; [vm_compute; reflexivity|].
  apply C4_reduced_graph_still_cyclic.
  - intros l. reflexivity.
  - reflexivity.
Defined.

(** *** A cycle without a nullable foreign key *)

Lemma filter_nil {A : Type} (p : A -> bool) (l : list A) :
  (forall x, x ∈ l -> p x = false) -> List.filter p l = [].
Proof.
  induction l as [|a l IH]; intros H; [done|]. cbn.
  rewrite (H a) by (apply elem_of_cons; by left).
  apply IH. intros x Hx. apply H. apply elem_of_cons. by right.
Qed.

Lemma no_nullable_fk_message_contains cycle_str cycle_fks fk0 :
  Str.contains ("Cycle path: " +:+ cycle_str)
    (Cycles.no_nullable_fk_message cycle_str cycle_fks fk0) = true
  /\ forall fk, fk ∈ cycle_fks ->
       Str.contains (Cycles.fk_detail fk)
         (Cycles.no_nullable_fk_message cycle_str cycle_fks fk0) = true.
Proof.
  unfold Cycles.no_nullable_fk_message. split.
  - do 3 apply contains_skip.
    rewrite <- (append_assoc "Cycle path: " cycle_str). apply contains_here.
  - intros fk Hfk. do 9 apply contains_skip.
    apply contains_app_l, contains_join.
    apply list_elem_of_In, List.in_map. by apply list_elem_of_In.
Qed.

Lemma fk_detail_not_null fk :
  is_nullable fk = false ->
  exists detail, Cycles.fk_detail fk = detail +:+ " (NOT NULL)".
Proof.
  intros Hn. unfold Cycles.fk_detail. rewrite Hn.
  exists ("  - " +:+ source_table fk +:+ "." +:+ Str.join ", " (source_columns fk)
          +:+ Cycles.arrow +:+ target_table fk +:+ "."
          +:+ Str.join ", " (target_columns fk)).
  rewrite !append_assoc. reflexivity.
Qed.

Section CycleReport.

Variable set_iter : list string -> list string.
Hypothesis set_iter_elem : forall l x, x ∈ set_iter l <-> x ∈ l.

Lemma deps_get_build_dependencies schema tables x y :
  y ∈ Cycles.deps_get (Engine.build_dependencies set_iter schema tables) x ->
  exists fk, fk ∈ edges schema /\ source_table fk = x /\ target_table fk = y.
Proof.
  unfold Cycles.deps_get.
  destruct (List.find _ (Engine.build_dependencies set_iter schema tables))
    as [[k deps]|] eqn:Hfind; [|intros H; by apply elem_of_nil in H].
  apply List.find_some in Hfind as [Hin Hk].
  cbn in Hk. apply bool_decide_eq_true_1 in Hk. subst k.
  unfold Engine.build_dependencies in Hin.
  apply List.in_map_iff in Hin as (t & [= <- <-] & _).
  intros Hy. apply set_iter_elem, list_elem_of_In, List.in_map_iff in Hy
    as (fk & <- & Hfk).
  apply List.filter_In in Hfk as [Hfk Hcond].
  apply andb_true_iff in Hcond as [Hsrc _]. apply bool_decide_eq_true_1 in Hsrc.
  exists fk. split; [by apply list_elem_of_In|done].
Qed.

(** Every edge of a detected cycle carries a catalog foreign key, which
    [identify_cycle_fks] returns. *)
Lemma cycle_edge_has_fk schema tables cycle x y :
  Invariants.good_cycle (Engine.build_dependencies set_iter schema tables) cycle ->
  (x, y) ∈ Cycles.cycle_edges cycle ->
  exists fk, fk ∈ Cycles.identify_cycle_fks schema cycle
             /\ source_table fk = x /\ target_table fk = y.
Proof.
  intros (_ & _ & Hedges) Hxy.
  destruct (deps_get_build_dependencies schema tables x y (Hedges x y Hxy))
    as (fk & Hfk & <- & <-).
  exists fk. split; [|done].
  apply list_elem_of_In, List.filter_In. split; [by apply list_elem_of_In|].
  by apply bool_decide_eq_true_2.
Qed.

(** In a detected cycle every foreign key is of the preferred kind. *)
Lemma cycle_fks_preferred dependencies schema cycle fk :
  Invariants.good_cycle dependencies cycle ->
  fk ∈ Cycles.identify_cycle_fks schema cycle ->
  Cycles.preferred cycle fk = true.
Proof.
  intros Hgood Hfk.
  apply list_elem_of_In, List.filter_In in Hfk as [_ Hedge].
  apply bool_decide_eq_true_1 in Hedge.
  pose proof (good_cycle_edge_kind _ _ _ _ Hgood Hedge) as Hkind.
  unfold Cycles.preferred, is_self_referential.
  destruct (Nat.eqb (length cycle) 1).
  - by apply bool_decide_eq_true_2.
  - apply negb_true_iff. by apply bool_decide_eq_false_2.
Qed.

Lemma break_cycles_loop_returns schema (cycles : list (list string)) : forall acc,
  (forall c, c ∈ cycles ->
     exists fk, fk ∈ Cycles.identify_cycle_fks schema c /\ is_nullable fk = true) ->
  exists acc',
    List.fold_left
      (fun acc cycle => a ← acc; Cycles.break_one_cycle schema a cycle)
      cycles (Ok acc) = Ok acc'.
Proof.
  induction cycles as [|c cycles IH]; intros acc Hall;
    cbn [List.fold_left mbind result_bind]; [by eexists|].
  destruct (Hall c) as (fk & Hfk & Hnull); [apply elem_of_cons; by left|].
  assert (exists acc1, Cycles.break_one_cycle schema acc c = Ok acc1) as [acc1 ->].
  { unfold Cycles.break_one_cycle. destruct acc as [fks infos].
    destruct (Cycles.select_nullable_fk_to_break
                (Cycles.identify_cycle_fks schema c) (Some c)) eqn:Hsel;
      [by eexists|].
    apply select_nullable_fk_to_break_none in Hsel.
    assert (In fk (List.filter is_nullable (Cycles.identify_cycle_fks schema c)))
      as Hin by (apply List.filter_In; split; [by apply list_elem_of_In|done]).
    rewrite Hsel in Hin. destruct Hin. }
  apply IH. intros c' Hc'. apply Hall. apply elem_of_cons. by right.
Qed.

(** The first detected cycle without a nullable foreign key is reported. *)
Lemma first_unbreakable_cycle_is_reported
    schema tables cycle_error_msg before cycle after :
  Graphlib.static_order (Engine.build_dependencies set_iter schema tables)
  = Raise (CycleError cycle_error_msg) ->
  Cycles.find_cycles_dfs (Engine.build_dependencies set_iter schema tables)
  = Ok (before ++ cycle :: after) ->
  (forall c, c ∈ before ->
     exists fk, fk ∈ Cycles.identify_cycle_fks schema c /\ is_nullable fk = true) ->
  (forall fk, fk ∈ Cycles.identify_cycle_fks schema cycle -> is_nullable fk = false) ->
  exists msg first,
    Engine._topological_sort set_iter schema tables
    = Raise (CircularReferenceError msg)
    /\ head cycle = Some first
    /\ Str.contains
         ("Cycle path: " +:+ Str.join Cycles.arrow (cycle ++ [first])) msg = true
    /\ Cycles.identify_cycle_fks schema cycle <> []
    /\ forall fk, fk ∈ Cycles.identify_cycle_fks schema cycle ->
         is_nullable fk = false
         /\ Str.contains (Cycles.fk_detail fk) msg = true
         /\ exists detail, Cycles.fk_detail fk = detail +:+ " (NOT NULL)".
Proof.
  intros Hsort Hcycles Hbefore Hnot_null.
  pose proof (find_cycles_dfs_good _ _ Hcycles) as Hgood.
  apply Forall_app in Hgood as [_ Hgood].
  apply Forall_cons in Hgood as [Hgood _].
  destruct cycle as [|first rest]; [by destruct Hgood as (_ & ? & _)|].
  destruct (cycle_edges_first first rest) as [y Hedge].
  destruct (cycle_edge_has_fk schema tables _ _ _ Hgood Hedge) as (fk1 & Hfk1 & _).
  destruct (Cycles.identify_cycle_fks schema (first :: rest))
    as [|fk0 fks] eqn:Hfks; [by apply elem_of_nil in Hfk1|].
  set (cycle_fks := fk0 :: fks) in *.
  set (msg := Cycles.no_nullable_fk_message
                (Cycles.cycle_path (first :: rest) first) cycle_fks fk0).
  exists msg, first.
  destruct (no_nullable_fk_message_contains
              (Cycles.cycle_path (first :: rest) first) cycle_fks fk0)
    as [Hpath Hdetails].
  split; [|split; [done|split; [exact Hpath|split; [done|]]]].
  - unfold Engine._topological_sort. rewrite Hsort.
    unfold Cycles.break_cycles_at_nullable_fks. rewrite Hcycles.
    cbn [mbind result_bind].
    assert (Hloop :
      List.fold_left
        (fun acc cycle => a ← acc; Cycles.break_one_cycle schema a cycle)
        (before ++ (first :: rest) :: after) (Ok ([], []))
      = Raise (ValueError msg)).
    { rewrite List.fold_left_app.
      destruct (break_cycles_loop_returns schema before ([], []) Hbefore)
        as [[fks_to_break cycle_infos] ->].
      cbn [List.fold_left mbind result_bind].
      unfold Cycles.break_one_cycle at 2.
      rewrite (proj2 (select_nullable_fk_to_break_none _ _)).
      - rewrite Hfks. apply fold_left_raise.
      - apply filter_nil. rewrite Hfks. exact Hnot_null. }
    destruct (before ++ (first :: rest) :: after) eqn:Hnonempty;
      [by destruct before|].
    rewrite Hloop. reflexivity.
  - intros fk Hfk. split; [by apply Hnot_null|]. split; [by apply Hdetails|].
    apply fk_detail_not_null. by apply Hnot_null.
Qed.

Lemma first_split {A : Type} (P : A -> Prop) `{!forall x, Decision (P x)}
    (l : list A) (x : A) :
  x ∈ l -> P x ->
  exists before y after,
    l = before ++ y :: after /\ P y /\ forall z, z ∈ before -> ~ P z.
Proof.
  induction l as [|a l IH]; intros Hx HP; [by apply elem_of_nil in Hx|].
  destruct (decide (P a)) as [Ha|Ha].
  - exists [], a, l. split; [done|]. split; [done|].
    intros z Hz. by apply elem_of_nil in Hz.
  - apply elem_of_cons in Hx as [->|Hx]; [done|].
    destruct (IH Hx HP) as (before & y & after & -> & Hy & Hbefore).
    exists (a :: before), y, after. split; [done|]. split; [done|].
    intros z Hz. apply elem_of_cons in Hz as [->|Hz]; [done|by apply Hbefore].
Qed.


End CycleReport.


(** The two-table cycle with both foreign keys NOT NULL, for either order
    of the tables. *)
Lemma two_table_cycle_not_null_message :
  Engine._topological_sort Engine.insertion_order Examples.locked_schema ["a"; "b"]
  = Raise (CircularReferenceError
             (Cycles.no_nullable_fk_message "a → b → a"
                [Examples.a_b; Examples.b_a] Examples.a_b))
  /\ Engine._topological_sort Engine.insertion_order Examples.locked_schema ["b"; "a"]
     = Raise (CircularReferenceError
                (Cycles.no_nullable_fk_message "b → a → b"
                   [Examples.a_b; Examples.b_a] Examples.a_b))
  /\ Cycles.fk_detail Examples.a_b = "  - a.b_id → b.id (NOT NULL)"
  /\ Cycles.fk_detail Examples.b_a = "  - b.a_id → a.id (NOT NULL)".
Proof. repeat split; vm_compute; reflexivity. Qed.

(** ** The traversal *)

Section TraversalFrame.

Context (schema : SchemaGraph) {adapter : Graph.DatabaseAdapter}.
Variable config : Graph.TraversalConfig.

#[local] Abbreviation records_of st := (Graph.records (Graph.st_result st)).

Lemma add_records_other r table pks t :
  t <> table ->
  Graph.records (Graph.add_records r table pks).2 !! t = Graph.records r !! t.
Proof. intros Hne. cbn. by rewrite lookup_insert_ne. Qed.

Lemma up_edge_excluded table pks depth st edge t :
  t ∈ Graph.exclude_tables config ->
  records_of (Graph.up_edge schema table pks depth config st edge) !! t
  = records_of st !! t.
Proof.
  intros Ht. unfold Graph.up_edge. destruct edge as [parent_table fk].
  repeat case_bool_decide; try done.
  cbn. apply lookup_insert_ne. congruence.
Qed.

Lemma down_edge_excluded table pks depth st edge t :
  t ∈ Graph.exclude_tables config ->
  records_of (Graph.down_edge schema table pks depth config st edge) !! t
  = records_of st !! t.
Proof.
  intros Ht. unfold Graph.down_edge. destruct edge as [child_table fk].
  repeat case_bool_decide; try done; cbn; apply lookup_insert_ne; congruence.
Qed.

Lemma fold_left_preserves {A B C : Type} (f : A -> B -> A) (g : A -> C) (l : list B) :
  (forall a b, g (f a b) = g a) ->
  forall a, g (List.fold_left f l a) = g a.
Proof.
  intros Hf. induction l as [|b l IH]; intros a; cbn; [done|].
  by rewrite IH, Hf.
Qed.

Lemma step_excluded st st' t :
  t ∈ Graph.exclude_tables config ->
  Graph.step schema config st = Some st' ->
  records_of st' !! t = records_of st !! t.
Proof.
  intros Ht. unfold Graph.step. destruct (Graph.queue st) as [|e rest]; [done|].
  intros [= <-]. destruct (Graph.e_tag e).
  - unfold Graph._traverse_up.
    rewrite (fold_left_preserves _ (fun st => records_of st !! t)); [done|].
    intros a b. by apply up_edge_excluded.
  - destruct (Graph.max_depth config <=? Graph.e_depth e)%Z; [done|].
    unfold Graph._traverse_down.
    rewrite (fold_left_preserves _ (fun st => records_of st !! t)); [done|].
    intros a b. by apply down_edge_excluded.
Qed.

Lemma run_excluded n : forall st t,
  t ∈ Graph.exclude_tables config ->
  records_of (Graph.run schema n config st) !! t = records_of st !! t.
Proof.
  induction n as [|n IH]; intros st t Ht; cbn; [done|].
  destruct (Graph.step schema config st) as [st'|] eqn:Hstep; [|done].
  rewrite IH by done. by eapply step_excluded.
Qed.

Lemma loop_excluded fuel : forall st st' t,
  t ∈ Graph.exclude_tables config ->
  Graph.loop schema fuel config st = Ok st' ->
  records_of st' !! t = records_of st !! t.
Proof.
  induction fuel as [|fuel IH]; intros st st' t Ht; cbn;
    destruct (Graph.step schema config st) as [st1|] eqn:Hstep;
    try discriminate; try (by intros [= <-]).
  intros Hloop. rewrite (IH _ _ _ Ht Hloop). by eapply step_excluded.
Qed.

Lemma passthrough_excluded (tables : list string) r t :
  t ∈ Graph.exclude_tables config ->
  Graph.records
    (Graph._process_passthrough_tables schema tables r (Graph.exclude_tables config))
  !! t = Graph.records r !! t.
Proof.
  intros Ht. unfold Graph._process_passthrough_tables.
  apply (fold_left_preserves _ (fun r => Graph.records r !! t)).
  intros a table. unfold Graph.passthrough_table.
  case_bool_decide as Hex; [done|].
  destruct (negb (has_table schema table)); [done|].
  destruct (get_table schema table); [|done].
  repeat case_bool_decide; try done.
  cbn. apply lookup_insert_ne. congruence.
Qed.

Lemma initial_records seed_table (seed_pks : Graph.pk_set) t :
  records_of (Graph.initial seed_table seed_pks config) !! t
  = if bool_decide (t = seed_table) then Some seed_pks else None.
Proof.
  cbn. case_bool_decide as Heq.
  - subst t. rewrite lookup_insert_eq. f_equal.
    unfold Graph.get_set. rewrite lookup_empty. set_solver.
  - by rewrite lookup_insert_ne, lookup_empty.
Qed.

(** C10: the records of an excluded table are never touched: after any
    number of turns of the loop, and in the result that [traverse]
    returns, an excluded table has no records, except the seed table, which
    has exactly the seed identities. *)
Theorem C10_excluded_tables_gain_no_rows
    (seed_table : string) (seed_pks : Graph.pk_set) (t : string) :
  t ∈ Graph.exclude_tables config ->
  (forall n,
     records_of (Graph.run schema n config (Graph.initial seed_table seed_pks config))
     !! t
     = if bool_decide (t = seed_table) then Some seed_pks else None)
  /\ (forall fuel r,
        Graph.traverse schema fuel seed_table seed_pks config = Ok r ->
        Graph.records r !! t
        = if bool_decide (t = seed_table) then Some seed_pks else None).
Proof.
  intros Ht. split.
  - intros n. rewrite run_excluded by done. apply initial_records.
  - intros fuel r. unfold Graph.traverse.
    destruct (Graph.loop schema fuel config
                (Graph.initial seed_table seed_pks config)) as [st|e] eqn:Hloop;
      [|discriminate].
    cbn [mbind result_bind]. intros [= <-].
    rewrite passthrough_excluded by done.
    rewrite (loop_excluded _ _ _ _ Ht Hloop). apply initial_records.
Qed.

End TraversalFrame.

Lemma C10_excluded_tables_gain_no_rows_witness :
  let config :=
    Graph.mkTraversalConfig 3 Graph.BOTH {["orders"; "products"]} ["products"] in
  let run :=
    Graph.traverse MemoryAdapter.shop_schema (adapter := MemoryAdapter.adapter MemoryAdapter.shop)
      20 "orders" {[MemoryAdapter.key 1]} config in
  (exists r, run = Ok r
             /\ Graph.records r !! "orders" = Some {[MemoryAdapter.key 1]}
             /\ Graph.records r !! "products" = None
             /\ Graph.records r !! "order_items" = Some {[MemoryAdapter.key 10]})
  /\ forall r, run = Ok r -> Graph.records r !! "products" = None.
Proof.
  intros config run. split.
  - eexists. split; [vm_compute; reflexivity|].
    repeat split; vm_compute; reflexivity.
  - intros r Hr.
    apply (proj2 (C10_excluded_tables_gain_no_rows MemoryAdapter.shop_schema
                    (adapter := MemoryAdapter.adapter MemoryAdapter.shop)
                    config "orders" {[MemoryAdapter.key 1]} "products"
                    ltac:(set_solver)) 20 r Hr).
Defined.

(** *** The upward traversal *)

Section UpwardTheory.

Context (schema : SchemaGraph) {adapter : Graph.DatabaseAdapter}.
Variable config : Graph.TraversalConfig.
Variable seed_table : string.
Variable seed_pks : Graph.pk_set.
Variable U : gset (string * pk_tuple).

Hypothesis pointwise : Graph.fetch_fk_values_pointwise.
Hypothesis bounded :
  forall row, Graph.reachable_parent schema config seed_table seed_pks row -> row ∈ U.

#[local] Abbreviation seen_up := Invariants.seen_up.
#[local] Abbreviation queued_up := Invariants.queued_up.
#[local] Abbreviation parents_seen := (Invariants.parents_seen config).
#[local] Abbreviation upward := (Invariants.upward schema config seed_table seed_pks).
#[local] Abbreviation potential := (Invariants.potential U).
#[local] Abbreviation reachable :=
  (Graph.reachable_parent schema config seed_table seed_pks).

Lemma get_set_insert (m : gmap string Graph.pk_set) t s t' :
  Graph.get_set (<[t := s]> m) t'
  = if bool_decide (t' = t) then s else Graph.get_set m t'.
Proof.
  unfold Graph.get_set. case_bool_decide as H.
  - subst. by rewrite lookup_insert_eq.
  - by rewrite lookup_insert_ne.
Qed.

(** What one parent edge does to the state. *)
Lemma up_edge_cases table pks depth st parent_table fk :
  let st' := Graph.up_edge schema table pks depth config st (parent_table, fk) in
  let parent_pks := Graph.fetch_fk_values table fk pks in
  let already := Graph.get_set (Graph.visited_up st) parent_table in
  (st' = st
   /\ (parent_table ∈ Graph.exclude_tables config \/ parent_pks ⊆ already))
  \/ ((parent_table ∉ Graph.exclude_tables config)
      /\ (exists pk, pk ∈ parent_pks /\ pk ∉ already)
      /\ Graph.queue st'
         = Graph.queue st
           ++ [Graph.mkEntry parent_table (parent_pks ∖ already) (depth + 1) Graph.up]
      /\ Graph.visited_up st'
         = <[parent_table := already ∪ parent_pks]> (Graph.visited_up st)
      /\ (forall t, Graph.get_records (Graph.st_result st') t
                    = if bool_decide (t = parent_table)
                      then Graph.get_records (Graph.st_result st) t
                           ∪ (parent_pks ∖ already)
                      else Graph.get_records (Graph.st_result st) t)).
Proof.
  cbv zeta. unfold Graph.up_edge.
  generalize (Graph.fetch_fk_values table fk pks); intros parent_pks.
  generalize (Graph.get_set (Graph.visited_up st) parent_table) (eq_refl (Graph.get_set (Graph.visited_up st) parent_table)).
  intros already Halready.
  case_bool_decide as Hex; [left; split; [done|by left]|].
  case_bool_decide as Hempty; [left; split; [done|right; clear -Hempty; set_solver]|].
  case_bool_decide as Hnew; [left; split; [done|right; set_solver]|].
  right. split; [done|]. split.
  { apply set_choose_L in Hnew as [pk Hpk]. exists pk. set_solver. }
  cbn. split; [done|]. split.
  { assert (already ∪ parent_pks ∖ already = already ∪ parent_pks) as Heq.
    { apply set_eq. intros x. rewrite !elem_of_union, elem_of_difference.
      destruct (decide (x ∈ already)); tauto. }
    by rewrite Heq. }
  intros t. unfold Graph.get_records. cbn. rewrite get_set_insert.
  case_bool_decide; [|done]. subst t.
  apply set_eq. intros x. rewrite !elem_of_union, !elem_of_difference.
  destruct (decide (x ∈ Graph.get_set (Graph.records (Graph.st_result st)) parent_table));
    tauto.
Qed.

Lemma parents_seen_snoc st followed parent_table fk t pk :
  parents_seen st followed t pk ->
  (forall pk', parent_table ∉ Graph.exclude_tables config ->
               pk' ∈ Graph.fetch_fk_values t fk {[pk]} -> seen_up st parent_table pk') ->
  parents_seen st (followed ++ [(parent_table, fk)]) t pk.
Proof.
  intros Hold Hnew t' fk' pk' Hin Hex Hpk'.
  apply elem_of_app in Hin as [Hin|Hin]; [by eapply Hold|].
  apply list_elem_of_singleton in Hin as [= -> ->]. by apply Hnew.
Qed.

Lemma parents_seen_mono st st' edges t pk :
  (forall t pk, seen_up st t pk -> seen_up st' t pk) ->
  parents_seen st edges t pk -> parents_seen st' edges t pk.
Proof. intros Hmono H t' fk pk' ? ? ?. apply Hmono. by eapply H. Qed.

Lemma up_edge_upward table pks depth followed st parent_table fk :
  upward (Some (table, pks, followed)) st ->
  (parent_table, fk) ∈ get_parents schema table ->
  upward (Some (table, pks, followed ++ [(parent_table, fk)]))
    (Graph.up_edge schema table pks depth config st (parent_table, fk)).
Proof.
  intros (Hrec & Hreach & Hseed & Hqueue & Hpending & Hcur) Hedge.
  destruct (up_edge_cases table pks depth st parent_table fk)
    as [[-> Hskip]|(Hnex & (pk0 & Hpk0 & Hpk0') & Hq & Hv & Hr)].
  - (* nothing new *)
    split; [done|]. split; [done|]. split; [done|]. split; [done|].
    split; [|done].
    intros t pk Hseen.
    destruct (Hpending t pk Hseen) as [?|[?|(-> & Hpk & Hfollowed)]];
      [by left|by right; left|].
    right. right. split; [done|]. split; [done|].
    apply parents_seen_snoc; [done|]. intros pk' Hnex Hpk'.
    destruct Hskip as [?|Hsub]; [done|]. apply Hsub.
    apply pointwise. by exists pk.
  - (* new parent rows *)
    set (st' := Graph.up_edge schema table pks depth config st (parent_table, fk)) in *.
    assert (Hseen' : forall t pk,
               seen_up st' t pk
               <-> seen_up st t pk
                   \/ (t = parent_table
                       /\ pk ∈ Graph.fetch_fk_values table fk pks)).
    { intros t pk. unfold Invariants.seen_up. rewrite Hv, get_set_insert.
      case_bool_decide as Ht.
      - subst t. rewrite elem_of_union. naive_solver.
      - naive_solver. }
    assert (Hmono : forall t pk, seen_up st t pk -> seen_up st' t pk).
    { intros t pk H. apply Hseen'. by left. }
    split; [|split; [|split; [|split; [|split]]]].
    + intros t. rewrite Hr. unfold Invariants.seen_up in *. rewrite Hv, get_set_insert.
      case_bool_decide as Ht; [|apply Hrec]. subst t.
      unfold Graph.get_records in *. rewrite Hrec.
      apply set_eq. intros x. rewrite !elem_of_union, elem_of_difference.
      destruct (decide (x ∈ Graph.get_set (Graph.visited_up st) parent_table)); tauto.
    + intros t pk Hseen. apply Hseen' in Hseen as [Hseen|[-> Hpk]]; [by apply Hreach|].
      apply pointwise in Hpk as (child & Hchild & Hpk).
      destruct (Hreach table child (Hcur child Hchild)) as (seed & Hseed_in & Hrtc).
      exists seed. split; [done|].
      eapply rtc_r; [exact Hrtc|]. exists fk. done.
    + intros s Hs. by apply Hmono, Hseed.
    + intros e He. rewrite Hq in He. apply elem_of_app in He as [He|He].
      * specialize (Hqueue e He). destruct (Graph.e_tag e); [|done].
        intros pk Hpk. by apply Hmono, Hqueue.
      * apply list_elem_of_singleton in He as ->. cbn.
        intros pk Hpk. apply Hseen'. right. split; [done|].
        by apply elem_of_difference in Hpk as [? _].
    + intros t pk Hseen.
      destruct (decide (pk ∈ Graph.get_set (Graph.visited_up st) t)) as [Hold|Hnew].
      * destruct (Hpending t pk Hold) as [(e & He & Htag & Ht & Hpk)|[H|(-> & Hpk & Hfollowed)]].
        -- left. exists e. rewrite Hq. split; [apply elem_of_app; by left|done].
        -- right. left. by eapply parents_seen_mono.
        -- right. right. split; [done|]. split; [done|].
           apply parents_seen_snoc; [by eapply parents_seen_mono|].
           intros pk' _ Hpk'. apply Hseen'. right. split; [done|].
           apply pointwise. by exists pk.
      * apply Hseen' in Hseen as [?|[-> Hpk]]; [done|].
        left. eexists. rewrite Hq. split; [apply elem_of_app; right; by apply list_elem_of_singleton|].
        cbn. split; [done|]. split; [done|].
        apply elem_of_difference. split; [done|]. exact Hnew.
    + intros pk Hpk. by apply Hmono, Hcur.
Qed.

Lemma up_edge_potential table pks depth followed st parent_table fk :
  upward (Some (table, pks, followed)) st ->
  (parent_table, fk) ∈ get_parents schema table ->
  potential (Graph.up_edge schema table pks depth config st (parent_table, fk))
  <= potential st.
Proof.
  intros Hup Hedge.
  pose proof (up_edge_upward table pks depth followed st parent_table fk Hup Hedge)
    as (_ & Hreach' & _).
  destruct (up_edge_cases table pks depth st parent_table fk)
    as [[-> _]|(Hnex & (pk0 & Hpk0 & Hpk0') & Hq & Hv & _)]; [done|].
  set (st' := Graph.up_edge schema table pks depth config st (parent_table, fk)) in *.
  unfold Invariants.potential. rewrite Hq, length_app. cbn [length].
  assert (Hseen0 : seen_up st' parent_table pk0).
  { unfold Invariants.seen_up. rewrite Hv, get_set_insert.
    rewrite bool_decide_eq_true_2 by done. apply elem_of_union. by right. }
  assert (size (Invariants.unseen U st') < size (Invariants.unseen U st)); [|lia].
  apply subset_size. split.
  - intros row Hrow. unfold Invariants.unseen in *.
    apply elem_of_filter in Hrow as [Hrow HU]. apply elem_of_filter.
    split; [|done]. intros Hin. apply Hrow.
    rewrite Hv, get_set_insert. case_bool_decide as Ht; [|done].
    rewrite <- Ht. apply elem_of_union. by left.
  - intros Hsub. specialize (Hsub (parent_table, pk0)).
    unfold Invariants.unseen in Hsub. rewrite !elem_of_filter in Hsub.
    destruct Hsub as [Hnot _]; [|by apply Hnot].
    split; [done|]. apply bounded. by apply Hreach'.
Qed.

Lemma traverse_up_upward table pks depth (rest : list (string * ForeignKey)) :
  forall followed st,
    (forall e, e ∈ rest -> e ∈ get_parents schema table) ->
    upward (Some (table, pks, followed)) st ->
    upward (Some (table, pks, followed ++ rest))
      (List.fold_left (Graph.up_edge schema table pks depth config) rest st)
    /\ potential (List.fold_left (Graph.up_edge schema table pks depth config) rest st)
       <= potential st.
Proof.
  induction rest as [|[parent_table fk] rest IH]; intros followed st Hin Hup.
  - rewrite app_nil_r. done.
  - cbn [List.fold_left].
    assert (Hedge : (parent_table, fk) ∈ get_parents schema table)
      by (apply Hin; apply elem_of_cons; by left).
    pose proof (up_edge_upward table pks depth followed st parent_table fk Hup Hedge)
      as Hup'.
    pose proof (up_edge_potential table pks depth followed st parent_table fk Hup Hedge)
      as Hpot.
    destruct (IH (followed ++ [(parent_table, fk)]) _
                (fun e He => Hin e (proj2 (elem_of_cons _ _ _) (or_intror He))) Hup')
      as [Hup'' Hpot'].
    rewrite <- app_assoc in Hup''. split; [exact Hup''|lia].
Qed.

Lemma step_upward st :
  upward None st ->
  match Graph.step schema config st with
  | None => Graph.queue st = []
  | Some st' => upward None st' /\ potential st' < potential st
  end.
Proof.
  intros (Hrec & Hreach & Hseed & Hqueue & Hpending & _).
  unfold Graph.step. destruct (Graph.queue st) as [|e rest] eqn:Hq; [done|].
  set (st1 := {| Graph.st_result := Graph.st_result st;
                 Graph.visited_up := Graph.visited_up st;
                 Graph.visited_down := Graph.visited_down st;
                 Graph.queue := rest |}).
  assert (Hpot1 : potential st1 < potential st).
  { unfold Invariants.potential, Invariants.unseen. rewrite Hq. cbn. lia. }
  assert (He : e ∈ e :: rest) by (apply elem_of_cons; by left).
  pose proof (Hqueue e He) as Hentry.
  assert (Hrest : forall e', e' ∈ rest -> e' ∈ e :: rest)
    by (intros e' He'; apply elem_of_cons; by right).
  destruct (Graph.e_tag e) eqn:Htag.
  - (* an entry tagged up *)
    assert (Hup1 : upward (Some (Graph.e_table e, Graph.e_pks e, [])) st1).
    { split; [done|]. split; [done|]. split; [done|].
      split; [intros e' He'; by apply Hqueue, Hrest|].
      split; [|done].
      intros t pk Hseen.
      destruct (Hpending t pk Hseen) as [(e' & He' & Htag' & Ht & Hpk)|[?|[]]];
        [|by right; left].
      rewrite Hq in He'. apply elem_of_cons in He' as [->|He'].
      - right. right. split; [done|]. split; [done|].
        intros t' fk pk' Hin. by apply elem_of_nil in Hin.
      - left. by exists e'. }
    destruct (traverse_up_upward (Graph.e_table e) (Graph.e_pks e) (Graph.e_depth e)
                (get_parents schema (Graph.e_table e)) [] st1 (fun _ H => H) Hup1)
      as [(Hrec' & Hreach' & Hseed' & Hqueue' & Hpending' & _) Hpot].
    split; [|unfold Graph._traverse_up; lia].
    split; [done|]. split; [done|]. split; [done|]. split; [done|].
    split; [|done].
    intros t pk Hseen.
    destruct (Hpending' t pk Hseen) as [?|[?|(-> & _ & ?)]];
      [by left|by right; left|by right; left].
  - (* an entry tagged down: its depth has reached the bound *)
    apply Z.leb_le in Hentry. rewrite Hentry.
    split; [|done].
    split; [done|]. split; [done|]. split; [done|].
    split; [intros e' He'; by apply Hqueue, Hrest|].
    split; [|done].
    intros t pk Hseen.
    destruct (Hpending t pk Hseen) as [(e' & He' & Htag' & Ht & Hpk)|[?|[]]];
      [|by right; left].
    left. exists e'. split; [|done].
    rewrite Hq in He'. apply elem_of_cons in He' as [->|He']; [congruence|done].
Qed.

Lemma loop_upward : forall fuel st,
  upward None st ->
  potential st <= fuel ->
  exists st', Graph.loop schema fuel config st = Ok st'
              /\ upward None st' /\ Graph.queue st' = [].
Proof.
  induction fuel as [|fuel IH]; intros st Hup Hfuel;
    pose proof (step_upward st Hup) as Hstep; cbn [Graph.loop];
    destruct (Graph.step schema config st) as [st1|].
  - destruct Hstep. lia.
  - by exists st.
  - destruct Hstep as [Hup1 Hpot]. apply IH; [done|lia].
  - by exists st.
Qed.

(** When the queue is empty every reachable row is marked. *)
Lemma upward_complete st row :
  upward None st -> Graph.queue st = [] ->
  reachable row -> seen_up st row.1 row.2.
Proof.
  intros (_ & _ & Hseed & _ & Hpending & _) Hq (seed & Hs & Hrtc).
  revert row Hrtc.
  apply (rtc_ind_r (fun row => seen_up st row.1 row.2)).
  - by apply Hseed.
  - intros mid row Hrtc Hstep IH.
    destruct Hstep as (fk & Hedge & Hnex & Hpk).
    destruct (Hpending _ _ IH) as [(e & He & _)|[Hdone|[]]].
    + rewrite Hq in He. by apply elem_of_nil in He.
    + by eapply Hdone.
Qed.

Lemma initial_upward :
  (Graph.max_depth config <= 0)%Z ->
  Graph.direction config <> Graph.DOWN ->
  upward None (Graph.initial seed_table seed_pks config)
  /\ potential (Graph.initial seed_table seed_pks config) <= 2 * size U + 2.
Proof.
  intros Hdepth Hdir.
  assert (Hseen : forall t pk,
            seen_up (Graph.initial seed_table seed_pks config) t pk
            <-> t = seed_table /\ pk ∈ seed_pks).
  { intros t pk. unfold Invariants.seen_up, Graph.get_set. cbn.
    destruct (decide (t = seed_table)) as [->|Hne].
    - rewrite lookup_singleton_eq. naive_solver.
    - rewrite lookup_singleton_ne by done. set_solver. }
  split.
  - split; [|split; [|split; [|split; [|split]]]]; try done.
    + intros t. unfold Graph.get_records, Graph.get_set. cbn.
      destruct (decide (t = seed_table)) as [->|Hne].
      * rewrite lookup_insert_eq, lookup_singleton_eq. set_solver.
      * rewrite lookup_insert_ne, lookup_singleton_ne, lookup_empty by done. done.
    + intros t pk Hs. apply Hseen in Hs as [-> Hs]. exists pk. split; [done|].
      apply rtc_refl.
    + intros s Hs. by apply Hseen.
    + intros e He. cbn in He.
      destruct (Graph.direction config); cbn in He;
        repeat (apply elem_of_cons in He as [->|He]); try (by apply elem_of_nil in He);
        cbn; try done; intros pk Hpk; by apply Hseen.
    + intros t pk Hs. left. apply Hseen in Hs as [-> Hs].
      exists (Graph.mkEntry seed_table seed_pks 0 Graph.up). cbn.
      split; [|done].
      destruct (Graph.direction config); [| done |]; apply elem_of_cons; by left.
  - unfold Invariants.potential.
    assert (size (Invariants.unseen U (Graph.initial seed_table seed_pks config))
            <= size U).
    { apply subseteq_size. intros row Hrow.
      by apply elem_of_filter in Hrow as [_ ?]. }
    assert (length (Graph.queue (Graph.initial seed_table seed_pks config)) <= 2).
    { cbn. destruct (Graph.direction config); cbn; lia. }
    lia.
Qed.

(** C2 (amended): an entry tagged up is processed whatever its depth; an
    entry tagged down whose depth has reached [max_depth] is dropped and
    changes nothing.  With [max_depth] at most 0, a direction other than
    DOWN and no passthrough table, [traverse] returns, and its records are
    exactly the seed rows and the rows reached from them through parent
    rows in tables that are not excluded. *)
Theorem C2_depth_zero_collects_parent_closure (fuel : nat) :
  (forall st e rest,
     Graph.queue st = e :: rest -> Graph.e_tag e = Graph.up ->
     Graph.step schema config st
     = Some (Graph._traverse_up schema (Graph.e_table e) (Graph.e_pks e)
               (Graph.e_depth e) config
               {| Graph.st_result := Graph.st_result st;
                  Graph.visited_up := Graph.visited_up st;
                  Graph.visited_down := Graph.visited_down st;
                  Graph.queue := rest |}))
  /\ (forall st e rest,
        Graph.queue st = e :: rest -> Graph.e_tag e = Graph.down ->
        (Graph.max_depth config <= Graph.e_depth e)%Z ->
        Graph.step schema config st
        = Some {| Graph.st_result := Graph.st_result st;
                  Graph.visited_up := Graph.visited_up st;
                  Graph.visited_down := Graph.visited_down st;
                  Graph.queue := rest |})
  /\ ((Graph.max_depth config <= 0)%Z ->
      Graph.direction config <> Graph.DOWN ->
      Graph.passthrough_tables config = [] ->
      2 * size U + 2 <= fuel ->
      exists r,
        Graph.traverse schema fuel seed_table seed_pks config = Ok r
        /\ forall t pk, pk ∈ Graph.get_records r t <-> reachable (t, pk)).
Proof.
  split; [|split].
  - intros st e rest Hq Htag. unfold Graph.step. by rewrite Hq, Htag.
  - intros st e rest Hq Htag Hdepth. unfold Graph.step. rewrite Hq, Htag.
    apply Z.leb_le in Hdepth. by rewrite Hdepth.
  - intros Hdepth Hdir Hpass Hfuel.
    destruct (initial_upward Hdepth Hdir) as [Hinit Hpot].
    destruct (loop_upward fuel _ Hinit ltac:(lia)) as (st & Hloop & Hup & Hq).
    exists (Graph.st_result st). split.
    + unfold Graph.traverse. rewrite Hloop, Hpass. reflexivity.
    + intros t pk. split.
      * intros Hpk. destruct Hup as (Hrec & Hreach & _).
        apply Hreach. unfold Invariants.seen_up. by rewrite <- Hrec.
      * intros Hreach. destruct Hup as (Hrec & Hrest).
        rewrite Hrec.
        apply (upward_complete st (t, pk)); [by split|done|done].
Qed.

End UpwardTheory.

(** *** The adapter over rows held in memory *)

Lemma memory_fetch_fk_values db table fk (pks : Graph.pk_set) parent :
  parent ∈ Graph.fetch_fk_values (DatabaseAdapter := MemoryAdapter.adapter db)
             table fk pks
  <-> exists l, l ∈ MemoryAdapter.links db
                /\ MemoryAdapter.l_table l = table
                /\ MemoryAdapter.l_fk l = fk_name fk
                /\ MemoryAdapter.l_pk l ∈ pks
                /\ MemoryAdapter.l_target l = parent.
Proof.
  cbn. rewrite elem_of_list_to_set, list_elem_of_In, List.in_map_iff. split.
  - intros (l & <- & Hl). apply List.filter_In in Hl as [Hl Hcond].
    apply andb_true_iff in Hcond as [Hcond H3].
    apply andb_true_iff in Hcond as [H1 H2].
    apply bool_decide_eq_true_1 in H1, H2, H3.
    exists l. split; [by apply list_elem_of_In|done].
  - intros (l & Hl & H1 & H2 & H3 & <-). exists l. split; [done|].
    apply List.filter_In. split; [by apply list_elem_of_In|].
    rewrite !andb_true_iff. repeat split; by apply bool_decide_eq_true_2.
Qed.

Lemma memory_pointwise db :
  Graph.fetch_fk_values_pointwise (adapter := MemoryAdapter.adapter db).
Proof.
  intros table fk pks parent. rewrite memory_fetch_fk_values. split.
  - intros (l & Hl & H1 & H2 & H3 & H4). exists (MemoryAdapter.l_pk l).
    split; [done|]. apply memory_fetch_fk_values. exists l.
    repeat split; try done. by apply elem_of_singleton.
  - intros (pk & Hpk & Hparent).
    apply memory_fetch_fk_values in Hparent as (l & Hl & H1 & H2 & H3 & H4).
    apply elem_of_singleton in H3. exists l. repeat split; try done. by rewrite H3.
Qed.

Lemma memory_bounded db schema config seed_table seed_pks row :
  Graph.reachable_parent (adapter := MemoryAdapter.adapter db)
    schema config seed_table seed_pks row ->
  row ∈ MemoryAdapter.universe db schema seed_table seed_pks.
Proof.
  intros (seed & Hseed & Hrtc). unfold MemoryAdapter.universe.
  destruct (rtc_inv_r _ _ Hrtc) as [<- | (mid & _ & fk & Hedge & _ & Hpk)].
  - apply elem_of_union. left. apply elem_of_list_to_set, list_elem_of_In.
    apply List.in_map_iff. exists seed. split; [done|].
    by apply list_elem_of_In, elem_of_elements.
  - apply elem_of_union. right. apply elem_of_list_to_set, list_elem_of_In.
    apply memory_fetch_fk_values in Hpk as (l & Hl & _ & _ & _ & Htarget).
    apply List.in_flat_map. exists row.1. split.
    + apply List.in_or_app. unfold get_parents in Hedge.
      apply elem_of_app in Hedge as [Hedge|Hedge].
      * apply list_elem_of_In, List.in_map_iff in Hedge as (x & [= Hx _] & Hin).
        apply List.filter_In in Hin as [Hin _]. left.
        apply List.in_map_iff. by exists x.
      * apply list_elem_of_In, List.in_map_iff in Hedge as (x & [= Hx _] & Hin).
        apply List.filter_In in Hin as [Hin _]. right.
        apply List.in_map_iff. by exists x.
    + apply List.in_map_iff. exists l. split; [|by apply list_elem_of_In].
      rewrite Htarget. by destruct row.
Qed.

Lemma C2_depth_zero_collects_parent_closure_witness :
  let config := Graph.mkTraversalConfig 0 Graph.BOTH ∅ [] in
  exists r,
    Graph.traverse MemoryAdapter.shop_schema
      (adapter := MemoryAdapter.adapter MemoryAdapter.shop)
      40 "order_items" {[MemoryAdapter.key 10]} config = Ok r
    /\ Graph.records r
       = {[ "order_items" := {[MemoryAdapter.key 10]};
            "orders" := {[MemoryAdapter.key 1]};
            "users" := {[MemoryAdapter.key 1]};
            "products" := {[MemoryAdapter.key 100]} ]}
    /\ forall t pk,
         pk ∈ Graph.get_records r t
         <-> Graph.reachable_parent (adapter := MemoryAdapter.adapter MemoryAdapter.shop)
               MemoryAdapter.shop_schema config "order_items"
               {[MemoryAdapter.key 10]} (t, pk).
Proof.
  intros config.
  destruct (C2_depth_zero_collects_parent_closure MemoryAdapter.shop_schema
              (adapter := MemoryAdapter.adapter MemoryAdapter.shop)
              config "order_items" {[MemoryAdapter.key 10]}
              (MemoryAdapter.universe MemoryAdapter.shop MemoryAdapter.shop_schema
                 "order_items" {[MemoryAdapter.key 10]})
              (memory_pointwise MemoryAdapter.shop)
              (memory_bounded MemoryAdapter.shop MemoryAdapter.shop_schema config
                 "order_items" {[MemoryAdapter.key 10]})
              40) as (_ & _ & Hclosure).
  destruct Hclosure as (r & Hr & Hrows).
  - vm_compute. discriminate.
  - discriminate.
  - reflexivity.
  - apply Nat.leb_le. vm_compute. reflexivity.
  - exists r. split; [exact Hr|]. split; [|exact Hrows].
    assert (Hrun :
      Graph.traverse MemoryAdapter.shop_schema
        (adapter := MemoryAdapter.adapter MemoryAdapter.shop)
        40 "order_items" {[MemoryAdapter.key 10]} config
      = Ok (Graph.mkTraversalResult
              {[ "order_items" := {[MemoryAdapter.key 10]};
                 "orders" := {[MemoryAdapter.key 1]};
                 "users" := {[MemoryAdapter.key 1]};
                 "products" := {[MemoryAdapter.key 100]} ]}
              [ "seed: order_items (1 rows)";
                "order_items --(up:fk_order_items_order_id)--> orders (1 rows)";
                "order_items --(up:fk_order_items_product_id)--> products (1 rows)";
                "orders --(up:fk_orders_user_id)--> users (1 rows)" ]
              {["order_items"; "orders"; "products"; "users"]}))
      by (vm_compute; reflexivity).
    rewrite Hrun in Hr. by injection Hr as <-.
Defined.

(** C2 as stated fails: with direction DOWN and [max_depth] 0 the result
    holds the seed rows only, although the order has a parent row; and a
    passthrough table brings rows that no foreign key leads to. *)
Lemma C2_counterexample :
  let down0 := Graph.mkTraversalConfig 0 Graph.DOWN ∅ [] in
  let pass0 := Graph.mkTraversalConfig 0 Graph.BOTH ∅ ["products"] in
  (exists r,
     Graph.traverse MemoryAdapter.shop_schema
       (adapter := MemoryAdapter.adapter MemoryAdapter.shop)
       10 "orders" {[MemoryAdapter.key 1]} down0 = Ok r
     /\ Graph.records r = {[ "orders" := {[MemoryAdapter.key 1]} ]}
     /\ Graph.reachable_parent (adapter := MemoryAdapter.adapter MemoryAdapter.shop)
          MemoryAdapter.shop_schema down0 "orders" {[MemoryAdapter.key 1]}
          ("users", MemoryAdapter.key 1)
     /\ MemoryAdapter.key 1 ∉ Graph.get_records r "users")
  /\ (exists r,
        Graph.traverse MemoryAdapter.shop_schema
          (adapter := MemoryAdapter.adapter MemoryAdapter.shop)
          10 "orders" {[MemoryAdapter.key 1]} pass0 = Ok r
        /\ MemoryAdapter.key 200 ∈ Graph.get_records r "products"
        /\ ~ Graph.reachable_parent
               (adapter := MemoryAdapter.adapter MemoryAdapter.shop)
               MemoryAdapter.shop_schema pass0 "orders" {[MemoryAdapter.key 1]}
               ("products", MemoryAdapter.key 200)).
Proof.
  intros down0 pass0. split.
  - eexists. split; [vm_compute; reflexivity|]. split; [vm_compute; reflexivity|].
    split.
    + exists (MemoryAdapter.key 1). split; [by apply elem_of_singleton|].
      apply rtc_once. exists MemoryAdapter.orders_user.
      split; [vm_compute; apply elem_of_cons; by left|].
      split; [apply not_elem_of_empty|].
      apply memory_fetch_fk_values.
      exists (MemoryAdapter.mkLink "orders" (MemoryAdapter.key 1)
                "fk_orders_user_id" (MemoryAdapter.key 1)).
      split; [apply elem_of_cons; by left|].
      split; [reflexivity|]. split; [reflexivity|].
      split; [by apply elem_of_singleton|reflexivity].
    + refine (proj1 (bool_decide_eq_false _) _). vm_compute. reflexivity.
  - eexists. split; [vm_compute; reflexivity|]. split.
    + refine (proj1 (bool_decide_eq_true _) _). vm_compute. reflexivity.
    + intros Hreach. apply memory_bounded in Hreach. revert Hreach.
      refine (proj1 (bool_decide_eq_false _) _). vm_compute. reflexivity.
Qed.

(** ** Theory of validation.py *)

Section ValidatorTheory.

Variable schema : SchemaGraph.
Variable broken_fks : list ForeignKey.
Variable pk_index : gmap string (gset pk_tuple).

#[local] Abbreviation validated :=
  (Invariants.validated schema broken_fks pk_index).

Lemma existsb_none_false (values : list pyval) :
  existsb (fun v => bool_decide (v = PNone)) values = false -> PNone ∉ values.
Proof.
  intros H Hin. apply list_elem_of_In in Hin.
  assert (existsb (fun v => bool_decide (v = PNone)) values = true) as Ht.
  { apply existsb_exists. exists PNone. split; [done|]. by apply bool_decide_eq_true. }
  congruence.
Qed.

Lemma check_fk_validated table_name r pk_values res parent :
  parent ∈ get_parents schema table_name ->
  validated res ->
  validated (Validation.check_fk table_name r pk_values broken_fks pk_index res parent).
Proof.
  intros Hparent (Hvalid & Hbroken & Horphans).
  unfold Validation.check_fk. destruct parent as [parent_table fk].
  destruct (bool_decide (fk ∈ broken_fks)) eqn:Hb; [done|].
  apply bool_decide_eq_false in Hb.
  destruct (existsb _ _) eqn:Hnone; [done|].
  destruct (Validation._has_parent_record _ _ _) eqn:Hhas; [done|].
  split; [|split].
  - cbn. split; [done|]. intros H. by apply app_eq_nil in H as [_ ?].
  - done.
  - cbn. intros o Ho. apply elem_of_app in Ho as [Ho|Ho]; [by apply Horphans|].
    apply list_elem_of_singleton in Ho as ->. cbn.
    split; [by apply existsb_none_false|]. split; [done|].
    by exists fk.
Qed.

Lemma fold_left_bind_preserves {A B : Type} (P : A -> Prop)
    (g : A -> B -> result A) (l : list B) :
  (forall a b a', b ∈ l -> P a -> g a b = Ok a' -> P a') ->
  forall acc a,
    (forall a0, acc = Ok a0 -> P a0) ->
    List.fold_left (fun acc b => a ← acc; g a b) l acc = Ok a -> P a.
Proof.
  induction l as [|b l IH]; intros Hg acc a Hacc; cbn [List.fold_left].
  - apply Hacc.
  - apply IH.
    + intros a0 b0 a' Hb0. apply Hg. by right.
    + intros a0 Ha0. destruct acc as [a1|e]; [|discriminate].
      cbn in Ha0. eapply Hg; [by left| |done]. by apply Hacc.
Qed.

Lemma validate_tables_validated tables vr :
  List.fold_left
    (fun acc item =>
       res ← acc;
       match get_table schema item.1 with
       | None => Ok res
       | Some table_info =>
           let res1 :=
             {| Validation.is_valid := Validation.is_valid res;
                Validation.orphaned_records := Validation.orphaned_records res;
                Validation.vr_broken_fks := Validation.vr_broken_fks res;
                Validation.total_records_checked :=
                  Validation.total_records_checked res + length item.2;
                Validation.total_fk_checks := Validation.total_fk_checks res |} in
           let parents := get_parents schema item.1 in
           List.fold_left
             (fun acc r =>
                res ← acc;
                pk_values ← Validation._extract_pk_values r (primary_key table_info);
                Ok (List.fold_left
                      (Validation.check_fk item.1 r pk_values broken_fks pk_index)
                      parents res))
             item.2 (Ok res1)
       end)
    tables
    (Ok {| Validation.is_valid := true; Validation.orphaned_records := [];
           Validation.vr_broken_fks := broken_fks;
           Validation.total_records_checked := 0;
           Validation.total_fk_checks := 0 |})
  = Ok vr ->
  validated vr.
Proof.
  apply (fold_left_bind_preserves validated
           (fun res (item : string * list row) =>
              match get_table schema item.1 with
              | None => Ok res
              | Some table_info => _
              end)).
  - intros res [table_name rows] res' _ Hres. cbn [fst snd].
    destruct (get_table schema table_name) as [table_info|]; [|by intros [= <-]].
    apply (fold_left_bind_preserves validated
             (fun res r =>
                pk_values ← Validation._extract_pk_values r (primary_key table_info);
                Ok (List.fold_left
                      (Validation.check_fk table_name r pk_values broken_fks pk_index)
                      (get_parents schema table_name) res))).
    + intros res0 r res1 _ Hres0.
      destruct (Validation._extract_pk_values r (primary_key table_info))
        as [pk_values|e]; [|discriminate].
      intros [= <-].
      assert (Hparents : forall parents,
                (forall p, p ∈ parents -> p ∈ get_parents schema table_name) ->
                forall res2, validated res2 ->
                  validated (List.fold_left
                               (Validation.check_fk table_name r pk_values
                                  broken_fks pk_index) parents res2)).
      { induction parents as [|p parents IH]; intros Hsub res2 Hres2;
          cbn [List.fold_left]; [done|].
        apply IH; [intros q Hq; apply Hsub; by right|].
        apply check_fk_validated; [apply Hsub; by left|done]. }
      by apply Hparents.
    + intros a0 [= <-]. destruct Hres as (? & ? & ?). by split; [|split].
  - intros a0 [= <-]. split; [done|]. split; [done|].
    intros o Ho. by apply elem_of_nil in Ho.
Qed.

End ValidatorTheory.

(** When [validate] returns, its result is valid exactly when it records
    no orphan, it carries the broken foreign keys it was given, and every
    orphan it records is a reference without NULL, through a foreign key
    that is not broken, to a parent missing from the extracted rows. *)
Theorem validate_reports_orphans schema tables broken_fks vr :
  Validation.validate schema tables broken_fks = Ok vr ->
  exists pk_index,
    Validation._build_pk_index schema tables = Ok pk_index
    /\ Invariants.validated schema broken_fks pk_index vr.
Proof.
  unfold Validation.validate.
  destruct (Validation._build_pk_index schema tables) as [pk_index|e];
    [|discriminate].
  intros H. exists pk_index. split; [done|].
  by apply validate_tables_validated in H.
Qed.

Lemma validate_reports_orphans_witness :
  exists pk_index,
    Validation._build_pk_index MemoryAdapter.shop_schema
      [("orders", [ [("id", PInt 1); ("user_id", PInt 1)] ]);
       ("users", [ [("id", PInt 2); ("email", PStr "b@example.com")] ])]
    = Ok pk_index
    /\ Invariants.validated MemoryAdapter.shop_schema [] pk_index
         {| Validation.is_valid := false;
            Validation.orphaned_records :=
              [ {| Validation.o_table := "orders";
                   Validation.o_pk_values := [PInt 1];
                   Validation.o_fk_name := "fk_orders_user_id";
                   Validation.o_fk_columns := ["user_id"];
                   Validation.o_fk_values := [PInt 1];
                   Validation.o_parent_table := "users";
                   Validation.o_parent_pk_columns := ["id"] |} ];
            Validation.vr_broken_fks := [];
            Validation.total_records_checked := 2;
            Validation.total_fk_checks := 1 |}.
Proof.
  apply (validate_reports_orphans MemoryAdapter.shop_schema
           [("orders", [ [("id", PInt 1); ("user_id", PInt 1)] ]);
            ("users", [ [("id", PInt 2); ("email", PStr "b@example.com")] ])]
           []).
  vm_compute. reflexivity.
Defined.

(** ** The extraction engine *)

Section LoggedTheory.

#[local] Abbreviation logged := ExtractionEngine.logged.
#[local] Abbreviation events := ExtractionEngine.events.
#[local] Abbreviation outcome := ExtractionEngine.outcome.
#[local] Abbreviation quiet := Invariants.quiet.

Lemma outcome_bind {A B : Type} (m : logged A) (k : A -> logged B) :
  outcome (m ≫= k)
  = match outcome m with
    | Ok a => outcome (k a)
    | Raise e => Raise e
    end.
Proof. unfold mbind, ExtractionEngine.logged_bind. by destruct (outcome m). Qed.

Lemma events_bind {A B : Type} (m : logged A) (k : A -> logged B) :
  events (m ≫= k)
  = match outcome m with
    | Ok a => events m ++ events (k a)
    | Raise e => events m
    end.
Proof. unfold mbind, ExtractionEngine.logged_bind. by destruct (outcome m). Qed.

Lemma outcome_log stage message current total :
  outcome (ExtractionEngine._log stage message current total) = Ok tt.
Proof. reflexivity. Qed.

Lemma outcome_ret {A : Type} (a : A) : outcome (mret a) = Ok a.
Proof. reflexivity. Qed.

Lemma outcome_lift {A : Type} (r : result A) : outcome (ExtractionEngine.lift r) = r.
Proof. reflexivity. Qed.

Lemma bind_ok_inv {A B : Type} (m : logged A) (k : A -> logged B) b :
  outcome (m ≫= k) = Ok b ->
  exists a, outcome m = Ok a /\ outcome (k a) = Ok b
            /\ events (m ≫= k) = events m ++ events (k a).
Proof.
  rewrite outcome_bind, events_bind. destruct (outcome m) as [a|e]; [|discriminate].
  intros H. by exists a.
Qed.

Lemma quiet_ret {A : Type} (a : A) (Q : A -> Prop) : Q a -> quiet (mret a) Q.
Proof.
  intros HQ. split; [apply Forall_nil_2|]. split; [discriminate|].
  by intros a' [= <-].
Qed.

Lemma quiet_bind {A B : Type} (m : logged A) (k : A -> logged B)
    (Q : A -> Prop) (R : B -> Prop) :
  quiet m Q -> (forall a, Q a -> quiet (k a) R) -> quiet (m ≫= k) R.
Proof.
  intros (Hev & Herr & HQ) Hk. unfold Invariants.quiet.
  rewrite outcome_bind, events_bind.
  destruct (outcome m) as [a|e] eqn:Hm.
  - destruct (Hk a (HQ a eq_refl)) as (Hev' & Herr' & HR).
    split; [by apply Forall_app|done].
  - split; [done|]. split; [|discriminate].
    intros msg [= ->]. by eapply Herr.
Qed.

Lemma quiet_log stage message current total :
  stage <> "validate" ->
  quiet (ExtractionEngine._log stage message current total) (fun _ => True).
Proof.
  intros Hstage. split; [by apply Forall_singleton|]. split; [discriminate|done].
Qed.

Lemma quiet_lift {A : Type} (r : result A) :
  Invariants.only_key_error r ->
  quiet (ExtractionEngine.lift r) (fun _ => True).
Proof.
  intros Hr. split; [apply Forall_nil_2|]. split; [|done].
  intros msg Heq. cbn in Heq. subst r. by destruct Hr.
Qed.

Lemma quiet_weaken {A : Type} (m : logged A) (Q R : A -> Prop) :
  quiet m Q -> (forall a, Q a -> R a) -> quiet m R.
Proof. intros (? & ? & HQ) HQR. split; [done|]. split; [done|]. eauto. Qed.

Lemma quiet_fold {A B : Type} (g : B -> A -> logged A) (Q : A -> Prop) (l : list B) :
  (forall x a, Q a -> quiet (g x a) Q) ->
  forall acc, quiet acc Q ->
    quiet (List.fold_left (fun acc x => acc ≫= g x) l acc) Q.
Proof.
  intros Hg. induction l as [|x l IH]; intros acc Hacc; cbn [List.fold_left]; [done|].
  apply IH. eapply quiet_bind; [exact Hacc|]. intros a Ha. by apply Hg.
Qed.

End LoggedTheory.

(** *** Deferred updates raise nothing but [KeyError] *)

Lemma only_key_error_bind {A B : Type} (r : result A) (k : A -> result B) :
  Invariants.only_key_error r ->
  (forall a, Invariants.only_key_error (k a)) ->
  Invariants.only_key_error (r ≫= k).
Proof. intros Hr Hk. destruct r as [a|e]; [apply Hk|exact Hr]. Qed.

Lemma only_key_error_fold {A B : Type} (g : B -> A -> result A) (l : list B) :
  (forall x a, Invariants.only_key_error (g x a)) ->
  forall acc, Invariants.only_key_error acc ->
    Invariants.only_key_error (List.fold_left (fun acc x => acc ≫= g x) l acc).
Proof.
  intros Hg. induction l as [|x l IH]; intros acc Hacc; cbn [List.fold_left]; [done|].
  apply IH. by apply only_key_error_bind.
Qed.

Lemma pk_values_of_only_key_error row_data pk_columns :
  Invariants.only_key_error (Cycles.pk_values_of row_data pk_columns).
Proof.
  unfold Cycles.pk_values_of.
  induction pk_columns as [|col cols IH]; cbn [mapM_result]; [done|].
  apply only_key_error_bind.
  - destruct (row_get row_data col); [done|]. by eexists.
  - intros v. apply only_key_error_bind; [exact IH|done].
Qed.

Lemma build_deferred_updates_only_key_error fks_to_break tables_data schema :
  Invariants.only_key_error
    (Cycles.build_deferred_updates fks_to_break tables_data schema).
Proof.
  unfold Cycles.build_deferred_updates.
  apply (only_key_error_fold
           (fun fk deferred_updates =>
              match dict_get tables_data (source_table fk) with
              | None => Ok deferred_updates
              | Some rows =>
                  match get_table schema (source_table fk) with
                  | None => Ok deferred_updates
                  | Some table_info =>
                      List.fold_left
                        (fun acc row_data =>
                           updates ← acc;
                           more ← Cycles.row_deferred_updates (source_table fk)
                                     (primary_key table_info) (source_columns fk)
                                     row_data;
                           Ok (updates ++ more))
                        rows (Ok deferred_updates)
                  end
              end)); [|done].
  intros fk deferred_updates.
  destruct (dict_get tables_data (source_table fk)) as [rows|]; [|done].
  destruct (get_table schema (source_table fk)) as [table_info|]; [|done].
  apply (only_key_error_fold
           (fun row_data updates =>
              more ← Cycles.row_deferred_updates (source_table fk)
                        (primary_key table_info) (source_columns fk) row_data;
              Ok (updates ++ more))); [|done].
  intros row_data updates. apply only_key_error_bind; [|done].
  unfold Cycles.row_deferred_updates.
  apply (only_key_error_fold
           (fun fk_col updates =>
              match row_get row_data fk_col with
              | None => Ok updates
              | Some PNone => Ok updates
              | Some fk_value =>
                  pk_values ← Cycles.pk_values_of row_data (primary_key table_info);
                  Ok (updates ++ [Cycles.mkDeferredUpdate (source_table fk)
                                    (primary_key table_info) pk_values fk_col fk_value])
              end)); [|done].
  intros fk_col updates'.
  destruct (row_get row_data fk_col) as [[]|]; try done;
    (apply only_key_error_bind; [apply pk_values_of_only_key_error|done]).
Qed.

(** *** The streaming path *)

Section StreamingPath.

Variable config : ExtractionEngine.ExtractConfig.
Variable schema : SchemaGraph.
Variable fetch_by_pk : string -> list string -> Graph.pk_set -> list row.
Variable anonymizer : option (string -> row -> row).
Variable _stream_table :
  string -> Table -> Graph.pk_set -> option (gset string) -> nat.
Variable format_report : Validation.ValidationResult -> string.

#[local] Abbreviation quiet := Invariants.quiet.
#[local] Abbreviation outcome := ExtractionEngine.outcome.
#[local] Abbreviation events := ExtractionEngine.events.
#[local] Abbreviation validation_result := ExtractionEngine.validation_result.
#[local] Abbreviation _do_extract :=
  (ExtractionEngine._do_extract config schema fetch_by_pk anonymizer _stream_table
     format_report).

Lemma stream_to_file_quiet records order broken deferred out_file :
  quiet (ExtractionEngine.stream_to_file schema _stream_table records order broken
           deferred out_file)
    (fun r => validation_result r = None).
Proof.
  unfold ExtractionEngine.stream_to_file.
  eapply quiet_bind; [by apply quiet_log|]. intros _ _.
  eapply quiet_bind.
  - apply (quiet_fold
             (fun table (st : nat * list (string * nat)) =>
                let '(current_table_idx, table_stats) := st in
                match dict_get records table with
                | None => mret st
                | Some pk_values =>
                    let idx := S current_table_idx in
                    if bool_decide (pk_values = ∅) then mret (idx, table_stats)
                    else
                      match get_table schema table with
                      | None => mret (idx, table_stats)
                      | Some table_info =>
                          _ ← ExtractionEngine._log "stream"
                                ("Streaming " +:+ table +:+ " ("
                                 +:+ Str.of_nat (size pk_values) +:+ " rows)")
                                idx
                                (length
                                   (List.filter
                                      (fun t => bool_decide (is_Some (dict_get records t)))
                                      order));
                          mret (idx,
                                dict_set table_stats table
                                  (_stream_table table table_info pk_values
                                     (ExtractionEngine._build_broken_fk_map broken
                                      !! table)))
                      end
                end)
             (fun _ => True)); [|by apply quiet_ret].
    intros table [idx table_stats] _.
    destruct (dict_get records table) as [pk_values|]; [|by apply quiet_ret].
    cbv zeta. case_bool_decide; [by apply quiet_ret|].
    destruct (get_table schema table); [|by apply quiet_ret].
    eapply quiet_bind; [by apply quiet_log|]. intros _ _. by apply quiet_ret.
  - intros r _. cbv zeta.
    eapply quiet_bind; [by apply quiet_log|]. intros _ _. by apply quiet_ret.
Qed.

Lemma _do_streaming_extract_quiet all_records order broken infos all_paths :
  quiet (ExtractionEngine._do_streaming_extract config schema fetch_by_pk
           _stream_table all_records order broken infos all_paths)
    (fun r => validation_result r = None).
Proof.
  unfold ExtractionEngine._do_streaming_extract.
  eapply (quiet_bind _ _ (fun _ => True)).
  - case_bool_decide; [by apply quiet_ret|].
    eapply quiet_bind; [by apply quiet_log|]. intros _ _.
    eapply quiet_bind;
      [apply quiet_lift, build_deferred_updates_only_key_error|].
    intros deferred _.
    eapply quiet_bind; [by apply quiet_log|]. intros _ _. by apply quiet_ret.
  - intros deferred _.
    destruct (ExtractionEngine.output_file config) as [out_file|].
    + eapply quiet_bind; [apply stream_to_file_quiet|].
      intros r Hr. by apply quiet_ret.
    + split; [apply Forall_nil_2|]. split; discriminate.
Qed.

Lemma _do_extract_streaming_quiet all_records order broken infos all_paths :
  ExtractionEngine._should_use_streaming config
    (ExtractionEngine.total_rows_estimate all_records) = true ->
  quiet (_do_extract all_records order broken infos all_paths)
    (fun r => validation_result r = None).
Proof.
  intros Hstream. unfold ExtractionEngine._do_extract. cbv zeta. rewrite Hstream.
  destruct (negb (ExtractionEngine.has_output_file config)).
  - split; [apply Forall_nil_2|]. split; discriminate.
  - eapply quiet_bind; [by apply quiet_log|]. intros _ _.
    apply _do_streaming_extract_quiet.
Qed.

(** *** The in-memory path *)

Lemma fold_returns {A B : Type} (g : B -> A -> ExtractionEngine.logged A) (l : list B) :
  (forall x a, exists a', outcome (g x a) = Ok a') ->
  forall acc, (exists a, outcome acc = Ok a) ->
    exists a, outcome (List.fold_left (fun acc x => acc ≫= g x) l acc) = Ok a.
Proof.
  intros Hg. induction l as [|x l IH]; intros acc Hacc; cbn [List.fold_left]; [done|].
  apply IH. destruct Hacc as [a Ha]. rewrite outcome_bind, Ha. apply Hg.
Qed.

Lemma fetch_tables_returns all_records :
  exists tables_data table_stats,
    outcome (ExtractionEngine.fetch_tables schema fetch_by_pk anonymizer all_records)
    = Ok (tables_data, table_stats).
Proof.
  unfold ExtractionEngine.fetch_tables. cbv zeta.
  match goal with
  | |- context [List.fold_left ?f all_records ?acc] =>
      assert (exists a, outcome (List.fold_left f all_records acc) = Ok a) as [a Ha]
  end.
  { apply (fold_returns
             (fun (item : string * Graph.pk_set)
                  (st : nat * list (string * list row) * list (string * nat)) =>
                let '(i, tables_data, table_stats) := st in
                let '(table, pk_values) := item in
                if bool_decide (pk_values = ∅)
                then mret (S i, tables_data, table_stats)
                else
                  match get_table schema table with
                  | None => mret (S i, tables_data, table_stats)
                  | Some table_info =>
                      _ ← ExtractionEngine._log "fetch"
                            ("Fetching " +:+ Str.of_nat (size pk_values)
                             +:+ " rows from " +:+ table) (S i) (length all_records);
                      let rows :=
                        ExtractionEngine._anonymize_table_data anonymizer table
                          (fetch_by_pk table (primary_key table_info) pk_values) in
                      mret (S i, dict_set tables_data table rows,
                            dict_set table_stats table (length rows))
                  end)); [|by eexists].
    intros [table pk_values] [[i tables_data] table_stats].
    case_bool_decide; [by eexists|].
    destruct (get_table schema table); by eexists. }
  rewrite outcome_bind, Ha. destruct a as [[i tables_data] table_stats].
  by exists tables_data, table_stats.
Qed.

Lemma validation_phase_outcome tables_data broken :
  ExtractionEngine.validate config = true ->
  outcome (ExtractionEngine.validation_phase config schema format_report
             tables_data broken)
  = match Validation.validate schema tables_data broken with
    | Raise e => Raise e
    | Ok vr =>
        if Validation.is_valid vr
           || negb (ExtractionEngine.fail_on_validation_error config)
        then Ok (Some vr)
        else Raise (ExtractionError
                      (ExtractionEngine.validation_error_msg format_report vr))
    end.
Proof.
  intros Hv. unfold ExtractionEngine.validation_phase. rewrite Hv.
  rewrite outcome_bind, outcome_log. cbv beta iota.
  rewrite outcome_bind, outcome_lift.
  destruct (Validation.validate schema tables_data broken) as [vr|e]; [|done].
  destruct (Validation.is_valid vr).
  - by rewrite outcome_bind, outcome_log.
  - rewrite outcome_bind, outcome_log. cbv beta iota.
    by destruct (ExtractionEngine.fail_on_validation_error config).
Qed.


End StreamingPath.



(** ** Theory of models.py *)

Lemma elem_of_edge_list {A : Type} (p : A -> bool) (f : A -> string * ForeignKey)
    (l : list A) (e : string * ForeignKey) :
  e ∈ List.map f (List.filter p l) <-> exists x, x ∈ l /\ p x = true /\ f x = e.
Proof.
  rewrite list_elem_of_In, List.in_map_iff. split.
  - intros (x & Hf & Hx). apply List.filter_In in Hx as [Hx Hp].
    exists x. split; [by apply list_elem_of_In|done].
  - intros (x & Hx & Hp & Hf). exists x. split; [done|].
    apply List.filter_In. split; [by apply list_elem_of_In|done].
Qed.

Lemma get_parents_spec schema child parent fk :
  (parent, fk) ∈ get_parents schema child
  <-> source_table fk = child /\ target_table fk = parent
      /\ (fk ∈ edges schema
          \/ exists v, v ∈ virtual_edges schema /\ fk = to_foreign_key v).
Proof.
  unfold get_parents. rewrite elem_of_app, !elem_of_edge_list. split.
  - intros [(x & Hx & Hs & [= <- <-])|(v & Hv & Hs & [= <- <-])];
      apply bool_decide_eq_true_1 in Hs.
    + split; [done|]. split; [done|]. by left.
    + split; [done|]. split; [done|]. right. by exists v.
  - intros (Hs & Ht & [Hfk|(v & Hv & ->)]).
    + left. exists fk. split; [done|]. split; [by apply bool_decide_eq_true_2|].
      by rewrite Ht.
    + right. exists v. split; [done|]. split; [by apply bool_decide_eq_true_2|].
      by rewrite <- Ht.
Qed.

Lemma get_children_spec schema parent child fk :
  (child, fk) ∈ get_children schema parent
  <-> source_table fk = child /\ target_table fk = parent
      /\ (fk ∈ edges schema
          \/ exists v, v ∈ virtual_edges schema /\ fk = to_foreign_key v).
Proof.
  unfold get_children. rewrite elem_of_app, !elem_of_edge_list. split.
  - intros [(x & Hx & Hs & [= <- <-])|(v & Hv & Hs & [= <- <-])];
      apply bool_decide_eq_true_1 in Hs.
    + split; [done|]. split; [done|]. by left.
    + split; [done|]. split; [done|]. right. by exists v.
  - intros (Hs & Ht & [Hfk|(v & Hv & ->)]).
    + left. exists fk. split; [done|]. split; [by apply bool_decide_eq_true_2|].
      by rewrite Hs.
    + right. exists v. split; [done|]. split; [by apply bool_decide_eq_true_2|].
      by rewrite <- Hs.
Qed.

(** [get_children] is the mirror of [get_parents]: a foreign key leads from
    [child] up to [parent] exactly when it leads from [parent] down to
    [child], and then it is a catalog or a converted virtual foreign key
    with source table [child] and target table [parent]. *)
Theorem get_parents_get_children_mirror schema child parent fk :
  ((parent, fk) ∈ get_parents schema child
   <-> (child, fk) ∈ get_children schema parent)
  /\ ((parent, fk) ∈ get_parents schema child
      <-> source_table fk = child /\ target_table fk = parent
          /\ (fk ∈ edges schema
              \/ exists v, v ∈ virtual_edges schema /\ fk = to_foreign_key v)).
Proof.
  split; [|apply get_parents_spec].
  by rewrite get_parents_spec, get_children_spec.
Qed.

Lemma is_virtual_fk_spec schema fk :
  is_virtual_fk schema fk = true
  <-> exists v, v ∈ virtual_edges schema
                /\ vfk_name v = fk_name fk
                /\ vfk_source_table v = source_table fk
                /\ vfk_target_table v = target_table fk.
Proof.
  unfold is_virtual_fk. rewrite List.existsb_exists. split.
  - intros (v & Hv & Hc). rewrite !andb_true_iff in Hc.
    destruct Hc as [[H1 H2] H3]. apply bool_decide_eq_true_1 in H1, H2, H3.
    exists v. split; [by apply list_elem_of_In|done].
  - intros (v & Hv & H1 & H2 & H3). exists v.
    split; [by apply list_elem_of_In|].
    rewrite !andb_true_iff. repeat split; by apply bool_decide_eq_true_2.
Qed.

(** After [add_virtual_fk] the parents of every table are what they were,
    followed by the new virtual foreign key for its source table (and
    likewise the children of its target table); a foreign key is then
    reported as virtual exactly when it was before or has the name, the
    source table and the target table of the new one. *)
Theorem add_virtual_fk_extends schema v table fk :
  get_parents (add_virtual_fk schema v) table
  = get_parents schema table
    ++ (if bool_decide (vfk_source_table v = table)
        then [(vfk_target_table v, to_foreign_key v)] else [])
  /\ get_children (add_virtual_fk schema v) table
     = get_children schema table
       ++ (if bool_decide (vfk_target_table v = table)
           then [(vfk_source_table v, to_foreign_key v)] else [])
  /\ is_virtual_fk (add_virtual_fk schema v) (to_foreign_key v) = true
  /\ is_virtual_fk (add_virtual_fk schema v) fk
     = is_virtual_fk schema fk
       || (bool_decide (vfk_name v = fk_name fk)
           && bool_decide (vfk_source_table v = source_table fk)
           && bool_decide (vfk_target_table v = target_table fk)).
Proof.
  assert (Hlast : forall fk0,
            is_virtual_fk (add_virtual_fk schema v) fk0
            = is_virtual_fk schema fk0
              || (bool_decide (vfk_name v = fk_name fk0)
                  && bool_decide (vfk_source_table v = source_table fk0)
                  && bool_decide (vfk_target_table v = target_table fk0))).
  { intros fk0. unfold is_virtual_fk, add_virtual_fk. cbn.
    rewrite List.existsb_app. cbn. by rewrite orb_false_r. }
  split; [|split; [|split]].
  - unfold get_parents, add_virtual_fk. cbn.
    rewrite List.filter_app, List.map_app, app_assoc. f_equal.
    cbn. by case_bool_decide.
  - unfold get_children, add_virtual_fk. cbn.
    rewrite List.filter_app, List.map_app, app_assoc. f_equal.
    cbn. by case_bool_decide.
  - rewrite Hlast. cbn. rewrite !bool_decide_eq_true_2 by done.
    by rewrite orb_true_r.
  - apply Hlast.
Qed.

(** ** More on the anonymizer: rows and Faker methods *)

Section AnonymizeRow.

Variable global_seed : string.
Variable schema : option SchemaGraph.
Variable redact_fields : gset string.
Variable sha256_seed : string -> Z.
Variable faker_method : Z -> string -> option pyval.
Variable faker_pystr : Z -> string -> pyval.

#[local] Abbreviation anonymize_row :=
  (Anonymizer.anonymize_row global_seed schema redact_fields
     sha256_seed faker_method faker_pystr).
#[local] Abbreviation run_calls :=
  (Anonymizer.run_calls global_seed schema redact_fields
     sha256_seed faker_method faker_pystr).
#[local] Abbreviation coherent :=
  (Anonymizer.coherent global_seed schema sha256_seed faker_method faker_pystr).
#[local] Abbreviation anonymized_of :=
  (Anonymizer.anonymized_of global_seed schema redact_fields
     sha256_seed faker_method faker_pystr).

Lemma anonymize_row_coherent st table row :
  coherent st ->
  (anonymize_row st table row).1
  = List.map (fun item => (item.1, anonymized_of item.2 table item.1)) row
  /\ coherent (anonymize_row st table row).2.
Proof.
  revert st. induction row as [|[column value] row IH]; intros st Hst; [done|].
  cbn [Anonymizer.anonymize_row].
  destruct (anonymize_value_spec global_seed schema redact_fields sha256_seed
              faker_method faker_pystr st value table column Hst) as [Hv Hst1].
  destruct (Anonymizer.anonymize_value _ _ _ _ _ _ st value table column)
    as [v' st1].
  cbn [fst snd] in Hv, Hst1.
  destruct (IH st1 Hst1) as [Hrest Hst2].
  destruct (Anonymizer.anonymize_row _ _ _ _ _ _ st1 table row) as [rest' st2].
  cbn [fst snd] in *. split; [|done].
  cbn [List.map fst snd]. by rewrite Hv, Hrest.
Qed.

(** [anonymize_row] keeps the columns of the row and their order, and gives
    each column the value that the configuration alone determines: [None]
    for [None] and for a column matching a security-NULL pattern, the
    synthesised value for an anonymized column, the value itself
    otherwise.  The result does not depend on the calls made before. *)
Theorem anonymize_row_columnwise calls table row :
  (anonymize_row (run_calls calls) table row).1
  = List.map (fun item => (item.1, anonymized_of item.2 table item.1)) row
  /\ List.map fst (anonymize_row (run_calls calls) table row).1 = List.map fst row
  /\ (forall column,
        row_get row column = Some PNone ->
        row_get (anonymize_row (run_calls calls) table row).1 column = Some PNone).
Proof.
  destruct (anonymize_row_coherent (run_calls calls) table row
              (coherent_run_calls _ _ _ _ _ _ calls)) as [-> _].
  split; [done|]. split.
  - rewrite List.map_map. cbn. done.
  - intros column. unfold row_get.
    induction row as [|[c v] row IH]; [done|]. cbn.
    case_bool_decide as Hc.
    + cbn. intros [= ->]. done.
    + apply IH.
Qed.

End AnonymizeRow.

Lemma contains_prefix_split needle hay :
  Str.contains needle hay = true <->
  exists before after, hay = before +:+ needle +:+ after.
Proof.
  split.
  - induction hay as [|c hay IH]; cbn.
    + rewrite orb_false_r. destruct needle; [|discriminate].
      intros _. by exists "", "".
    + intros H. apply orb_true_iff in H as [H|H].
      * clear IH. exists "".
        assert (Hp : forall p s, Str.prefixb p s = true -> exists a, s = p +:+ a).
        { clear. induction p as [|a p IH]; intros s H.
          - by exists s.
          - destruct s as [|b s]; [discriminate|]. cbn in H.
            destruct (Ascii.eqb a b) eqn:Hab; [|discriminate].
            apply Ascii.eqb_eq in Hab as ->.
            destruct (IH s H) as [x ->]. by exists x. }
        destruct (Hp _ _ H) as [a Ha]. exists a. by rewrite Ha.
      * destruct (IH H) as (b & a & ->). by exists (String c b), a.
  - intros (before & after & ->).
    induction before as [|c before IH].
    + change ("" +:+ needle +:+ after) with (needle +:+ after).
      destruct (needle +:+ after) eqn:E; cbn.
      * destruct needle; [done|discriminate].
      * rewrite <- E. rewrite prefixb_app. done.
    + change (String c before +:+ needle +:+ after)
        with (String c (before +:+ needle +:+ after)).
      cbn. rewrite IH. by rewrite orb_true_r.
Qed.

Lemma contains_trans a b c :
  Str.contains a b = true -> Str.contains b c = true -> Str.contains a c = true.
Proof.
  intros Hab Hbc.
  apply contains_prefix_split in Hab as (u & v & ->).
  apply contains_prefix_split in Hbc as (x & y & ->).
  apply contains_skip. rewrite !append_assoc.
  apply contains_skip. apply contains_here.
Qed.

Lemma contains_shadow q p s :
  Str.contains q p = true -> Str.contains q s = false -> Str.contains p s = false.
Proof.
  intros Hp Hs. destruct (Str.contains p s) eqn:E; [|done].
  by rewrite (contains_trans _ _ _ Hp E) in Hs.
Qed.

(** The first pattern of [_DEFAULT_ANONYMIZATION_PATTERNS] that the column
    name contains decides the Faker method, so the methods [first_name],
    [last_name], [ipv6], [mac_address] and [user_name] are never chosen:
    each pattern that maps to one of them contains an earlier pattern
    ([name], [ip] or [address]). *)
Theorem get_faker_method_shadowed column :
  Anonymizer.get_faker_method column
    ∉ ["first_name"; "last_name"; "ipv6"; "mac_address"; "user_name"].
Proof.
  unfold Anonymizer.get_faker_method, Anonymizer._DEFAULT_ANONYMIZATION_PATTERNS.
  generalize (Str.lower column). intros s.
  cbn [List.find fst snd].
  assert (Hout : forall m,
            m ∈ ["first_name"; "last_name"; "ipv6"; "mac_address"; "user_name"] ->
            bool_decide (m ∈ ["first_name"; "last_name"; "ipv6"; "mac_address";
                              "user_name"]) = true)
    by (intros m Hm; by apply bool_decide_eq_true_2).
  intros Hin. apply Hout in Hin. clear Hout.
  repeat match type of Hin with
  | context [if Str.contains ?p s then _ else _] =>
      let E := fresh "E" in
      destruct (Str.contains p s) eqn:E;
      [ first
          [ match goal with
            | Hn : Str.contains ?q s = false |- _ =>
                by rewrite (contains_shadow q p s eq_refl Hn) in E
            end
          | by vm_compute in Hin ]
      | ]
  end.
  by vm_compute in Hin.
Qed.

(** ** Deferred updates *)

Lemma mapM_result_app {A B : Type} (f : A -> result B) l1 l2 :
  mapM_result f (l1 ++ l2)
  = (bs1 ← mapM_result f l1; bs2 ← mapM_result f l2; Ok (bs1 ++ bs2)).
Proof.
  induction l1 as [|a l1 IH]; cbn.
  - by destruct (mapM_result f l2).
  - destruct (f a) as [b|e]; cbn; [|done]. rewrite IH.
    destruct (mapM_result f l1) as [bs1|e]; cbn; [|done].
    by destruct (mapM_result f l2).
Qed.

Lemma fold_left_ext_eq {A B : Type} (f g : A -> B -> A) (l : list B) :
  (forall a b, f a b = g a b) ->
  forall a, List.fold_left f l a = List.fold_left g l a.
Proof.
  intros H. induction l as [|b l IH]; intros a; cbn; [done|].
  by rewrite H, IH.
Qed.

(** A loop that appends what each element gives. *)
Lemma fold_left_append {A B : Type} (g : B -> result (list A)) (l : list B) :
  forall init,
    List.fold_left (fun acc x => a ← acc; more ← g x; Ok (a ++ more)) l (Ok init)
    = (parts ← mapM_result g l; Ok (init ++ List.concat parts)).
Proof.
  induction l as [|x l IH]; intros init; cbn [List.fold_left mapM_result].
  - cbn. by rewrite app_nil_r.
  - cbn [mbind result_bind]. destruct (g x) as [more|e].
    + cbn [mbind result_bind]. rewrite IH.
      destruct (mapM_result g l) as [parts|e]; cbn; [|done].
      by rewrite app_assoc.
    + cbn [mbind result_bind]. clear IH.
      induction l as [|y l IH]; [done|]. exact IH.
Qed.

(** The updates of one row for one foreign-key column. *)
Lemma row_deferred_updates_eq source_table pk_columns fk_columns row_data :
  Cycles.row_deferred_updates source_table pk_columns fk_columns row_data
  = (parts ← mapM_result
               (fun fk_col =>
                  match row_get row_data fk_col with
                  | None => Ok []
                  | Some PNone => Ok []
                  | Some fk_value =>
                      pk_values ← Cycles.pk_values_of row_data pk_columns;
                      Ok [Cycles.mkDeferredUpdate source_table pk_columns pk_values
                            fk_col fk_value]
                  end) fk_columns;
     Ok (List.concat parts)).
Proof.
  unfold Cycles.row_deferred_updates.
  etrans; [|exact (fold_left_append _ fk_columns [])].
  apply fold_left_ext_eq. intros acc fk_col.
  destruct acc as [updates|e]; [|done]. cbn [mbind result_bind].
  destruct (row_get row_data fk_col) as [[]|]; cbn [mbind result_bind];
    try (by rewrite app_nil_r);
    by destruct (Cycles.pk_values_of row_data pk_columns).
Qed.

Lemma mapM_result_elem {A B : Type} (f : A -> result B) l bs b :
  mapM_result f l = Ok bs ->
  b ∈ bs <-> exists a, a ∈ l /\ f a = Ok b.
Proof.
  revert bs. induction l as [|a l IH]; intros bs; cbn.
  - intros [= <-]. split; [by intros H%elem_of_nil|].
    intros (a & H%elem_of_nil & _). done.
  - destruct (f a) as [b0|e] eqn:Hfa; cbn; [|done].
    destruct (mapM_result f l) as [bs0|e]; cbn; [|done].
    intros [= <-]. rewrite elem_of_cons, (IH bs0 eq_refl). split.
    + intros [->|(a' & Ha' & Hf)].
      * exists a. split; [by left|done].
      * exists a'. split; [by right|done].
    + intros (a' & Ha' & Hf). apply elem_of_cons in Ha' as [->|Ha'].
      * left. congruence.
      * right. by exists a'.
Qed.

Lemma elem_of_concat {A : Type} (ls : list (list A)) (x : A) :
  x ∈ List.concat ls <-> exists l, l ∈ ls /\ x ∈ l.
Proof.
  rewrite list_elem_of_In, List.in_concat. split.
  - intros (l & Hl & Hx). exists l. by rewrite !list_elem_of_In.
  - intros (l & Hl & Hx). exists l. by rewrite <- !list_elem_of_In.
Qed.

Lemma row_deferred_updates_elem source_table pk_columns fk_columns row_data updates du :
  Cycles.row_deferred_updates source_table pk_columns fk_columns row_data
  = Ok updates ->
  du ∈ updates
  <-> Cycles.du_fk_column du ∈ fk_columns
      /\ row_get row_data (Cycles.du_fk_column du) = Some (Cycles.du_fk_value du)
      /\ Cycles.du_fk_value du <> PNone
      /\ Cycles.pk_values_of row_data pk_columns = Ok (Cycles.du_pk_values du)
      /\ Cycles.du_table du = source_table
      /\ Cycles.du_pk_columns du = pk_columns.
Proof.
  rewrite row_deferred_updates_eq.
  destruct (mapM_result _ fk_columns) as [parts|e] eqn:Hparts; [|done].
  cbn. intros [= <-]. rewrite elem_of_concat. split.
  - intros (part & Hpart & Hdu).
    apply (mapM_result_elem _ _ _ _ Hparts) in Hpart as (fk_col & Hcol & Hrow).
    destruct (row_get row_data fk_col) as [v|] eqn:Hv;
      [|injection Hrow as <-; by apply elem_of_nil in Hdu].
    destruct (Cycles.pk_values_of row_data pk_columns) as [pk_values|e] eqn:Hpk.
    + destruct v; cbn in Hrow; injection Hrow as <-;
        try (by apply elem_of_nil in Hdu);
        apply list_elem_of_singleton in Hdu as ->; cbn; by rewrite Hv.
    + destruct v; cbn in Hrow; try discriminate;
        injection Hrow as <-; by apply elem_of_nil in Hdu.
  - intros (Hcol & Hv & Hnone & Hpk & Ht & Hc).
    exists [du]. split; [|by apply list_elem_of_singleton].
    apply (mapM_result_elem _ _ _ _ Hparts). exists (Cycles.du_fk_column du).
    split; [done|]. rewrite Hv, Hpk. destruct du as [t c p col v]. cbn in *.
    subst. by destruct v.
Qed.

Lemma build_deferred_updates_eq fks_to_break tables_data schema :
  Cycles.build_deferred_updates fks_to_break tables_data schema
  = (parts ← mapM_result
               (fun fk =>
                  match dict_get tables_data (source_table fk) with
                  | None => Ok []
                  | Some rows =>
                      match get_table schema (source_table fk) with
                      | None => Ok []
                      | Some table_info =>
                          row_parts ← mapM_result
                            (Cycles.row_deferred_updates (source_table fk)
                               (primary_key table_info) (source_columns fk)) rows;
                          Ok (List.concat row_parts)
                      end
                  end) fks_to_break;
     Ok (List.concat parts)).
Proof.
  unfold Cycles.build_deferred_updates.
  etrans; [|exact (fold_left_append _ fks_to_break [])].
  apply fold_left_ext_eq. intros acc fk.
  destruct acc as [updates|e]; [|done]. cbn [mbind result_bind].
  destruct (dict_get tables_data (source_table fk)) as [rows|];
    [|cbn; by rewrite app_nil_r].
  destruct (get_table schema (source_table fk)) as [table_info|];
    [|cbn; by rewrite app_nil_r].
  rewrite fold_left_append.
  by destruct (mapM_result _ rows).
Qed.

(** When [build_deferred_updates] returns, its updates are exactly these:
    one for every broken foreign key whose source table was extracted and
    is in the schema, every extracted row of that table and every column
    of the foreign key that the row holds with a value other than [None];
    the update carries the table, its primary-key columns, the row's
    primary-key values, the column and the value.  No update restores a
    [None]. *)
Theorem build_deferred_updates_exact fks_to_break tables_data schema updates du :
  Cycles.build_deferred_updates fks_to_break tables_data schema = Ok updates ->
  du ∈ updates
  <-> exists fk rows table_info row_data,
        fk ∈ fks_to_break
        /\ dict_get tables_data (source_table fk) = Some rows
        /\ get_table schema (source_table fk) = Some table_info
        /\ row_data ∈ rows
        /\ Cycles.du_fk_column du ∈ source_columns fk
        /\ row_get row_data (Cycles.du_fk_column du) = Some (Cycles.du_fk_value du)
        /\ Cycles.du_fk_value du <> PNone
        /\ Cycles.pk_values_of row_data (primary_key table_info)
           = Ok (Cycles.du_pk_values du)
        /\ Cycles.du_table du = source_table fk
        /\ Cycles.du_pk_columns du = primary_key table_info.
Proof.
  rewrite build_deferred_updates_eq.
  destruct (mapM_result _ fks_to_break) as [parts|e] eqn:Hparts; [|done].
  cbn. intros [= <-]. rewrite elem_of_concat. split.
  - intros (part & Hpart & Hdu).
    apply (mapM_result_elem _ _ _ _ Hparts) in Hpart as (fk & Hfk & Hpart).
    destruct (dict_get tables_data (source_table fk)) as [rows|] eqn:Hrows;
      [|injection Hpart as <-; by apply elem_of_nil in Hdu].
    destruct (get_table schema (source_table fk)) as [table_info|] eqn:Hti;
      [|injection Hpart as <-; by apply elem_of_nil in Hdu].
    destruct (mapM_result _ rows) as [row_parts|e] eqn:Hrp; [|done].
    cbn in Hpart. injection Hpart as <-.
    apply elem_of_concat in Hdu as (row_part & Hrow_part & Hdu).
    apply (mapM_result_elem _ _ _ _ Hrp) in Hrow_part as (row_data & Hrow & Hupd).
    apply (row_deferred_updates_elem _ _ _ _ _ _ Hupd) in Hdu.
    exists fk, rows, table_info, row_data. tauto.
  - intros (fk & rows & table_info & row_data & Hfk & Hrows & Hti & Hrow & Hrest).
    pose proof Hparts as Hparts'.
    assert (exists part,
              (match dict_get tables_data (source_table fk) with
               | None => Ok []
               | Some rows =>
                   match get_table schema (source_table fk) with
                   | None => Ok []
                   | Some table_info =>
                       row_parts ← mapM_result
                         (Cycles.row_deferred_updates (source_table fk)
                            (primary_key table_info) (source_columns fk)) rows;
                       Ok (List.concat row_parts)
                   end
               end) = Ok part) as [part Hpart].
    { clear -Hparts Hfk. revert parts Hparts.
      induction fks_to_break as [|fk0 fks IH]; intros parts Hparts;
        [by apply elem_of_nil in Hfk|].
      cbn in Hparts.
      match type of Hparts with
      | context [mbind _ ?x] => destruct x as [part0|e] eqn:H0; [|done]
      end.
      cbn in Hparts.
      destruct (mapM_result _ fks) as [parts0|e] eqn:Hrest; [|done].
      apply elem_of_cons in Hfk as [->|Hfk]; [by exists part0|].
      by eapply IH. }
    exists part. split.
    { apply (mapM_result_elem _ _ _ _ Hparts). by exists fk. }
    rewrite Hrows, Hti in Hpart.
    destruct (mapM_result _ rows) as [row_parts|e] eqn:Hrp; [|done].
    cbn in Hpart. injection Hpart as <-.
    assert (exists row_part,
              Cycles.row_deferred_updates (source_table fk)
                (primary_key table_info) (source_columns fk) row_data
              = Ok row_part) as [row_part Hrow_part].
    { clear -Hrp Hrow. revert row_parts Hrp.
      induction rows as [|r rows IH]; intros row_parts Hrp;
        [by apply elem_of_nil in Hrow|].
      cbn in Hrp.
      destruct (Cycles.row_deferred_updates _ _ _ r) as [p0|e] eqn:H0; [|done].
      cbn in Hrp.
      destruct (mapM_result _ rows) as [ps|e] eqn:Hrest; [|done].
      apply elem_of_cons in Hrow as [->|Hrow]; [by exists p0|].
      by eapply IH. }
    apply elem_of_concat. exists row_part. split.
    { apply (mapM_result_elem _ _ _ _ Hrp). by exists row_data. }
    apply (row_deferred_updates_elem _ _ _ _ _ _ Hrow_part). tauto.
Qed.

(** ** More on validation: what a valid result means *)

Section ValidityTheory.

Variable schema : SchemaGraph.
Variable broken_fks : list ForeignKey.
Variable pk_index : gmap string (gset pk_tuple).

(** The test that [check_fk] makes of one reference. *)
#[local] Abbreviation resolved := (Invariants.resolved broken_fks pk_index).

Lemma check_fk_is_valid table_name r pk_values res parent :
  Validation.is_valid
    (Validation.check_fk table_name r pk_values broken_fks pk_index res parent)
  = Validation.is_valid res && resolved r parent.
Proof.
  unfold Validation.check_fk, Invariants.resolved. destruct parent as [parent_table fk].
  cbn [fst snd].
  destruct (bool_decide (fk ∈ broken_fks)); cbn [orb];
    [by rewrite andb_true_r|].
  destruct (existsb _ _); cbn [orb Validation.is_valid];
    [by rewrite andb_true_r|].
  destruct (Validation._has_parent_record _ _ _); cbn [Validation.is_valid Validation.add_orphan];
    [by rewrite andb_true_r|by rewrite andb_false_r].
Qed.

Lemma fold_check_fk_is_valid table_name r pk_values parents res :
  Validation.is_valid
    (List.fold_left
       (Validation.check_fk table_name r pk_values broken_fks pk_index) parents res)
  = Validation.is_valid res && forallb (resolved r) parents.
Proof.
  revert res. induction parents as [|p parents IH]; intros res; cbn [List.fold_left].
  - cbn. by rewrite andb_true_r.
  - rewrite IH, check_fk_is_valid. cbn [forallb]. by rewrite andb_assoc.
Qed.

Lemma fold_rows_is_valid table_name (table_info : Table) rows : forall res res',
  List.fold_left
    (fun acc r =>
       res ← acc;
       pk_values ← Validation._extract_pk_values r (primary_key table_info);
       Ok (List.fold_left
             (Validation.check_fk table_name r pk_values broken_fks pk_index)
             (get_parents schema table_name) res))
    rows (Ok res) = Ok res' ->
  Validation.is_valid res'
  = Validation.is_valid res
    && forallb (fun r => forallb (resolved r) (get_parents schema table_name)) rows.
Proof.
  induction rows as [|r rows IH]; intros res res'; cbn [List.fold_left].
  - intros [= <-]. cbn. by rewrite andb_true_r.
  - cbn [mbind result_bind].
    destruct (Validation._extract_pk_values r (primary_key table_info))
      as [pk_values|e]; cbn [mbind result_bind].
    + intros H. rewrite (IH _ _ H), fold_check_fk_is_valid. cbn [forallb].
      by rewrite andb_assoc.
    + intros H. exfalso. clear -H.
      induction rows as [|r' rows IH]; [done|]. by apply IH.
Qed.

Lemma fold_tables_is_valid tables : forall res res',
  List.fold_left
    (fun acc item =>
       res ← acc;
       match get_table schema item.1 with
       | None => Ok res
       | Some table_info =>
           let res1 :=
             {| Validation.is_valid := Validation.is_valid res;
                Validation.orphaned_records := Validation.orphaned_records res;
                Validation.vr_broken_fks := Validation.vr_broken_fks res;
                Validation.total_records_checked :=
                  Validation.total_records_checked res + length item.2;
                Validation.total_fk_checks := Validation.total_fk_checks res |} in
           let parents := get_parents schema item.1 in
           List.fold_left
             (fun acc r =>
                res ← acc;
                pk_values ← Validation._extract_pk_values r (primary_key table_info);
                Ok (List.fold_left
                      (Validation.check_fk item.1 r pk_values broken_fks pk_index)
                      parents res))
             item.2 (Ok res1)
       end)
    tables (Ok res) = Ok res' ->
  Validation.is_valid res'
  = Validation.is_valid res
    && forallb
         (fun item =>
            match get_table schema item.1 with
            | None => true
            | Some _ =>
                forallb (fun r => forallb (resolved r) (get_parents schema item.1))
                  item.2
            end) tables.
Proof.
  induction tables as [|[table_name rows] tables IH]; intros res res';
    cbn [List.fold_left].
  - intros [= <-]. cbn. by rewrite andb_true_r.
  - cbn [mbind result_bind fst snd].
    destruct (get_table schema table_name) as [table_info|] eqn:Hti.
    + cbv zeta.
      match goal with
      | |- List.fold_left _ _ ?x = _ -> _ => destruct x as [res1|e] eqn:Hrows
      end.
      * intros H. rewrite (IH _ _ H).
        apply fold_rows_is_valid in Hrows. rewrite Hrows. cbn [forallb fst snd].
        rewrite Hti. cbn. by rewrite andb_assoc.
      * intros H. exfalso. clear -H.
        induction tables as [|t tables IH]; [done|]. by apply IH.
    + intros H. rewrite (IH _ _ H). cbn [forallb fst]. by rewrite Hti.
Qed.

End ValidityTheory.

(** What the index of primary keys holds for a table. *)
Lemma build_pk_index_lookup schema tables pk_index t :
  NoDup (List.map fst tables) ->
  Validation._build_pk_index schema tables = Ok pk_index ->
  forall pks,
    pk_index !! t = Some pks
    <-> exists rows table_info pk_list,
          (t, rows) ∈ tables
          /\ get_table schema t = Some table_info
          /\ mapM_result
               (fun r => Validation._extract_pk_values r (primary_key table_info)) rows
             = Ok pk_list
          /\ pks = list_to_set pk_list.
Proof.
  unfold Validation._build_pk_index.
  set (body := fun (acc : result (gmap string (gset pk_tuple)))
                   (item : string * list row) =>
                 index ← acc;
                 match get_table schema item.1 with
                 | None => Ok index
                 | Some table_info =>
                     pks ← mapM_result
                             (fun r => Validation._extract_pk_values r
                                         (primary_key table_info)) item.2;
                     Ok (<[item.1 := list_to_set pks]> index)
                 end).
  assert (Hraise : forall todo e index1,
            List.fold_left body todo (Raise e) = Ok index1 -> False).
  { induction todo as [|x todo IH]; intros e index1; [done|]. apply IH. }
  assert (Hgen : forall todo (index0 index1 : gmap string (gset pk_tuple)),
            NoDup (List.map fst todo) ->
            List.fold_left body todo (Ok index0) = Ok index1 ->
            forall pks,
              index1 !! t = Some pks
              <-> (exists rows table_info pk_list,
                     (t, rows) ∈ todo
                     /\ get_table schema t = Some table_info
                     /\ mapM_result
                          (fun r => Validation._extract_pk_values r
                                      (primary_key table_info)) rows
                        = Ok pk_list
                     /\ pks = list_to_set pk_list)
                  \/ ((get_table schema t = None \/ t ∉ List.map fst todo)
                      /\ index0 !! t = Some pks)).
  { induction todo as [|[name rows] todo IH]; intros index0 index1 Hnd;
      cbn [List.fold_left].
    - intros [= <-] pks. split.
      + intros H. right. split; [right; apply not_elem_of_nil|done].
      + intros [(rows & ti & pkl & H%elem_of_nil & _)|[_ H]]; done.
    - cbn [List.map fst] in Hnd. apply NoDup_cons in Hnd as [Hname Hnd].
      unfold body at 2. cbn [mbind result_bind fst snd].
      destruct (get_table schema name) as [table_info|] eqn:Hti.
      + destruct (mapM_result _ rows) as [pk_list|e] eqn:Hpk;
          cbn [mbind result_bind]; [|intros H; by apply Hraise in H].
        intros H pks. rewrite (IH _ _ Hnd H pks). split.
        * intros [(rows' & ti & pkl & Hin & Hrest)|[Hnot Hl]].
          -- left. exists rows', ti, pkl. split; [by right|done].
          -- destruct (decide (t = name)) as [->|Hne].
             ++ rewrite lookup_insert_eq in Hl. injection Hl as <-.
                left. exists rows, table_info, pk_list. split; [by left|done].
             ++ rewrite lookup_insert_ne in Hl by done. right. split; [|done].
                destruct Hnot as [?|Hnot]; [by left|]. right.
                cbn. intros [?|?]%elem_of_cons; done.
        * intros [(rows' & ti & pkl & Hin & Hti' & Hpk' & ->)|[Hnot Hl]].
          -- apply elem_of_cons in Hin as [[= -> ->]|Hin].
             ++ right. split; [by right|]. rewrite lookup_insert_eq.
                rewrite Hti in Hti'. injection Hti' as <-.
                rewrite Hpk in Hpk'. by injection Hpk' as <-.
             ++ left. by exists rows', ti, pkl.
          -- right. destruct (decide (t = name)) as [->|Hne].
             ++ destruct Hnot as [Hnone|Hnot]; [congruence|].
                exfalso. apply Hnot. cbn. by left.
             ++ rewrite lookup_insert_ne by done. split; [|done].
                destruct Hnot as [?|Hnot]; [by left|]. right.
                cbn in Hnot. by apply not_elem_of_cons in Hnot as [_ ?].
      + intros H pks. rewrite (IH _ _ Hnd H pks). split.
        * intros [(rows' & ti & pkl & Hin & Hrest)|[Hnot Hl]].
          -- left. exists rows', ti, pkl. split; [by right|done].
          -- right. split; [|done].
             destruct Hnot as [?|Hnot]; [by left|].
             destruct (decide (t = name)) as [->|Hne]; [by left|].
             right. cbn. intros [?|?]%elem_of_cons; done.
        * intros [(rows' & ti & pkl & Hin & Hti' & Hrest)|[Hnot Hl]].
          -- apply elem_of_cons in Hin as [[= -> ->]|Hin]; [congruence|].
             left. by exists rows', ti, pkl.
          -- right. split; [|done].
             destruct Hnot as [?|Hnot]; [by left|]. right.
             cbn in Hnot. by apply not_elem_of_cons in Hnot as [_ ?]. }
  intros Hnd H pks. rewrite (Hgen _ _ _ Hnd H pks). split.
  - intros [?|[_ Hl]]; [done|]. by rewrite lookup_empty in Hl.
  - intros ?. by left.
Qed.

(** A parent is found in the index exactly when an extracted row of the
    parent table has these primary-key values. *)
Lemma has_parent_record_rows schema tables pk_index parent fk_values :
  NoDup (List.map fst tables) ->
  Validation._build_pk_index schema tables = Ok pk_index ->
  Validation._has_parent_record parent fk_values pk_index = true
  <-> exists rows table_info parent_row,
        (parent, rows) ∈ tables
        /\ get_table schema parent = Some table_info
        /\ parent_row ∈ rows
        /\ Validation._extract_pk_values parent_row (primary_key table_info)
           = Ok fk_values.
Proof.
  intros Hnd Hidx. unfold Validation._has_parent_record.
  pose proof (build_pk_index_lookup schema tables pk_index parent Hnd Hidx) as Hl.
  destruct (pk_index !! parent) as [pks|] eqn:Hp.
  - destruct (proj1 (Hl pks) eq_refl) as (rows & ti & pkl & Hin & Hti & Hpk & ->).
    rewrite bool_decide_eq_true, elem_of_list_to_set.
    rewrite (mapM_result_elem _ _ _ _ Hpk). split.
    + intros (r & Hr & Hx). by exists rows, ti, r.
    + intros (rows' & ti' & r & Hin' & Hti' & Hr & Hx).
      assert (rows' = rows) as ->.
      { clear -Hnd Hin Hin'. induction tables as [|[n rs] tables IH];
          [by apply elem_of_nil in Hin|].
        cbn in Hnd. apply NoDup_cons in Hnd as [Hn Hnd].
        apply elem_of_cons in Hin as [[= <- <-]|Hin];
          apply elem_of_cons in Hin' as [[= <-]|Hin'].
        - done.
        - exfalso. apply Hn. apply list_elem_of_In, List.in_map_iff.
          exists (parent, rows'). split; [done|by apply list_elem_of_In].
        - subst. exfalso. apply Hn. apply list_elem_of_In, List.in_map_iff.
          exists (parent, rows). split; [done|by apply list_elem_of_In].
        - by apply IH. }
      exists r. split; [done|].
      rewrite Hti in Hti'. by injection Hti' as <-.
  - split; [done|].
    intros (rows & ti & r & Hin & Hti & Hr & Hx). exfalso.
    (* the index was built, so the keys of these rows were extracted *)
    assert (exists pk_list,
              mapM_result
                (fun r => Validation._extract_pk_values r (primary_key ti)) rows
              = Ok pk_list) as [pkl Hpkl].
    { clear -Hidx Hin Hti. unfold Validation._build_pk_index in Hidx.
      revert Hidx. generalize (∅ : gmap string (gset pk_tuple)).
      induction tables as [|[n rs] tables IH]; intros index0;
        [by apply elem_of_nil in Hin|].
      cbn [List.fold_left mbind result_bind fst snd].
      apply elem_of_cons in Hin as [[= <- <-]|Hin].
      - rewrite Hti. destruct (mapM_result _ rows) as [pkl|e]; [by exists pkl|].
        cbn. intros H. exfalso. clear -H.
        induction tables as [|x tables IH]; [done|]. by apply IH.
      - destruct (get_table schema n); [|by apply IH].
        destruct (mapM_result _ rs) as [pkl|e]; cbn; [by apply IH|].
        intros H. exfalso. clear -H.
        induction tables as [|x tables IH']; [done|]. by apply IH'. }
    assert (None = Some (list_to_set pkl : gset pk_tuple)) as Hsome.
    { apply Hl. by exists rows, ti, pkl. }
    discriminate.
Qed.


(** *** When validation returns *)

Lemma extract_pk_values_returns r pk_columns :
  (exists pk, Validation._extract_pk_values r pk_columns = Ok pk)
  <-> forall col, col ∈ pk_columns -> is_Some (row_get r col).
Proof.
  unfold Validation._extract_pk_values.
  induction pk_columns as [|c cols IH]; cbn [mapM_result].
  - split; [intros _ col H%elem_of_nil; done|intros _; by eexists].
  - destruct (row_get r c) as [v|] eqn:Hc; cbn [mbind result_bind].
    + split.
      * intros [pk Hpk] col Hcol.
        apply elem_of_cons in Hcol as [->|Hcol]; [by rewrite Hc|].
        apply IH; [|done].
        destruct (mapM_result _ cols) as [vs|e]; [by eexists|done].
      * intros Hall.
        destruct (proj2 IH (fun col Hcol => Hall col (list_elem_of_further _ _ _ Hcol)))
          as [pk ->].
        by eexists.
    + split; [intros [pk Hpk]; done|].
      intros Hall. specialize (Hall c (list_elem_of_here _ _)).
      rewrite Hc in Hall. by destruct Hall.
Qed.

Lemma extract_pk_values_raises r pk_columns e :
  Validation._extract_pk_values r pk_columns = Raise e ->
  exists col, e = KeyError col /\ col ∈ pk_columns /\ row_get r col = None.
Proof.
  unfold Validation._extract_pk_values.
  induction pk_columns as [|c cols IH]; cbn [mapM_result]; [done|].
  destruct (row_get r c) as [v|] eqn:Hc; cbn [mbind result_bind].
  - destruct (mapM_result _ cols) as [vs|e'] eqn:Hm; cbn; [done|].
    intros [= <-]. destruct (IH eq_refl) as (col & -> & Hcol & Hnone).
    exists col. split; [done|]. split; [by right|done].
  - intros [= <-]. exists c. split; [done|]. split; [by left|done].
Qed.

Lemma mapM_result_raises {A B : Type} (f : A -> result B) l e :
  mapM_result f l = Raise e -> exists a, a ∈ l /\ f a = Raise e.
Proof.
  induction l as [|a l IH]; cbn; [done|].
  destruct (f a) as [b|e'] eqn:Hfa; cbn.
  - destruct (mapM_result f l) as [bs|e'] eqn:Hm; cbn; [done|].
    intros [= <-]. destruct (IH eq_refl) as (a' & Ha' & Hf).
    exists a'. split; [by right|done].
  - intros [= <-]. exists a. split; [by left|done].
Qed.

Lemma mapM_result_returns_elem {A B : Type} (f : A -> result B) l bs a :
  mapM_result f l = Ok bs -> a ∈ l -> exists b, f a = Ok b.
Proof.
  revert bs. induction l as [|x l IH]; intros bs; cbn; [by intros _ H%elem_of_nil|].
  destruct (f x) as [b|e] eqn:Hfx; cbn; [|done].
  destruct (mapM_result f l) as [bs0|e]; cbn; [|done].
  intros _ [->|Ha]%elem_of_cons; [by exists b|by eapply IH].
Qed.

(** A loop over a monadic body returns when the body returns on every
    element, and otherwise raises what the body raised on some element. *)
Lemma fold_left_bind_cases {A B : Type} (g : A -> B -> result A) (l : list B) :
  forall a0,
    match List.fold_left (fun acc b => a ← acc; g a b) l (Ok a0) with
    | Ok _ => True
    | Raise e => exists a b, b ∈ l /\ g a b = Raise e
    end.
Proof.
  induction l as [|b l IH]; intros a0; cbn [List.fold_left]; [done|].
  cbn [mbind result_bind]. destruct (g a0 b) as [a1|e] eqn:Hg.
  - specialize (IH a1). destruct (List.fold_left _ l (Ok a1)); [done|].
    destruct IH as (a & b' & Hb' & H). exists a, b'. split; [by right|done].
  - assert (List.fold_left (fun acc b => a ← acc; g a b) l (Raise e) = Raise e)
      as ->.
    { clear. induction l as [|x l IH]; [done|]. exact IH. }
    exists a0, b. split; [by left|done].
Qed.

Section ValidateReturns.

Variable schema : SchemaGraph.
Variable tables : list (string * list row).
Variable broken_fks : list ForeignKey.

(** Every extracted row of a table of the schema holds the primary-key
    columns of its table. *)
#[local] Abbreviation keyed := (Invariants.keyed schema tables).

Lemma build_pk_index_cases :
  match Validation._build_pk_index schema tables with
  | Ok _ => keyed
  | Raise e =>
      exists t rows table_info r col,
        e = KeyError col /\ (t, rows) ∈ tables
        /\ get_table schema t = Some table_info /\ r ∈ rows
        /\ col ∈ primary_key table_info /\ row_get r col = None
  end.
Proof.
  unfold Validation._build_pk_index, Invariants.keyed.
  match goal with
  | |- context [List.fold_left ?f tables _] => set (body := f)
  end.
  assert (Hraise : forall todo e, List.fold_left body todo (Raise e) = Raise e).
  { induction todo as [|x todo IH]; intros e; [done|]. apply IH. }
  assert (Hgen : forall (todo : list (string * list row))
                         (index0 : gmap string (gset pk_tuple)),
            (forall item, item ∈ todo -> item ∈ tables) ->
            match List.fold_left body todo (Ok index0) with
            | Ok _ =>
                forall t rows table_info r col,
                  (t, rows) ∈ todo -> get_table schema t = Some table_info ->
                  r ∈ rows -> col ∈ primary_key table_info ->
                  is_Some (row_get r col)
            | Raise e =>
                exists t rows table_info r col,
                  e = KeyError col /\ (t, rows) ∈ tables
                  /\ get_table schema t = Some table_info /\ r ∈ rows
                  /\ col ∈ primary_key table_info /\ row_get r col = None
            end).
  { induction todo as [|[name rows] todo IH]; intros index0 Hsub;
      cbn [List.fold_left].
    - intros t rows ti r col H%elem_of_nil. done.
    - unfold body at 2. cbn [mbind result_bind fst snd].
      assert (Hsub' : forall item, item ∈ todo -> item ∈ tables)
        by (intros item Hitem; apply Hsub; by right).
      destruct (get_table schema name) as [table_info|] eqn:Hti.
      + destruct (mapM_result _ rows) as [pk_list|e] eqn:Hpk;
          cbn [mbind result_bind].
        * specialize (IH (<[name := list_to_set pk_list]> index0) Hsub').
          destruct (List.fold_left _ todo _) as [index1|e]; [|done].
          intros t rows' ti r col Hin Hti' Hr Hcol.
          apply elem_of_cons in Hin as [[= -> ->]|Hin]; [|by eapply IH].
          rewrite Hti in Hti'. injection Hti' as <-.
          destruct (mapM_result_returns_elem _ _ _ _ Hpk Hr) as [pk Hpk_r].
          apply (proj1 (extract_pk_values_returns r (primary_key table_info)));
            [by exists pk|done].
        * rewrite Hraise.
          apply mapM_result_raises in Hpk as (r & Hr & Hbad).
          apply extract_pk_values_raises in Hbad as (col & -> & Hcol & Hnone).
          exists name, rows, table_info, r, col.
          split; [done|]. split; [apply Hsub; by left|done].
      + specialize (IH index0 Hsub').
        destruct (List.fold_left _ todo _) as [index1|e]; [|done].
        intros t rows' ti r col Hin Hti' Hr Hcol.
        apply elem_of_cons in Hin as [[= -> ->]|Hin]; [congruence|by eapply IH]. }
  apply Hgen. done.
Qed.

Lemma validate_after_index pk_index :
  keyed ->
  exists vr,
    List.fold_left
      (fun acc item =>
         res ← acc;
         match get_table schema item.1 with
         | None => Ok res
         | Some table_info =>
             let res1 :=
               {| Validation.is_valid := Validation.is_valid res;
                  Validation.orphaned_records := Validation.orphaned_records res;
                  Validation.vr_broken_fks := Validation.vr_broken_fks res;
                  Validation.total_records_checked :=
                    Validation.total_records_checked res + length item.2;
                  Validation.total_fk_checks := Validation.total_fk_checks res |} in
             let parents := get_parents schema item.1 in
             List.fold_left
               (fun acc r =>
                  res ← acc;
                  pk_values ← Validation._extract_pk_values r (primary_key table_info);
                  Ok (List.fold_left
                        (Validation.check_fk item.1 r pk_values broken_fks pk_index)
                        parents res))
               item.2 (Ok res1)
         end)
      tables
      (Ok {| Validation.is_valid := true; Validation.orphaned_records := [];
             Validation.vr_broken_fks := broken_fks;
             Validation.total_records_checked := 0;
             Validation.total_fk_checks := 0 |})
    = Ok vr.
Proof.
  intros Hkeyed.
  match goal with
  | |- exists vr, List.fold_left (fun acc item => res ← acc; @?g res item) _ (Ok ?r0) = _ =>
      pose proof (fold_left_bind_cases g tables r0) as Hcases
  end.
  cbv beta in Hcases.
  match type of Hcases with
  | match ?x with _ => _ end => destruct x as [vr|e]; [by exists vr|]
  end.
  exfalso. destruct Hcases as (res & [t rows] & Hin & Hbody).
  cbn [fst snd] in Hbody.
  destruct (get_table schema t) as [table_info|] eqn:Hti; [|done].
  cbv zeta in Hbody.
  match type of Hbody with
  | List.fold_left (fun acc r => res ← acc; @?g res r) _ (Ok ?r0) = _ =>
      pose proof (fold_left_bind_cases g rows r0) as Hrows
  end.
  cbv beta in Hrows. rewrite Hbody in Hrows.
  destruct Hrows as (res' & r & Hr & Hrow).
  destruct (Validation._extract_pk_values r (primary_key table_info))
    as [pk|e'] eqn:Hpk; [done|].
  apply extract_pk_values_raises in Hpk as (col & _ & Hcol & Hnone).
  destruct (Hkeyed t rows table_info r col Hin Hti Hr Hcol) as [v Hv].
  congruence.
Qed.

End ValidateReturns.

(** [validate] returns exactly when every extracted row of a table of the
    schema holds the primary-key columns of its table; otherwise it raises
    [KeyError] for a primary-key column that a row lacks. *)
Theorem validate_returns_iff_keyed schema tables broken_fks :
  ((exists vr, Validation.validate schema tables broken_fks = Ok vr)
   <-> forall t rows table_info r col,
         (t, rows) ∈ tables -> get_table schema t = Some table_info ->
         r ∈ rows -> col ∈ primary_key table_info -> is_Some (row_get r col))
  /\ (forall e,
        Validation.validate schema tables broken_fks = Raise e ->
        exists t rows table_info r col,
          e = KeyError col /\ (t, rows) ∈ tables
          /\ get_table schema t = Some table_info /\ r ∈ rows
          /\ col ∈ primary_key table_info /\ row_get r col = None).
Proof.
  pose proof (build_pk_index_cases schema tables) as Hidx.
  unfold Validation.validate. cbv zeta.
  destruct (Validation._build_pk_index schema tables) as [pk_index|e];
    cbn [mbind result_bind].
  - destruct (validate_after_index schema tables broken_fks pk_index Hidx)
      as [vr Hvr].
    cbv zeta in Hvr. rewrite Hvr. split; [|done]. split; [by intros _|by exists vr].
  - split.
    + split; [by intros [vr ?]|]. intros Hkeyed. exfalso.
      destruct Hidx as (t & rows & ti & r & col & _ & Hin & Hti & Hr & Hcol & Hnone).
      destruct (Hkeyed t rows ti r col Hin Hti Hr Hcol) as [v Hv]. congruence.
    + intros e' [= <-]. exact Hidx.
Qed.

Lemma pk_values_of_raises row_data pk_columns e :
  Cycles.pk_values_of row_data pk_columns = Raise e ->
  exists col, e = KeyError col /\ col ∈ pk_columns /\ row_get row_data col = None.
Proof. apply extract_pk_values_raises. Qed.

(** [build_deferred_updates] raises only [KeyError], and only for a
    primary-key column missing from an extracted row that holds a value
    other than [None] in a column of a broken foreign key; the rows of
    tables without broken foreign key are not looked at. *)
Theorem build_deferred_updates_raises fks_to_break tables_data schema e :
  Cycles.build_deferred_updates fks_to_break tables_data schema = Raise e ->
  exists fk rows table_info row_data fk_col fk_value col,
    fk ∈ fks_to_break
    /\ dict_get tables_data (source_table fk) = Some rows
    /\ get_table schema (source_table fk) = Some table_info
    /\ row_data ∈ rows
    /\ fk_col ∈ source_columns fk
    /\ row_get row_data fk_col = Some fk_value
    /\ fk_value <> PNone
    /\ col ∈ primary_key table_info
    /\ row_get row_data col = None
    /\ e = KeyError col.
Proof.
  rewrite build_deferred_updates_eq.
  destruct (mapM_result _ fks_to_break) as [parts|e0] eqn:Hparts; [done|].
  cbn. intros [= ->].
  apply mapM_result_raises in Hparts as (fk & Hfk & Hraise).
  destruct (dict_get tables_data (source_table fk)) as [rows|] eqn:Hrows; [|done].
  destruct (get_table schema (source_table fk)) as [table_info|] eqn:Hti; [|done].
  destruct (mapM_result _ rows) as [row_parts|e1] eqn:Hrp; [done|].
  cbn in Hraise. assert (e1 = e) as -> by congruence. clear Hraise.
  apply mapM_result_raises in Hrp as (row_data & Hrow & Hraise).
  rewrite row_deferred_updates_eq in Hraise.
  destruct (mapM_result _ (source_columns fk)) as [ps|e2] eqn:Hcols; [done|].
  cbn in Hraise. assert (e2 = e) as -> by congruence. clear Hraise.
  apply mapM_result_raises in Hcols as (fk_col & Hcol & Hraise).
  destruct (row_get row_data fk_col) as [v|] eqn:Hv; [|done].
  destruct (Cycles.pk_values_of row_data (primary_key table_info)) as [pk|e3] eqn:Hpk.
  { by destruct v. }
  apply pk_values_of_raises in Hpk as (col & -> & Hpkcol & Hnone).
  exists fk, rows, table_info, row_data, fk_col, v, col.
  repeat (split; [done|]).
  split; [by destruct v|]. split; [done|]. split; [done|].
  destruct v; cbn in Hraise; congruence.
Qed.


Lemma build_deferred_updates_exact_witness :
  let tables_data :=
    [("departments",
      [ [("id", PInt 1); ("head_id", PInt 7)];
        [("id", PInt 2); ("head_id", PNone)] ])] in
  let du :=
    Cycles.mkDeferredUpdate "departments" ["id"] [PInt 1] "head_id" (PInt 7) in
  du ∈ [du]
  <-> exists fk rows table_info row_data,
        fk ∈ [Examples.departments_head]
        /\ dict_get tables_data (source_table fk) = Some rows
        /\ get_table Examples.company_schema (source_table fk) = Some table_info
        /\ row_data ∈ rows
        /\ Cycles.du_fk_column du ∈ source_columns fk
        /\ row_get row_data (Cycles.du_fk_column du) = Some (Cycles.du_fk_value du)
        /\ Cycles.du_fk_value du <> PNone
        /\ Cycles.pk_values_of row_data (primary_key table_info)
           = Ok (Cycles.du_pk_values du)
        /\ Cycles.du_table du = source_table fk
        /\ Cycles.du_pk_columns du = primary_key table_info.
Proof.
  intros tables_data du.
  apply (build_deferred_updates_exact [Examples.departments_head] tables_data
           Examples.company_schema [du] du).
  vm_compute. reflexivity.
Defined.

Lemma build_deferred_updates_raises_witness :
  exists fk rows table_info row_data fk_col fk_value col,
    fk ∈ [Examples.departments_head]
    /\ dict_get [("departments", [ [("head_id", PInt 7)] ])] (source_table fk)
       = Some rows
    /\ get_table Examples.company_schema (source_table fk) = Some table_info
    /\ row_data ∈ rows
    /\ fk_col ∈ source_columns fk
    /\ row_get row_data fk_col = Some fk_value
    /\ fk_value <> PNone
    /\ col ∈ primary_key table_info
    /\ row_get row_data col = None
    /\ KeyError "id" = KeyError col.
Proof.
  apply (build_deferred_updates_raises [Examples.departments_head]
           [("departments", [ [("head_id", PInt 7)] ])]
           Examples.company_schema (KeyError "id")).
  vm_compute. reflexivity.
Defined.

(** ** More on the traversal: termination and referential closure *)

Section TraversalTermination.

Context (schema : SchemaGraph) {adapter : Graph.DatabaseAdapter}.
Variable config : Graph.TraversalConfig.
Variable U : gset (string * pk_tuple).
Hypothesis within : Graph.fetches_within schema U.

#[local] Abbreviation unseen := (Invariants.unseen U).
#[local] Abbreviation unseen_down := (Invariants.unseen_down U).
#[local] Abbreviation turns_left := (Invariants.turns_left U).

Lemma union_difference_same (A B : Graph.pk_set) : A ∪ B ∖ A = A ∪ B.
Proof.
  apply set_eq. intros x. rewrite !elem_of_union, elem_of_difference.
  destruct (decide (x ∈ A)); tauto.
Qed.

(** Marking more rows leaves fewer unseen; marking a row of [U] that was
    not marked leaves strictly fewer. *)
Lemma unseen_size_le (m m' : gmap string Graph.pk_set) :
  (forall t pk, pk ∈ Graph.get_set m t -> pk ∈ Graph.get_set m' t) ->
  size (filter (fun row : string * pk_tuple => row.2 ∉ Graph.get_set m' row.1) U)
  <= size (filter (fun row : string * pk_tuple => row.2 ∉ Graph.get_set m row.1) U).
Proof.
  intros Hmono. apply subseteq_size. intros row.
  rewrite !elem_of_filter. intros [Hnot HU]. split; [|done].
  intros Hin. apply Hnot. by apply Hmono.
Qed.

Lemma unseen_size_lt (m m' : gmap string Graph.pk_set) t0 pk0 :
  (forall t pk, pk ∈ Graph.get_set m t -> pk ∈ Graph.get_set m' t) ->
  (t0, pk0) ∈ U -> pk0 ∉ Graph.get_set m t0 -> pk0 ∈ Graph.get_set m' t0 ->
  size (filter (fun row : string * pk_tuple => row.2 ∉ Graph.get_set m' row.1) U)
  < size (filter (fun row : string * pk_tuple => row.2 ∉ Graph.get_set m row.1) U).
Proof.
  intros Hmono HU Hold Hnew. apply subset_size. split.
  - intros row. rewrite !elem_of_filter. intros [Hnot HU']. split; [|done].
    intros Hin. apply Hnot. by apply Hmono.
  - intros Hsub. specialize (Hsub (t0, pk0)). rewrite !elem_of_filter in Hsub.
    destruct Hsub as [Hnot _]; [done|]. by apply Hnot.
Qed.

(** What one parent edge does to the state. *)
Lemma up_edge_shape table pks depth st parent_table fk :
  let st' := Graph.up_edge schema table pks depth config st (parent_table, fk) in
  let parent_pks := Graph.fetch_fk_values table fk pks in
  let already := Graph.get_set (Graph.visited_up st) parent_table in
  (st' = st
   /\ (parent_table ∈ Graph.exclude_tables config \/ parent_pks ⊆ already))
  \/ ((parent_table ∉ Graph.exclude_tables config)
      /\ (exists pk, pk ∈ parent_pks /\ pk ∉ already)
      /\ Graph.queue st'
         = Graph.queue st
           ++ [Graph.mkEntry parent_table (parent_pks ∖ already) (depth + 1) Graph.up]
      /\ Graph.visited_up st'
         = <[parent_table := already ∪ parent_pks]> (Graph.visited_up st)
      /\ Graph.visited_down st' = Graph.visited_down st
      /\ (forall t, Graph.get_records (Graph.st_result st') t
                    = if bool_decide (t = parent_table)
                      then Graph.get_records (Graph.st_result st) t
                           ∪ parent_pks ∖ already
                      else Graph.get_records (Graph.st_result st) t)).
Proof.
  cbv zeta. unfold Graph.up_edge.
  case_bool_decide as Hex; [left; split; [done|by left]|].
  case_bool_decide as Hempty.
  { left. split; [done|]. right. rewrite Hempty. apply empty_subseteq. }
  case_bool_decide as Hnew.
  { left. split; [done|]. right. intros x Hx.
    destruct (decide (x ∈ Graph.get_set (Graph.visited_up st) parent_table))
      as [?|Hn]; [done|].
    exfalso. assert (x ∈ (∅ : Graph.pk_set)) as Habs; [|by apply elem_of_empty in Habs].
    rewrite <- Hnew. by apply elem_of_difference. }
  right. split; [done|]. split.
  { apply set_choose_L in Hnew as [pk Hpk]. exists pk.
    by apply elem_of_difference in Hpk. }
  cbn. split; [done|]. split; [by rewrite union_difference_same|].
  split; [done|].
  intros t. unfold Graph.get_records. cbn. rewrite get_set_insert.
  destruct (decide (t = parent_table)) as [->|Hne];
    [rewrite !bool_decide_eq_true_2 by done
    |by rewrite !bool_decide_eq_false_2 by done].
  by rewrite union_difference_same.
Qed.

(** What one child edge does to the state. *)
Lemma down_edge_shape table pks depth st child_table fk :
  let st' := Graph.down_edge schema table pks depth config st (child_table, fk) in
  let child_pks := Graph.fetch_referencing_pks fk pks in
  let already := Graph.get_set (Graph.visited_down st) child_table in
  let seen := Graph.get_set (Graph.visited_up st) child_table in
  let new_pks := child_pks ∖ already in
  st' = st
  \/ ((child_table ∉ Graph.exclude_tables config)
      /\ (exists pk, pk ∈ child_pks /\ pk ∉ already)
      /\ Graph.visited_down st'
         = <[child_table := already ∪ child_pks]> (Graph.visited_down st)
      /\ (forall t, Graph.get_set (Graph.visited_up st') t
                    = if bool_decide (t = child_table) then seen ∪ new_pks
                      else Graph.get_set (Graph.visited_up st) t)
      /\ (forall t, Graph.get_records (Graph.st_result st') t
                    = if bool_decide (t = child_table)
                      then Graph.get_records (Graph.st_result st) t ∪ new_pks
                      else Graph.get_records (Graph.st_result st) t)
      /\ Graph.queue st'
         = Graph.queue st
           ++ [Graph.mkEntry child_table new_pks (depth + 1) Graph.down]
           ++ (if bool_decide (new_pks ∖ seen = ∅) then []
               else [Graph.mkEntry child_table (new_pks ∖ seen) (depth + 1) Graph.up])).
Proof.
  cbv zeta. unfold Graph.down_edge.
  case_bool_decide as Hex; [by left|].
  case_bool_decide as Hempty; [by left|].
  case_bool_decide as Hnew; [by left|].
  right. split; [done|]. split.
  { apply set_choose_L in Hnew as [pk Hpk]. exists pk.
    by apply elem_of_difference in Hpk. }
  assert (Hrec : forall r t,
            Graph.get_records
              (Graph.log_path
                 (Graph.visit_table
                    (Graph.add_records (Graph.st_result st) child_table
                       (Graph.fetch_referencing_pks fk pks
                        ∖ Graph.get_set (Graph.visited_down st) child_table)).2
                    child_table) r) t
            = if bool_decide (t = child_table)
              then Graph.get_records (Graph.st_result st) t
                   ∪ Graph.fetch_referencing_pks fk pks
                     ∖ Graph.get_set (Graph.visited_down st) child_table
              else Graph.get_records (Graph.st_result st) t).
  { intros r t. unfold Graph.get_records. cbn. rewrite get_set_insert.
    case_bool_decide as Ht; [|done]. subst t.
    by rewrite union_difference_same. }
  case_bool_decide as Hup; cbn.
  - split; [by rewrite union_difference_same|]. split.
    { intros t. rewrite get_set_insert. case_bool_decide as Ht; [|done].
      apply set_eq. intros x. rewrite elem_of_union.
      split; [by left|]. intros [?|Hx]; [done|].
      destruct (decide (x ∈ Graph.get_set (Graph.visited_up st) child_table))
        as [?|Hn]; [done|].
      exfalso. assert (x ∈ (∅ : Graph.pk_set)) as Habs; [|by apply elem_of_empty in Habs].
      rewrite <- Hup. apply elem_of_difference. done. }
    split; [apply Hrec|]. done.
  - split; [by rewrite union_difference_same|]. split.
    { intros t. rewrite get_set_insert. case_bool_decide as Ht; [|done].
      by rewrite union_difference_same. }
    split; [apply Hrec|]. by rewrite <- app_assoc.
Qed.

Lemma up_edge_turns table pks depth st parent_table fk :
  (parent_table, fk) ∈ get_parents schema table ->
  turns_left (Graph.up_edge schema table pks depth config st (parent_table, fk))
  <= turns_left st.
Proof.
  intros Hedge.
  destruct (up_edge_shape table pks depth st parent_table fk)
    as [[-> _]|(_ & (pk0 & Hpk0 & Hpk0') & Hq & Hv & Hd & _)]; [done|].
  unfold Invariants.turns_left, Invariants.unseen, Invariants.unseen_down.
  rewrite Hq, Hv, Hd, length_app. cbn [length].
  assert (Hmono : forall t pk,
            pk ∈ Graph.get_set (Graph.visited_up st) t ->
            pk ∈ Graph.get_set
                   (<[parent_table := Graph.get_set (Graph.visited_up st) parent_table
                                      ∪ Graph.fetch_fk_values table fk pks]>
                      (Graph.visited_up st)) t).
  { intros t pk Hpk. rewrite get_set_insert. case_bool_decide as Ht; [|done].
    subst t. apply elem_of_union. by left. }
  pose proof (unseen_size_lt _ _ parent_table pk0 Hmono
                (proj1 within table parent_table fk pks pk0 Hedge Hpk0) Hpk0') as Hlt.
  rewrite get_set_insert, bool_decide_eq_true_2 in Hlt by done.
  specialize (Hlt ltac:(apply elem_of_union; by right)). lia.
Qed.

Lemma down_edge_turns table pks depth st child_table fk :
  (child_table, fk) ∈ get_children schema table ->
  turns_left (Graph.down_edge schema table pks depth config st (child_table, fk))
  <= turns_left st.
Proof.
  intros Hedge.
  destruct (down_edge_shape table pks depth st child_table fk)
    as [->|(_ & (pk0 & Hpk0 & Hpk0') & Hd & Hv & _ & Hq)]; [done|].
  unfold Invariants.turns_left, Invariants.unseen, Invariants.unseen_down.
  rewrite Hq, Hd, !length_app. cbn [length].
  assert (Hup : forall t pk,
            pk ∈ Graph.get_set (Graph.visited_up st) t ->
            pk ∈ Graph.get_set
                   (Graph.visited_up
                      (Graph.down_edge schema table pks depth config st
                         (child_table, fk))) t).
  { intros t pk Hpk. rewrite Hv.
    destruct (decide (t = child_table)) as [->|Hne];
      [rewrite bool_decide_eq_true_2 by done
      |by rewrite bool_decide_eq_false_2 by done].
    apply elem_of_union. by left. }
  pose proof (unseen_size_le _ _ Hup) as Hle.
  assert (Hmono : forall t pk,
            pk ∈ Graph.get_set (Graph.visited_down st) t ->
            pk ∈ Graph.get_set
                   (<[child_table := Graph.get_set (Graph.visited_down st) child_table
                                     ∪ Graph.fetch_referencing_pks fk pks]>
                      (Graph.visited_down st)) t).
  { intros t pk Hpk. rewrite get_set_insert.
    destruct (decide (t = child_table)) as [->|Hne];
      [rewrite bool_decide_eq_true_2 by done
      |by rewrite bool_decide_eq_false_2 by done].
    apply elem_of_union. by left. }
  pose proof (unseen_size_lt _ _ child_table pk0 Hmono
                (proj2 within table child_table fk pks pk0 Hedge Hpk0) Hpk0') as Hlt.
  rewrite get_set_insert, bool_decide_eq_true_2 in Hlt by done.
  specialize (Hlt ltac:(apply elem_of_union; by right)).
  assert (length (if bool_decide
                       (Graph.fetch_referencing_pks fk pks
                        ∖ Graph.get_set (Graph.visited_down st) child_table
                        ∖ Graph.get_set (Graph.visited_up st) child_table = ∅)
                  then []
                  else [Graph.mkEntry child_table
                          (Graph.fetch_referencing_pks fk pks
                           ∖ Graph.get_set (Graph.visited_down st) child_table
                           ∖ Graph.get_set (Graph.visited_up st) child_table)
                          (depth + 1) Graph.up]) <= 1)
    by (case_bool_decide; cbn; lia).
  lia.
Qed.

Lemma fold_turns {E : Type} (f : Graph.state -> E -> Graph.state) (edges : list E) :
  (forall st e, e ∈ edges -> turns_left (f st e) <= turns_left st) ->
  forall st, turns_left (List.fold_left f edges st) <= turns_left st.
Proof.
  induction edges as [|e edges IH]; intros Hf st; cbn [List.fold_left]; [done|].
  etrans; [apply IH; intros st' e' He'; apply Hf; by right|].
  apply Hf. by left.
Qed.

(** Every turn of the loop lowers the bound. *)
Lemma step_turns st st' :
  Graph.step schema config st = Some st' -> turns_left st' < turns_left st.
Proof.
  unfold Graph.step. destruct (Graph.queue st) as [|e rest] eqn:Hq; [done|].
  set (st1 := {| Graph.st_result := Graph.st_result st;
                 Graph.visited_up := Graph.visited_up st;
                 Graph.visited_down := Graph.visited_down st;
                 Graph.queue := rest |}).
  assert (Hpop : turns_left st1 < turns_left st).
  { unfold Invariants.turns_left, Invariants.unseen, Invariants.unseen_down.
    rewrite Hq. cbn. lia. }
  intros [= <-]. destruct (Graph.e_tag e).
  - unfold Graph._traverse_up.
    pose proof (fold_turns
                  (Graph.up_edge schema (Graph.e_table e) (Graph.e_pks e)
                     (Graph.e_depth e) config)
                  (get_parents schema (Graph.e_table e))) as Hfold.
    specialize (Hfold (fun st0 edge Hedge =>
                         match edge as x
                           return x ∈ get_parents schema (Graph.e_table e) -> _ with
                         | (parent_table, fk) => fun H =>
                             up_edge_turns _ _ _ st0 parent_table fk H
                         end Hedge) st1).
    lia.
  - destruct (Graph.max_depth config <=? Graph.e_depth e)%Z; [done|].
    unfold Graph._traverse_down.
    pose proof (fold_turns
                  (Graph.down_edge schema (Graph.e_table e) (Graph.e_pks e)
                     (Graph.e_depth e) config)
                  (get_children schema (Graph.e_table e))) as Hfold.
    specialize (Hfold (fun st0 edge Hedge =>
                         match edge as x
                           return x ∈ get_children schema (Graph.e_table e) -> _ with
                         | (child_table, fk) => fun H =>
                             down_edge_turns _ _ _ st0 child_table fk H
                         end Hedge) st1).
    lia.
Qed.

(** With enough fuel the loop ends with an empty queue, after some number
    of turns. *)
Lemma loop_returns : forall fuel st,
  turns_left st <= fuel ->
  exists st' n,
    Graph.loop schema fuel config st = Ok st'
    /\ st' = Graph.run schema n config st
    /\ Graph.queue st' = [].
Proof.
  induction fuel as [|fuel IH]; intros st Hfuel; cbn [Graph.loop];
    destruct (Graph.step schema config st) as [st1|] eqn:Hstep.
  - apply step_turns in Hstep. lia.
  - exists st, 0. split; [done|]. split; [done|].
    unfold Graph.step in Hstep. by destruct (Graph.queue st).
  - pose proof (step_turns _ _ Hstep) as Hlt.
    destruct (IH st1 ltac:(lia)) as (st' & n & Hloop & Hrun & Hq).
    exists st', (S n). split; [done|]. split; [|done].
    cbn [Graph.run]. by rewrite Hstep.
  - exists st, 0. split; [done|]. split; [done|].
    unfold Graph.step in Hstep. by destruct (Graph.queue st).
Qed.

Lemma initial_turns seed_table seed_pks :
  turns_left (Graph.initial seed_table seed_pks config) <= 5 * size U + 2.
Proof.
  unfold Invariants.turns_left.
  assert (size (unseen (Graph.initial seed_table seed_pks config)) <= size U).
  { apply subseteq_size. intros row Hrow. by apply elem_of_filter in Hrow as [_ ?]. }
  assert (size (unseen_down (Graph.initial seed_table seed_pks config)) <= size U).
  { apply subseteq_size. intros row Hrow. by apply elem_of_filter in Hrow as [_ ?]. }
  assert (length (Graph.queue (Graph.initial seed_table seed_pks config)) <= 2).
  { cbn. destruct (Graph.direction config); cbn; lia. }
  lia.
Qed.

End TraversalTermination.

Section TraversalClosure.

Context (schema : SchemaGraph) {adapter : Graph.DatabaseAdapter}.
Variable config : Graph.TraversalConfig.
Variable seed_table : string.
Variable seed_pks : Graph.pk_set.

Hypothesis pointwise : Graph.fetch_fk_values_pointwise.

#[local] Abbreviation seen_up := Invariants.seen_up.
#[local] Abbreviation queued_up := Invariants.queued_up.
#[local] Abbreviation parents_seen := (Invariants.parents_seen config).
#[local] Abbreviation closed := (Invariants.closed schema config seed_table seed_pks).

Lemma up_edge_closed table pks depth followed st parent_table fk :
  closed (Some (table, pks, followed)) st ->
  closed (Some (table, pks, followed ++ [(parent_table, fk)]))
    (Graph.up_edge schema table pks depth config st (parent_table, fk)).
Proof.
  intros (Hrec & Hqueue & Hpending & Hcur).
  destruct (up_edge_shape schema config table pks depth st parent_table fk)
    as [[-> Hskip]|(Hnex & (pk0 & Hpk0 & Hpk0') & Hq & Hv & _ & Hr)].
  - split; [done|]. split; [done|]. split; [|done].
    intros t pk Hseen.
    destruct (Hpending t pk Hseen) as [?|[?|[?|(-> & Hpk & Hfollowed)]]];
      [by left|by right; left|by right; right; left|].
    right. right. right. split; [done|]. split; [done|].
    apply parents_seen_snoc; [done|]. intros pk' Hnex Hpk'.
    destruct Hskip as [?|Hsub]; [done|]. apply Hsub.
    apply pointwise. by exists pk.
  - set (st' := Graph.up_edge schema table pks depth config st (parent_table, fk)) in *.
    assert (Hseen' : forall t pk,
               seen_up st' t pk
               <-> seen_up st t pk
                   \/ (t = parent_table
                       /\ pk ∈ Graph.fetch_fk_values table fk pks)).
    { intros t pk. unfold Invariants.seen_up. rewrite Hv, get_set_insert.
      destruct (decide (t = parent_table)) as [->|Hne].
      - rewrite bool_decide_eq_true_2 by done. rewrite elem_of_union. naive_solver.
      - rewrite bool_decide_eq_false_2 by done. naive_solver. }
    assert (Hmono : forall t pk, seen_up st t pk -> seen_up st' t pk).
    { intros t pk H. apply Hseen'. by left. }
    split; [|split; [|split]].
    + intros t. rewrite Hr, Hv, get_set_insert.
      destruct (decide (t = parent_table)) as [->|Hne];
        [rewrite !bool_decide_eq_true_2 by done
        |rewrite !bool_decide_eq_false_2 by done; apply Hrec].
      rewrite Hrec. apply union_difference_same.
    + intros e He Htag. rewrite Hq in He. apply elem_of_app in He as [He|He].
      * intros pk Hpk. by apply Hmono, (Hqueue e He Htag).
      * apply list_elem_of_singleton in He as ->. cbn.
        intros pk Hpk. apply Hseen'. right. split; [done|].
        by apply elem_of_difference in Hpk as [? _].
    + intros t pk Hseen.
      destruct (decide (pk ∈ Graph.get_set (Graph.visited_up st) t)) as [Hold|Hnew].
      * destruct (Hpending t pk Hold)
          as [(e & He & Htag & Ht & Hpk)|[H|[H|(-> & Hpk & Hfollowed)]]].
        -- left. exists e. rewrite Hq. split; [apply elem_of_app; by left|done].
        -- right. left. by eapply parents_seen_mono.
        -- by right; right; left.
        -- right. right. right. split; [done|]. split; [done|].
           apply parents_seen_snoc; [by eapply parents_seen_mono|].
           intros pk' _ Hpk'. apply Hseen'. right. split; [done|].
           apply pointwise. by exists pk.
      * apply Hseen' in Hseen as [?|[-> Hpk]]; [done|].
        left. eexists. rewrite Hq.
        split; [apply elem_of_app; right; by apply list_elem_of_singleton|].
        cbn. split; [done|]. split; [done|].
        apply elem_of_difference. split; [done|]. exact Hnew.
    + intros pk Hpk. by apply Hmono, Hcur.
Qed.

Lemma traverse_up_closed table pks depth (rest : list (string * ForeignKey)) :
  forall followed st,
    closed (Some (table, pks, followed)) st ->
    closed (Some (table, pks, followed ++ rest))
      (List.fold_left (Graph.up_edge schema table pks depth config) rest st).
Proof.
  induction rest as [|[parent_table fk] rest IH]; intros followed st Hc.
  - by rewrite app_nil_r.
  - cbn [List.fold_left].
    pose proof (up_edge_closed table pks depth followed st parent_table fk Hc) as Hc'.
    specialize (IH _ _ Hc'). by rewrite <- app_assoc in IH.
Qed.

Lemma down_edge_closed table pks depth st child_table fk :
  closed None st ->
  closed None (Graph.down_edge schema table pks depth config st (child_table, fk)).
Proof.
  intros (Hrec & Hqueue & Hpending & _).
  destruct (down_edge_shape schema config table pks depth st child_table fk)
    as [->|(_ & _ & _ & Hv & Hr & Hq)]; [done|].
  set (st' := Graph.down_edge schema table pks depth config st (child_table, fk)) in *.
  set (new_pks := Graph.fetch_referencing_pks fk pks
                  ∖ Graph.get_set (Graph.visited_down st) child_table) in *.
  assert (Hseen' : forall t pk,
             seen_up st' t pk
             <-> seen_up st t pk \/ (t = child_table /\ pk ∈ new_pks)).
  { intros t pk. unfold Invariants.seen_up. rewrite Hv.
    destruct (decide (t = child_table)) as [->|Hne].
    - rewrite bool_decide_eq_true_2 by done. rewrite elem_of_union. naive_solver.
    - rewrite bool_decide_eq_false_2 by done. naive_solver. }
  assert (Hmono : forall t pk, seen_up st t pk -> seen_up st' t pk).
  { intros t pk H. apply Hseen'. by left. }
  split; [|split; [|split; [|done]]].
  - intros t. rewrite Hr, Hv.
    destruct (decide (t = child_table)) as [->|Hne];
      [rewrite !bool_decide_eq_true_2 by done
      |rewrite !bool_decide_eq_false_2 by done; apply Hrec].
    by rewrite Hrec.
  - intros e He Htag. rewrite Hq in He.
    apply elem_of_app in He as [He|He];
      [intros pk Hpk; by apply Hmono, (Hqueue e He Htag)|].
    apply elem_of_app in He as [He|He].
    { apply list_elem_of_singleton in He as ->. done. }
    destruct (bool_decide _) in He; [by apply elem_of_nil in He|].
    apply list_elem_of_singleton in He as ->. cbn.
    intros pk Hpk. apply Hseen'. right. split; [done|].
    by apply elem_of_difference in Hpk as [? _].
  - intros t pk Hseen.
    destruct (decide (pk ∈ Graph.get_set (Graph.visited_up st) t)) as [Hold|Hnew].
    + destruct (Hpending t pk Hold) as [(e & He & Htag & Ht & Hpk)|[H|[H|[]]]].
      * left. exists e. rewrite Hq. split; [apply elem_of_app; by left|done].
      * right. left. by eapply parents_seen_mono.
      * by right; right; left.
    + apply Hseen' in Hseen as [?|[-> Hpk]]; [done|].
      assert (Hin : pk ∈ new_pks ∖ Graph.get_set (Graph.visited_up st) child_table)
        by (by apply elem_of_difference).
      left. exists (Graph.mkEntry child_table
                      (new_pks ∖ Graph.get_set (Graph.visited_up st) child_table)
                      (depth + 1) Graph.up).
      split; [|done]. rewrite Hq. apply elem_of_app. right.
      apply elem_of_app. right.
      rewrite bool_decide_eq_false_2; [by apply list_elem_of_singleton|].
      intros Hempty. rewrite Hempty in Hin. by apply elem_of_empty in Hin.
Qed.

Lemma traverse_down_closed table pks depth (edges : list (string * ForeignKey)) :
  forall st,
    closed None st ->
    closed None (List.fold_left (Graph.down_edge schema table pks depth config) edges st).
Proof.
  induction edges as [|[child_table fk] edges IH]; intros st Hc; [done|].
  cbn [List.fold_left]. apply IH. by apply down_edge_closed.
Qed.

Lemma step_closed st st' :
  closed None st -> Graph.step schema config st = Some st' -> closed None st'.
Proof.
  intros (Hrec & Hqueue & Hpending & _).
  unfold Graph.step. destruct (Graph.queue st) as [|e rest] eqn:Hq; [done|].
  set (st1 := {| Graph.st_result := Graph.st_result st;
                 Graph.visited_up := Graph.visited_up st;
                 Graph.visited_down := Graph.visited_down st;
                 Graph.queue := rest |}).
  assert (He : e ∈ e :: rest) by (apply elem_of_cons; by left).
  assert (Hrest : forall e', e' ∈ rest -> e' ∈ e :: rest)
    by (intros e' He'; apply elem_of_cons; by right).
  intros [= <-]. destruct (Graph.e_tag e) eqn:Htag.
  - assert (Hc1 : closed (Some (Graph.e_table e, Graph.e_pks e, [])) st1).
    { split; [done|]. split; [intros e' He'; by apply Hqueue, Hrest|].
      split; [|by apply Hqueue].
      intros t pk Hseen.
      destruct (Hpending t pk Hseen) as [(e' & He' & Htag' & Ht & Hpk)|[?|[?|[]]]];
        [|by right; left|by right; right; left].
      rewrite Hq in He'. apply elem_of_cons in He' as [->|He'].
      - right. right. right. split; [done|]. split; [done|].
        intros t' fk pk' Hin. by apply elem_of_nil in Hin.
      - left. by exists e'. }
    destruct (traverse_up_closed (Graph.e_table e) (Graph.e_pks e) (Graph.e_depth e)
                (get_parents schema (Graph.e_table e)) [] st1 Hc1)
      as (Hrec' & Hqueue' & Hpending' & _).
    split; [done|]. split; [done|]. split; [|done].
    intros t pk Hseen.
    destruct (Hpending' t pk Hseen) as [?|[?|[?|(-> & _ & ?)]]];
      [by left|by right; left|by right; right; left|by right; left].
  - assert (Hc1 : closed None st1).
    { split; [done|]. split; [intros e' He'; by apply Hqueue, Hrest|].
      split; [|done].
      intros t pk Hseen.
      destruct (Hpending t pk Hseen) as [(e' & He' & Htag' & Ht & Hpk)|[?|[?|[]]]];
        [|by right; left|by right; right; left].
      left. exists e'. split; [|done].
      rewrite Hq in He'. apply elem_of_cons in He' as [->|He']; [congruence|done]. }
    destruct (Graph.max_depth config <=? Graph.e_depth e)%Z; [done|].
    by apply traverse_down_closed.
Qed.

Lemma loop_closed : forall fuel st st',
  closed None st -> Graph.loop schema fuel config st = Ok st' ->
  closed None st' /\ Graph.queue st' = [].
Proof.
  induction fuel as [|fuel IH]; intros st st' Hc; cbn [Graph.loop];
    destruct (Graph.step schema config st) as [st1|] eqn:Hstep; try done.
  - intros [= <-]. split; [done|].
    unfold Graph.step in Hstep. by destruct (Graph.queue st).
  - apply IH. by eapply step_closed.
  - intros [= <-]. split; [done|].
    unfold Graph.step in Hstep. by destruct (Graph.queue st).
Qed.

Lemma initial_closed : closed None (Graph.initial seed_table seed_pks config).
Proof.
  assert (Hseen : forall t pk,
            seen_up (Graph.initial seed_table seed_pks config) t pk
            <-> t = seed_table /\ pk ∈ seed_pks).
  { intros t pk. unfold Invariants.seen_up, Graph.get_set. cbn.
    destruct (decide (t = seed_table)) as [->|Hne].
    - rewrite lookup_singleton_eq. naive_solver.
    - rewrite lookup_singleton_ne by done. set_solver. }
  split; [|split; [|split; [|done]]].
  - intros t. unfold Graph.get_records, Graph.get_set. cbn.
    destruct (decide (t = seed_table)) as [->|Hne].
    + rewrite lookup_insert_eq, lookup_singleton_eq. set_solver.
    + rewrite lookup_insert_ne, lookup_singleton_ne, lookup_empty by done. done.
  - intros e He Htag pk Hpk. apply Hseen. cbn in He.
    destruct (Graph.direction config); cbn in He;
      repeat (apply elem_of_cons in He as [->|He]); try (by apply elem_of_nil in He);
      done.
  - intros t pk Hs. apply Hseen in Hs as [-> Hs].
    destruct (Graph.direction config) eqn:Hdir.
    + left. exists (Graph.mkEntry seed_table seed_pks 0 Graph.up). cbn.
      rewrite Hdir. split; [apply elem_of_cons; by left|done].
    + by right; right; left.
    + left. exists (Graph.mkEntry seed_table seed_pks 0 Graph.up). cbn.
      rewrite Hdir. split; [apply elem_of_cons; by left|done].
Qed.

(** The passthrough tables only add rows, and only to themselves. *)
Lemma passthrough_records tables exclude : forall r t,
  Graph.get_records r t
    ⊆ Graph.get_records (Graph._process_passthrough_tables schema tables r exclude) t
  /\ (t ∉ tables ->
      Graph.get_records (Graph._process_passthrough_tables schema tables r exclude) t
      = Graph.get_records r t).
Proof.
  unfold Graph._process_passthrough_tables.
  induction tables as [|table tables IH]; intros r t; cbn [List.fold_left].
  - split; [done|]. done.
  - assert (Hone : Graph.get_records r t
                     ⊆ Graph.get_records (Graph.passthrough_table schema exclude r table) t
                   /\ (t <> table ->
                       Graph.get_records (Graph.passthrough_table schema exclude r table) t
                       = Graph.get_records r t)).
    { unfold Graph.passthrough_table.
      destruct (bool_decide (table ∈ exclude)); [done|].
      destruct (negb (has_table schema table)); [done|].
      destruct (get_table schema table) as [table_info|]; [|done].
      destruct (bool_decide (primary_key table_info = [])); [done|].
      destruct (bool_decide (Graph.fetch_all_pks table (primary_key table_info) = ∅));
        [done|].
      unfold Graph.get_records. cbn. split.
      - rewrite get_set_insert. destruct (decide (t = table)) as [->|Hne];
          [rewrite bool_decide_eq_true_2 by done
          |by rewrite bool_decide_eq_false_2 by done].
        apply union_subseteq_l.
      - intros Hne. rewrite get_set_insert.
        by rewrite bool_decide_eq_false_2 by done. }
    destruct (IH (Graph.passthrough_table schema exclude r table) t) as [Hsub Heq].
    split.
    + etrans; [apply Hone|apply Hsub].
    + intros Hnot. apply not_elem_of_cons in Hnot as [Hne Hnot].
      rewrite (Heq Hnot). by apply Hone.
Qed.

End TraversalClosure.

(** *** What the traversal returns *)

Section TraversalResults.

Context (schema : SchemaGraph) {adapter : Graph.DatabaseAdapter}.
Variable config : Graph.TraversalConfig.
Variable seed_table : string.
Variable seed_pks : Graph.pk_set.
Variable U : gset (string * pk_tuple).

Lemma fold_records_mono {E : Type} (f : Graph.state -> E -> Graph.state)
    (edges : list E) :
  (forall st e t, Graph.get_records (Graph.st_result st) t
                  ⊆ Graph.get_records (Graph.st_result (f st e)) t) ->
  forall st t, Graph.get_records (Graph.st_result st) t
               ⊆ Graph.get_records (Graph.st_result (List.fold_left f edges st)) t.
Proof.
  intros Hf. induction edges as [|e edges IH]; intros st t; cbn [List.fold_left];
    [done|].
  etrans; [apply Hf|apply IH].
Qed.

(** The records only grow. *)
Lemma step_records_mono st st' t :
  Graph.step schema config st = Some st' ->
  Graph.get_records (Graph.st_result st) t ⊆ Graph.get_records (Graph.st_result st') t.
Proof.
  unfold Graph.step. destruct (Graph.queue st) as [|e rest]; [done|].
  intros [= <-]. destruct (Graph.e_tag e).
  - unfold Graph._traverse_up.
    etrans; [|apply fold_records_mono]; [done|].
    intros st0 [parent_table fk] t0.
    destruct (up_edge_shape schema config (Graph.e_table e) (Graph.e_pks e)
                (Graph.e_depth e) st0 parent_table fk)
      as [[-> _]|(_ & _ & _ & _ & _ & Hr)]; [done|].
    rewrite Hr. destruct (bool_decide _); [apply union_subseteq_l|done].
  - destruct (Graph.max_depth config <=? Graph.e_depth e)%Z; [done|].
    unfold Graph._traverse_down.
    etrans; [|apply fold_records_mono]; [done|].
    intros st0 [child_table fk] t0.
    destruct (down_edge_shape schema config (Graph.e_table e) (Graph.e_pks e)
                (Graph.e_depth e) st0 child_table fk)
      as [->|(_ & _ & _ & _ & Hr & _)]; [done|].
    rewrite Hr. destruct (bool_decide _); [apply union_subseteq_l|done].
Qed.

Lemma loop_records_mono : forall fuel st st' t,
  Graph.loop schema fuel config st = Ok st' ->
  Graph.get_records (Graph.st_result st) t ⊆ Graph.get_records (Graph.st_result st') t.
Proof.
  induction fuel as [|fuel IH]; intros st st' t; cbn [Graph.loop];
    destruct (Graph.step schema config st) as [st1|] eqn:Hstep; try done.
  - by intros [= <-].
  - intros H. etrans; [by apply step_records_mono|by apply IH].
  - by intros [= <-].
Qed.

(** On a finite database [traverse] returns, whatever the configuration:
    [5 * size U + 2] turns of the loop suffice when the adapter returns
    rows of [U] only.  The result holds the seed rows. *)
Theorem traverse_returns (fuel : nat) :
  Graph.fetches_within schema U ->
  5 * size U + 2 <= fuel ->
  exists r,
    Graph.traverse schema fuel seed_table seed_pks config = Ok r
    /\ seed_pks ⊆ Graph.get_records r seed_table.
Proof.
  intros Hwithin Hfuel.
  pose proof (initial_turns config U seed_table seed_pks) as Hinit.
  destruct (loop_returns schema config U Hwithin fuel
              (Graph.initial seed_table seed_pks config) ltac:(lia))
    as (st & n & Hloop & _ & _).
  unfold Graph.traverse. rewrite Hloop. cbn [mbind result_bind].
  eexists. split; [reflexivity|].
  etrans; [|apply passthrough_records].
  etrans; [|exact (loop_records_mono fuel _ st seed_table Hloop)].
  unfold Graph.get_records, Graph.get_set. cbn.
  rewrite lookup_insert_eq. set_solver.
Qed.

(** On a finite database, with an adapter that answers for a set of rows
    with what it answers for each of them, the result of [traverse] is
    closed under parents: every row of the result has its parents in the
    result, through every foreign key (catalog or virtual) whose target
    table is not excluded.  The exceptions are the rows of passthrough
    tables and, when the direction is DOWN, the seed rows. *)
Theorem traverse_referentially_closed (fuel : nat) :
  Graph.fetch_fk_values_pointwise ->
  Graph.fetches_within schema U ->
  5 * size U + 2 <= fuel ->
  exists r,
    Graph.traverse schema fuel seed_table seed_pks config = Ok r
    /\ forall t pk,
         pk ∈ Graph.get_records r t ->
         t ∈ Graph.passthrough_tables config
         \/ (Graph.direction config = Graph.DOWN /\ t = seed_table /\ pk ∈ seed_pks)
         \/ forall parent_table fk parent_pk,
              (parent_table, fk) ∈ get_parents schema t ->
              parent_table ∉ Graph.exclude_tables config ->
              parent_pk ∈ Graph.fetch_fk_values t fk {[pk]} ->
              parent_pk ∈ Graph.get_records r parent_table.
Proof.
  intros Hpoint Hwithin Hfuel.
  pose proof (initial_turns config U seed_table seed_pks) as Hinit.
  destruct (loop_returns schema config U Hwithin fuel
              (Graph.initial seed_table seed_pks config) ltac:(lia))
    as (st & n & Hloop & _ & _).
  destruct (loop_closed schema config seed_table seed_pks Hpoint fuel _ st
              (initial_closed schema config seed_table seed_pks Hpoint) Hloop)
    as [(Hrec & _ & Hpending & _) Hq].
  unfold Graph.traverse. rewrite Hloop. cbn [mbind result_bind].
  eexists. split; [reflexivity|].
  intros t pk Hpk.
  destruct (decide (t ∈ Graph.passthrough_tables config)) as [?|Hnot]; [by left|].
  right.
  rewrite (proj2 (passthrough_records schema _ _ _ t) Hnot) in Hpk.
  rewrite Hrec in Hpk.
  destruct (Hpending t pk Hpk) as [(e & He & _)|[Hdone|[?|[]]]].
  - rewrite Hq in He. by apply elem_of_nil in He.
  - right. intros parent_table fk parent_pk Hedge Hex Hparent.
    apply (proj1 (passthrough_records schema _ _ _ parent_table)).
    rewrite Hrec. by eapply Hdone.
  - by left.
Qed.

End TraversalResults.

(** *** Upward traversals *)

Section UpwardOnly.

Context (schema : SchemaGraph) {adapter : Graph.DatabaseAdapter}.
Variable config : Graph.TraversalConfig.
Variable seed_table : string.
Variable seed_pks : Graph.pk_set.
Variable U : gset (string * pk_tuple).

Hypothesis direction_up : Graph.direction config = Graph.UP.

(** With the direction UP the loop starts in a state of the upward
    traversal, whatever [max_depth] is. *)
Lemma initial_upward_up :
  Invariants.upward schema config seed_table seed_pks None
    (Graph.initial seed_table seed_pks config)
  /\ Invariants.potential U (Graph.initial seed_table seed_pks config)
     <= 2 * size U + 2.
Proof.
  assert (Hseen : forall t pk,
            Invariants.seen_up (Graph.initial seed_table seed_pks config) t pk
            <-> t = seed_table /\ pk ∈ seed_pks).
  { intros t pk. unfold Invariants.seen_up, Graph.get_set. cbn.
    destruct (decide (t = seed_table)) as [->|Hne].
    - rewrite lookup_singleton_eq. naive_solver.
    - rewrite lookup_singleton_ne by done. set_solver. }
  split.
  - split; [|split; [|split; [|split; [|split]]]]; try done.
    + intros t. unfold Graph.get_records, Graph.get_set. cbn.
      destruct (decide (t = seed_table)) as [->|Hne].
      * rewrite lookup_insert_eq, lookup_singleton_eq. set_solver.
      * rewrite lookup_insert_ne, lookup_singleton_ne, lookup_empty by done. done.
    + intros t pk Hs. apply Hseen in Hs as [-> Hs]. exists pk. split; [done|].
      apply rtc_refl.
    + intros s Hs. by apply Hseen.
    + intros e He. cbn in He. rewrite direction_up in He. cbn in He.
      apply list_elem_of_singleton in He as ->. cbn.
      intros pk Hpk. by apply Hseen.
    + intros t pk Hs. left. apply Hseen in Hs as [-> Hs].
      exists (Graph.mkEntry seed_table seed_pks 0 Graph.up). cbn.
      split; [|done]. rewrite direction_up. by apply list_elem_of_singleton.
  - unfold Invariants.potential.
    assert (size (Invariants.unseen U (Graph.initial seed_table seed_pks config))
            <= size U).
    { apply subseteq_size. intros row Hrow.
      by apply elem_of_filter in Hrow as [_ ?]. }
    assert (length (Graph.queue (Graph.initial seed_table seed_pks config)) <= 2).
    { cbn. rewrite direction_up. cbn. lia. }
    lia.
Qed.

End UpwardOnly.

(** Which rows are parents does not depend on [max_depth], on the
    direction or on the passthrough tables. *)
Lemma reachable_parent_exclude (schema : SchemaGraph)
    {adapter : Graph.DatabaseAdapter} (c1 c2 : Graph.TraversalConfig)
    (seed_table : string) (seed_pks : Graph.pk_set) (row : string * pk_tuple) :
  Graph.exclude_tables c1 = Graph.exclude_tables c2 ->
  Graph.reachable_parent schema c1 seed_table seed_pks row ->
  Graph.reachable_parent schema c2 seed_table seed_pks row.
Proof.
  intros Hex (seed & Hseed & Hrtc). exists seed. split; [done|].
  induction Hrtc as [|x y z Hxy _ IH]; [apply rtc_refl|].
  eapply rtc_l; [|exact IH].
  destruct Hxy as (fk & Hedge & Hnot & Hpk). exists fk.
  split; [done|]. split; [by rewrite <- Hex|done].
Qed.

(** [simple_traverse_up] returns the seed rows and all their ancestors,
    and nothing else, whatever [max_depth] is: the depth bounds only the
    downward steps, and an upward traversal makes none. *)
Theorem simple_traverse_up_collects_ancestors
    (schema : SchemaGraph) {adapter : Graph.DatabaseAdapter}
    (seed_table : string) (seed_pks : Graph.pk_set)
    (U : gset (string * pk_tuple)) (max_depth : Z) (fuel : nat) :
  Graph.fetch_fk_values_pointwise ->
  (forall row,
     Graph.reachable_parent schema (Graph.mkTraversalConfig 0 Graph.UP ∅ [])
       seed_table seed_pks row -> row ∈ U) ->
  2 * size U + 2 <= fuel ->
  exists r,
    Graph.simple_traverse_up schema fuel seed_table seed_pks max_depth = Ok r
    /\ forall t pk,
         pk ∈ Graph.get_records r t
         <-> Graph.reachable_parent schema (Graph.mkTraversalConfig 0 Graph.UP ∅ [])
               seed_table seed_pks (t, pk).
Proof.
  intros Hpoint Hbound Hfuel.
  set (config := Graph.mkTraversalConfig max_depth Graph.UP ∅ []).
  assert (Hbound' : forall row,
            Graph.reachable_parent schema config seed_table seed_pks row -> row ∈ U).
  { intros row Hrow. apply Hbound.
    by apply (reachable_parent_exclude schema config). }
  destruct (initial_upward_up schema config seed_table seed_pks U eq_refl)
    as [Hinit Hpot].
  destruct (loop_upward schema config seed_table seed_pks U Hpoint Hbound' fuel _
              Hinit ltac:(lia)) as (st & Hloop & Hup & Hq).
  exists (Graph.st_result st). split.
  - unfold Graph.simple_traverse_up, Graph.traverse. cbv zeta.
    fold config. rewrite Hloop. reflexivity.
  - intros t pk. split.
    + intros Hpk. destruct Hup as (Hrec & Hreach & _).
      apply (reachable_parent_exclude schema config); [done|].
      apply Hreach. unfold Invariants.seen_up. by rewrite <- Hrec.
    + intros Hreach. destruct Hup as (Hrec & Hrest).
      rewrite Hrec.
      apply (upward_complete schema config seed_table seed_pks st (t, pk));
        [by split|done|].
      by apply (reachable_parent_exclude schema
                  (Graph.mkTraversalConfig 0 Graph.UP ∅ [])).
Qed.

(** *** The calls of an upward traversal *)

Section UpwardCalls.

Variable schema : SchemaGraph.
Variables adapter1 adapter2 : Graph.DatabaseAdapter.
Variable config : Graph.TraversalConfig.

Hypothesis same_fk_values :
  forall table fk pks,
    Graph.fetch_fk_values (DatabaseAdapter := adapter1) table fk pks
    = Graph.fetch_fk_values (DatabaseAdapter := adapter2) table fk pks.

Lemma up_edge_same table pks depth st edge :
  Graph.up_edge (adapter := adapter1) schema table pks depth config st edge
  = Graph.up_edge (adapter := adapter2) schema table pks depth config st edge.
Proof.
  unfold Graph.up_edge. destruct edge as [parent_table fk].
  by rewrite same_fk_values.
Qed.

Lemma traverse_up_same table pks depth st :
  Graph._traverse_up (adapter := adapter1) schema table pks depth config st
  = Graph._traverse_up (adapter := adapter2) schema table pks depth config st.
Proof.
  unfold Graph._traverse_up. apply fold_left_ext_eq.
  intros st0 edge. apply up_edge_same.
Qed.

Lemma up_edge_all_up table pks depth st edge :
  Forall (fun e => Graph.e_tag e = Graph.up) (Graph.queue st) ->
  Forall (fun e => Graph.e_tag e = Graph.up)
    (Graph.queue (Graph.up_edge (adapter := adapter1) schema table pks depth
                    config st edge)).
Proof.
  intros Hall. unfold Graph.up_edge. destruct edge as [parent_table fk].
  repeat (case_bool_decide; [done|]). cbn.
  apply Forall_app. split; [done|]. by constructor.
Qed.

Lemma step_all_up st :
  Forall (fun e => Graph.e_tag e = Graph.up) (Graph.queue st) ->
  Graph.step (adapter := adapter1) schema config st
  = Graph.step (adapter := adapter2) schema config st
  /\ forall st',
       Graph.step (adapter := adapter1) schema config st = Some st' ->
       Forall (fun e => Graph.e_tag e = Graph.up) (Graph.queue st').
Proof.
  intros Hall. unfold Graph.step.
  destruct (Graph.queue st) as [|e rest] eqn:Hq; [done|].
  apply Forall_cons in Hall as [Htag Hrest]. rewrite Htag.
  split; [by rewrite traverse_up_same|].
  intros st' [= <-]. unfold Graph._traverse_up.
  generalize (get_parents schema (Graph.e_table e)).
  set (st1 := {| Graph.st_result := Graph.st_result st;
                 Graph.visited_up := Graph.visited_up st;
                 Graph.visited_down := Graph.visited_down st;
                 Graph.queue := rest |}).
  assert (Hst1 : Forall (fun e => Graph.e_tag e = Graph.up) (Graph.queue st1))
    by done.
  revert Hst1. generalize st1.
  intros st0 Hst0 edges. revert st0 Hst0.
  induction edges as [|edge edges IH]; intros st0 Hst0; [done|].
  cbn [List.fold_left]. apply IH. by apply up_edge_all_up.
Qed.

Lemma loop_all_up : forall fuel st,
  Forall (fun e => Graph.e_tag e = Graph.up) (Graph.queue st) ->
  Graph.loop (adapter := adapter1) schema fuel config st
  = Graph.loop (adapter := adapter2) schema fuel config st.
Proof.
  induction fuel as [|fuel IH]; intros st Hall; cbn [Graph.loop];
    destruct (step_all_up st Hall) as [<- Hnext];
    destruct (Graph.step (adapter := adapter1) schema config st) as [st1|];
    try done.
  apply IH. by apply Hnext.
Qed.

End UpwardCalls.

(** With the direction UP the traversal never asks the adapter for
    referencing rows: two adapters that agree on [fetch_fk_values] and on
    [fetch_all_pks] give the same result, whatever their
    [fetch_referencing_pks] answer. *)
Theorem upward_traversal_never_fetches_children (schema : SchemaGraph)
    (adapter1 adapter2 : Graph.DatabaseAdapter) (config : Graph.TraversalConfig)
    (seed_table : string) (seed_pks : Graph.pk_set) (fuel : nat) :
  Graph.direction config = Graph.UP ->
  (forall table fk pks,
     Graph.fetch_fk_values (DatabaseAdapter := adapter1) table fk pks
     = Graph.fetch_fk_values (DatabaseAdapter := adapter2) table fk pks) ->
  (forall table pk_columns,
     Graph.fetch_all_pks (DatabaseAdapter := adapter1) table pk_columns
     = Graph.fetch_all_pks (DatabaseAdapter := adapter2) table pk_columns) ->
  Graph.traverse (adapter := adapter1) schema fuel seed_table seed_pks config
  = Graph.traverse (adapter := adapter2) schema fuel seed_table seed_pks config.
Proof.
  intros Hdir Hfk Hall. unfold Graph.traverse.
  rewrite (loop_all_up schema adapter1 adapter2 config Hfk fuel).
  - destruct (Graph.loop _ _ _ _) as [st|e]; [|done]. cbn [mbind result_bind].
    f_equal. unfold Graph._process_passthrough_tables.
    apply fold_left_ext_eq. intros r table. unfold Graph.passthrough_table.
    destruct (bool_decide (table ∈ Graph.exclude_tables config)); [done|].
    destruct (negb (has_table schema table)); [done|].
    destruct (get_table schema table) as [table_info|]; [|done].
    by rewrite Hall.
  - cbn. rewrite Hdir. cbn. by repeat constructor.
Qed.

(** *** The adapter over rows held in memory, in both directions *)

Lemma memory_fetch_referencing_pks db fk (pks : Graph.pk_set) child :
  child ∈ Graph.fetch_referencing_pks (DatabaseAdapter := MemoryAdapter.adapter db)
            fk pks
  <-> exists l, l ∈ MemoryAdapter.links db
                /\ MemoryAdapter.l_table l = source_table fk
                /\ MemoryAdapter.l_fk l = fk_name fk
                /\ MemoryAdapter.l_target l ∈ pks
                /\ MemoryAdapter.l_pk l = child.
Proof.
  cbn. rewrite elem_of_list_to_set, list_elem_of_In, List.in_map_iff. split.
  - intros (l & <- & Hl). apply List.filter_In in Hl as [Hl Hcond].
    apply andb_true_iff in Hcond as [Hcond H3].
    apply andb_true_iff in Hcond as [H1 H2].
    apply bool_decide_eq_true_1 in H1, H2, H3.
    exists l. split; [by apply list_elem_of_In|done].
  - intros (l & Hl & H1 & H2 & H3 & <-). exists l. split; [done|].
    apply List.filter_In. split; [by apply list_elem_of_In|].
    rewrite !andb_true_iff. repeat split; by apply bool_decide_eq_true_2.
Qed.

Lemma memory_fetches_within db schema :
  Graph.fetches_within (adapter := MemoryAdapter.adapter db) schema
    (MemoryAdapter.all_rows db schema).
Proof.
  assert (Hin : forall t key,
            t ∈ List.map target_table (edges schema)
                ++ List.map vfk_target_table (virtual_edges schema)
                ++ List.map source_table (edges schema)
                ++ List.map vfk_source_table (virtual_edges schema) ->
            (exists l, l ∈ MemoryAdapter.links db
                       /\ (MemoryAdapter.l_target l = key
                           \/ MemoryAdapter.l_pk l = key)) ->
            (t, key) ∈ MemoryAdapter.all_rows db schema).
  { intros t key Ht (l & Hl & Hkey). unfold MemoryAdapter.all_rows.
    apply elem_of_list_to_set, list_elem_of_In, List.in_flat_map.
    exists t. split; [by apply list_elem_of_In|].
    apply List.in_or_app. apply list_elem_of_In in Hl.
    destruct Hkey as [<-|<-]; [left|right];
      apply List.in_map_iff; by exists l. }
  assert (Hmap : forall {A : Type} (f : A -> string) (l : list A) x,
            x ∈ l -> f x ∈ List.map f l).
  { intros A f l x Hx. apply list_elem_of_In, List.in_map. by apply list_elem_of_In. }
  split.
  - intros table parent_table fk pks pk Hedge Hpk.
    apply get_parents_spec in Hedge as (_ & <- & Hfk).
    apply memory_fetch_fk_values in Hpk as (l & Hl & _ & _ & _ & Htarget).
    apply Hin; [|exists l; split; [done|by left]].
    destruct Hfk as [Hfk|(v & Hv & ->)].
    + apply elem_of_app. left. by apply Hmap.
    + apply elem_of_app. right. apply elem_of_app. left.
      by apply (Hmap _ vfk_target_table).
  - intros table child_table fk pks pk Hedge Hpk.
    apply get_children_spec in Hedge as (<- & _ & Hfk).
    apply memory_fetch_referencing_pks in Hpk as (l & Hl & _ & _ & _ & Hsource).
    apply Hin; [|exists l; split; [done|by right]].
    destruct Hfk as [Hfk|(v & Hv & ->)].
    + apply elem_of_app. right. apply elem_of_app. right.
      apply elem_of_app. left. by apply Hmap.
    + apply elem_of_app. right. apply elem_of_app. right.
      apply elem_of_app. right. by apply (Hmap _ vfk_source_table).
Qed.

Lemma traverse_returns_witness :
  let config := Graph.mkTraversalConfig 3 Graph.BOTH ∅ [] in
  exists r,
    Graph.traverse MemoryAdapter.shop_schema
      (adapter := MemoryAdapter.adapter MemoryAdapter.shop)
      102 "orders" {[MemoryAdapter.key 1]} config = Ok r
    /\ {[MemoryAdapter.key 1]} ⊆ Graph.get_records r "orders".
Proof.
  intros config.
  apply (traverse_returns MemoryAdapter.shop_schema
           (adapter := MemoryAdapter.adapter MemoryAdapter.shop)
           config "orders" {[MemoryAdapter.key 1]}
           (MemoryAdapter.all_rows MemoryAdapter.shop MemoryAdapter.shop_schema)
           102).
  - apply memory_fetches_within.
  - apply Nat.leb_le. vm_compute. reflexivity.
Defined.

Lemma traverse_referentially_closed_witness :
  let config := Graph.mkTraversalConfig 3 Graph.BOTH ∅ [] in
  exists r,
    Graph.traverse MemoryAdapter.shop_schema
      (adapter := MemoryAdapter.adapter MemoryAdapter.shop)
      102 "orders" {[MemoryAdapter.key 1]} config = Ok r
    /\ forall t pk,
         pk ∈ Graph.get_records r t ->
         t ∈ Graph.passthrough_tables config
         \/ (Graph.direction config = Graph.DOWN /\ t = "orders"
             /\ pk ∈ ({[MemoryAdapter.key 1]} : Graph.pk_set))
         \/ forall parent_table fk parent_pk,
              (parent_table, fk) ∈ get_parents MemoryAdapter.shop_schema t ->
              parent_table ∉ Graph.exclude_tables config ->
              parent_pk ∈ Graph.fetch_fk_values
                            (DatabaseAdapter := MemoryAdapter.adapter MemoryAdapter.shop)
                            t fk {[pk]} ->
              parent_pk ∈ Graph.get_records r parent_table.
Proof.
  intros config.
  apply (traverse_referentially_closed MemoryAdapter.shop_schema
           (adapter := MemoryAdapter.adapter MemoryAdapter.shop)
           config "orders" {[MemoryAdapter.key 1]}
           (MemoryAdapter.all_rows MemoryAdapter.shop MemoryAdapter.shop_schema)
           102).
  - apply memory_pointwise.
  - apply memory_fetches_within.
  - apply Nat.leb_le. vm_compute. reflexivity.
Defined.

Lemma simple_traverse_up_collects_ancestors_witness :
  exists r,
    Graph.simple_traverse_up MemoryAdapter.shop_schema
      (adapter := MemoryAdapter.adapter MemoryAdapter.shop)
      40 "order_items" {[MemoryAdapter.key 10]} 1 = Ok r
    /\ forall t pk,
         pk ∈ Graph.get_records r t
         <-> Graph.reachable_parent
               (adapter := MemoryAdapter.adapter MemoryAdapter.shop)
               MemoryAdapter.shop_schema (Graph.mkTraversalConfig 0 Graph.UP ∅ [])
               "order_items" {[MemoryAdapter.key 10]} (t, pk).
Proof.
  apply (simple_traverse_up_collects_ancestors MemoryAdapter.shop_schema
           (adapter := MemoryAdapter.adapter MemoryAdapter.shop)
           "order_items" {[MemoryAdapter.key 10]}
           (MemoryAdapter.universe MemoryAdapter.shop MemoryAdapter.shop_schema
              "order_items" {[MemoryAdapter.key 10]})
           1 40).
  - apply memory_pointwise.
  - apply memory_bounded.
  - apply Nat.leb_le. vm_compute. reflexivity.
Defined.

Lemma upward_traversal_never_fetches_children_witness :
  let config := Graph.mkTraversalConfig 3 Graph.UP ∅ ["products"] in
  Graph.traverse (adapter := MemoryAdapter.adapter MemoryAdapter.shop)
    MemoryAdapter.shop_schema 40 "orders" {[MemoryAdapter.key 1]} config
  = Graph.traverse (adapter := MemoryAdapter.without_children MemoryAdapter.shop)
      MemoryAdapter.shop_schema 40 "orders" {[MemoryAdapter.key 1]} config.
Proof.
  intros config.
  apply (upward_traversal_never_fetches_children MemoryAdapter.shop_schema
           (MemoryAdapter.adapter MemoryAdapter.shop)
           (MemoryAdapter.without_children MemoryAdapter.shop)
           config "orders" {[MemoryAdapter.key 1]} 40); reflexivity.
Defined.

(** *** The depth of the downward steps *)

Section TraversalDepth.

Context (schema : SchemaGraph) {adapter : Graph.DatabaseAdapter}.
Variable config : Graph.TraversalConfig.
Variable seed_table : string.
Variable seed_pks : Graph.pk_set.

Hypothesis pointwise : Graph.fetch_fk_values_pointwise.
Hypothesis pointwise_down : Graph.fetch_referencing_pks_pointwise.

#[local] Abbreviation seen_up := Invariants.seen_up.
#[local] Abbreviation shallow := (Invariants.shallow schema config seed_table seed_pks).
#[local] Abbreviation in_reach :=
  (Graph.in_reach schema config seed_table seed_pks
     (Z.to_nat (Graph.max_depth config))).
#[local] Abbreviation descendant :=
  (Graph.descendant schema config seed_table seed_pks).

Lemma descendant_mono k k' row :
  k <= k' -> descendant k row -> descendant k' row.
Proof.
  intros Hk (seed & n & Hseed & Hn & Hsteps). exists seed, n.
  split; [done|]. split; [lia|done].
Qed.

Lemma descendant_in_reach k row :
  k <= Z.to_nat (Graph.max_depth config) -> descendant k row -> in_reach row.
Proof.
  intros Hk Hd. exists row. split; [by eapply descendant_mono|apply rtc_refl].
Qed.

Lemma up_edge_shallow table pks depth st parent_table fk :
  (forall pk, pk ∈ pks -> in_reach (table, pk)) ->
  (parent_table, fk) ∈ get_parents schema table ->
  shallow st ->
  shallow (Graph.up_edge schema table pks depth config st (parent_table, fk)).
Proof.
  intros Hpks Hedge (Hseen & Hup & Hdown).
  destruct (up_edge_shape schema config table pks depth st parent_table fk)
    as [[-> _]|(Hnex & _ & Hq & Hv & _ & _)]; [done|].
  assert (Hparents : forall pk,
            pk ∈ Graph.fetch_fk_values table fk pks -> in_reach (parent_table, pk)).
  { intros pk Hpk. apply pointwise in Hpk as (child & Hchild & Hpk).
    destruct (Hpks child Hchild) as (mid & Hmid & Hrtc).
    exists mid. split; [done|]. eapply rtc_r; [exact Hrtc|]. by exists fk. }
  split; [|split].
  - intros t pk. unfold Invariants.seen_up. rewrite Hv, get_set_insert.
    destruct (decide (t = parent_table)) as [->|Hne];
      [rewrite bool_decide_eq_true_2 by done
      |rewrite bool_decide_eq_false_2 by done; apply Hseen].
    intros [Hold|Hnew]%elem_of_union; [by apply Hseen|by apply Hparents].
  - intros e He Htag. rewrite Hq in He. apply elem_of_app in He as [He|He];
      [by apply Hup|].
    apply list_elem_of_singleton in He as ->. cbn.
    intros pk Hpk. apply Hparents. by apply elem_of_difference in Hpk as [? _].
  - intros e He Htag. rewrite Hq in He. apply elem_of_app in He as [He|He];
      [by apply Hdown|].
    apply list_elem_of_singleton in He as ->. done.
Qed.

Lemma down_edge_shallow table pks depth st child_table fk :
  (0 <= depth < Graph.max_depth config)%Z ->
  (forall pk, pk ∈ pks -> descendant (Z.to_nat depth) (table, pk)) ->
  (child_table, fk) ∈ get_children schema table ->
  shallow st ->
  shallow (Graph.down_edge schema table pks depth config st (child_table, fk)).
Proof.
  intros Hdepth Hpks Hedge (Hseen & Hup & Hdown).
  destruct (down_edge_shape schema config table pks depth st child_table fk)
    as [->|(Hnex & _ & _ & Hv & _ & Hq)]; [done|].
  assert (Hchildren : forall pk,
            pk ∈ Graph.fetch_referencing_pks fk pks ->
            descendant (Z.to_nat (depth + 1)) (child_table, pk)).
  { intros pk Hpk. apply pointwise_down in Hpk as (parent & Hparent & Hpk).
    destruct (Hpks parent Hparent) as (seed & k & Hseed & Hk & Hsteps).
    exists seed, (S k). split; [done|]. split; [lia|].
    eapply nsteps_r; [exact Hsteps|]. by exists fk. }
  assert (Hreach : forall pk,
            pk ∈ Graph.fetch_referencing_pks fk pks -> in_reach (child_table, pk)).
  { intros pk Hpk. eapply descendant_in_reach; [|by apply Hchildren]. lia. }
  split; [|split].
  - intros t pk. unfold Invariants.seen_up. rewrite Hv.
    destruct (decide (t = child_table)) as [->|Hne];
      [rewrite bool_decide_eq_true_2 by done
      |rewrite bool_decide_eq_false_2 by done; apply Hseen].
    intros [Hold|Hnew]%elem_of_union; [by apply Hseen|].
    apply Hreach. by apply elem_of_difference in Hnew as [? _].
  - intros e He Htag. rewrite Hq in He. apply elem_of_app in He as [He|He];
      [by apply Hup|].
    apply elem_of_app in He as [He|He].
    { apply list_elem_of_singleton in He as ->. done. }
    destruct (bool_decide _) in He; [by apply elem_of_nil in He|].
    apply list_elem_of_singleton in He as ->. cbn.
    intros pk Hpk. apply Hreach.
    apply elem_of_difference in Hpk as [Hpk _].
    by apply elem_of_difference in Hpk as [? _].
  - intros e He Htag. rewrite Hq in He. apply elem_of_app in He as [He|He];
      [by apply Hdown|].
    apply elem_of_app in He as [He|He].
    + apply list_elem_of_singleton in He as ->. cbn. split; [lia|].
      intros pk Hpk. apply Hchildren. by apply elem_of_difference in Hpk as [? _].
    + destruct (bool_decide _) in He; [by apply elem_of_nil in He|].
      apply list_elem_of_singleton in He as ->. done.
Qed.

Lemma step_shallow st st' :
  shallow st -> Graph.step schema config st = Some st' -> shallow st'.
Proof.
  intros (Hseen & Hup & Hdown).
  unfold Graph.step. destruct (Graph.queue st) as [|e rest] eqn:Hq; [done|].
  set (st1 := {| Graph.st_result := Graph.st_result st;
                 Graph.visited_up := Graph.visited_up st;
                 Graph.visited_down := Graph.visited_down st;
                 Graph.queue := rest |}).
  assert (He : e ∈ e :: rest) by (apply elem_of_cons; by left).
  assert (Hrest : forall e', e' ∈ rest -> e' ∈ e :: rest)
    by (intros e' He'; apply elem_of_cons; by right).
  assert (Hst1 : shallow st1).
  { split; [done|].
    split; intros e' He'; [by apply Hup, Hrest|by apply Hdown, Hrest]. }
  intros [= <-]. destruct (Graph.e_tag e) eqn:Htag.
  - unfold Graph._traverse_up.
    assert (Hfold : forall todo st0,
              (forall edge, edge ∈ todo -> edge ∈ get_parents schema (Graph.e_table e)) ->
              shallow st0 ->
              shallow (List.fold_left
                         (Graph.up_edge schema (Graph.e_table e) (Graph.e_pks e)
                            (Graph.e_depth e) config) todo st0)).
    { induction todo as [|[parent_table fk] todo IH]; intros st0 Hsub Hst0;
        [done|].
      cbn [List.fold_left]. apply IH; [intros edge Hin; apply Hsub; by right|].
      apply up_edge_shallow; [by apply Hup|apply Hsub; by left|done]. }
    by apply Hfold.
  - destruct (Graph.max_depth config <=? Graph.e_depth e)%Z eqn:Hmax; [done|].
    apply Z.leb_gt in Hmax. destruct (Hdown e He Htag) as [Hpos Hpks].
    unfold Graph._traverse_down.
    assert (Hfold : forall todo st0,
              (forall edge, edge ∈ todo -> edge ∈ get_children schema (Graph.e_table e)) ->
              shallow st0 ->
              shallow (List.fold_left
                         (Graph.down_edge schema (Graph.e_table e) (Graph.e_pks e)
                            (Graph.e_depth e) config) todo st0)).
    { induction todo as [|[child_table fk] todo IH]; intros st0 Hsub Hst0;
        [done|].
      cbn [List.fold_left]. apply IH; [intros edge Hin; apply Hsub; by right|].
      apply down_edge_shallow; [lia|done|apply Hsub; by left|done]. }
    by apply Hfold.
Qed.

Lemma loop_shallow : forall fuel st st',
  shallow st -> Graph.loop schema fuel config st = Ok st' -> shallow st'.
Proof.
  induction fuel as [|fuel IH]; intros st st' Hs; cbn [Graph.loop];
    destruct (Graph.step schema config st) as [st1|] eqn:Hstep; try done.
  - by intros [= <-].
  - apply IH. by eapply step_shallow.
  - by intros [= <-].
Qed.

Lemma initial_shallow : shallow (Graph.initial seed_table seed_pks config).
Proof.
  assert (Hseed : forall pk, pk ∈ seed_pks -> descendant 0 (seed_table, pk)).
  { intros pk Hpk. exists pk, 0. split; [done|]. split; [done|]. constructor. }
  assert (Hseen : forall t pk,
            seen_up (Graph.initial seed_table seed_pks config) t pk
            -> t = seed_table /\ pk ∈ seed_pks).
  { intros t pk. unfold Invariants.seen_up, Graph.get_set. cbn.
    destruct (decide (t = seed_table)) as [->|Hne].
    - rewrite lookup_singleton_eq. naive_solver.
    - rewrite lookup_singleton_ne by done. set_solver. }
  assert (Hentry : forall e,
            e ∈ Graph.queue (Graph.initial seed_table seed_pks config) ->
            Graph.e_table e = seed_table /\ Graph.e_pks e = seed_pks
            /\ Graph.e_depth e = 0%Z).
  { intros e He. cbn in He.
    destruct (Graph.direction config); cbn in He;
      repeat (apply elem_of_cons in He as [->|He]); try (by apply elem_of_nil in He);
      done. }
  split; [|split].
  - intros t pk Hs. apply Hseen in Hs as [-> Hs].
    eapply descendant_in_reach; [|by apply Hseed]. lia.
  - intros e He Htag pk Hpk. destruct (Hentry e He) as (-> & Hpks & _).
    rewrite Hpks in Hpk.
    eapply descendant_in_reach; [|by apply Hseed]. lia.
  - intros e He Htag. destruct (Hentry e He) as (-> & -> & ->).
    split; [done|]. intros pk Hpk. by apply Hseed.
Qed.

End TraversalDepth.

(** On a finite database, with an adapter that answers for a set of rows
    with what it answers for each of them, every row of the result of
    [traverse] outside the passthrough tables is in reach of the seed
    rows: at most [max_depth] steps down to child rows, then any number of
    steps up to parent rows, through tables that are not excluded.  The
    depth bounds the steps down and not the steps up. *)
Theorem traverse_within_depth (schema : SchemaGraph)
    {adapter : Graph.DatabaseAdapter} (config : Graph.TraversalConfig)
    (seed_table : string) (seed_pks : Graph.pk_set)
    (U : gset (string * pk_tuple)) (fuel : nat) :
  Graph.fetch_fk_values_pointwise ->
  Graph.fetch_referencing_pks_pointwise ->
  Graph.fetches_within schema U ->
  5 * size U + 2 <= fuel ->
  exists r,
    Graph.traverse schema fuel seed_table seed_pks config = Ok r
    /\ forall t pk,
         pk ∈ Graph.get_records r t ->
         t ∈ Graph.passthrough_tables config
         \/ Graph.in_reach schema config seed_table seed_pks
              (Z.to_nat (Graph.max_depth config)) (t, pk).
Proof.
  intros Hpoint Hpoint_down Hwithin Hfuel.
  pose proof (initial_turns config U seed_table seed_pks) as Hinit.
  destruct (loop_returns schema config U Hwithin fuel
              (Graph.initial seed_table seed_pks config) ltac:(lia))
    as (st & n & Hloop & _ & _).
  destruct (loop_closed schema config seed_table seed_pks Hpoint fuel _ st
              (initial_closed schema config seed_table seed_pks Hpoint) Hloop)
    as [(Hrec & _) _].
  pose proof (loop_shallow schema config seed_table seed_pks Hpoint Hpoint_down
                fuel _ st
                (initial_shallow schema config seed_table seed_pks) Hloop)
    as (Hseen & _).
  unfold Graph.traverse. rewrite Hloop. cbn [mbind result_bind].
  eexists. split; [reflexivity|].
  intros t pk Hpk.
  destruct (decide (t ∈ Graph.passthrough_tables config)) as [?|Hnot]; [by left|].
  right.
  rewrite (proj2 (passthrough_records schema _ _ _ t) Hnot) in Hpk.
  rewrite Hrec in Hpk. by apply Hseen.
Qed.

Lemma memory_pointwise_down db :
  Graph.fetch_referencing_pks_pointwise (adapter := MemoryAdapter.adapter db).
Proof.
  intros fk pks child. rewrite memory_fetch_referencing_pks. split.
  - intros (l & Hl & H1 & H2 & H3 & H4). exists (MemoryAdapter.l_target l).
    split; [done|]. apply memory_fetch_referencing_pks. exists l.
    repeat split; try done. by apply elem_of_singleton.
  - intros (pk & Hpk & Hchild).
    apply memory_fetch_referencing_pks in Hchild as (l & Hl & H1 & H2 & H3 & H4).
    apply elem_of_singleton in H3. exists l. repeat split; try done. by rewrite H3.
Qed.

Lemma traverse_within_depth_witness :
  let config := Graph.mkTraversalConfig 1 Graph.BOTH ∅ [] in
  exists r,
    Graph.traverse MemoryAdapter.shop_schema
      (adapter := MemoryAdapter.adapter MemoryAdapter.shop)
      102 "users" {[MemoryAdapter.key 1]} config = Ok r
    /\ forall t pk,
         pk ∈ Graph.get_records r t ->
         t ∈ Graph.passthrough_tables config
         \/ Graph.in_reach (adapter := MemoryAdapter.adapter MemoryAdapter.shop)
              MemoryAdapter.shop_schema config "users" {[MemoryAdapter.key 1]}
              (Z.to_nat (Graph.max_depth config)) (t, pk).
Proof.
  intros config.
  apply (traverse_within_depth MemoryAdapter.shop_schema
           (adapter := MemoryAdapter.adapter MemoryAdapter.shop)
           config "users" {[MemoryAdapter.key 1]}
           (MemoryAdapter.all_rows MemoryAdapter.shop MemoryAdapter.shop_schema)
           102).
  - apply memory_pointwise.
  - apply memory_pointwise_down.
  - apply memory_fetches_within.
  - apply Nat.leb_le. vm_compute. reflexivity.
Defined.

(** ** The search finds a cycle when there is one *)

Section DepthFirstSearchComplete.

Variable dependencies : list (string * list string).

#[local] Abbreviation depends := (Invariants.depends dependencies).
#[local] Abbreviation finished := (Invariants.finished dependencies).
#[local] Abbreviation deps_get := (Cycles.deps_get dependencies).

(** Everything a finished table depends on, directly or not, was finished
    before it. *)
Lemma finished_before rec_stack st fin x w :
  finished rec_stack st fin ->
  tc depends x w ->
  forall l1 l2, fin = l1 ++ x :: l2 -> w ∈ l1.
Proof.
  intros [_ Hord] Htc. induction Htc as [x w Hedge|x v w Hedge _ IH];
    intros l1 l2 Hfin.
  - by eapply Hord.
  - pose proof (Hord l1 x l2 Hfin v Hedge) as Hv.
    apply list_elem_of_split in Hv as (a & b & ->).
    rewrite <- app_assoc in Hfin. cbn in Hfin.
    specialize (IH a _ Hfin). apply elem_of_app. by left.
Qed.

Lemma finished_acyclic rec_stack st fin x :
  finished rec_stack st fin -> x ∈ fin -> ~ tc depends x x.
Proof.
  intros Hfin Hx Htc.
  assert (exists l1 l2, fin = l1 ++ x :: l2 /\ x ∉ l1) as (l1 & l2 & Heq & Hnot).
  { clear -Hx. induction fin as [|y fin IH]; [by apply elem_of_nil in Hx|].
    destruct (decide (x = y)) as [->|Hne].
    - exists [], fin. split; [done|]. apply not_elem_of_nil.
    - apply elem_of_cons in Hx as [?|Hx]; [done|].
      destruct (IH Hx) as (l1 & l2 & -> & Hnot).
      exists (y :: l1), l2. split; [done|].
      intros [?|?]%elem_of_cons; done. }
  apply Hnot. by eapply finished_before.
Qed.

Lemma fold_left_raise_dfs {B : Type} (f : Cycles.dfs_state -> B -> result Cycles.dfs_state)
    (l : list B) e :
  List.fold_left (fun acc x => a ← acc; f a x) l (Raise e) = Raise e.
Proof. induction l as [|x l IH]; cbn; [done|exact IH]. Qed.

Lemma dfs_finishes : forall fuel node rec_stack st st',
  Cycles.dfs fuel dependencies node rec_stack st = Ok st' ->
  (forall x, x ∈ Cycles.visited st -> x ∈ Cycles.visited st')
  /\ (Cycles.cycles st' = [] ->
      Cycles.cycles st = []
      /\ forall fin, finished rec_stack st fin ->
           exists more, finished rec_stack st' (fin ++ more) /\ node ∈ fin ++ more).
Proof.
  induction fuel as [|fuel IH]; intros node rec_stack st st';
    cbn [Cycles.dfs]; [discriminate|].
  case_bool_decide as Hin.
  { intros [= <-]. cbn. split; [done|]. intros H. by apply app_eq_nil in H as [_ ?]. }
  case_bool_decide as Hvis.
  { intros [= <-]. split; [done|]. intros Hc. split; [done|].
    intros fin Hfin. exists []. rewrite app_nil_r. split; [done|].
    by apply Hfin. }
  set (st0 := {| Cycles.cycles := Cycles.cycles st;
                 Cycles.visited := {[node]} ∪ Cycles.visited st |}).
  assert (Hloop : forall neighbors st1 st2,
            List.fold_left
              (fun acc neighbor =>
                 st' ← acc;
                 Cycles.dfs fuel dependencies neighbor (rec_stack ++ [node]) st')
              neighbors (Ok st1) = Ok st2 ->
            (forall x, x ∈ Cycles.visited st1 -> x ∈ Cycles.visited st2)
            /\ (Cycles.cycles st2 = [] ->
                Cycles.cycles st1 = []
                /\ forall fin, finished (rec_stack ++ [node]) st1 fin ->
                     exists more,
                       finished (rec_stack ++ [node]) st2 (fin ++ more)
                       /\ forall n, n ∈ neighbors -> n ∈ fin ++ more)).
  { induction neighbors as [|n neighbors IHn]; intros st1 st2;
      cbn [List.fold_left mbind result_bind].
    - intros [= <-]. split; [done|]. intros Hc. split; [done|].
      intros fin Hfin. exists []. rewrite app_nil_r. split; [done|].
      intros n Hn. by apply elem_of_nil in Hn.
    - destruct (Cycles.dfs fuel dependencies n (rec_stack ++ [node]) st1)
        as [st3|e] eqn:Hdfs; [|by rewrite fold_left_raise_dfs].
      intros Hrest.
      destruct (IH _ _ _ _ Hdfs) as [Hmono1 Hfin1].
      destruct (IHn _ _ Hrest) as [Hmono2 Hfin2].
      split; [intros x Hx; by apply Hmono2, Hmono1|].
      intros Hc. destruct (Hfin2 Hc) as [Hc3 Hnext].
      destruct (Hfin1 Hc3) as [Hc1 Hfirst]. split; [done|].
      intros fin Hfin.
      destruct (Hfirst fin Hfin) as (more1 & Hf1 & Hn1).
      destruct (Hnext _ Hf1) as (more2 & Hf2 & Hn2).
      exists (more1 ++ more2). rewrite app_assoc. split; [done|].
      intros m Hm. apply elem_of_cons in Hm as [->|Hm]; [|by apply Hn2].
      apply elem_of_app. by left. }
  intros Hfold. destruct (Hloop _ _ _ Hfold) as [Hmono Hfin].
  split.
  { intros x Hx. apply Hmono. cbn. apply elem_of_union. by right. }
  intros Hc. destruct (Hfin Hc) as [Hc0 Hnext]. split; [done|].
  intros fin [Hmem Hord].
  destruct (Hnext fin) as (more & [Hmem' Hord'] & Hneighbors).
  { split; [|done]. intros u. rewrite Hmem. cbn. split.
    - intros [Hu Hnot]. split; [apply elem_of_union; by right|].
      intros [?|Hu']%elem_of_app; [done|].
      apply list_elem_of_singleton in Hu' as ->. done.
    - intros [Hu Hnot]. rewrite elem_of_app, list_elem_of_singleton in Hnot.
      apply elem_of_union in Hu as [Hu|Hu].
      + apply elem_of_singleton in Hu. tauto.
      + tauto. }
  exists (more ++ [node]). rewrite app_assoc. split.
  - split.
    + intros u. rewrite elem_of_app, list_elem_of_singleton, Hmem'.
      rewrite elem_of_app, list_elem_of_singleton. split.
      * intros [[Hu Hnot]| ->]; [tauto|]. split; [|done].
        apply Hmono. cbn. apply elem_of_union. left. by apply elem_of_singleton.
      * intros [Hu Hnot]. destruct (decide (u = node)); tauto.
    + intros l1 u l2 Heq v Hv.
      destruct l2 as [|z l2 _] using rev_ind.
      * apply app_inj_tail in Heq as [<- <-]. apply Hneighbors. exact Hv.
      * rewrite app_comm_cons, app_assoc in Heq.
        apply app_inj_tail in Heq as [Heq _]. by eapply Hord'.
  - apply elem_of_app. right. by apply list_elem_of_singleton.
Qed.

(** When no cycle is recorded, every table of the dictionary is finished
    at the end. *)
Lemma find_cycles_dfs_finishes :
  Cycles.find_cycles_dfs dependencies = Ok [] ->
  exists st fin,
    finished [] st fin /\ forall n, n ∈ List.map fst dependencies -> n ∈ fin.
Proof.
  unfold Cycles.find_cycles_dfs.
  assert (Hloop : forall nodes st1 st2,
            List.fold_left
              (fun acc node =>
                 st ← acc;
                 if bool_decide (node ∈ Cycles.visited st) then Ok st
                 else Cycles.dfs (S (S (length (Cycles.all_nodes dependencies))))
                        dependencies node [] st)
              nodes (Ok st1) = Ok st2 ->
            Cycles.cycles st2 = [] ->
            Cycles.cycles st1 = []
            /\ forall fin, finished [] st1 fin ->
                 exists more,
                   finished [] st2 (fin ++ more)
                   /\ forall n, n ∈ nodes -> n ∈ fin ++ more).
  { induction nodes as [|n nodes IHn]; intros st1 st2;
      cbn [List.fold_left mbind result_bind].
    - intros [= <-] Hc. split; [done|].
      intros fin Hfin. exists []. rewrite app_nil_r. split; [done|].
      intros n Hn. by apply elem_of_nil in Hn.
    - case_bool_decide as Hvis.
      + intros Hrest Hc. destruct (IHn _ _ Hrest Hc) as [Hc1 Hnext].
        split; [done|]. intros fin Hfin.
        destruct (Hnext fin Hfin) as (more & Hf & Hn). exists more.
        split; [done|]. intros m Hm.
        apply elem_of_cons in Hm as [->|Hm]; [|by apply Hn].
        apply elem_of_app. left. apply Hfin. split; [done|apply not_elem_of_nil].
      + destruct (Cycles.dfs _ dependencies n [] st1) as [st3|e] eqn:Hdfs;
          [|by rewrite fold_left_raise_dfs].
        intros Hrest Hc. destruct (IHn _ _ Hrest Hc) as [Hc3 Hnext].
        destruct (dfs_finishes _ _ _ _ _ Hdfs) as [_ Hfin1].
        destruct (Hfin1 Hc3) as [Hc1 Hfirst]. split; [done|].
        intros fin Hfin.
        destruct (Hfirst fin Hfin) as (more1 & Hf1 & Hn1).
        destruct (Hnext _ Hf1) as (more2 & Hf2 & Hn2).
        exists (more1 ++ more2). rewrite app_assoc. split; [done|].
        intros m Hm. apply elem_of_cons in Hm as [->|Hm]; [|by apply Hn2].
        apply elem_of_app. by left. }
  match goal with
  | |- (st ← ?loop; _) = _ -> _ => destruct loop as [st|e] eqn:Hfold
  end; cbn; [|discriminate].
  intros [= Hc]. destruct (Hloop _ _ _ Hfold Hc) as [_ Hnext].
  destruct (Hnext []) as (more & Hf & Hn).
  { split.
    - intros u. split; [by intros H%elem_of_nil|]. cbn. intros [H _].
      by apply elem_of_empty in H.
    - intros l1 u l2 Heq. by destruct l1. }
  exists st, more. done.
Qed.

(** A table that depends on something is a key of the dictionary. *)
Lemma depends_key x y : depends x y -> x ∈ List.map fst dependencies.
Proof.
  unfold Invariants.depends, Cycles.deps_get.
  destruct (List.find _ dependencies) as [[k deps]|] eqn:Hfind;
    [|by intros H%elem_of_nil].
  intros _. apply List.find_some in Hfind as [Hin Hk].
  apply bool_decide_eq_true_1 in Hk. cbn in Hk. subst k.
  apply list_elem_of_In, List.in_map_iff. by exists (x, deps).
Qed.

(** The path of a recorded cycle leads from its first table back to it. *)
Lemma good_cycle_tc cycle :
  Invariants.good_cycle dependencies cycle ->
  exists x, tc depends x x.
Proof.
  intros (_ & Hne & Hedges). destruct cycle as [|x rest]; [done|].
  exists x. unfold Cycles.cycle_edges in Hedges. cbn [List.tl firstn] in Hedges.
  assert (Hpath : forall l a z,
            (forall p q, (p, q) ∈ List.combine (a :: l) (l ++ [z]) -> depends p q) ->
            tc depends a z).
  { induction l as [|b l IH]; intros a z Hall.
    - apply tc_once. apply Hall. cbn. by left.
    - eapply tc_l.
      + apply Hall. cbn. by left.
      + apply IH. intros p q Hpq. apply Hall. cbn. by right. }
  apply (Hpath rest x x). intros p q Hpq. by apply Hedges.
Qed.

End DepthFirstSearchComplete.

(** [find_cycles_dfs] returns at least one cycle exactly when the
    dependencies have one: when some table depends on itself, directly or
    through other tables. *)
Theorem find_cycles_dfs_detects_cycles (dependencies : list (string * list string)) :
  (exists x, tc (Invariants.depends dependencies) x x)
  <-> exists cycle cycles,
        Cycles.find_cycles_dfs dependencies = Ok (cycle :: cycles).
Proof.
  split.
  - intros (x & Htc).
    destruct (find_cycles_dfs_total dependencies) as [[|cycle cycles] Hfind];
      [|by exists cycle, cycles].
    exfalso.
    destruct (find_cycles_dfs_finishes dependencies Hfind) as (st & fin & Hfin & Hkeys).
    apply (finished_acyclic dependencies [] st fin x Hfin); [|done].
    apply Hkeys.
    assert (exists y, Invariants.depends dependencies x y) as [y Hy].
    { inversion Htc as [a b Hedge|a b c Hedge Hrest]; subst; by eexists. }
    by eapply depends_key.
  - intros (cycle & cycles & Hfind).
    apply find_cycles_dfs_good in Hfind.
    apply Forall_cons in Hfind as [Hgood _].
    by eapply good_cycle_tc.
Qed.
(** ** Batched fetches of foreign-key values and referencing rows *)

Section BatchedFetch.

#[local] Abbreviation batches_of := PostgreSQLAdapter.batches_of.
#[local] Abbreviation effective_batch_size := PostgreSQLAdapter.effective_batch_size.
#[local] Abbreviation distinct_query := PostgreSQLAdapter.distinct_query.
#[local] Abbreviation answers_each_key := PostgreSQLAdapter.answers_each_key.
#[local] Abbreviation without_none := PostgreSQLAdapter.without_none.

(** The batches of a positive size, put end to end, are the identities. *)
Lemma batches_of_concat {A : Type} (ebs : Z) (l : list A) :
  (0 < ebs)%Z ->
  exists batches, batches_of ebs l = Ok batches /\ List.concat batches = l.
Proof.
  intros Hpos. rewrite batches_of_pos by done. eexists. split; [reflexivity|].
  apply chunks_concat; [lia|].
  pose proof (ceil_div_bounds (Z.of_nat (length l)) ebs Hpos ltac:(lia)) as [Hle _].
  apply Nat2Z.inj_le. rewrite Nat2Z.inj_mul, !Z2Nat.id; [done|lia|].
  apply Z.div_pos; lia.
Qed.

(** No batch of a known size raises while its query is built. *)
Lemma distinct_query_returns select_cols table key_cols batch :
  (length key_cols = 1 -> Forall (fun key : pk_tuple => key <> []) batch) ->
  exists q, distinct_query select_cols table key_cols batch = Ok q.
Proof.
  intros Hkeys. unfold PostgreSQLAdapter.distinct_query.
  destruct key_cols as [|col [|col' rest]]; try by eexists.
  destruct (mapM_result_total PostgreSQLAdapter.first_component batch) as [vals Hvals].
  { eapply Forall_impl; [exact (Hkeys eq_refl)|].
    intros [|v key] Hne; [done|]. by exists v. }
  rewrite Hvals. cbn. by eexists.
Qed.

Variable execute : PostgreSQLAdapter.query -> result (list pk_tuple).
Variables (select_cols : list string) (table : string) (key_cols : list string).
Variable answer : pk_tuple -> list pk_tuple.
Variable keep : list pk_tuple -> list pk_tuple.
Variable kept : pk_tuple -> Prop.

Hypothesis answers : answers_each_key execute select_cols table key_cols answer.
Hypothesis keep_spec : forall rows row, row ∈ keep rows <-> row ∈ rows /\ kept row.

Lemma fold_batches (batches : list (list pk_tuple)) (found : gset pk_tuple) :
  (length key_cols = 1 ->
   Forall (fun key : pk_tuple => key <> []) (List.concat batches)) ->
  exists fetched,
    List.fold_left
      (fun (acc : result (gset pk_tuple)) (batch_pks : list pk_tuple) =>
         result ← acc;
         q ← distinct_query select_cols table key_cols batch_pks;
         rows ← execute q;
         Ok (result ∪ list_to_set (keep rows)))
      batches (Ok found) = Ok fetched
    /\ forall row, row ∈ fetched
         <-> row ∈ found
             \/ kept row /\ exists key, key ∈ List.concat batches /\ row ∈ answer key.
Proof.
  revert found. induction batches as [|batch batches IH]; intros found Hkeys.
  - exists found. split; [done|]. intros row. split; [by left|].
    intros [?|(_ & key & Hin & _)]; [done|]. by apply elem_of_nil in Hin.
  - cbn [List.concat] in *.
    destruct (distinct_query_returns select_cols table key_cols batch) as [q Hq].
    { intros Hone. specialize (Hkeys Hone). by apply Forall_app in Hkeys as [? _]. }
    destruct (answers batch q Hq) as (rows & Hrows & Hspec).
    cbn [List.fold_left]. rewrite Hq. cbn. rewrite Hrows. cbn.
    destruct (IH (found ∪ list_to_set (keep rows))) as (fetched & Hfold & Hres).
    { intros Hone. specialize (Hkeys Hone). by apply Forall_app in Hkeys as [_ ?]. }
    exists fetched. split; [exact Hfold|]. intros row. rewrite Hres.
    rewrite elem_of_union, elem_of_list_to_set, keep_spec, Hspec.
    setoid_rewrite elem_of_app. naive_solver.
Qed.

End BatchedFetch.

Lemma without_none_spec (rows : list pk_tuple) (row : pk_tuple) :
  row ∈ List.filter PostgreSQLAdapter.without_none rows <-> row ∈ rows /\ PNone ∉ row.
Proof.
  rewrite !list_elem_of_In, filter_In, <- !list_elem_of_In.
  unfold PostgreSQLAdapter.without_none. rewrite negb_true_iff, bool_decide_eq_false.
  done.
Qed.

(** fetch_fk_values: when the database answers a batch with the rows of its
    keys, a positive effective batch size gives the foreign-key values of
    the rows of the given identities, without those holding a NULL; the
    result does not depend on the batch size or on the order in which the
    set is enumerated. *)
Theorem fetch_fk_values_batching_transparent
    (execute : PostgreSQLAdapter.query -> result (list pk_tuple))
    (schema : SchemaGraph) (batch_size : Z) (table : string) (fk : ForeignKey)
    (source_table : Table) (answer : pk_tuple -> list pk_tuple)
    (source_pk_values : list pk_tuple) :
  get_table schema table = Some source_table ->
  (0 < PostgreSQLAdapter.effective_batch_size batch_size (primary_key source_table))%Z ->
  (length (primary_key source_table) = 1 ->
   Forall (fun key : pk_tuple => key <> []) source_pk_values) ->
  PostgreSQLAdapter.answers_each_key execute (source_columns fk) table
    (primary_key source_table) answer ->
  exists fetched,
    PostgreSQLAdapter.fetch_fk_values execute schema batch_size table fk
      source_pk_values = Ok fetched
    /\ forall row, row ∈ fetched
         <-> PNone ∉ row /\ exists key, key ∈ source_pk_values /\ row ∈ answer key.
Proof.
  intros Htable Hpos Hkeys Hanswers. unfold PostgreSQLAdapter.fetch_fk_values.
  destruct source_pk_values as [|key0 keys0] eqn:Hl.
  { exists ∅. split; [done|]. intros row. split; [set_solver|].
    intros (_ & key & Hin & _). by apply elem_of_nil in Hin. }
  rewrite <- Hl in *. clear Hl. rewrite Htable. cbn zeta.
  destruct (batches_of_concat
              (PostgreSQLAdapter.effective_batch_size batch_size (primary_key source_table))
              source_pk_values Hpos) as (batches & -> & Hcat).
  cbn.
  destruct (fold_batches execute (source_columns fk) table (primary_key source_table)
              answer (List.filter PostgreSQLAdapter.without_none) (fun row => PNone ∉ row)
              Hanswers without_none_spec batches ∅) as (fetched & Hfold & Hres).
  { by rewrite Hcat. }
  exists fetched. split; [exact Hfold|]. intros row. rewrite Hres, Hcat. set_solver.
Qed.

(** fetch_referencing_pks: under the same reading of the database, a
    positive effective batch size gives the primary keys of the rows that
    reference one of the given identities, whatever the batch size and the
    enumeration order; a source table without primary key gives the empty
    set without a query. *)
Theorem fetch_referencing_pks_batching_transparent
    (execute : PostgreSQLAdapter.query -> result (list pk_tuple))
    (schema : SchemaGraph) (batch_size : Z) (fk : ForeignKey)
    (table_info : Table) (answer : pk_tuple -> list pk_tuple)
    (target_pk_values : list pk_tuple) :
  get_table schema (source_table fk) = Some table_info ->
  (0 < PostgreSQLAdapter.effective_batch_size batch_size (source_columns fk))%Z ->
  (length (source_columns fk) = 1 ->
   Forall (fun key : pk_tuple => key <> []) target_pk_values) ->
  PostgreSQLAdapter.answers_each_key execute (primary_key table_info) (source_table fk)
    (source_columns fk) answer ->
  exists fetched,
    PostgreSQLAdapter.fetch_referencing_pks execute schema batch_size fk
      target_pk_values = Ok fetched
    /\ forall row, row ∈ fetched
         <-> primary_key table_info <> []
             /\ exists key, key ∈ target_pk_values /\ row ∈ answer key.
Proof.
  intros Htable Hpos Hkeys Hanswers. unfold PostgreSQLAdapter.fetch_referencing_pks.
  destruct target_pk_values as [|key0 keys0] eqn:Hl.
  { exists ∅. split; [done|]. intros row. split; [set_solver|].
    intros (_ & key & Hin & _). by apply elem_of_nil in Hin. }
  rewrite <- Hl in *. clear Hl. rewrite Htable. cbn zeta.
  destruct (primary_key table_info) as [|pk_col pk_cols] eqn:Hpk.
  { exists ∅. split; [done|]. intros row. split; [set_solver|]. by intros [? _]. }
  destruct (batches_of_concat
              (PostgreSQLAdapter.effective_batch_size batch_size (source_columns fk))
              target_pk_values Hpos) as (batches & -> & Hcat).
  cbn.
  destruct (fold_batches execute (pk_col :: pk_cols) (source_table fk) (source_columns fk)
              answer (fun rows => rows) (fun _ => True)
              Hanswers ltac:(naive_solver) batches ∅) as (fetched & Hfold & Hres).
  { by rewrite Hcat. }
  exists fetched. split; [exact Hfold|]. intros row. rewrite Hres, Hcat. set_solver.
Qed.

(** A batch size below the number of key columns makes the effective batch
    size 0 and [range()] raises ValueError before any query; a negative one
    makes the range empty, so that nothing is queried and nothing returned. *)
Theorem fetch_by_pk_degenerate_batch_size
    (execute : PostgreSQLAdapter.query -> list row + string)
    (batch_size : Z) (table : string) (pk_columns : list string)
    (pk_values_list : list pk_tuple) :
  pk_values_list <> [] ->
  (batch_size < Z.max (Z.of_nat (length pk_columns)) 1)%Z ->
  PostgreSQLAdapter.fetch_by_pk execute batch_size table pk_columns pk_values_list
  = if (0 <=? batch_size)%Z
    then Raise (ValueError "range() arg 3 must not be zero")
    else Ok [].
Proof.
  intros Hne Hsmall.
  unfold PostgreSQLAdapter.fetch_by_pk, PostgreSQLAdapter.fetch_by_pk_queries.
  destruct pk_values_list as [|pk0 pks]; [done|].
  unfold PostgreSQLAdapter.batches_of, PostgreSQLAdapter.py_range0,
    PostgreSQLAdapter.effective_batch_size.
  set (arity := Z.max (Z.of_nat (length pk_columns)) 1) in *.
  assert (0 < arity)%Z by lia.
  destruct (Z.leb_spec 0 batch_size) as [Hnonneg|Hneg].
  - rewrite Z.div_small by lia. done.
  - assert (batch_size / arity < 0)%Z by (apply Z.div_lt_upper_bound; lia).
    destruct (Z.eqb_spec (batch_size / arity) 0) as [?|_]; [lia|].
    destruct (Z.ltb_spec (batch_size / arity) 0) as [_|?]; [|lia]. done.
Qed.

(** The in-memory cursor answers a single-column batch with what it holds
    for each key. *)
Lemma memory_cursor_answers (answer : pk_tuple -> list pk_tuple)
    (select_cols : list string) (table key_col : string) :
  (forall v rest, answer (v :: rest) = answer [v]) ->
  PostgreSQLAdapter.answers_each_key (MemoryAdapter.cursor answer)
    select_cols table [key_col] answer.
Proof.
  intros Hfirst batch q. unfold PostgreSQLAdapter.distinct_query.
  destruct (mapM_result PostgreSQLAdapter.first_component batch) as [vals|e] eqn:Hvals;
    cbn; [|discriminate].
  intros [= <-]. eexists. split; [reflexivity|]. cbn.
  apply mapM_result_Forall2 in Hvals.
  intros row. rewrite list_elem_of_In, in_flat_map. split.
  - intros (v & Hv & Hrow). apply list_elem_of_In in Hv, Hrow.
    destruct (proj1 (list_elem_of_lookup _ _) Hv) as [i Hi].
    destruct (Forall2_lookup_r _ _ _ _ _ Hvals Hi) as (key & Hkey & Hfc).
    exists key. split; [by eapply list_elem_of_lookup_2|].
    destruct key as [|v' rest]; [discriminate|]. injection Hfc as ->.
    by rewrite Hfirst.
  - intros (key & Hkey & Hrow).
    destruct (proj1 (list_elem_of_lookup _ _) Hkey) as [i Hi].
    destruct (Forall2_lookup_l _ _ _ _ _ Hvals Hi) as (v & Hv & Hfc).
    exists v. split; [apply list_elem_of_In; by eapply list_elem_of_lookup_2|].
    destruct key as [|v' rest]; [discriminate|]. injection Hfc as ->.
    apply list_elem_of_In. by rewrite <- (Hfirst v rest).
Qed.

Lemma fetch_fk_values_batching_transparent_witness :
  exists fetched,
    PostgreSQLAdapter.fetch_fk_values
      (MemoryAdapter.cursor (MemoryAdapter.fk_answer MemoryAdapter.shop MemoryAdapter.orders_user))
      MemoryAdapter.shop_schema 1 "orders" MemoryAdapter.orders_user
      [MemoryAdapter.key 1; MemoryAdapter.key 2] = Ok fetched
    /\ forall row, row ∈ fetched
         <-> PNone ∉ row
             /\ exists key, key ∈ [MemoryAdapter.key 1; MemoryAdapter.key 2]
                  /\ row ∈ MemoryAdapter.fk_answer MemoryAdapter.shop
                             MemoryAdapter.orders_user key.
Proof.
  apply (fetch_fk_values_batching_transparent
           (MemoryAdapter.cursor
              (MemoryAdapter.fk_answer MemoryAdapter.shop MemoryAdapter.orders_user))
           MemoryAdapter.shop_schema 1 "orders" MemoryAdapter.orders_user
           (Examples.id_table "orders"
              [MemoryAdapter.orders_user; MemoryAdapter.items_order;
               MemoryAdapter.items_product])).
  - vm_compute. reflexivity.
  - vm_compute. reflexivity.
  - intros _. repeat constructor; discriminate.
  - apply memory_cursor_answers. reflexivity.
Defined.

Lemma fetch_referencing_pks_batching_transparent_witness :
  exists fetched,
    PostgreSQLAdapter.fetch_referencing_pks
      (MemoryAdapter.cursor
         (MemoryAdapter.referencing_answer MemoryAdapter.shop MemoryAdapter.items_order))
      MemoryAdapter.shop_schema 1 MemoryAdapter.items_order
      [MemoryAdapter.key 1; MemoryAdapter.key 2] = Ok fetched
    /\ forall row, row ∈ fetched
         <-> primary_key
               (Examples.id_table "order_items"
                  [MemoryAdapter.orders_user; MemoryAdapter.items_order;
                   MemoryAdapter.items_product]) <> []
             /\ exists key, key ∈ [MemoryAdapter.key 1; MemoryAdapter.key 2]
                  /\ row ∈ MemoryAdapter.referencing_answer MemoryAdapter.shop
                             MemoryAdapter.items_order key.
Proof.
  apply (fetch_referencing_pks_batching_transparent
           (MemoryAdapter.cursor
              (MemoryAdapter.referencing_answer MemoryAdapter.shop
                 MemoryAdapter.items_order))
           MemoryAdapter.shop_schema 1 MemoryAdapter.items_order
           (Examples.id_table "order_items"
              [MemoryAdapter.orders_user; MemoryAdapter.items_order;
               MemoryAdapter.items_product])).
  - vm_compute. reflexivity.
  - vm_compute. reflexivity.
  - intros _. repeat constructor; discriminate.
  - apply memory_cursor_answers. reflexivity.
Defined.

Lemma fetch_by_pk_degenerate_batch_size_witness :
  PostgreSQLAdapter.fetch_by_pk (fun _ => inl []) 1 "order_items"
    ["order_id"; "line_no"] [[PInt 1; PInt 1]]
  = Raise (ValueError "range() arg 3 must not be zero").
Proof.
  apply (fetch_by_pk_degenerate_batch_size (fun _ => inl []) 1 "order_items"
           ["order_id"; "line_no"] [[PInt 1; PInt 1]]).
  - discriminate.
  - vm_compute. reflexivity.
Defined.
(** ** Identifiers and seed specifications *)

Lemma append_nil_l (s : string) : "" +:+ s = s.
Proof. reflexivity. Qed.

Section StarOfClass.

Context {A : Type}.
Variable p : ascii -> bool.
Variable k : string -> option A.

(** A starred character class followed by a test on the rest: some prefix
    of class characters leaves a rest that passes. *)
Lemma star_class_matches (s : string) (prev : option ascii) :
  is_Some (Re.m (Re.Star (Re.Chr p)) prev s (fun _ rest => k rest))
  <-> exists body rest,
        s = body +:+ rest /\ PyStr.all_chars p body = true /\ is_Some (k rest).
Proof.
  revert prev. induction s as [|c s IH]; intros prev.
  - cbn. split.
    + intros Hk. exists "", "". done.
    + intros (body & rest & Heq & _ & Hk). destruct body; [|by rewrite append_cons in Heq].
      rewrite ?append_nil_l, ?append_cons in Heq. by subst rest.
  - cbn -[Nat.ltb]. destruct (p c) eqn:Hpc.
    + replace (String.length s <? S (String.length s)) with true
        by (symmetry; apply Nat.ltb_lt; lia).
      match goal with
      | |- is_Some (match ?x with Some y => _ | None => _ end) <-> _ =>
          change x with (Re.m (Re.Star (Re.Chr p)) (Some c) s (fun _ rest => k rest));
          destruct (Re.m (Re.Star (Re.Chr p)) (Some c) s (fun _ rest => k rest))
            as [x0|] eqn:Hrec
      end.
      * split; [intros _|by eexists].
        destruct (proj1 (IH (Some c)) ltac:(by rewrite Hrec))
          as (body & rest & -> & Hbody & Hk).
        exists (String c body), rest. cbn. by rewrite Hpc, Hbody.
      * split.
        -- intros Hk. exists "", (String c s). done.
        -- intros (body & rest & Heq & Hbody & Hk).
           destruct body as [|c' body]; rewrite ?append_nil_l, ?append_cons in Heq; [by subst rest|].
           injection Heq as <- ->. cbn in Hbody. rewrite Hpc in Hbody. cbn in Hbody.
           assert (is_Some (Re.m (Re.Star (Re.Chr p)) (Some c) (body +:+ rest)
                              (fun _ rest => k rest))) as Hs.
           { apply IH. by exists body, rest. }
           rewrite Hrec in Hs. by destruct Hs.
    + split.
      * intros Hk. exists "", (String c s). done.
      * intros (body & rest & Heq & Hbody & Hk).
        destruct body as [|c' body]; rewrite ?append_nil_l, ?append_cons in Heq; [by subst rest|].
        injection Heq as <- ->. cbn in Hbody. by rewrite Hpc in Hbody.
Qed.

End StarOfClass.

Lemma at_dollar_cases (rest : string) :
  InputValidators.at_dollar rest = true
  <-> rest = "" \/ rest = InputValidators.newline.
Proof.
  unfold InputValidators.at_dollar.
  rewrite orb_true_iff, !bool_decide_eq_true. done.
Qed.

Lemma m_seq_chr {A : Type} (p : ascii -> bool) (r : Re.regex) (prev : option ascii)
    (c : ascii) (s : string) (k : option ascii -> string -> option A) :
  Re.m (Re.Seq (Re.Chr p) r) prev (String c s) k
  = if p c then Re.m r (Some c) s k else None.
Proof. reflexivity. Qed.

(** The pattern accepts a well-formed name and such a name followed by one
    newline, and nothing else. *)
Lemma pattern_match_iff (identifier : string) :
  InputValidators.pattern_match identifier = true
  <-> exists body,
        (identifier = body \/ identifier = body +:+ InputValidators.newline)
        /\ InputValidators.well_formed body = true.
Proof.
  unfold InputValidators.pattern_match, InputValidators.IDENTIFIER_PATTERN.
  pose (k := fun rest : string =>
               if InputValidators.at_dollar rest then Some tt else None).
  assert (Hk : forall rest, is_Some (k rest) <-> rest = "" \/ rest = InputValidators.newline).
  { intros rest. unfold k. rewrite <- at_dollar_cases.
    destruct (InputValidators.at_dollar rest); split; intros H;
      first [done | by eexists | by destruct H]. }
  change (fun (_ : option ascii) (rest : string) =>
            if InputValidators.at_dollar rest then Some tt else None)
    with (fun (_ : option ascii) (rest : string) => k rest).
  clearbody k.
  destruct identifier as [|c s].
  - cbn. split; [done|]. intros (body & Hshape & Hwf).
    destruct body as [|c' body]; [by cbn in Hwf|].
    destruct Hshape as [Heq|Heq]; by rewrite ?append_cons in Heq.
  - rewrite m_seq_chr. destruct (InputValidators.is_identifier_start c) eqn:Hstart.
    + pose proof (star_class_matches InputValidators.is_identifier_char k s (Some c)) as Hstar.
      destruct (Re.m (Re.Star (Re.Chr InputValidators.is_identifier_char)) (Some c) s
                  (fun _ rest => k rest)) as [[]|] eqn:Hm.
      * split; [intros _|done].
        destruct (proj1 Hstar ltac:(by eexists)) as (body & rest & -> & Hbody & Hrest).
        apply Hk in Hrest as [->| ->].
        -- exists (String c body). split; [left; by rewrite append_nil_r|].
           cbn. by rewrite Hstart, Hbody.
        -- exists (String c body). split; [by right|]. cbn. by rewrite Hstart, Hbody.
      * split; [done|]. intros (body & Hshape & Hwf).
        destruct body as [|c' body]; [by cbn in Hwf|]. cbn in Hwf.
        apply andb_true_iff in Hwf as [_ Hbody].
        assert (is_Some (@None unit)) as [? ?]; [|done]. apply Hstar.
        destruct Hshape as [Heq|Heq]; rewrite ?append_cons in Heq; injection Heq as <- ->.
        -- exists body, "". rewrite append_nil_r. split_and!; [done..|]. apply Hk. by left.
        -- exists body, InputValidators.newline. split_and!; [done..|]. apply Hk. by right.
    + split; [done|]. intros (body & Hshape & Hwf).
      destruct body as [|c' body]; [by cbn in Hwf|]. cbn in Hwf.
      destruct Hshape as [Heq|Heq]; rewrite ?append_cons in Heq;
        injection Heq as <- ->; by rewrite Hstart in Hwf.
Qed.

(** validate_identifier returns exactly for the names of at most 63
    characters that are a letter or underscore followed by letters, digits,
    underscores and dollar signs, with or without one newline after them,
    and that are not, in lower case, one of the eight keywords. *)
Theorem validate_identifier_returns_iff (identifier identifier_type : string) :
  InputValidators.validate_identifier identifier identifier_type
    = InputValidators.Returns
  <-> (exists body,
         (identifier = body \/ identifier = body +:+ InputValidators.newline)
         /\ InputValidators.well_formed body = true)
      /\ String.length identifier <= 63
      /\ Str.lower identifier ∉ InputValidators.dangerous_keywords.
Proof.
  unfold InputValidators.validate_identifier. rewrite <- pattern_match_iff.
  case_bool_decide as Hempty.
  { subst identifier. split; [done|]. by intros [? _]. }
  unfold InputValidators.MAX_IDENTIFIER_LENGTH.
  destruct (Nat.ltb_spec 63 (String.length identifier)) as [Hlong|Hshort].
  { split; [done|]. intros (_ & ? & _). lia. }
  destruct (InputValidators.pattern_match identifier); cbn [negb].
  - case_bool_decide as Hkw; [split; [done|]; by intros (_ & _ & ?)|].
    split; [done|done].
  - split; [done|]. by intros [? _].
Qed.
(** *** Characters, positions and slices *)

#[local] Abbreviation lacks := PyStr.lacks.

Lemma all_chars_app (p : ascii -> bool) (a b : string) :
  PyStr.all_chars p (a +:+ b) = PyStr.all_chars p a && PyStr.all_chars p b.
Proof.
  induction a as [|c a IH]; [done|].
  rewrite append_cons. cbn. by rewrite IH, andb_assoc.
Qed.

Lemma all_chars_impl (p q : ascii -> bool) (s : string) :
  (forall c, p c = true -> q c = true) ->
  PyStr.all_chars p s = true -> PyStr.all_chars q s = true.
Proof.
  intros Hpq. induction s as [|c s IH]; [done|]. cbn.
  rewrite !andb_true_iff. intros [Hc Hs]. split; [by apply Hpq|by apply IH].
Qed.

Lemma contains_char (c : ascii) (s : string) :
  Str.contains (String c "") s = negb (lacks c s).
Proof.
  induction s as [|x s IH]; [done|].
  cbn [Str.contains Str.prefixb PyStr.lacks PyStr.all_chars]. fold (PyStr.lacks c s).
  rewrite IH, (Ascii.eqb_sym c x).
  destruct (Ascii.eqb x c); by destruct s.
Qed.

Lemma find_lacks (c : ascii) (s : string) : lacks c s = true -> PyStr.find c s = None.
Proof.
  induction s as [|x s IH]; [done|]. cbn. intros [Hx Hs]%andb_true_iff.
  apply negb_true_iff in Hx. rewrite Hx. by rewrite IH.
Qed.

Lemma find_app (c : ascii) (a b : string) :
  lacks c a = true -> PyStr.find c (a +:+ String c b) = Some (String.length a).
Proof.
  induction a as [|x a IH].
  - intros _. rewrite append_nil_l. cbn. by rewrite Ascii.eqb_refl.
  - rewrite append_cons. cbn. intros [Hx Ha]%andb_true_iff.
    apply negb_true_iff in Hx. rewrite Hx. by rewrite IH.
Qed.

Lemma rfind_lacks (c : ascii) (s : string) : lacks c s = true -> PyStr.rfind c s = None.
Proof.
  induction s as [|x s IH]; [done|]. cbn. intros [Hx Hs]%andb_true_iff.
  apply negb_true_iff in Hx. by rewrite IH, Hx.
Qed.

Lemma rfind_app (c : ascii) (a b : string) :
  lacks c b = true -> PyStr.rfind c (a +:+ String c b) = Some (String.length a).
Proof.
  intros Hb. induction a as [|x a IH].
  - rewrite append_nil_l. cbn. by rewrite rfind_lacks, Ascii.eqb_refl.
  - rewrite append_cons. cbn. by rewrite IH.
Qed.

Lemma take_app (a b : string) : PyStr.take (String.length a) (a +:+ b) = a.
Proof.
  induction a as [|x a IH]; [by destruct b|].
  rewrite append_cons. cbn. by rewrite IH.
Qed.

Lemma drop_app (a b : string) : PyStr.drop (String.length a) (a +:+ b) = b.
Proof.
  induction a as [|x a IH]; [by destruct b|]. by rewrite append_cons.
Qed.

Lemma drop_app_succ (a b : string) (c : ascii) :
  PyStr.drop (String.length a + 1) (a +:+ String c b) = b.
Proof.
  induction a as [|x a IH]; [done|]. by rewrite append_cons.
Qed.

Lemma drop_app_S (a b : string) (c : ascii) :
  PyStr.drop (S (String.length a)) (a +:+ String c b) = b.
Proof. rewrite <- Nat.add_1_r. apply drop_app_succ. Qed.

(** *** strip *)

Lemma lstrip_blank (s : string) :
  PyStr.all_chars PyStr.is_space s = true -> PyStr.lstrip s = "".
Proof.
  induction s as [|c s IH]; [done|]. cbn. intros [Hc Hs]%andb_true_iff.
  rewrite Hc. by apply IH.
Qed.

Lemma rstrip_solid (s : string) :
  PyStr.all_chars (fun c => negb (PyStr.is_space c)) s = true -> PyStr.rstrip s = s.
Proof.
  induction s as [|c s IH]; [done|]. cbn. intros [Hc Hs]%andb_true_iff.
  apply negb_true_iff in Hc. rewrite IH, Hc by done. by destruct s.
Qed.

Lemma lstrip_solid (s : string) :
  PyStr.all_chars (fun c => negb (PyStr.is_space c)) s = true -> PyStr.lstrip s = s.
Proof.
  destruct s as [|c s]; [done|]. cbn. intros [Hc _]%andb_true_iff.
  apply negb_true_iff in Hc. by rewrite Hc.
Qed.

Lemma strip_solid (s : string) :
  PyStr.all_chars (fun c => negb (PyStr.is_space c)) s = true -> PyStr.strip s = s.
Proof.
  intros Hs. unfold PyStr.strip. rewrite lstrip_solid by done. by apply rstrip_solid.
Qed.

Lemma rstrip_cons_solid (c : ascii) (s : string) :
  PyStr.is_space c = false -> PyStr.rstrip (String c s) <> "".
Proof.
  intros Hc. cbn. rewrite Hc. by destruct (PyStr.rstrip s).
Qed.

Lemma strip_cons_solid (c : ascii) (s : string) :
  PyStr.is_space c = false -> PyStr.strip (String c s) <> "".
Proof.
  intros Hc. unfold PyStr.strip. cbn [PyStr.lstrip]. rewrite Hc.
  by apply rstrip_cons_solid.
Qed.

(** *** Identifier characters *)

Lemma identifier_start_char (c : ascii) :
  InputValidators.is_identifier_start c = true ->
  InputValidators.is_identifier_char c = true.
Proof.
  unfold InputValidators.is_identifier_start, InputValidators.is_identifier_char.
  destruct (Str.is_lower c), (Str.is_upper c), (Ascii.eqb c "_"),
    (Str.is_digit c); done.
Qed.

Lemma identifier_char_plain (c : ascii) :
  InputValidators.is_identifier_char c = true ->
  PyStr.is_space c = false
  /\ Ascii.eqb c ":" = false /\ Ascii.eqb c "=" = false /\ Ascii.eqb c "." = false.
Proof.
  destruct c as [[] [] [] [] [] [] [] []]; vm_compute; intros H;
    first [discriminate H | done].
Qed.

Lemma well_formed_chars (name : string) :
  InputValidators.well_formed name = true ->
  PyStr.all_chars InputValidators.is_identifier_char name = true.
Proof.
  destruct name as [|c rest]; [done|]. cbn. intros [Hc Hrest]%andb_true_iff.
  by rewrite identifier_start_char.
Qed.

Lemma well_formed_plain (name : string) :
  InputValidators.well_formed name = true ->
  PyStr.strip name = name
  /\ lacks ":" name = true /\ lacks "=" name = true /\ lacks "." name = true.
Proof.
  intros Hwf%well_formed_chars. split_and!.
  - apply strip_solid. eapply all_chars_impl; [|exact Hwf].
    intros c Hc. by destruct (identifier_char_plain c Hc) as (-> & _).
  - eapply all_chars_impl; [|exact Hwf].
    intros c Hc. by destruct (identifier_char_plain c Hc) as (_ & -> & _).
  - eapply all_chars_impl; [|exact Hwf].
    intros c Hc. by destruct (identifier_char_plain c Hc) as (_ & _ & -> & _).
  - eapply all_chars_impl; [|exact Hwf].
    intros c Hc. by destruct (identifier_char_plain c Hc) as (_ & _ & _ & ->).
Qed.

Lemma well_formed_solid_head (name rest : string) :
  InputValidators.well_formed name = true ->
  name +:+ rest <> "" /\ PyStr.strip (name +:+ rest) <> "".
Proof.
  destruct name as [|c name]; [done|]. cbn. intros [Hc _]%andb_true_iff.
  rewrite append_cons. split; [done|]. apply strip_cons_solid.
  apply identifier_start_char in Hc. by destruct (identifier_char_plain c Hc).
Qed.

(** *** Decimal numerals *)

Lemma digit_char_value (n : nat) :
  Str.is_digit (Str.digit_char n) = true
  /\ nat_of_ascii (Str.digit_char n) - 48 = n mod 10.
Proof.
  unfold Str.digit_char, Str.is_digit.
  pose proof (Nat.mod_upper_bound n 10 ltac:(lia)) as Hlt.
  rewrite nat_ascii_embedding by lia. split; [|lia].
  apply andb_true_iff. split; apply Nat.leb_le; lia.
Qed.

Lemma of_nat_aux_digits (fuel n : nat) (acc : string) :
  PyStr.all_chars Str.is_digit acc = true ->
  PyStr.all_chars Str.is_digit (Str.of_nat_aux fuel n acc) = true.
Proof.
  revert n acc. induction fuel as [|fuel IH]; intros n acc Hacc; [done|].
  cbn [Str.of_nat_aux].
  assert (PyStr.all_chars Str.is_digit (String (Str.digit_char n) acc) = true) as Hacc'.
  { cbn. rewrite Hacc. by destruct (digit_char_value n) as [-> _]. }
  destruct (n <? 10); [done|]. by apply IH.
Qed.

Lemma of_nat_aux_nonempty (fuel n : nat) (acc : string) :
  acc <> "" -> Str.of_nat_aux fuel n acc <> "".
Proof.
  revert n acc. induction fuel as [|fuel IH]; intros n acc Hacc; [done|].
  cbn [Str.of_nat_aux]. destruct (n <? 10); [done|]. by apply IH.
Qed.

Lemma of_nat_isdigit (n : nat) : PyStr.isdigit (Str.of_nat n) = true.
Proof.
  unfold PyStr.isdigit, Str.of_nat. apply andb_true_iff. split.
  - apply negb_true_iff, bool_decide_eq_false. cbn [Str.of_nat_aux].
    destruct (n <? 10); [done|]. by apply of_nat_aux_nonempty.
  - by apply of_nat_aux_digits.
Qed.

Lemma int_acc_shift (acc : Z) (s : string) :
  PyStr.int_acc acc s = (acc * 10 ^ Z.of_nat (String.length s) + PyStr.int_acc 0 s)%Z.
Proof.
  revert acc. induction s as [|c s IH]; intros acc.
  - cbn. lia.
  - cbn [PyStr.int_acc String.length].
    rewrite (IH (10 * acc + _)%Z), (IH (10 * 0 + _)%Z).
    rewrite Nat2Z.inj_succ, Z.pow_succ_r by lia. lia.
Qed.

Lemma of_nat_aux_value (fuel n : nat) (acc : string) :
  n < fuel ->
  PyStr.int_acc 0 (Str.of_nat_aux fuel n acc)
  = (Z.of_nat n * 10 ^ Z.of_nat (String.length acc) + PyStr.int_acc 0 acc)%Z.
Proof.
  revert n acc. induction fuel as [|fuel IH]; intros n acc Hlt; [lia|].
  cbn [Str.of_nat_aux].
  assert (Hhead : PyStr.int_acc 0 (String (Str.digit_char n) acc)
                  = (Z.of_nat (n mod 10) * 10 ^ Z.of_nat (String.length acc)
                     + PyStr.int_acc 0 acc)%Z).
  { cbn [PyStr.int_acc]. rewrite int_acc_shift.
    destruct (digit_char_value n) as [_ ->]. lia. }
  destruct (Nat.ltb_spec n 10) as [Hsmall|Hbig].
  - rewrite Hhead, Nat.mod_small by done. done.
  - rewrite IH.
    2:{ pose proof (Nat.div_lt n 10 ltac:(lia) ltac:(lia)). lia. }
    rewrite Hhead. cbn [String.length].
    rewrite Nat2Z.inj_succ, Z.pow_succ_r by lia.
    pose proof (Nat.div_mod_eq n 10) as Hdm.
    assert (Z.of_nat n = 10 * Z.of_nat (n / 10) + Z.of_nat (n mod 10))%Z as Hz by lia.
    rewrite Hz. ring.
Qed.

Lemma of_nat_value (n : nat) : PyStr.int_acc 0 (Str.of_nat n) = Z.of_nat n.
Proof.
  unfold Str.of_nat. rewrite of_nat_aux_value by lia. cbn. lia.
Qed.
(** *** SeedSpec.parse *)

Section ParseTheory.

Variable nfkc : string -> string.
Variable keywords : list string.
Variable functions : list string.
Variable repr : string -> string.
Variable int_max_str_digits : nat.

#[local] Abbreviation parse := (SeedSpec.parse nfkc keywords functions repr int_max_str_digits).
#[local] Abbreviation to_where_clause := (SeedSpec.to_where_clause nfkc keywords functions).

Lemma colon_literal (s : string) : ":" +:+ s = String ":" s.
Proof. reflexivity. Qed.

Lemma parse_where_form (table clause : string) :
  InputValidators.validate_table_name table = InputValidators.Returns ->
  InputValidators.well_formed table = true ->
  parse (table +:+ ":" +:+ clause)
  = (_ ← Config.validate_where_clause_with nfkc keywords functions (PyStr.strip clause)
           (table +:+ ":" +:+ clause);
     Ok (SeedSpec.mk table None PNone (Some (PyStr.strip clause)))).
Proof.
  intros Hvalid Hwf.
  destruct (well_formed_plain table Hwf) as (Hstrip & Hcolon & Heq & _).
  destruct (well_formed_solid_head table (":" +:+ clause) Hwf) as [Hne Hsolid].
  unfold SeedSpec.parse.
  rewrite (bool_decide_eq_false_2 _ Hne), (bool_decide_eq_false_2 _ Hsolid).
  cbn [orb].
  rewrite (contains_skip table ":" (":" +:+ clause) (contains_here ":" clause)).
  unfold PyStr.first_part, PyStr.split_once.
  rewrite colon_literal, (find_app ":" table clause Hcolon).
  rewrite take_app, drop_app_S, contains_char, Heq. cbn [negb andb].
  by rewrite Hstrip, Hvalid.
Qed.

(** A seed [table:clause] with a valid table name is parsed into the table
    and the stripped clause exactly when the filter accepts that clause,
    and raises the filter's error otherwise.  When the clause is empty or
    blank, the seed is accepted with an empty clause, and
    [to_where_clause] then gives the condition [None = %s] with the
    parameter [None]. *)
Theorem parse_where_seed (table clause : string) :
  InputValidators.validate_table_name table = InputValidators.Returns ->
  InputValidators.well_formed table = true ->
  let seed_str := table +:+ ":" +:+ clause in
  let spec := SeedSpec.mk table None PNone (Some (PyStr.strip clause)) in
  (parse seed_str = Ok spec
   <-> Config.validate_where_clause_with nfkc keywords functions (PyStr.strip clause) seed_str = Ok tt)
  /\ (forall e,
        parse seed_str = Raise e
        <-> Config.validate_where_clause_with nfkc keywords functions (PyStr.strip clause) seed_str = Raise e)
  /\ (PyStr.strip clause = "" ->
      parse seed_str = Ok spec
      /\ to_where_clause spec = Ok ("None = %s", [PNone])).
Proof.
  intros Hvalid Hwf seed_str spec. subst seed_str spec.
  rewrite (parse_where_form table clause Hvalid Hwf).
  split_and!.
  - destruct (Config.validate_where_clause_with _ _ _ _ _) as [[]|e]; cbn; split; done.
  - intros e. destruct (Config.validate_where_clause_with _ _ _ _ _) as [[]|e']; cbn;
      split; first [done | by intros [= ->]].
  - intros ->. split; reflexivity.
Qed.

Lemma dot_literal (s : string) : "." +:+ s = String "." s.
Proof. reflexivity. Qed.

Lemma eq_literal (s : string) : "=" +:+ s = String "=" s.
Proof. reflexivity. Qed.

(** The text with which the engine names a seed [table.column=n] is
    parsed back into that seed, and [to_where_clause] turns it into the
    condition [column = %s] with the number as its parameter. *)
Theorem parse_seed_desc_round_trip (table column : string) (n : nat) :
  InputValidators.validate_table_name table = InputValidators.Returns ->
  InputValidators.well_formed table = true ->
  InputValidators.validate_column_name column = InputValidators.Returns ->
  InputValidators.well_formed column = true ->
  int_max_str_digits = 0 \/ String.length (Str.of_nat n) <= int_max_str_digits ->
  let spec := SeedSpec.mk table (Some column) (PInt (Z.of_nat n)) None in
  parse (SeedProcessing.seed_desc spec) = Ok spec
  /\ to_where_clause spec = Ok (column +:+ " = %s", [PInt (Z.of_nat n)]).
Proof.
  intros Htable Hwft Hcolumn Hwfc Hlimit spec. split; [|reflexivity].
  destruct (well_formed_plain table Hwft) as (Hstript & Hcolont & Heqt & Hdott).
  destruct (well_formed_plain column Hwfc) as (Hstripc & Hcolonc & Heqc & Hdotc).
  assert (Hdigits := of_nat_isdigit n).
  set (digits := Str.of_nat n) in *.
  assert (Hdesc : SeedProcessing.seed_desc spec
                  = table +:+ "." +:+ column +:+ "=" +:+ digits).
  { unfold SeedProcessing.seed_desc, spec. cbn [SeedSpec.column SeedSpec.table SeedSpec.value].
    rewrite bool_decide_eq_false_2 by (by destruct column).
    unfold py_str, Str.of_Z. destruct (Z.ltb_spec (Z.of_nat n) 0) as [?|_]; [lia|].
    by rewrite Nat2Z.id. }
  rewrite Hdesc. clear Hdesc.
  assert (Hall : PyStr.all_chars Str.is_digit digits = true).
  { unfold PyStr.isdigit in Hdigits. by apply andb_true_iff in Hdigits as [_ ?]. }
  assert (Hdigit_plain : forall c, Str.is_digit c = true ->
            PyStr.is_space c = false /\ Ascii.eqb c ":" = false).
  { intros c. destruct c as [[] [] [] [] [] [] [] []]; vm_compute; intros H;
      first [discriminate H | done]. }
  assert (Hstripd : PyStr.strip digits = digits).
  { apply strip_solid. eapply all_chars_impl; [|exact Hall].
    intros c Hc. by destruct (Hdigit_plain c Hc) as [-> _]. }
  assert (Hcolond : lacks ":" digits = true).
  { eapply all_chars_impl; [|exact Hall].
    intros c Hc. by destruct (Hdigit_plain c Hc) as [_ ->]. }
  destruct (well_formed_solid_head table ("." +:+ column +:+ "=" +:+ digits) Hwft)
    as [Hne Hsolid].
  unfold SeedSpec.parse.
  rewrite (bool_decide_eq_false_2 _ Hne), (bool_decide_eq_false_2 _ Hsolid).
  cbn [orb].
  assert (Hnocolon : Str.contains ":" (table +:+ "." +:+ column +:+ "=" +:+ digits)
                     = false).
  { rewrite contains_char. unfold lacks. rewrite !all_chars_app.
    fold (lacks ":" table) (lacks ":" column) (lacks ":" digits).
    by rewrite Hcolont, Hcolonc, Hcolond. }
  rewrite Hnocolon. cbn [andb].
  rewrite (contains_skip table "." ("." +:+ column +:+ "=" +:+ digits)
             (contains_here "." (column +:+ "=" +:+ digits))).
  assert (Hshape : table +:+ "." +:+ column +:+ "=" +:+ digits
                   = (table +:+ "." +:+ column) +:+ "=" +:+ digits).
  { by rewrite !append_assoc. }
  rewrite Hshape.
  rewrite (contains_skip (table +:+ "." +:+ column) "=" ("=" +:+ digits)
             (contains_here "=" digits)).
  cbn [andb]. unfold PyStr.index, PyStr.rindex. rewrite eq_literal.
  rewrite find_app.
  2:{ unfold lacks. rewrite !all_chars_app.
      fold (lacks "=" table) (lacks "=" column). by rewrite Heqt, Heqc. }
  cbn [mbind result_bind]. rewrite take_app, drop_app_succ, dot_literal.
  rewrite (rfind_app "." table column Hdotc). cbn [mbind result_bind].
  rewrite take_app, drop_app_succ, Hstript, Hstripc, Hstripd.
  rewrite Htable, Hcolumn, Hdigits. unfold PyStr.int.
  assert ((0 <? int_max_str_digits) && (int_max_str_digits <? String.length digits)
          = false) as ->.
  { apply andb_false_iff. destruct Hlimit as [->|Hle]; [by left|].
    right. apply Nat.ltb_ge. lia. }
  cbn [mbind result_bind]. unfold digits. by rewrite of_nat_value.
Qed.

End ParseTheory.

(** *** What parse returns has been validated *)

Lemma last_char_app (a : string) (c : ascii) :
  PyStr.last_char (a +:+ String c "") = Some c.
Proof.
  induction a as [|x a IH]; [done|]. rewrite append_cons.
  cbn [PyStr.last_char]. rewrite IH.
  destruct (a +:+ String c "") eqn:Ha; [|done]. by destruct a.
Qed.

Lemma rstrip_last (s : string) (c : ascii) :
  PyStr.last_char (PyStr.rstrip s) = Some c -> PyStr.is_space c = false.
Proof.
  induction s as [|x s IH]; [done|]. cbn [PyStr.rstrip].
  destruct (PyStr.rstrip s) as [|r rest] eqn:Hrs.
  - destruct (PyStr.is_space x) eqn:Hx; [done|]. cbn. by intros [= <-].
  - intros Hlast. apply IH. exact Hlast.
Qed.

Lemma validate_identifier_pattern (identifier identifier_type : string) :
  InputValidators.validate_identifier identifier identifier_type
    = InputValidators.Returns ->
  InputValidators.pattern_match identifier = true.
Proof.
  unfold InputValidators.validate_identifier.
  destruct (bool_decide (identifier = "")); [discriminate|].
  destruct (InputValidators.MAX_IDENTIFIER_LENGTH <? String.length identifier);
    [discriminate|].
  by destruct (InputValidators.pattern_match identifier).
Qed.

Lemma validated_stripped_well_formed (text identifier_type : string) :
  InputValidators.validate_identifier (PyStr.strip text) identifier_type
    = InputValidators.Returns ->
  InputValidators.well_formed (PyStr.strip text) = true.
Proof.
  intros (body & [Heq|Heq] & Hwf)%validate_identifier_pattern%pattern_match_iff.
  - by rewrite Heq.
  - exfalso. pose proof (last_char_app body (ascii_of_nat 10)) as Hlast.
    unfold InputValidators.newline in Heq. rewrite <- Heq in Hlast.
    unfold PyStr.strip in Hlast. by apply rstrip_last in Hlast.
Qed.

Section ParseSound.

Variable nfkc : string -> string.
Variable keywords : list string.
Variable functions : list string.
Variable repr : string -> string.
Variable int_max_str_digits : nat.

(** Whatever the seed text, a specification that parse returns names a
    table that validate_identifier accepts and that ends in no newline;
    it has either a column of that kind with a value that
    validate_seed_value accepts and no clause, or no column, the value
    [None] and a clause that the filter accepts. *)
Theorem parse_returns_validated (seed_str : string) (spec : SeedSpec.t) :
  SeedSpec.parse nfkc keywords functions repr int_max_str_digits seed_str = Ok spec ->
  InputValidators.validate_table_name (SeedSpec.table spec) = InputValidators.Returns
  /\ InputValidators.well_formed (SeedSpec.table spec) = true
  /\ ((exists column,
         SeedSpec.column spec = Some column
         /\ InputValidators.validate_column_name column = InputValidators.Returns
         /\ InputValidators.well_formed column = true
         /\ InputValidators.validate_seed_value (SeedSpec.value spec)
            = InputValidators.Returns
         /\ SeedSpec.where_clause spec = None)
      \/ (exists clause,
            SeedSpec.column spec = None
            /\ SeedSpec.value spec = PNone
            /\ SeedSpec.where_clause spec = Some clause
            /\ Config.validate_where_clause_with nfkc keywords functions clause seed_str = Ok tt)).
Proof.
  unfold SeedSpec.parse.
  destruct (bool_decide (seed_str = "") || bool_decide (PyStr.strip seed_str = ""));
    [discriminate|].
  destruct (Str.contains ":" seed_str
            && negb (Str.contains "=" (PyStr.first_part ":" seed_str))).
  - destruct (PyStr.split_once ":" seed_str) as [|part0 [|part1 [|? ?]]];
      try discriminate.
    destruct (InputValidators.validate_table_name (PyStr.strip part0)) eqn:Htable;
      [|discriminate].
    destruct (Config.validate_where_clause_with nfkc keywords functions (PyStr.strip part1) seed_str)
      as [[]|e] eqn:Hclause; [|discriminate].
    intros [= <-]. cbn. split_and!; [done|by eapply validated_stripped_well_formed|].
    right. by exists (PyStr.strip part1).
  - destruct (Str.contains "." seed_str && Str.contains "=" seed_str); [|discriminate].
    destruct (PyStr.index "=" seed_str) as [eq_pos|e]; cbn [mbind result_bind].
    2:{ by destruct e. }
    destruct (PyStr.rindex "." (PyStr.take eq_pos seed_str)) as [dot_pos|e];
      cbn [mbind result_bind].
    2:{ by destruct e. }
    set (table := PyStr.strip (PyStr.take dot_pos (PyStr.take eq_pos seed_str))).
    set (column := PyStr.strip (PyStr.drop (dot_pos + 1) (PyStr.take eq_pos seed_str))).
    set (value := PyStr.strip (PyStr.drop (eq_pos + 1) seed_str)).
    destruct (InputValidators.validate_table_name table) eqn:Htable; [|discriminate].
    destruct (InputValidators.validate_column_name column) eqn:Hcolumn; [|discriminate].
    match goal with
    | |- (?parsed ≫= _) = _ -> _ => destruct parsed as [parsed_value|e]
    end; cbn [mbind result_bind]; [|discriminate].
    destruct (InputValidators.validate_seed_value parsed_value) eqn:Hvalue;
      [|discriminate].
    intros [= <-]. cbn. split_and!; [done|by eapply validated_stripped_well_formed|].
    left. exists column. split_and!; try done.
    by eapply validated_stripped_well_formed.
Qed.

End ParseSound.

(** *** Clauses without quotes and dollar signs *)

Lemma lacks_cons (q c : ascii) (s : string) :
  lacks q (String c s) = true -> Ascii.eqb q c = false /\ lacks q s = true.
Proof.
  cbn. intros [Hc Hs]%andb_true_iff. apply negb_true_iff in Hc.
  by rewrite Ascii.eqb_sym.
Qed.

Lemma match_here_first_char (q : ascii) (r : Re.regex) (prev : option ascii)
    (s : string) :
  lacks q s = true -> Re.match_here (Re.Seq (Re.chr q) r) prev s = None.
Proof.
  destruct s as [|c s]; [done|]. intros [Hc _]%lacks_cons.
  unfold Re.match_here, Re.chr. cbn. by rewrite Hc.
Qed.

Lemma sub_from_lacks (q : ascii) (r : Re.regex) (repl : string) (s : string) :
  forall fuel prev,
    lacks q s = true -> String.length s < fuel ->
    Re.sub_from fuel (Re.Seq (Re.chr q) r) repl prev s = s.
Proof.
  induction s as [|c s IH]; intros fuel prev Hs Hfuel.
  - destruct fuel; [done|]. cbn [Re.sub_from].
    by rewrite match_here_first_char.
  - destruct fuel; [cbn in Hfuel; lia|]. cbn [Re.sub_from].
    rewrite match_here_first_char by done.
    apply lacks_cons in Hs as [_ Hs]. rewrite IH; [done|done|cbn in Hfuel; lia].
Qed.

Lemma collapse_quoted_plain (s : string) :
  lacks Config.squote s = true -> lacks Config.dquote_char s = true ->
  Config.collapse_quoted s = s.
Proof.
  intros Hsq Hdq. unfold Config.collapse_quoted, Re.sub,
    Config.single_quoted_re, Config.double_quoted_re.
  rewrite (sub_from_lacks Config.squote) by (done || lia).
  by rewrite (sub_from_lacks Config.dquote_char) by (done || lia).
Qed.

Lemma search_dollar_quoting_plain (s : string) (prev : option ascii) :
  lacks Config.dollar s = true ->
  Re.search_from Config.dollar_quoting_re prev s = false.
Proof.
  revert prev. induction s as [|c s IH]; intros prev Hs.
  - done.
  - cbn [Re.search_from].
    assert (Re.match_here Config.dollar_quoting_re prev (String c s) = None) as ->.
    { apply lacks_cons in Hs as [Hc _].
      unfold Re.match_here, Config.dollar_quoting_re, Re.chr. cbn. by rewrite Hc. }
    apply lacks_cons in Hs as [_ Hs]. by apply IH.
Qed.

Lemma search_escape_string_plain (s : string) (prev : option ascii) :
  lacks Config.squote s = true ->
  Re.search_from Config.escape_string_re prev s = false.
Proof.
  revert prev. induction s as [|c s IH]; intros prev Hs.
  - cbn. unfold Re.match_here. cbn. by destruct (Re.at_boundary prev "").
  - cbn [Re.search_from].
    assert (Re.match_here Config.escape_string_re prev (String c s) = None) as ->.
    { apply lacks_cons in Hs as [_ Hs].
      unfold Re.match_here, Config.escape_string_re, Re.chr. cbn.
      destruct (Re.at_boundary prev (String c s)); [|done].
      destruct (Ascii.eqb c "E" || Ascii.eqb c "e"); [|done].
      destruct s as [|c' s]; [done|]. apply lacks_cons in Hs as [Hc' _].
      by rewrite Hc'. }
    apply lacks_cons in Hs as [_ Hs]. by apply IH.
Qed.

(** A clause without quotes and dollar signs in which exactly one keyword
    stands as a word is refused with that keyword, in whatever order the
    set of keywords is enumerated. *)
Lemma validate_plain_keyword (nfkc : string -> string) (keywords functions : list string)
    (where_clause seed_str keyword : string) :
  keywords ≡ₚ Config.DANGEROUS_SQL_KEYWORDS ->
  where_clause <> "" ->
  nfkc where_clause = where_clause ->
  lacks Config.squote where_clause = true ->
  lacks Config.dquote_char where_clause = true ->
  lacks Config.dollar where_clause = true ->
  List.filter (fun keyword => Re.search (Config.keyword_re keyword)
                                (Str.upper where_clause))
    Config.DANGEROUS_SQL_KEYWORDS = [keyword] ->
  Config.validate_where_clause_with nfkc keywords functions where_clause seed_str
  = Raise (InsecureWhereClauseError (Config.reported_seed where_clause seed_str)
             keyword).
Proof.
  intros Hperm Hne Hnfkc Hsq Hdq Hdollar Hfilter.
  unfold Config.validate_where_clause_with.
  rewrite bool_decide_eq_false_2 by done.
  rewrite Hnfkc, collapse_quoted_plain by done.
  rewrite (search_dollar_quoting_plain where_clause None Hdollar : Re.search _ _ = _).
  rewrite (search_escape_string_plain where_clause None Hsq : Re.search _ _ = _).
  cbv zeta.
  by rewrite (find_keywords_unique keywords Hperm (Str.upper where_clause) keyword Hfilter).
Qed.

(** *** Upper case *)

Lemma upper_app (a b : string) : Str.upper (a +:+ b) = Str.upper a +:+ Str.upper b.
Proof.
  induction a as [|c a IH]; [done|].
  rewrite append_cons. cbn. rewrite append_cons. f_equal. exact IH.
Qed.

Lemma upper_char_keeps (q x : ascii) :
  Str.is_lower q = false -> Str.is_upper q = false ->
  Ascii.eqb (Str.upper_char x) q = Ascii.eqb x q.
Proof.
  intros Hlow Hup. unfold Str.upper_char.
  destruct (Str.is_lower x) eqn:Hx; [|done].
  destruct (Ascii.eqb_spec x q) as [->|_]; [congruence|].
  apply Ascii.eqb_neq. intros Heq. subst q.
  revert Hx Hup. clear. destruct x as [[] [] [] [] [] [] [] []]; vm_compute; congruence.
Qed.

Lemma lacks_upper (q : ascii) (s : string) :
  Str.is_lower q = false -> Str.is_upper q = false ->
  lacks q (Str.upper s) = lacks q s.
Proof.
  intros Hlow Hup. induction s as [|c s IH]; [done|].
  cbn. fold (lacks q (Str.upper s)) (lacks q s).
  by rewrite IH, upper_char_keeps.
Qed.

Lemma upper_without_letters (s : string) :
  PyStr.all_chars (fun c => negb (Str.is_upper c)) (Str.upper s) = true ->
  Str.upper s = s.
Proof.
  induction s as [|c s IH]; [done|]. cbn. intros [Hc Hs]%andb_true_iff.
  rewrite (IH Hs). f_equal. revert Hc. clear.
  destruct c as [[] [] [] [] [] [] [] []]; vm_compute; congruence.
Qed.

Lemma append_cons_nonempty (a b : string) (c : ascii) : a +:+ String c b <> "".
Proof. by destruct a. Qed.

Lemma keyword_clause_refused (nfkc : string -> string)
    (keywords functions : list string) (column seed_str keyword : string) :
  keywords ≡ₚ Config.DANGEROUS_SQL_KEYWORDS ->
  Str.upper column = keyword ->
  nfkc (column +:+ " = %s") = column +:+ " = %s" ->
  lacks Config.squote keyword && lacks Config.dquote_char keyword
    && lacks Config.dollar keyword = true ->
  List.filter (fun k => Re.search (Config.keyword_re k) (keyword +:+ " = %S"))
    Config.DANGEROUS_SQL_KEYWORDS = [keyword] ->
  Config.validate_where_clause_with nfkc keywords functions (column +:+ " = %s")
    seed_str
  = Raise (InsecureWhereClauseError
             (Config.reported_seed (column +:+ " = %s") seed_str) keyword).
Proof.
  intros Hperm Hupper Hnfkc Hlacks Hfilter.
  apply andb_true_iff in Hlacks as [[Hsq Hdq]%andb_true_iff Hdollar].
  rewrite <- Hupper in Hsq, Hdq, Hdollar.
  rewrite lacks_upper in Hsq, Hdq, Hdollar by done.
  apply validate_plain_keyword; try done.
  - apply append_cons_nonempty.
  - unfold PyStr.lacks. rewrite all_chars_app. fold (lacks Config.squote column).
    by rewrite Hsq.
  - unfold PyStr.lacks. rewrite all_chars_app. fold (lacks Config.dquote_char column).
    by rewrite Hdq.
  - unfold PyStr.lacks. rewrite all_chars_app. fold (lacks Config.dollar column).
    by rewrite Hdollar.
  - rewrite upper_app, Hupper. exact Hfilter.
Qed.

(** A seed on a column whose name is, in upper case, one of the keywords of
    the WHERE-clause filter (such as [copy], [load] or [union], which
    validate_identifier accepts) is refused when its rows are fetched:
    [_process_seed] raises InsecureWhereClauseError naming the keyword,
    for any table of the schema, any value and any database. *)
Theorem keyword_named_column_is_refused
    (schema : SchemaGraph) (adapter : Graph.DatabaseAdapter)
    (nfkc : string -> string) (keywords functions : list string)
    (execute : PostgreSQLAdapter.query -> list row + string)
    (depth : Z) (direction : Graph.TraversalDirection)
    (exclude_tables : gset string) (passthrough_tables : list string) (fuel : nat)
    (table column : string) (value : pyval) :
  keywords ≡ₚ Config.DANGEROUS_SQL_KEYWORDS ->
  has_table schema table = true ->
  InputValidators.validate_column_name column = InputValidators.Returns ->
  Str.upper column ∈ Config.DANGEROUS_SQL_KEYWORDS ->
  nfkc (column +:+ " = %s") = column +:+ " = %s" ->
  SeedProcessing._process_seed schema nfkc keywords functions
    (PostgreSQLSeedRows.fetch_rows nfkc keywords functions execute)
    depth direction exclude_tables passthrough_tables fuel
    (SeedSpec.mk table (Some column) value None)
  = Raise (InsecureWhereClauseError (table +:+ ":" +:+ column +:+ " = %s")
             (Str.upper column)).
Proof.
  intros Hperm Htable Hvalid Hkeyword Hnfkc.
  unfold SeedProcessing._process_seed. cbn [SeedSpec.table].
  rewrite Htable. cbn [negb].
  unfold has_table in Htable. apply bool_decide_eq_true in Htable as [table_info Hinfo].
  unfold get_table. rewrite Hinfo.
  unfold SeedSpec.to_where_clause. cbn [SeedSpec.where_clause SeedSpec.column
    SeedSpec.value SeedSpec.format_optional mbind result_bind fst snd].
  unfold PostgreSQLSeedRows.fetch_rows.
  assert (Config.validate_where_clause_with nfkc keywords functions
            (column +:+ " = %s") (table +:+ ":" +:+ column +:+ " = %s")
          = Raise (InsecureWhereClauseError (table +:+ ":" +:+ column +:+ " = %s")
                     (Str.upper column))) as ->; [|done].
  assert (Hseed : Config.reported_seed (column +:+ " = %s")
                    (table +:+ ":" +:+ column +:+ " = %s")
                  = table +:+ ":" +:+ column +:+ " = %s").
  { unfold Config.reported_seed. rewrite bool_decide_eq_false_2; [done|].
    apply append_cons_nonempty. }
  rewrite <- Hseed at 2.
  unfold Config.DANGEROUS_SQL_KEYWORDS in Hkeyword.
  repeat (apply elem_of_cons in Hkeyword as [Hkeyword|Hkeyword]);
    try (rewrite Hkeyword; apply keyword_clause_refused;
         [done|done|done|vm_compute; reflexivity|vm_compute; reflexivity]).
  - exfalso. rewrite upper_without_letters in Hkeyword
      by (rewrite Hkeyword; vm_compute; reflexivity).
    subst column. vm_compute in Hvalid. discriminate.
  - exfalso. rewrite upper_without_letters in Hkeyword
      by (rewrite Hkeyword; vm_compute; reflexivity).
    subst column. vm_compute in Hvalid. discriminate.
  - exfalso. rewrite upper_without_letters in Hkeyword
      by (rewrite Hkeyword; vm_compute; reflexivity).
    subst column. vm_compute in Hvalid. discriminate.
  - by apply elem_of_nil in Hkeyword.
Qed.

(** *** From a seed to its traversal *)

Lemma pk_values_of_returns (row_data : row) (pk_columns : list string) :
  (forall col, col ∈ pk_columns -> is_Some (row_get row_data col)) ->
  exists pk, Cycles.pk_values_of row_data pk_columns = Ok pk.
Proof.
  intros Hcols. unfold Cycles.pk_values_of. apply mapM_result_total.
  apply List.Forall_forall. intros col Hcol%list_elem_of_In.
  destruct (Hcols col Hcol) as [v ->]. by eexists.
Qed.

Section ProcessSeedTheory.

Context (schema : SchemaGraph) {adapter : Graph.DatabaseAdapter}.
Variable nfkc : string -> string.
Variable keywords : list string.
Variable functions : list string.
Variable fetch_rows : string -> string -> list pyval -> result (list row).
Variable depth : Z.
Variable direction : Graph.TraversalDirection.
Variable exclude_tables : gset string.
Variable passthrough_tables : list string.
Variable fuel : nat.
Variable U : gset (string * pk_tuple).

#[local] Abbreviation _process_seed :=
  (SeedProcessing._process_seed schema nfkc keywords functions fetch_rows depth
     direction exclude_tables passthrough_tables fuel).

(** [_process_seed] on a finite database: a table that the schema lacks
    gives TableNotFoundError; when the seed has a condition and no row
    matches it, NoRowsFoundError names the seed; when rows match and hold
    the key columns of the table, the traversal returns and its result
    holds the key of every matching row. *)
Theorem process_seed_includes_seed_rows (seed : SeedSpec.t) :
  Graph.fetches_within schema U ->
  5 * size U + 2 <= fuel ->
  (get_table schema (SeedSpec.table seed) = None ->
   _process_seed seed = Raise (TableNotFoundError (SeedSpec.table seed)))
  /\ (forall table_info clause rows,
        get_table schema (SeedSpec.table seed) = Some table_info ->
        SeedSpec.to_where_clause nfkc keywords functions seed = Ok clause ->
        fetch_rows (SeedSpec.table seed) clause.1 clause.2 = Ok rows ->
        (rows = [] ->
         _process_seed seed = Raise (NoRowsFoundError (SeedProcessing.seed_desc seed)))
        /\ (rows <> [] ->
            (forall row_data col,
               row_data ∈ rows -> col ∈ primary_key table_info ->
               is_Some (row_get row_data col)) ->
            exists r,
              _process_seed seed = Ok r
              /\ forall row_data, row_data ∈ rows ->
                   exists pk,
                     Cycles.pk_values_of row_data (primary_key table_info) = Ok pk
                     /\ pk ∈ Graph.get_records r (SeedSpec.table seed))).
Proof.
  intros Hwithin Hfuel. unfold SeedProcessing._process_seed, has_table, get_table.
  split.
  - intros Hnone. unfold get_table in Hnone. rewrite Hnone.
    rewrite bool_decide_eq_false_2; [done|]. by intros [? ?].
  - intros table_info clause rows Hinfo Hclause Hrows.
    unfold get_table in Hinfo. rewrite Hinfo.
    rewrite bool_decide_eq_true_2 by (by eexists). cbn [negb].
    rewrite Hclause. cbn [mbind result_bind]. rewrite Hrows. cbn [mbind result_bind].
    split; [by intros ->|].
    intros Hne Hcols. destruct rows as [|row0 rows0] eqn:Hl; [done|].
    rewrite <- Hl in *. clear Hl Hne.
    destruct (mapM_result_total
                (fun row_data => Cycles.pk_values_of row_data (primary_key table_info))
                rows) as [pks Hpks].
    { apply List.Forall_forall. intros row_data Hin%list_elem_of_In.
      apply pk_values_of_returns. intros col Hcol. by apply Hcols. }
    rewrite Hpks. cbn [mbind result_bind].
    set (traversal_config :=
           {| Graph.max_depth := depth; Graph.direction := direction;
              Graph.exclude_tables := exclude_tables;
              Graph.passthrough_tables := passthrough_tables |}).
    assert (exists r,
              Graph.traverse schema fuel (SeedSpec.table seed) (list_to_set pks)
                traversal_config = Ok r
              /\ list_to_set pks ⊆ Graph.get_records r (SeedSpec.table seed))
      as (r & Hr & Hseeds).
    { pose proof (initial_turns traversal_config U (SeedSpec.table seed)
                    (list_to_set pks)) as Hinit.
      destruct (loop_returns schema traversal_config U Hwithin fuel
                  (Graph.initial (SeedSpec.table seed) (list_to_set pks)
                     traversal_config) ltac:(lia))
        as (st & n & Hloop & _ & _).
      unfold Graph.traverse. rewrite Hloop. cbn [mbind result_bind].
      eexists. split; [reflexivity|].
      etrans; [|apply passthrough_records].
      etrans; [|exact (loop_records_mono schema traversal_config fuel _ st
                         (SeedSpec.table seed) Hloop)].
      unfold Graph.get_records, Graph.get_set. cbn.
      rewrite lookup_insert_eq. set_solver. }
    exists r. split; [exact Hr|]. intros row_data Hin.
    apply mapM_result_Forall2 in Hpks.
    destruct (proj1 (list_elem_of_lookup _ _) Hin) as [i Hi].
    destruct (Forall2_lookup_l _ _ _ _ _ Hpks Hi) as (pk & Hpk & Hvalues).
    exists pk. split; [done|]. apply Hseeds, elem_of_list_to_set.
    by eapply list_elem_of_lookup_2.
Qed.

End ProcessSeedTheory.

Lemma parse_where_seed_witness :
  let parse := SeedSpec.parse Config.nfkc_ascii Config.DANGEROUS_SQL_KEYWORDS
                 Config.DANGEROUS_PG_FUNCTIONS (fun s => s) 4300 in
  let spec := SeedSpec.mk "users" None PNone (Some (PyStr.strip "  ")) in
  (parse "users:  " = Ok spec
   <-> Config.validate_where_clause_with Config.nfkc_ascii
         Config.DANGEROUS_SQL_KEYWORDS Config.DANGEROUS_PG_FUNCTIONS
         (PyStr.strip "  ") "users:  " = Ok tt)
  /\ (forall e,
        parse "users:  " = Raise e
        <-> Config.validate_where_clause_with Config.nfkc_ascii
              Config.DANGEROUS_SQL_KEYWORDS Config.DANGEROUS_PG_FUNCTIONS
              (PyStr.strip "  ") "users:  " = Raise e)
  /\ (PyStr.strip "  " = "" ->
      parse "users:  " = Ok spec
      /\ SeedSpec.to_where_clause Config.nfkc_ascii Config.DANGEROUS_SQL_KEYWORDS
           Config.DANGEROUS_PG_FUNCTIONS spec = Ok ("None = %s", [PNone])).
Proof.
  apply (parse_where_seed Config.nfkc_ascii Config.DANGEROUS_SQL_KEYWORDS
           Config.DANGEROUS_PG_FUNCTIONS (fun s => s) 4300 "users" "  ").
  - vm_compute. reflexivity.
  - vm_compute. reflexivity.
Defined.

Lemma parse_seed_desc_round_trip_witness :
  let spec := SeedSpec.mk "orders" (Some "id") (PInt (Z.of_nat 42)) None in
  SeedSpec.parse Config.nfkc_ascii Config.DANGEROUS_SQL_KEYWORDS
    Config.DANGEROUS_PG_FUNCTIONS (fun s => s) 4300 (SeedProcessing.seed_desc spec)
  = Ok spec
  /\ SeedSpec.to_where_clause Config.nfkc_ascii Config.DANGEROUS_SQL_KEYWORDS
       Config.DANGEROUS_PG_FUNCTIONS spec
     = Ok ("id" +:+ " = %s", [PInt (Z.of_nat 42)]).
Proof.
  apply (parse_seed_desc_round_trip Config.nfkc_ascii Config.DANGEROUS_SQL_KEYWORDS
           Config.DANGEROUS_PG_FUNCTIONS (fun s => s) 4300 "orders" "id" 42).
  - vm_compute. reflexivity.
  - vm_compute. reflexivity.
  - vm_compute. reflexivity.
  - vm_compute. reflexivity.
  - right. apply Nat.leb_le. vm_compute. reflexivity.
Defined.

Lemma parse_returns_validated_witness :
  let spec := SeedSpec.mk "users" (Some "email") (PStr "a@b.c") None in
  InputValidators.validate_table_name (SeedSpec.table spec) = InputValidators.Returns
  /\ InputValidators.well_formed (SeedSpec.table spec) = true
  /\ ((exists column,
         SeedSpec.column spec = Some column
         /\ InputValidators.validate_column_name column = InputValidators.Returns
         /\ InputValidators.well_formed column = true
         /\ InputValidators.validate_seed_value (SeedSpec.value spec)
            = InputValidators.Returns
         /\ SeedSpec.where_clause spec = None)
      \/ (exists clause,
            SeedSpec.column spec = None
            /\ SeedSpec.value spec = PNone
            /\ SeedSpec.where_clause spec = Some clause
            /\ Config.validate_where_clause_with Config.nfkc_ascii
                 Config.DANGEROUS_SQL_KEYWORDS Config.DANGEROUS_PG_FUNCTIONS clause
                 " users.email = 'a@b.c' " = Ok tt)).
Proof.
  apply (parse_returns_validated Config.nfkc_ascii Config.DANGEROUS_SQL_KEYWORDS
           Config.DANGEROUS_PG_FUNCTIONS (fun s => s) 4300 " users.email = 'a@b.c' ").
  vm_compute. reflexivity.
Defined.

Lemma keyword_named_column_is_refused_witness :
  SeedProcessing._process_seed MemoryAdapter.shop_schema
    (adapter := MemoryAdapter.adapter MemoryAdapter.shop)
    Config.nfkc_ascii Config.DANGEROUS_SQL_KEYWORDS Config.DANGEROUS_PG_FUNCTIONS
    (PostgreSQLSeedRows.fetch_rows Config.nfkc_ascii Config.DANGEROUS_SQL_KEYWORDS
       Config.DANGEROUS_PG_FUNCTIONS (fun _ => inl []))
    3 Graph.UP ∅ [] 100
    (SeedSpec.mk "orders" (Some "copy") (PInt 1) None)
  = Raise (InsecureWhereClauseError ("orders" +:+ ":" +:+ "copy" +:+ " = %s")
             (Str.upper "copy")).
Proof.
  apply (keyword_named_column_is_refused MemoryAdapter.shop_schema
           (MemoryAdapter.adapter MemoryAdapter.shop)
           Config.nfkc_ascii Config.DANGEROUS_SQL_KEYWORDS Config.DANGEROUS_PG_FUNCTIONS
           (fun _ => inl []) 3 Graph.UP ∅ [] 100 "orders" "copy" (PInt 1)).
  - reflexivity.
  - vm_compute. reflexivity.
  - vm_compute. reflexivity.
  - unfold Config.DANGEROUS_SQL_KEYWORDS. cbn. repeat constructor.
  - reflexivity.
Defined.

Lemma process_seed_includes_seed_rows_witness :
  let process :=
    SeedProcessing._process_seed MemoryAdapter.shop_schema
      (adapter := MemoryAdapter.adapter MemoryAdapter.shop)
      Config.nfkc_ascii Config.DANGEROUS_SQL_KEYWORDS Config.DANGEROUS_PG_FUNCTIONS
      (fun _ _ _ => Ok [[("id", PInt 1); ("user_id", PInt 1)]])
      3 Graph.BOTH ∅ [] 102 in
  let seed := SeedSpec.mk "orders" (Some "id") (PInt 1) None in
  (get_table MemoryAdapter.shop_schema (SeedSpec.table seed) = None ->
   process seed = Raise (TableNotFoundError (SeedSpec.table seed)))
  /\ (forall table_info clause rows,
        get_table MemoryAdapter.shop_schema (SeedSpec.table seed) = Some table_info ->
        SeedSpec.to_where_clause Config.nfkc_ascii Config.DANGEROUS_SQL_KEYWORDS
          Config.DANGEROUS_PG_FUNCTIONS seed = Ok clause ->
        Ok [[("id", PInt 1); ("user_id", PInt 1)]] = Ok rows ->
        (rows = [] ->
         process seed = Raise (NoRowsFoundError (SeedProcessing.seed_desc seed)))
        /\ (rows <> [] ->
            (forall row_data col,
               row_data ∈ rows -> col ∈ primary_key table_info ->
               is_Some (row_get row_data col)) ->
            exists r,
              process seed = Ok r
              /\ forall row_data, row_data ∈ rows ->
                   exists pk,
                     Cycles.pk_values_of row_data (primary_key table_info) = Ok pk
                     /\ pk ∈ Graph.get_records r (SeedSpec.table seed))).
Proof.
  intros process seed.
  apply (process_seed_includes_seed_rows MemoryAdapter.shop_schema
           (adapter := MemoryAdapter.adapter MemoryAdapter.shop)
           Config.nfkc_ascii Config.DANGEROUS_SQL_KEYWORDS Config.DANGEROUS_PG_FUNCTIONS
           (fun _ _ _ => Ok [[("id", PInt 1); ("user_id", PInt 1)]])
           3 Graph.BOTH ∅ [] 102
           (MemoryAdapter.all_rows MemoryAdapter.shop MemoryAdapter.shop_schema) seed).
  - apply memory_fetches_within.
  - apply Nat.leb_le. vm_compute. reflexivity.
Defined.

(** *** The result of the in-memory path *)

Lemma dict_set_elem {A : Type} (d : list (string * A)) (key : string) (value : A)
    (item : string * A) :
  item ∈ dict_set d key value -> item = (key, value) \/ item ∈ d.
Proof.
  induction d as [|[k v] d IH]; cbn.
  - intros ->%list_elem_of_singleton. by left.
  - case_bool_decide.
    + intros [->|Hin]%elem_of_cons; [by left|]. right. by apply list_elem_of_further.
    + intros [->|Hin]%elem_of_cons; [right; apply list_elem_of_here|].
      destruct (IH Hin) as [->|Hd]; [by left|]. right. by apply list_elem_of_further.
Qed.

Lemma dict_set_map {A B : Type} (f : A -> B) (d : list (string * A)) (key : string)
    (value : A) :
  List.map (fun item => (item.1, f item.2)) (dict_set d key value)
  = dict_set (List.map (fun item => (item.1, f item.2)) d) key (f value).
Proof.
  induction d as [|[k v] d IH]; cbn; [done|].
  case_bool_decide; cbn; [done|]. by rewrite IH.
Qed.

Lemma fold_outcome_invariant {A B : Type} (g : B -> A -> ExtractionEngine.logged A)
    (Q : A -> Prop) (l : list B) :
  (forall x a a', x ∈ l -> Q a -> ExtractionEngine.outcome (g x a) = Ok a' -> Q a') ->
  forall acc,
    (forall a, ExtractionEngine.outcome acc = Ok a -> Q a) ->
    forall a,
      ExtractionEngine.outcome (List.fold_left (fun acc x => acc ≫= g x) l acc) = Ok a ->
      Q a.
Proof.
  induction l as [|x l IH]; intros Hg acc Hacc a; cbn [List.fold_left]; [by apply Hacc|].
  apply IH.
  - intros y b b' Hy. apply Hg. by apply list_elem_of_further.
  - intros b Hb. apply bind_ok_inv in Hb as (a0 & Ha0 & Hb & _).
    eapply Hg; [apply list_elem_of_here|by apply Hacc|done].
Qed.

Section InMemoryPath.

Variable config : ExtractionEngine.ExtractConfig.
Variable schema : SchemaGraph.
Variable fetch_by_pk : string -> list string -> Graph.pk_set -> list row.
Variable anonymizer : option (string -> row -> row).
Variable _stream_table :
  string -> Table -> Graph.pk_set -> option (gset string) -> nat.
Variable format_report : Validation.ValidationResult -> string.

#[local] Abbreviation outcome := ExtractionEngine.outcome.

#[local] Abbreviation fetched_from :=
  (Invariants.fetched_from schema fetch_by_pk anonymizer).

Lemma fetch_tables_consistent all_records tables_data table_stats :
  outcome (ExtractionEngine.fetch_tables schema fetch_by_pk anonymizer all_records)
  = Ok (tables_data, table_stats) ->
  table_stats = List.map (fun item => (item.1, length item.2)) tables_data
  /\ forall item, item ∈ tables_data -> fetched_from all_records item.
Proof.
  unfold ExtractionEngine.fetch_tables. cbv zeta.
  intros Hfetch. apply bind_ok_inv in Hfetch as ([[i td] ts] & Hfold & Hret & _).
  cbn in Hret. injection Hret as <- <-.
  revert Hfold.
  apply (fold_outcome_invariant
           (fun (item : string * Graph.pk_set)
                (st : nat * list (string * list row) * list (string * nat)) =>
              let '(i, tables_data, table_stats) := st in
              let '(table, pk_values) := item in
              if bool_decide (pk_values = ∅)
              then mret (S i, tables_data, table_stats)
              else
                match get_table schema table with
                | None => mret (S i, tables_data, table_stats)
                | Some table_info =>
                    _ ← ExtractionEngine._log "fetch"
                          ("Fetching " +:+ Str.of_nat (size pk_values)
                           +:+ " rows from " +:+ table) (S i) (length all_records);
                    let rows :=
                      ExtractionEngine._anonymize_table_data anonymizer table
                        (fetch_by_pk table (primary_key table_info) pk_values) in
                    mret (S i, dict_set tables_data table rows,
                          dict_set table_stats table (length rows))
                end)
           (fun st =>
              st.2 = List.map (fun item => (item.1, length item.2)) st.1.2
              /\ forall item, item ∈ st.1.2 -> fetched_from all_records item)).
  - intros [table pk_values] [[i0 td0] ts0] [[i1 td1] ts1] Hin [Hstats Hrows].
    cbn [fst snd] in *.
    case_bool_decide as Hempty; [by intros [= <- <- <-]|].
    destruct (get_table schema table) as [table_info|] eqn:Hinfo;
      [|by intros [= <- <- <-]].
    intros Hstep. apply bind_ok_inv in Hstep as ([] & _ & Hstep & _).
    cbn in Hstep. injection Hstep as <- <- <-. cbn [fst snd]. split.
    + rewrite (dict_set_map (@length row)). by rewrite <- Hstats.
    + intros item [->|Hold]%dict_set_elem; [|by apply Hrows].
      exists pk_values, table_info. done.
  - intros [[i0 td0] ts0]. cbn. intros [= <- <- <-]. split; [done|].
    intros item Hin. by apply elem_of_nil in Hin.
Qed.

(** On the in-memory path, a result that [_do_extract] returns is
    consistent: [stats] lists the tables of [tables] in the same order, each
    with the number of its rows; every table of [tables] is a table of the
    schema for which keys were selected, with its fetched rows after
    anonymization; the insert order and the broken foreign keys are those
    of the sort; the deferred updates are those built from [tables] (none
    without broken foreign keys); and a validation result is attached
    exactly when [validate] is set. *)
Theorem in_memory_result_is_consistent all_records order broken infos all_paths r :
  ExtractionEngine._should_use_streaming config
    (ExtractionEngine.total_rows_estimate all_records) = false ->
  outcome (ExtractionEngine._do_extract config schema fetch_by_pk anonymizer
             _stream_table format_report all_records order broken infos all_paths)
  = Ok r ->
  ExtractionEngine.stats r
  = List.map (fun item => (item.1, length item.2)) (ExtractionEngine.tables r)
  /\ (forall item, item ∈ ExtractionEngine.tables r -> fetched_from all_records item)
  /\ ExtractionEngine.insert_order r = order
  /\ ExtractionEngine.broken_fks r = broken
  /\ (if bool_decide (broken = []) then ExtractionEngine.deferred_updates r = []
      else Cycles.build_deferred_updates broken (ExtractionEngine.tables r) schema
           = Ok (ExtractionEngine.deferred_updates r))
  /\ (ExtractionEngine.validation_result r = None
      <-> ExtractionEngine.validate config = false).
Proof.
  intros Hmemory. unfold ExtractionEngine._do_extract. cbv zeta. rewrite Hmemory.
  intros Hrun.
  apply bind_ok_inv in Hrun as ([] & _ & Hrun & _).
  apply bind_ok_inv in Hrun as ([tables_data table_stats] & Hfetch & Hrun & _).
  apply fetch_tables_consistent in Hfetch as [Hstats Hrows].
  apply bind_ok_inv in Hrun as (deferred & Hdeferred & Hrun & _).
  apply bind_ok_inv in Hrun as ([] & _ & Hrun & _).
  apply bind_ok_inv in Hrun as (vr & Hvr & Hrun & _).
  cbn in Hrun. injection Hrun as <-. cbn.
  split_and!; try done.
  - case_bool_decide as Hbroken.
    + cbn in Hdeferred. by injection Hdeferred as <-.
    + apply bind_ok_inv in Hdeferred as ([] & _ & Hdeferred & _).
      apply bind_ok_inv in Hdeferred as (built & Hbuilt & Hdeferred & _).
      apply bind_ok_inv in Hdeferred as ([] & _ & Hdeferred & _).
      cbn in Hdeferred, Hbuilt. injection Hdeferred as <-. exact Hbuilt.
  - unfold ExtractionEngine.validation_phase in Hvr.
    destruct (ExtractionEngine.validate config).
    + split; [|done]. intros ->.
      apply bind_ok_inv in Hvr as ([] & _ & Hvr & _).
      apply bind_ok_inv in Hvr as (checked & _ & Hvr & _).
      destruct (Validation.is_valid checked).
      * apply bind_ok_inv in Hvr as ([] & _ & Hvr & _). cbn in Hvr. discriminate.
      * apply bind_ok_inv in Hvr as ([] & _ & Hvr & _).
        destruct (ExtractionEngine.fail_on_validation_error config); cbn in Hvr;
          discriminate.
    + cbn in Hvr. by injection Hvr as <-.
Qed.

End InMemoryPath.

Lemma in_memory_result_is_consistent_witness :
  let config :=
    {| ExtractionEngine.output_file := None;
       ExtractionEngine.validate := false;
       ExtractionEngine.fail_on_validation_error := false;
       ExtractionEngine.stream := false;
       ExtractionEngine.streaming_threshold := 50000 |} in
  let r :=
    {| ExtractionEngine.tables := [("orders", [[("id", PInt 1); ("user_id", PInt 1)]])];
       ExtractionEngine.insert_order := ["orders"];
       ExtractionEngine.stats := [("orders", 1)];
       ExtractionEngine.traversal_path := [];
       ExtractionEngine.has_cycles := false;
       ExtractionEngine.broken_fks := [];
       ExtractionEngine.deferred_updates := [];
       ExtractionEngine.cycle_infos := [];
       ExtractionEngine.validation_result := None |} in
  ExtractionEngine.stats r
  = List.map (fun item => (item.1, length item.2)) (ExtractionEngine.tables r)
  /\ (forall item, item ∈ ExtractionEngine.tables r ->
        Invariants.fetched_from MemoryAdapter.shop_schema
          ExtractionEngine.shop_fetch_by_pk None ExtractionEngine.orders_only item)
  /\ ExtractionEngine.insert_order r = ["orders"]
  /\ ExtractionEngine.broken_fks r = []
  /\ (if bool_decide (@nil ForeignKey = []) then ExtractionEngine.deferred_updates r = []
      else Cycles.build_deferred_updates [] (ExtractionEngine.tables r)
             MemoryAdapter.shop_schema
           = Ok (ExtractionEngine.deferred_updates r))
  /\ (ExtractionEngine.validation_result r = None
      <-> ExtractionEngine.validate config = false).
Proof.
  intros config r.
  apply (in_memory_result_is_consistent config MemoryAdapter.shop_schema
           ExtractionEngine.shop_fetch_by_pk None ExtractionEngine.count_rows
           ExtractionEngine.no_report ExtractionEngine.orders_only
           ["orders"] [] [] [] r).
  - reflexivity.
  - vm_compute. reflexivity.
Defined.
(** ** The topological sorter on an acyclic graph *)

Section SorterOrder.

#[local] Abbreviation _node2info := Graphlib._node2info.
#[local] Abbreviation _node_order := Graphlib._node_order.

(** The keys of [_node2info] are the nodes of [_node_order], each once. *)
#[local] Abbreviation listed ts :=
  (Graphlib._npassedout ts = Graphlib._nfinished ts
   /\ NoDup (_node_order ts)
   /\ forall x, x ∈ _node_order ts <-> is_Some (_node2info ts !! x)).

Lemma listed_get_nodeinfo ts node :
  listed ts ->
  listed (Graphlib._get_nodeinfo ts node).2
  /\ is_Some (_node2info (Graphlib._get_nodeinfo ts node).2 !! node).
Proof.
  intros (Hcounters & Hnd & Hkeys). unfold Graphlib._get_nodeinfo.
  destruct (_node2info ts !! node) as [info|] eqn:Hnode; cbn.
  - split; [done|]. by rewrite Hnode.
  - split; [|by rewrite lookup_insert_eq]. split; [done|]. split.
    + apply NoDup_app. split_and!; [done| |apply NoDup_singleton].
      intros x Hx ->%list_elem_of_singleton. apply Hkeys in Hx.
      rewrite Hnode in Hx. by destruct Hx.
    + intros x. rewrite elem_of_app, list_elem_of_singleton, Hkeys.
      destruct (decide (node = x)) as [->|Hne].
      * rewrite lookup_insert_eq. split; [by eexists|by right].
      * rewrite lookup_insert_ne by done. split; [|by left].
        intros [?|?]; [done|congruence].
Qed.

Lemma listed_set_info ts node info :
  listed ts -> is_Some (_node2info ts !! node) ->
  listed (Graphlib.set_info ts node info).
Proof.
  intros (Hcounters & Hnd & Hkeys) Hnode. split; [done|]. split; [done|].
  intros x. cbn. rewrite Hkeys.
  destruct (decide (node = x)) as [->|Hne].
  - rewrite lookup_insert_eq. split; [by eexists|done].
  - by rewrite lookup_insert_ne.
Qed.

Lemma listed_add ts node predecessors :
  listed ts -> listed (Graphlib.add ts node predecessors).
Proof.
  intros Hts. unfold Graphlib.add.
  destruct (listed_get_nodeinfo ts node Hts) as [H1 Hnode].
  destruct (Graphlib._get_nodeinfo ts node) as [nodeinfo ts1]. cbn [snd] in H1, Hnode.
  match goal with
  | |- context [List.fold_left ?f predecessors ?ts2] =>
      assert (listed ts2) as H2 by (by apply listed_set_info);
      generalize dependent ts2
  end.
  induction predecessors as [|pred preds IH]; intros ts2 H2; cbn [List.fold_left];
    [done|].
  apply IH.
  destruct (listed_get_nodeinfo ts2 pred H2) as [H3 Hpred].
  destruct (Graphlib._get_nodeinfo ts2 pred) as [pred_info ts3]. cbn [snd] in H3, Hpred.
  by apply listed_set_info.
Qed.

Lemma listed_new graph : listed (Graphlib.new graph).
Proof.
  unfold Graphlib.new.
  assert (listed Graphlib.empty_sorter) as Hempty.
  { split; [done|]. split; [apply NoDup_nil_2|].
    intros x. cbn. rewrite lookup_empty. split.
    - by intros ?%elem_of_nil.
    - by intros [? ?]. }
  generalize dependent Graphlib.empty_sorter.
  induction graph as [|item graph IH]; intros ts Hts; cbn [List.fold_left]; [done|].
  apply IH. by apply listed_add.
Qed.

Lemma wired_new graph : Invariants.wired graph (Graphlib.new graph).
Proof.
  destruct (listed_new graph) as (_ & Hnd & Hkeys).
  destruct (built_new graph) as [Hsome Hnone].
  split_and!; [done|done| |].
  - intros p info s Hp. destruct (Hsome p info Hp) as [_ Hcount].
    rewrite Hcount. case_bool_decide; cbn; lia.
  - intros s p Hp. split.
    + destruct (_node2info (Graphlib.new graph) !! p) eqn:Hl; [by eexists|].
      destruct (Hnone p Hl) as (_ & Hzero & _). specialize (Hzero s).
      apply count_pos_elem_of in Hp. lia.
    + destruct (_node2info (Graphlib.new graph) !! s) eqn:Hl; [by eexists|].
      destruct (Hnone s Hl) as (Hempty & _). rewrite Hempty in Hp.
      by apply elem_of_nil in Hp.
Qed.

End SorterOrder.

Section SorterRun.

#[local] Abbreviation deps_of := Graphlib.deps_of.
#[local] Abbreviation _node2info := Graphlib._node2info.
#[local] Abbreviation _node_order := Graphlib._node_order.
#[local] Abbreviation _ready_nodes := Graphlib._ready_nodes.
#[local] Abbreviation npredecessors := Graphlib.npredecessors.
#[local] Abbreviation successors := Graphlib.successors.
#[local] Abbreviation undone := Invariants.undone.
#[local] Abbreviation wired := Invariants.wired.
#[local] Abbreviation settled := Invariants.settled.
#[local] Abbreviation count := (count_occ String.string_dec).

(** The second sorter has the nodes and the links of the first. *)
#[local] Abbreviation same_links ts ts' :=
  (_node_order ts' = _node_order ts
   /\ forall x, successors <$> (_node2info ts' !! x)
                = successors <$> (_node2info ts !! x)).

Variable graph : list (string * list string).

Lemma same_links_known (ts ts' : Graphlib.sorter) x :
  same_links ts ts' ->
  is_Some (_node2info ts' !! x) <-> is_Some (_node2info ts !! x).
Proof.
  intros [_ Hlinks]. specialize (Hlinks x).
  destruct (_node2info ts' !! x), (_node2info ts !! x); try done; split; by eexists.
Qed.

Lemma wired_same (ts ts' : Graphlib.sorter) :
  same_links ts ts' -> wired graph ts -> wired graph ts'.
Proof.
  intros Hsame (Hnd & Hkeys & Hsucc & Hknown).
  pose proof Hsame as [Horder Hlinks].
  split_and!.
  - by rewrite Horder.
  - intros x. by rewrite Horder, Hkeys, (same_links_known ts ts' x Hsame).
  - intros p info s Hp. specialize (Hlinks p). rewrite Hp in Hlinks.
    destruct (_node2info ts !! p) as [info0|] eqn:Hp0; [|done].
    cbn in Hlinks. injection Hlinks as ->. by eapply Hsucc.
  - intros s p Hp. rewrite !(same_links_known ts ts' _ Hsame). by apply Hknown.
Qed.

Lemma undone_empty (l : list string) : undone ∅ l = length l.
Proof.
  unfold Invariants.undone. induction l as [|x l IH]; cbn; [done|].
  rewrite bool_decide_eq_false_2 by set_solver. cbn. by rewrite IH.
Qed.

Lemma undone_pos (D : gset string) (l : list string) :
  0 < undone D l -> exists q, q ∈ l /\ q ∉ D.
Proof.
  unfold Invariants.undone. induction l as [|x l IH]; cbn; [lia|].
  case_bool_decide as Hx; cbn.
  - intros (q & Hq & HqD)%IH. exists q. split; [by apply list_elem_of_further|done].
  - intros _. exists x. split; [apply list_elem_of_here|done].
Qed.

Lemma NoDup_List_filter {A : Type} (f : A -> bool) (l : list A) :
  NoDup l -> NoDup (List.filter f l).
Proof.
  induction 1 as [|x l Hx Hnd IH]; cbn; [constructor|].
  destruct (f x); [|done]. constructor; [|done].
  rewrite list_elem_of_In, List.filter_In, <- list_elem_of_In. by intros [? _].
Qed.

Lemma count_zero_not_elem (l : list string) (s : string) : s ∉ l -> count l s = 0.
Proof. rewrite list_elem_of_In. apply count_occ_not_In. Qed.

(** After [prepare] the counters are those of the graph. *)
Lemma settled_prepare ts :
  Graphlib.prepare (Graphlib.new graph) = Ok ts ->
  settled graph ∅ [] [] 0 ts /\ wired graph ts.
Proof.
  unfold Graphlib.prepare.
  match goal with |- (cycle ← ?c; _) = _ -> _ => destruct c as [[cycle|]|e] end;
    cbn; try discriminate.
  intros [= <-].
  destruct (built_new graph) as [Hin _].
  pose proof (wired_new graph) as Hwired.
  destruct (listed_new graph) as (Hcounters & Hnd & Hkeys).
  split; [|by apply (wired_same (Graphlib.new graph))].
  split_and!; cbn [Graphlib._node2info Graphlib._ready_nodes Graphlib._nfinished
                   Graphlib._npassedout].
  - intros s info Hs _. destruct (Hin s info Hs) as [-> _].
    rewrite undone_empty. cbn. split_and!; [f_equal; lia|set_solver|].
    by intros ?%elem_of_nil.
  - intros s info Hs Hneg. destruct (Hin s info Hs) as [Hlen _]. lia.
  - intros s. rewrite list_elem_of_In, List.filter_In, <- list_elem_of_In, Hkeys.
    split.
    + intros [[info Hs] Hzero]. rewrite Hs in Hzero. exists info.
      split; [done|]. by apply Z.eqb_eq.
    + intros (info & Hs & Hzero). split; [by eexists|]. rewrite Hs. by apply Z.eqb_eq.
  - by apply NoDup_List_filter.
  - apply NoDup_nil_2.
  - by intros g ?%elem_of_nil.
  - by intros d ?%elem_of_empty.
  - cbn. lia.
Qed.

Lemma settled_get_ready D ts :
  settled graph D [] [] 0 ts ->
  settled graph D (_ready_nodes ts) [] 0 (Graphlib.get_ready ts).2
  /\ (Graphlib.get_ready ts).1 = _ready_nodes ts
  /\ same_links ts (Graphlib.get_ready ts).2.
Proof.
  intros (Hcount & Hneg & Hready & Hnd & _ & _ & Hknown & Hcounters).
  split; [|split; [done|]].
  - unfold Graphlib.get_ready. cbn [snd].
    split_and!; cbn [Graphlib._node2info Graphlib._ready_nodes Graphlib._nfinished
                     Graphlib._npassedout].
    + intros s info. rewrite mark_out_lookup.
      destruct (_node2info ts !! s) as [sinfo|] eqn:Hs; [|discriminate].
      intros [= <-]. case_bool_decide as Hgroup; cbn; [unfold Graphlib._NODE_OUT; lia|].
      intros Hnonneg. destruct (Hcount s sinfo Hs Hnonneg) as (Heq & HsD & _).
      done.
    + intros s info. rewrite mark_out_lookup.
      destruct (_node2info ts !! s) as [sinfo|] eqn:Hs; [|discriminate].
      intros [= <-]. case_bool_decide as Hgroup; cbn.
      * intros _. split; [done|].
        apply Hready in Hgroup as Hzero. destruct Hzero as (info & Hinfo & Hzero).
        assert (info = sinfo) as -> by congruence.
        destruct (Hcount s sinfo Hs ltac:(lia)) as (Heq & HsD & _).
        split; [by right|]. apply (undone_zero D). lia.
      * intros Hlt. destruct (Hneg s sinfo Hs Hlt) as (_ & [Hdone|[Hin _]] & Hdeps).
        -- split; [done|]. split; [by left|done].
        -- by apply elem_of_nil in Hin.
    + intros s. split; [by intros ?%elem_of_nil|].
      intros (info & Hinfo & Hzero). rewrite mark_out_lookup in Hinfo.
      destruct (_node2info ts !! s) as [sinfo|] eqn:Hs; [|discriminate].
      injection Hinfo as <-. case_bool_decide as Hgroup; cbn in Hzero.
      * unfold Graphlib._NODE_OUT in Hzero. lia.
      * exfalso. apply Hgroup, Hready. by exists sinfo.
    + apply NoDup_nil_2.
    + exact Hnd.
    + intros g Hg. apply Hready in Hg as Hzero. destruct Hzero as (info & Hinfo & Hzero).
      destruct (Hcount g info Hinfo ltac:(lia)) as (_ & HgD & _).
      split; [done|]. rewrite mark_out_lookup, Hinfo.
      rewrite bool_decide_eq_true_2 by done. by eexists.
    + intros d Hd. rewrite mark_out_lookup.
      destruct (Hknown d Hd) as [info ->]. by eexists.
    + cbn in Hcounters. lia.
  - unfold Graphlib.get_ready. cbn [snd Graphlib._node_order Graphlib._node2info].
    split; [done|]. intros x. rewrite mark_out_lookup.
    destruct (_node2info ts !! x) as [info|]; [|done]. cbn.
    by case_bool_decide.
Qed.


(** One step of the loop over the successors in [done]. *)
#[local] Abbreviation visit :=
  (fun (acc : result Graphlib.sorter) (successor : string) =>
     ts ← acc;
     match _node2info ts !! successor with
     | None => Raise (KeyError successor)
     | Some successor_info =>
         let n := (npredecessors successor_info - 1)%Z in
         let ts' :=
           Graphlib.set_info ts successor
             {| Graphlib.npredecessors := n;
                Graphlib.successors := successors successor_info |} in
         Ok (if (n =? 0)%Z
             then {| Graphlib._node_order := Graphlib._node_order ts';
                     Graphlib._node2info := _node2info ts';
                     Graphlib._ready_nodes := _ready_nodes ts' ++ [successor];
                     Graphlib._npassedout := Graphlib._npassedout ts';
                     Graphlib._nfinished := Graphlib._nfinished ts' |}
             else ts')
     end).

Lemma settled_visit D todo s pending ts sinfo :
  settled graph D todo (s :: pending) 1 ts ->
  _node2info ts !! s = Some sinfo ->
  exists ts',
    visit (Ok ts) s = Ok ts'
    /\ settled graph D todo pending 1 ts'
    /\ same_links ts ts'.
Proof.
  intros (Hcount & Hneg & Hready & Hnd & Hndtodo & Htodo & Hknown & Hcounters) Hs.
  cbn [mbind result_bind]. rewrite Hs. cbv zeta.
  assert (Hnonneg : (0 <= npredecessors sinfo)%Z).
  { destruct (Z.lt_ge_cases (npredecessors sinfo) 0) as [Hlt|Hge]; [|done].
    destruct (Hneg s sinfo Hs Hlt) as (Hzero & _). cbn in Hzero.
    destruct (String.string_dec s s); [lia|done]. }
  destruct (Hcount s sinfo Hs Hnonneg) as (Hvalue & HsD & Hstodo).
  assert (Hself : count (s :: pending) s = S (count pending s)).
  { cbn. by destruct (String.string_dec s s). }
  assert (Hother : forall t, t <> s -> count (s :: pending) t = count pending t).
  { intros t Hne. cbn. by destruct (String.string_dec s t). }
  set (n := (npredecessors sinfo - 1)%Z).
  assert (Hn : n = Z.of_nat (undone D (deps_of graph s) + count pending s)).
  { subst n. rewrite Hvalue, Hself. lia. }
  set (new_info := {| Graphlib.npredecessors := n;
                      Graphlib.successors := successors sinfo |}).
  assert (Hnot_ready : s ∉ _ready_nodes ts).
  { intros (info & Hinfo & Hzero)%Hready. assert (info = sinfo) as -> by congruence.
    rewrite Hvalue, Hself in Hzero. lia. }
  assert (Hbase :
    (forall t info, <[s := new_info]> (_node2info ts) !! t = Some info ->
       (0 <= npredecessors info)%Z ->
       npredecessors info
       = Z.of_nat (undone D (deps_of graph t) + count pending t)
       /\ t ∉ D /\ t ∉ todo)
    /\ (forall t info, <[s := new_info]> (_node2info ts) !! t = Some info ->
          (npredecessors info < 0)%Z ->
          count pending t = 0
          /\ ((t ∈ D /\ npredecessors info = Graphlib._NODE_DONE)
              \/ (t ∈ todo /\ npredecessors info = Graphlib._NODE_OUT))
          /\ forall q, q ∈ deps_of graph t -> q ∈ D)
    /\ (forall g, g ∈ todo ->
          g ∉ D /\ exists info, <[s := new_info]> (_node2info ts) !! g = Some info
                                /\ npredecessors info = Graphlib._NODE_OUT)
    /\ (forall d, d ∈ D -> is_Some (<[s := new_info]> (_node2info ts) !! d))
    /\ (forall x, successors <$> (<[s := new_info]> (_node2info ts) !! x)
                  = successors <$> (_node2info ts !! x))).
  { split_and!.
    - intros t info. destruct (decide (s = t)) as [<-|Hne].
      + rewrite lookup_insert_eq. intros [= <-] _. done.
      + rewrite lookup_insert_ne by done. intros Ht Hge.
        destruct (Hcount t info Ht Hge) as (Heq & ? & ?).
        rewrite Hother in Heq by done. done.
    - intros t info. destruct (decide (s = t)) as [<-|Hne].
      + rewrite lookup_insert_eq. intros [= <-]. cbn. lia.
      + rewrite lookup_insert_ne by done. intros Ht Hlt.
        destruct (Hneg t info Ht Hlt) as (Hzero & ? & ?).
        rewrite Hother in Hzero by done. done.
    - intros g Hg. destruct (Htodo g Hg) as (HgD & info & Hinfo & Hout).
      split; [done|]. exists info. split; [|done].
      rewrite lookup_insert_ne; [done|]. by intros <-.
    - intros d Hd. rewrite lookup_insert_ne; [by apply Hknown|]. by intros <-.
    - intros x. destruct (decide (s = x)) as [<-|Hne].
      + by rewrite lookup_insert_eq, Hs.
      + by rewrite lookup_insert_ne. }
  destruct Hbase as (B1 & B2 & B3 & B4 & B5).
  fold n new_info. destruct (Z.eqb_spec n 0) as [Hz|Hnz].
  - eexists. split; [reflexivity|]. split; [|by split].
    split_and!; cbn [Graphlib._node2info Graphlib._ready_nodes Graphlib.set_info
                     Graphlib._nfinished Graphlib._npassedout];
      [exact B1|exact B2| | |done|exact B3|exact B4|done].
    + intros t. rewrite elem_of_app, list_elem_of_singleton.
      destruct (decide (s = t)) as [<-|Hne].
      * rewrite lookup_insert_eq. split; [|by right]. intros _. by exists new_info.
      * rewrite lookup_insert_ne by done. rewrite Hready. split; [|by left].
        intros [?|?]; [done|congruence].
    + apply NoDup_app. split_and!; [done| |apply NoDup_singleton].
      by intros x Hx ->%list_elem_of_singleton.
  - eexists. split; [reflexivity|]. split; [|by split].
    split_and!; cbn [Graphlib._node2info Graphlib._ready_nodes Graphlib.set_info
                     Graphlib._nfinished Graphlib._npassedout];
      [exact B1|exact B2| |done|done|exact B3|exact B4|done].
    intros t. destruct (decide (s = t)) as [<-|Hne].
    + rewrite lookup_insert_eq. split; [done|].
      intros (info & [= <-] & Hzero). done.
    + rewrite lookup_insert_ne by done. apply Hready.
Qed.

Lemma settled_successors D todo (pending : list string) : forall ts,
  settled graph D todo pending 1 ts ->
  (forall s, s ∈ pending -> is_Some (_node2info ts !! s)) ->
  exists ts',
    List.fold_left visit pending (Ok ts) = Ok ts'
    /\ settled graph D todo [] 1 ts'
    /\ same_links ts ts'.
Proof.
  induction pending as [|s pending IH]; intros ts Hsettled Hknown;
    cbn [List.fold_left].
  - exists ts. done.
  - destruct (Hknown s ltac:(apply list_elem_of_here)) as [sinfo Hs].
    destruct (settled_visit D todo s pending ts sinfo Hsettled Hs)
      as (ts1 & Hvisit & Hsettled1 & Hsame1).
    match goal with
    | |- context [List.fold_left _ pending ?start] =>
        replace start with (Ok ts1 : result Graphlib.sorter)
          by (symmetry; exact Hvisit)
    end.
    destruct (IH ts1 Hsettled1) as (ts2 & Hfold & Hsettled2 & Hsame2).
    { intros t Ht. apply (same_links_known ts ts1 t Hsame1), Hknown.
      by apply list_elem_of_further. }
    exists ts2. split; [done|]. split; [done|].
    destruct Hsame1 as [Ho1 Hl1], Hsame2 as [Ho2 Hl2]. split; [congruence|].
    intros x. by rewrite Hl2, Hl1.
Qed.

Lemma done_one_passed_out ts p pinfo :
  _node2info ts !! p = Some pinfo ->
  npredecessors pinfo = Graphlib._NODE_OUT ->
  Graphlib.done_one ts p
  = (ts2 ← List.fold_left visit (successors pinfo)
             (Ok (Graphlib.set_info ts p
                    {| Graphlib.npredecessors := Graphlib._NODE_DONE;
                       Graphlib.successors := successors pinfo |}));
     Ok {| Graphlib._node_order := _node_order ts2;
           Graphlib._node2info := _node2info ts2;
           Graphlib._ready_nodes := _ready_nodes ts2;
           Graphlib._npassedout := Graphlib._npassedout ts2;
           Graphlib._nfinished := S (Graphlib._nfinished ts2) |}).
Proof.
  intros Hp Hout. unfold Graphlib.done_one. rewrite Hp. cbv zeta. rewrite Hout.
  reflexivity.
Qed.

Lemma settled_done_one D p todo ts :
  settled graph D (p :: todo) [] 0 ts ->
  wired graph ts ->
  exists ts',
    Graphlib.done_one ts p = Ok ts'
    /\ settled graph ({[p]} ∪ D) todo [] 0 ts'
    /\ same_links ts ts'.
Proof.
  intros (Hcount & Hneg & Hready & Hnd & Hndtodo & Htodo & Hknown & Hcounters)
         (_ & _ & Hsucc & Hnodes).
  destruct (Htodo p ltac:(apply list_elem_of_here)) as (HpD & pinfo & Hp & Hout).
  apply NoDup_cons in Hndtodo as [Hptodo Hndtodo].
  assert (Hpdeps : forall q, q ∈ deps_of graph p -> q ∈ D).
  { apply (Hneg p pinfo Hp). rewrite Hout. unfold Graphlib._NODE_OUT. lia. }
  rewrite (done_one_passed_out ts p pinfo Hp Hout).
  set (done_info := {| Graphlib.npredecessors := Graphlib._NODE_DONE;
                       Graphlib.successors := successors pinfo |}).
  destruct (settled_successors ({[p]} ∪ D) todo (successors pinfo)
              (Graphlib.set_info ts p done_info))
    as (ts2 & Hfold & Hsettled2 & Hsame2).
  { split_and!; cbn [Graphlib._node2info Graphlib._ready_nodes Graphlib.set_info
                     Graphlib._nfinished Graphlib._npassedout].
    - intros s info. destruct (decide (p = s)) as [<-|Hne].
      + rewrite lookup_insert_eq. intros [= <-]. cbn. unfold Graphlib._NODE_DONE. lia.
      + rewrite lookup_insert_ne by done. intros Hs Hge.
        destruct (Hcount s info Hs Hge) as (Heq & HsD & Hstodo).
        rewrite Heq, (Hsucc p pinfo s Hp), (undone_add D p) by done.
        split_and!; [f_equal; cbn; lia|set_solver|].
        intros Hin. apply Hstodo. by apply list_elem_of_further.
    - intros s info. destruct (decide (p = s)) as [<-|Hne].
      + rewrite lookup_insert_eq. intros [= <-] _. split_and!.
        * rewrite (Hsucc p pinfo p Hp). apply count_zero_not_elem.
          intros Hin. by apply HpD, Hpdeps.
        * left. split; [set_solver|done].
        * intros q Hq. apply elem_of_union_r. by apply Hpdeps.
      + rewrite lookup_insert_ne by done. intros Hs Hlt.
        destruct (Hneg s info Hs Hlt) as (_ & Hstate & Hdeps). split_and!.
        * rewrite (Hsucc p pinfo s Hp). apply count_zero_not_elem.
          intros Hin. by apply HpD, Hdeps.
        * destruct Hstate as [[HsD Hdone]|[Hstodo Hsout]].
          -- left. split; [set_solver|done].
          -- right. split; [|done].
             apply elem_of_cons in Hstodo as [->|?]; [done|done].
        * intros q Hq. apply elem_of_union_r. by apply Hdeps.
    - intros s. rewrite Hready. destruct (decide (p = s)) as [<-|Hne].
      + rewrite lookup_insert_eq. split.
        * intros (info & Hinfo & Hzero). assert (info = pinfo) as -> by congruence.
          rewrite Hout in Hzero. unfold Graphlib._NODE_OUT in Hzero. lia.
        * intros (info & [= <-] & Hzero). cbn in Hzero.
          unfold Graphlib._NODE_DONE in Hzero. lia.
      + by rewrite lookup_insert_ne.
    - done.
    - done.
    - intros g Hg. destruct (Htodo g ltac:(by apply list_elem_of_further))
        as (HgD & info & Hinfo & Hgout).
      assert (g <> p) by (by intros ->).
      split; [set_solver|]. exists info. split; [|done]. by rewrite lookup_insert_ne.
    - intros d Hd. destruct (decide (p = d)) as [<-|Hne].
      + rewrite lookup_insert_eq. by eexists.
      + rewrite lookup_insert_ne by done. apply Hknown. set_solver.
    - cbn in Hcounters. lia. }
  { intros s Hs. cbn. destruct (decide (p = s)) as [<-|Hne].
    - rewrite lookup_insert_eq. by eexists.
    - rewrite lookup_insert_ne by done.
      apply count_pos_elem_of in Hs. rewrite (Hsucc p pinfo s Hp) in Hs.
      apply count_pos_elem_of in Hs. by apply (Hnodes s p). }
  rewrite Hfold. cbn [mbind result_bind].
  eexists. split; [reflexivity|].
  destruct Hsettled2 as (C1 & C2 & C3 & C4 & C5 & C6 & C7 & C8).
  split.
  - split_and!; cbn [Graphlib._node2info Graphlib._ready_nodes
                     Graphlib._nfinished Graphlib._npassedout]; try done.
    lia.
  - destruct Hsame2 as [Ho2 Hl2]. split; [done|]. intros x.
    cbn [Graphlib._node2info]. rewrite Hl2. cbn.
    destruct (decide (p = x)) as [<-|Hne].
    + by rewrite lookup_insert_eq, Hp.
    + by rewrite lookup_insert_ne.
Qed.

Lemma settled_done (todo : list string) : forall D ts,
  settled graph D todo [] 0 ts ->
  wired graph ts ->
  exists ts',
    Graphlib.done ts todo = Ok ts'
    /\ settled graph (list_to_set todo ∪ D) [] [] 0 ts'
    /\ same_links ts ts'.
Proof.
  unfold Graphlib.done.
  induction todo as [|p todo IH]; intros D ts Hsettled Hwired; cbn [List.fold_left].
  - exists ts. rewrite list_to_set_nil, union_empty_l_L. done.
  - destruct (settled_done_one D p todo ts Hsettled Hwired)
      as (ts1 & Hone & Hsettled1 & Hsame1).
    cbn [mbind result_bind]. rewrite Hone.
    destruct (IH ({[p]} ∪ D) ts1 Hsettled1 (wired_same ts ts1 Hsame1 Hwired))
      as (ts2 & Hrest & Hsettled2 & Hsame2).
    exists ts2. split; [done|]. split.
    + by replace (list_to_set (p :: todo) ∪ D)
        with (list_to_set todo ∪ ({[p]} ∪ D)) by set_solver.
    + destruct Hsame1 as [Ho1 Hl1], Hsame2 as [Ho2 Hl2]. split; [congruence|].
      intros x. by rewrite Hl2, Hl1.
Qed.

(** In a finite non-empty set in which every element is related to an
    element of the set, some element is related to itself through
    others. *)
Lemma no_sink_cycle (R : relation string) (U : gset string) :
  U <> ∅ ->
  (forall u, u ∈ U -> exists v, v ∈ U /\ tc R u v) ->
  exists x, tc R x x.
Proof.
  induction U as [|x X Hx IH] using set_ind_L; [done|].
  intros _ Hnext.
  destruct (Hnext x ltac:(set_solver)) as (v0 & Hv0 & Hxv0).
  destruct (decide (v0 = x)) as [->|Hne]; [by exists x|].
  assert (v0 ∈ X) as Hv0X by set_solver.
  apply IH; [set_solver|].
  intros w Hw. destruct (Hnext w ltac:(set_solver)) as (v & Hv & Hwv).
  destruct (decide (v = x)) as [->|Hvx].
  - exists v0. split; [done|]. by etrans.
  - exists v. split; [set_solver|done].
Qed.

Lemma settled_active D ts :
  settled graph D [] [] 0 ts ->
  Graphlib.is_active ts = negb (bool_decide (_ready_nodes ts = [])).
Proof.
  intros (_ & _ & _ & _ & _ & _ & _ & Hcounters). unfold Graphlib.is_active.
  cbn in Hcounters.
  destruct (Nat.ltb_spec (Graphlib._nfinished ts) (Graphlib._npassedout ts));
    [lia|done].
Qed.

Lemma settled_out_nodes out ts x :
  wired graph ts -> settled graph (list_to_set out) [] [] 0 ts ->
  x ∈ out -> x ∈ _node_order ts.
Proof.
  intros (_ & Hkeys & _) (_ & _ & _ & _ & _ & _ & Hknown & _) Hx.
  apply Hkeys, Hknown. by apply elem_of_list_to_set.
Qed.

(** While a node is ready, not all nodes have been passed out. *)
Lemma settled_room out ts g :
  wired graph ts -> settled graph (list_to_set out) [] [] 0 ts ->
  NoDup out -> g ∈ _ready_nodes ts ->
  length out < length (_node_order ts).
Proof.
  intros Hwired Hsettled Hnd Hg.
  pose proof Hsettled as (Hcount & _ & Hready & _).
  pose proof Hwired as (_ & Hkeys & _).
  apply Hready in Hg as (info & Hinfo & Hzero).
  destruct (Hcount g info Hinfo ltac:(lia)) as (_ & HgD & _).
  assert (NoDup (g :: out)) as Hnd'.
  { apply NoDup_cons. split; [|done]. intros Hin. apply HgD.
    by apply elem_of_list_to_set. }
  assert (g :: out ⊆+ _node_order ts) as Hsub.
  { apply NoDup_submseteq; [done|]. intros x [->|Hx]%elem_of_cons.
    - apply Hkeys. by eexists.
    - by apply (settled_out_nodes out). }
  apply submseteq_length in Hsub. cbn in Hsub. lia.
Qed.

(** When no node is ready on an acyclic graph, every node has been passed
    out. *)
Lemma settled_exit out ts :
  wired graph ts -> Invariants.acyclic graph ->
  settled graph (list_to_set out) [] [] 0 ts ->
  _ready_nodes ts = [] ->
  forall x, x ∈ out <-> x ∈ _node_order ts.
Proof.
  intros Hwired Hacyclic Hsettled Hempty x.
  pose proof Hsettled as (Hcount & Hneg & Hready & _).
  pose proof Hwired as (_ & Hkeys & _ & Hnodes).
  split; [by apply settled_out_nodes|]. intros Hx.
  destruct (decide (x ∈ out)) as [?|Hxout]; [done|]. exfalso.
  set (U := list_to_set
              (List.filter (fun n => negb (bool_decide (n ∈ out))) (_node_order ts))
            : gset string).
  assert (HU : forall u, u ∈ U <-> u ∈ _node_order ts /\ u ∉ out).
  { intros u. unfold U. rewrite elem_of_list_to_set, list_elem_of_In,
      List.filter_In, <- list_elem_of_In, negb_true_iff, bool_decide_eq_false.
    done. }
  destruct (no_sink_cycle (Invariants.needs graph) U) as [c Hc].
  - intros HUe. assert (x ∈ U) as HxU by (by apply HU). set_solver.
  - intros u [Hu Huout]%HU. apply Hkeys in Hu as [info Hinfo].
    assert (HuD : u ∉ (list_to_set out : gset string))
      by (by rewrite elem_of_list_to_set).
    destruct (Z.lt_ge_cases (npredecessors info) 0) as [Hlt|Hge].
    { destruct (Hneg u info Hinfo Hlt) as (_ & [[? _]|[Hin _]] & _); [done|].
      by apply elem_of_nil in Hin. }
    destruct (Hcount u info Hinfo Hge) as (Heq & _ & _). cbn in Heq.
    destruct (undone_pos (list_to_set out) (deps_of graph u)) as (q & Hq & HqD).
    { destruct (undone (list_to_set out) (deps_of graph u)) eqn:Hund; [|lia].
      exfalso. assert (u ∈ _ready_nodes ts) as Hin.
      { apply Hready. exists info. split; [done|]. lia. }
      rewrite Hempty in Hin. by apply elem_of_nil in Hin. }
    exists q. split; [|by apply tc_once].
    apply HU. split.
    + apply Hkeys. by apply (Hnodes u q).
    + by rewrite elem_of_list_to_set in HqD.
  - by apply (Hacyclic c).
Qed.

Lemma static_order_loop_total : forall fuel out ts,
  wired graph ts ->
  Invariants.acyclic graph ->
  settled graph (list_to_set out) [] [] 0 ts ->
  NoDup out ->
  length (_node_order ts) < fuel + length out ->
  exists order,
    Graphlib.static_order_loop fuel ts out = Ok order
    /\ NoDup order
    /\ forall x, x ∈ order <-> x ∈ _node_order ts.
Proof.
  induction fuel as [|fuel IH]; intros out ts Hwired Hacyclic Hsettled Hnd Hfuel;
    cbn [Graphlib.static_order_loop];
    rewrite (settled_active _ ts Hsettled);
    destruct (_ready_nodes ts) as [|g ready] eqn:Hr.
  - cbn. exists out. split; [done|]. split; [done|]. by apply settled_exit.
  - pose proof (settled_room out ts g Hwired Hsettled Hnd) as Hroom.
    rewrite Hr in Hroom. specialize (Hroom ltac:(apply list_elem_of_here)). lia.
  - cbn. exists out. split; [done|]. split; [done|]. by apply settled_exit.
  - rewrite bool_decide_eq_false_2 by done. cbn [negb].
    pose proof Hsettled as (Hcount & _ & Hready & Hndready & _).
    destruct (settled_get_ready (list_to_set out) ts Hsettled)
      as (Hsettled1 & Hgroup & Hsame1).
    destruct (Graphlib.get_ready ts) as [node_group ts1] eqn:Hgr.
    cbn [fst snd] in Hsettled1, Hgroup, Hsame1. subst node_group.
    pose proof (wired_same ts ts1 Hsame1 Hwired) as Hwired1.
    destruct (settled_done (_ready_nodes ts) (list_to_set out) ts1 Hsettled1 Hwired1)
      as (ts2 & Hdone & Hsettled2 & Hsame2).
    rewrite Hdone. cbn [mbind result_bind].
    pose proof (wired_same ts1 ts2 Hsame2 Hwired1) as Hwired2.
    destruct (IH (out ++ _ready_nodes ts) ts2 Hwired2 Hacyclic)
      as (order & Hloop & Hndorder & Horder).
    + by replace (list_to_set (out ++ _ready_nodes ts) : gset string)
        with (list_to_set (_ready_nodes ts) ∪ list_to_set out : gset string)
        by (rewrite list_to_set_app_L; set_solver).
    + apply NoDup_app. split_and!; [done| |done].
      intros x Hx Hxr. apply Hready in Hxr as (info & Hinfo & Hzero).
      destruct (Hcount x info Hinfo ltac:(lia)) as (_ & HxD & _).
      apply HxD. by apply elem_of_list_to_set.
    + destruct Hsame1 as [Ho1 _], Hsame2 as [Ho2 _].
      rewrite Ho2, Ho1, length_app, Hr. cbn. lia.
    + exists order. split; [done|]. split; [done|].
      intros x. rewrite Horder.
      destruct Hsame1 as [Ho1 _], Hsame2 as [Ho2 _]. by rewrite Ho2, Ho1.
Qed.

End SorterRun.

(** *** The search for a cycle on an acyclic graph *)

Lemma list_sum_cons_eq (a : nat) (l : list nat) :
  list_sum (a :: l) = a + list_sum l.
Proof. reflexivity. Qed.

Section CycleSearch.

#[local] Abbreviation _node2info := Graphlib._node2info.
#[local] Abbreviation _node_order := Graphlib._node_order.
#[local] Abbreviation successors_of := Graphlib.successors_of.
#[local] Abbreviation leads := Invariants.leads.
#[local] Abbreviation trail := Invariants.trail.
#[local] Abbreviation search_left := Invariants.search_left.
#[local] Abbreviation count := (count_occ String.string_dec).

Variable graph : list (string * list string).
Variable ts : Graphlib.sorter.
Hypothesis ts_wired : Invariants.wired graph ts.
Hypothesis graph_acyclic : Invariants.acyclic graph.

Lemma find_cycle_from_unfold fuel node stack seen :
  Graphlib._find_cycle_from (S fuel) ts node stack seen
  = if bool_decide (node ∈ seen) then
      if bool_decide (node ∈ List.map fst stack) then
        Ok (Some (drop_until (fun n => bool_decide (n = node))
                    (List.rev (List.map fst stack)) ++ [node]), seen)
      else Invariants.backtrack (Graphlib._find_cycle_from fuel ts) stack seen
    else
      Invariants.backtrack (Graphlib._find_cycle_from fuel ts)
        ((node, successors_of ts node) :: stack) ({[node]} ∪ seen).
Proof. reflexivity. Qed.

(** A successor in the sorter is a node with that predecessor. *)
Lemma leads_needs n s : leads ts n s -> Invariants.needs graph s n.
Proof.
  destruct ts_wired as (_ & _ & Hsucc & _).
  unfold Invariants.leads, Graphlib.successors_of, Invariants.needs.
  destruct (_node2info ts !! n) as [info|] eqn:Hn; [|by intros ?%elem_of_nil].
  intros Hs. apply count_pos_elem_of. rewrite <- (Hsucc n info s Hn).
  by apply count_pos_elem_of.
Qed.

Lemma leads_path_needs x y : rtc (leads ts) x y -> rtc (Invariants.needs graph) y x.
Proof.
  induction 1 as [x|x y z Hxy _ IH]; [done|].
  eapply rtc_r; [exact IH|]. by apply leads_needs.
Qed.

(** A node of the stack leads to the top of the stack. *)
Lemma trail_reach (stack : list (string * list string)) :
  forall m its x,
    trail ts ((m, its) :: stack) ->
    x ∈ m :: List.map fst stack ->
    rtc (leads ts) x m.
Proof.
  induction stack as [|[m' its'] stack IH]; intros m its x Htrail Hx.
  - apply list_elem_of_singleton in Hx as ->. done.
  - apply elem_of_cons in Hx as [->|Hx]; [done|].
    cbn in Htrail. destruct Htrail as (_ & Hlink & Hrest).
    eapply rtc_r; [|exact Hlink]. by apply (IH m' its').
Qed.

(** The node under search is led to by the top of the stack. *)
#[local] Abbreviation enters stack node :=
  (match stack with
   | [] => True
   | (m, _) :: _ => leads ts m node
   end).

Lemma search_left_push node stack seen :
  node ∉ seen ->
  search_left ts ((node, successors_of ts node) :: stack) ({[node]} ∪ seen)
  <= search_left ts stack seen.
Proof.
  intros Hnode. unfold Invariants.search_left. cbn [List.map list_sum snd].
  destruct ts_wired as (Hnd & Hkeys & _).
  assert (Hsum : forall l : list string, NoDup l ->
    list_sum (List.map (fun n => length (successors_of ts n))
                (List.filter (fun n => negb (bool_decide (n ∈ {[node]} ∪ seen))) l))
    + (if bool_decide (node ∈ l) then length (successors_of ts node) else 0)
    = list_sum (List.map (fun n => length (successors_of ts n))
                  (List.filter (fun n => negb (bool_decide (n ∈ seen))) l))).
  { induction l as [|x l IH]; intros Hl; [done|].
    apply NoDup_cons in Hl as [Hx Hl]. specialize (IH Hl). cbn [List.filter].
    unfold list_sum in *.
    destruct (decide (x = node)) as [->|Hne].
    - rewrite (bool_decide_eq_true_2 (node ∈ {[node]} ∪ seen)) by set_solver.
      rewrite (bool_decide_eq_false_2 (node ∈ seen)) by done.
      rewrite (bool_decide_eq_true_2 (node ∈ node :: l)) by set_solver.
      rewrite (bool_decide_eq_false_2 (node ∈ l)) in IH by done.
      cbn [negb List.map foldr]. lia.
    - assert (bool_decide (node ∈ x :: l) = bool_decide (node ∈ l)) as ->
        by (apply bool_decide_ext; set_solver).
      destruct (decide (x ∈ seen)) as [Hxs|Hxs].
      + rewrite (bool_decide_eq_true_2 (x ∈ {[node]} ∪ seen)) by set_solver.
        rewrite (bool_decide_eq_true_2 (x ∈ seen)) by done.
        cbn [negb List.map foldr]. exact IH.
      + rewrite (bool_decide_eq_false_2 (x ∈ {[node]} ∪ seen)) by set_solver.
        rewrite (bool_decide_eq_false_2 (x ∈ seen)) by done.
        cbn [negb List.map foldr]. rewrite <- IH. apply eq_sym, Nat.add_assoc. }
  specialize (Hsum (_node_order ts) Hnd).
  change (list_sum (length (successors_of ts node)
                      :: List.map (fun entry : string * list string => length entry.2) stack))
    with (length (successors_of ts node)
          + list_sum (List.map (fun entry : string * list string => length entry.2) stack)).
  case_bool_decide as Hin; [lia|].
  assert (successors_of ts node = []) as Hnone.
  { unfold Graphlib.successors_of.
    destruct (_node2info ts !! node) eqn:Hl; [|done].
    exfalso. apply Hin, Hkeys. by eexists. }
  rewrite Hnone in *. cbn [length] in *. lia.
Qed.

Lemma search_left_cons n its stack seen :
  search_left ts ((n, its) :: stack) seen
  = length its + search_left ts stack seen.
Proof.
  unfold Invariants.search_left.
  change (list_sum (List.map (fun entry : string * list string => length entry.2)
                      ((n, its) :: stack)))
    with (length its
          + list_sum (List.map (fun entry : string * list string => length entry.2) stack)).
  lia.
Qed.

Lemma find_cycle_from_none : forall fuel node stack seen,
  trail ts stack -> enters stack node ->
  search_left ts stack seen < fuel ->
  exists seen',
    Graphlib._find_cycle_from fuel ts node stack seen = Ok (None, seen').
Proof.
  induction fuel as [|fuel IH]; intros node stack seen Htrail Henters Hfuel; [lia|].
  assert (Hback : forall stack seen,
            trail ts stack -> search_left ts stack seen <= fuel ->
            exists seen',
              Invariants.backtrack (Graphlib._find_cycle_from fuel ts) stack seen
              = Ok (None, seen')).
  { clear node stack seen Htrail Henters Hfuel.
    induction stack as [|[n its] stack IHs]; intros seen Htrail Hleft;
      cbn [Invariants.backtrack]; [by eexists|].
    cbn in Htrail. destruct Htrail as (Hits & Hlink & Hrest).
    destruct its as [|next its].
    - apply IHs; [done|]. rewrite search_left_cons in Hleft. lia.
    - apply IH.
      + cbn. split_and!; [|done|done].
        intros s Hs. apply Hits. by apply list_elem_of_further.
      + apply Hits. apply list_elem_of_here.
      + rewrite !search_left_cons in *. cbn [length] in Hleft. lia. }
  rewrite find_cycle_from_unfold.
  case_bool_decide as Hseen.
  - case_bool_decide as Hstack.
    + exfalso. destruct stack as [|[m its] stack]; [by apply elem_of_nil in Hstack|].
      cbn [List.map fst] in Hstack.
      pose proof (trail_reach stack m its node Htrail Hstack) as Hpath.
      apply leads_path_needs in Hpath. apply leads_needs in Henters.
      apply (graph_acyclic node). eapply tc_rtc_r; [|exact Hpath]. by apply tc_once.
    + apply Hback; [done|lia].
  - apply Hback.
    + cbn. split_and!; [done| |done]. by destruct stack as [|[m its] stack].
    + pose proof (search_left_push node stack seen Hseen). lia.
Qed.

Lemma search_left_bound seen :
  search_left ts [] seen < Graphlib.find_cycle_fuel ts.
Proof.
  unfold Invariants.search_left, Graphlib.find_cycle_fuel. cbn [List.map list_sum].
  assert (forall l : list string,
    list_sum (List.map (fun n => length (successors_of ts n))
                (List.filter (fun n => negb (bool_decide (n ∈ seen))) l))
    <= list_sum (List.map (fun n => length (successors_of ts n)) l)) as Hle.
  { induction l as [|x l IH]; [done|]. cbn [List.filter List.map].
    destruct (negb (bool_decide (x ∈ seen))); cbn [List.map];
      rewrite ?list_sum_cons_eq; lia. }
  specialize (Hle (_node_order ts)). cbn [list_sum List.map foldr]. lia.
Qed.

Lemma find_cycle_none : Graphlib._find_cycle ts = Ok None.
Proof.
  unfold Graphlib._find_cycle.
  generalize (∅ : gset string). generalize (_node_order ts) at 1.
  induction l as [|node nodes IH]; intros seen; [done|].
  case_bool_decide; [apply IH|].
  destruct (find_cycle_from_none (Graphlib.find_cycle_fuel ts) node [] seen)
    as [seen' ->]; [done|done|apply search_left_bound|].
  cbn. apply IH.
Qed.

End CycleSearch.

(** *** The sort of an acyclic graph *)

Section SorterKeys.

#[local] Abbreviation known ts x := (is_Some (Graphlib._node2info ts !! x)).

Lemma get_nodeinfo_keeps ts node x :
  known ts x \/ x = node -> known (Graphlib._get_nodeinfo ts node).2 x.
Proof.
  unfold Graphlib._get_nodeinfo.
  destruct (Graphlib._node2info ts !! node) eqn:Hn; cbn.
  - intros [Hx| ->]; [done|by eexists].
  - intros [Hx| ->].
    + destruct (decide (node = x)) as [->|Hne].
      * rewrite lookup_insert_eq. by eexists.
      * by rewrite lookup_insert_ne.
    + rewrite lookup_insert_eq. by eexists.
Qed.

Lemma set_info_keeps ts node info x :
  known ts x \/ x = node -> known (Graphlib.set_info ts node info) x.
Proof.
  cbn. intros [Hx| ->].
  - destruct (decide (node = x)) as [->|Hne].
    + rewrite lookup_insert_eq. by eexists.
    + by rewrite lookup_insert_ne.
  - rewrite lookup_insert_eq. by eexists.
Qed.

Lemma add_keeps ts node predecessors x :
  known ts x \/ x = node -> known (Graphlib.add ts node predecessors) x.
Proof.
  intros Hx. unfold Graphlib.add.
  pose proof (get_nodeinfo_keeps ts node x Hx) as Hget.
  destruct (Graphlib._get_nodeinfo ts node) as [nodeinfo ts1]. cbn [snd] in Hget.
  match goal with
  | |- context [List.fold_left _ predecessors ?start] =>
      assert (known start x) as Hstart by (apply set_info_keeps; by left);
      generalize dependent start
  end.
  induction predecessors as [|p preds IH]; intros ts0 Hts0; cbn [List.fold_left];
    [done|].
  apply IH.
  pose proof (get_nodeinfo_keeps ts0 p x (or_introl Hts0)) as Hp.
  destruct (Graphlib._get_nodeinfo ts0 p) as [pinfo ts']. cbn [snd] in Hp.
  apply set_info_keeps. by left.
Qed.

(** Every key of the graph is a node of the sorter. *)
Lemma new_keys graph item :
  item ∈ graph -> known (Graphlib.new graph) item.1.
Proof.
  unfold Graphlib.new. generalize Graphlib.empty_sorter.
  assert (Hkeep : forall rest ts x,
            known ts x ->
            known (List.fold_left
                     (fun ts item => Graphlib.add ts (fst item) (snd item)) rest ts) x).
  { induction rest as [|item' rest IH]; intros ts x Hx; cbn [List.fold_left]; [done|].
    apply IH, add_keeps. by left. }
  induction graph as [|item' graph IH]; intros ts Hitem; [by apply elem_of_nil in Hitem|].
  cbn [List.fold_left].
  apply elem_of_cons in Hitem as [->|Hitem]; [|by apply IH].
  apply Hkeep, add_keeps. by right.
Qed.

End SorterKeys.

(** On a graph without a cycle [static_order] returns: every node of the
    sorter once. *)
Lemma static_order_acyclic graph :
  Invariants.acyclic graph ->
  exists order,
    Graphlib.static_order graph = Ok order
    /\ NoDup order
    /\ forall x, x ∈ order <-> x ∈ Graphlib._node_order (Graphlib.new graph).
Proof.
  intros Hacyclic. unfold Graphlib.static_order.
  assert (exists ts1, Graphlib.prepare (Graphlib.new graph) = Ok ts1
                      /\ Graphlib._node_order ts1
                         = Graphlib._node_order (Graphlib.new graph))
    as (ts1 & Hprep & Horder).
  { unfold Graphlib.prepare.
    match goal with
    | |- context [Graphlib._find_cycle ?ts] =>
        rewrite (find_cycle_none graph ts);
        [by eexists| |done]
    end.
    apply (wired_same graph (Graphlib.new graph)); [done|apply wired_new]. }
  rewrite Hprep. cbn [mbind result_bind].
  destruct (settled_prepare graph ts1 Hprep) as [Hsettled Hwired].
  destruct (static_order_loop_total graph (S (length (Graphlib._node_order ts1)))
              [] ts1 Hwired Hacyclic)
    as (order & Hloop & Hnd & Hnodes).
  - exact Hsettled.
  - apply NoDup_nil_2.
  - cbn. lia.
  - exists order. split; [done|]. split; [done|].
    intros x. by rewrite Hnodes, Horder.
Qed.

Section SortAcyclic.

Variable set_iter : list string -> list string.
Hypothesis set_iter_elem : forall l x, x ∈ set_iter l <-> x ∈ l.

#[local] Abbreviation build_dependencies := (Engine.build_dependencies set_iter).
#[local] Abbreviation _topological_sort := (Engine._topological_sort set_iter).

Lemma build_dependencies_needs schema tables s p :
  Invariants.needs (build_dependencies schema tables) s p ->
  Invariants.references schema tables s p.
Proof.
  unfold Invariants.needs, Graphlib.deps_of. intros Hp.
  apply list_elem_of_In, List.in_concat in Hp as (l & Hl & Hp).
  apply List.in_map_iff in Hl as ([s' l'] & <- & Hitem).
  apply List.filter_In in Hitem as [Hitem Hs].
  apply bool_decide_eq_true_1 in Hs. cbn [fst snd] in *. subst s'.
  unfold Engine.build_dependencies in Hitem.
  apply List.in_map_iff in Hitem as (t & [= <- <-] & Ht).
  apply list_elem_of_In, set_iter_elem, list_elem_of_In, List.in_map_iff in Hp
    as (fk & <- & Hfk).
  apply List.filter_In in Hfk as [Hfk Hcond].
  apply andb_true_iff in Hcond as [Hsrc Htgt].
  apply bool_decide_eq_true_1 in Hsrc, Htgt.
  exists fk. split_and!; [by apply list_elem_of_In|done|done| |done].
  by apply list_elem_of_In.
Qed.

(** Where the catalog foreign keys between the extracted tables form no
    cycle, [_topological_sort] returns the extracted tables, each once,
    every referenced table before the tables that reference it, with no
    foreign key broken and no cycle reported. *)
Theorem topological_sort_acyclic schema tables :
  NoDup tables ->
  (forall x, ~ tc (Invariants.references schema tables) x x) ->
  exists insert_order,
    _topological_sort schema tables = Ok (insert_order, [], [])
    /\ insert_order ≡ₚ tables
    /\ forall fk, fk ∈ edges schema ->
         source_table fk ∈ tables -> target_table fk ∈ tables ->
         Graphlib.precedes (target_table fk) (source_table fk) insert_order.
Proof.
  intros Hnd Hfree.
  assert (Invariants.acyclic (build_dependencies schema tables)) as Hacyclic.
  { intros x Hx. apply (Hfree x).
    eapply tc_congruence with (f := fun x => x); [|exact Hx].
    intros s p. apply build_dependencies_needs. }
  destruct (static_order_acyclic _ Hacyclic) as (order & Hsort & Hndo & Hnodes).
  exists order. unfold Engine._topological_sort. rewrite Hsort.
  assert (forall x, x ∈ order <-> x ∈ tables) as Hsame.
  { intros x. rewrite Hnodes.
    destruct (wired_new (build_dependencies schema tables)) as (_ & Hkeys & _).
    rewrite Hkeys. split.
    - intros Hx. apply new_known in Hx as (item & Hitem & Hx).
      by eapply build_dependencies_nodes.
    - intros Hx.
      apply (new_keys (build_dependencies schema tables)
               (x, set_iter
                     (List.map target_table
                        (List.filter
                           (fun fk => bool_decide (source_table fk = x)
                                      && bool_decide (target_table fk ∈ tables))
                           (edges schema))))).
      unfold Engine.build_dependencies.
      apply list_elem_of_In, List.in_map_iff. exists x.
      split; [done|by apply list_elem_of_In]. }
  split; [done|]. split; [by apply NoDup_Permutation|].
  intros fk Hfk Hs Ht.
  destruct (build_dependencies_edge set_iter set_iter_elem schema tables fk Hfk Hs Ht)
    as (l & Hl & Htl).
  apply (respects_precedes (build_dependencies schema tables)).
  - by apply static_order_respects.
  - by eapply deps_of_intro.
  - by apply Hsame.
Qed.

End SortAcyclic.

Lemma topological_sort_acyclic_witness :
  exists insert_order,
    Engine._topological_sort Engine.insertion_order Examples.blog_schema
      ["comments"; "posts"] = Ok (insert_order, [], [])
    /\ insert_order ≡ₚ ["comments"; "posts"].
Proof.
  destruct (topological_sort_acyclic Engine.insertion_order insertion_order_elem
              Examples.blog_schema ["comments"; "posts"])
    as (order & Hsort & Hperm & _).
  - apply NoDup_cons. split; [|apply NoDup_singleton].
    intros Hin. apply list_elem_of_singleton in Hin. discriminate.
  - assert (Hstep : forall s p,
              Invariants.references Examples.blog_schema ["comments"; "posts"] s p ->
              s = "posts" /\ p = "comments").
    { intros s p (fk & Hfk & <- & <- & _). vm_compute in Hfk.
      by apply list_elem_of_singleton in Hfk as ->. }
    intros x Hx. inversion Hx as [? ? Hr|? y ? Hr Hrest]; subst.
    + destruct (Hstep _ _ Hr) as [-> [=]].
    + destruct (Hstep _ _ Hr) as [-> ->].
      inversion Hrest as [? ? Hr'|? z ? Hr' _]; subst;
        by destruct (Hstep _ _ Hr') as [[=] _].
  - by exists order.
Defined.
